(** * Open Adventure (TypeScript port): object model, travel evaluator,
      generator, save validation.

    A shallow embedding of the engine's sources into Rocq.  JavaScript
    numbers that hold ids, counters and table indices are mathematical
    integers ([Z]); arrays are lists read through [zlookup]; the
    exceptions and exits of the source are the [fault]s of a small error
    monad.  Each definition names the source function it follows. *)

From Stdlib Require Import ZArith Lia List String Ascii.
From stdpp Require Import base tactics option list list_numbers strings pretty.

Local Open Scope Z_scope.

(** ** types.ts: constants *)

Definition LCG_A : Z := 1093.
Definition LCG_C : Z := 221587.
Definition LCG_M : Z := 1048576.

Definition GAMELIMIT : Z := 330.
Definition WARNTIME : Z := 30.
Definition FLASHTIME : Z := 50.
Definition WORD_NOT_FOUND : Z := -1.
Definition WORD_EMPTY : Z := 0.
Definition CARRIED : Z := -1.

Definition STATE_NOTFOUND : Z := -1.
Definition STATE_FOUND : Z := 0.
Definition STATE_IN_CAVITY : Z := 1.

Definition IS_FIXED : Z := -1.
Definition IS_FREE : Z := 0.

Definition SAVE_VERSION : Z := 31.
Definition ADVENT_MAGIC : string := "open-adventure" ++ String (ascii_of_nat 10) EmptyString.
Definition ENDIAN_MAGIC : Z := 2317.

Definition COND_LIT : Z := 0.
Definition COND_OILY : Z := 1.
Definition COND_FLUID : Z := 2.
Definition COND_NOARRR : Z := 3.
Definition COND_NOBACK : Z := 4.
Definition COND_ABOVE : Z := 5.
Definition COND_DEEP : Z := 6.
Definition COND_FOREST : Z := 7.
Definition COND_FORCED : Z := 8.

(** ** types.ts: enumerations *)

Module BugType.
Inductive t : Type :=
  | SPECIAL_TRAVEL_500_GT_L_GT_300_EXCEEDS_GOTO_LIST
  | VOCABULARY_TYPE_N_OVER_1000_NOT_BETWEEN_0_AND_3
  | INTRANSITIVE_ACTION_VERB_EXCEEDS_GOTO_LIST
  | TRANSITIVE_ACTION_VERB_EXCEEDS_GOTO_LIST
  | CONDITIONAL_TRAVEL_ENTRY_WITH_NO_ALTERATION
  | LOCATION_HAS_NO_TRAVEL_ENTRIES
  | HINT_NUMBER_EXCEEDS_GOTO_LIST
  | SPEECHPART_NOT_TRANSITIVE_OR_INTRANSITIVE_OR_UNKNOWN
  | ACTION_RETURNED_PHASE_CODE_BEYOND_END_OF_SWITCH.

Definition code (b : t) : Z :=
  match b with
  | SPECIAL_TRAVEL_500_GT_L_GT_300_EXCEEDS_GOTO_LIST => 0
  | VOCABULARY_TYPE_N_OVER_1000_NOT_BETWEEN_0_AND_3 => 1
  | INTRANSITIVE_ACTION_VERB_EXCEEDS_GOTO_LIST => 2
  | TRANSITIVE_ACTION_VERB_EXCEEDS_GOTO_LIST => 3
  | CONDITIONAL_TRAVEL_ENTRY_WITH_NO_ALTERATION => 4
  | LOCATION_HAS_NO_TRAVEL_ENTRIES => 5
  | HINT_NUMBER_EXCEEDS_GOTO_LIST => 6
  | SPEECHPART_NOT_TRANSITIVE_OR_INTRANSITIVE_OR_UNKNOWN => 7
  | ACTION_RETURNED_PHASE_CODE_BEYOND_END_OF_SWITCH => 8
  end.
End BugType.

Module ScoreBonus.
Definition none : Z := 0.
Definition splatter : Z := 1.
Definition defeat : Z := 2.
Definition victory : Z := 3.
End ScoreBonus.

Module PhaseCode.
Inductive t : Type :=
  | GO_TERMINATE | GO_MOVE | GO_TOP | GO_CLEAROBJ
  | GO_CHECKHINT | GO_WORD2 | GO_UNKNOWN | GO_DWARFWAKE.
End PhaseCode.

(** The members of [SpeakType], [CondType] and [DestType] are compared with
    [<] and stored in number-typed table fields, so they stay numbers. *)
Module SpeakType.
Definition touch : Z := 0.
Definition look : Z := 1.
Definition hear : Z := 2.
Definition study : Z := 3.
Definition change : Z := 4.
End SpeakType.

Module CondType.
Definition cond_goto : Z := 0.
Definition cond_pct : Z := 1.
Definition cond_carry : Z := 2.
Definition cond_with : Z := 3.
Definition cond_not : Z := 4.
End CondType.

Module DestType.
Definition dest_goto : Z := 0.
Definition dest_special : Z := 1.
Definition dest_speak : Z := 2.
End DestType.

(** ** types.ts: table and state records *)

Module ObjectData.
Record t : Type := mk {
  inventory : option string;
  plac : Z;
  fixd : Z;
  isTreasure : bool
}.
End ObjectData.

Module ActionData.
Record t : Type := mk {
  message : option string;
  noaction : bool
}.
End ActionData.

Module TravelOp.
Record t : Type := mk {
  motion : Z;
  condtype : Z;
  condarg1 : Z;
  condarg2 : Z;
  desttype : Z;
  destval : Z;
  nodwarves : bool;
  stop : bool
}.
End TravelOp.

Module LocationState.
Record t : Type := mk { abbrev : Z; atloc : Z }.
Definition set_abbrev (v : Z) (l : t) : t := {| abbrev := v; atloc := atloc l |}.
Definition set_atloc (v : Z) (l : t) : t := {| abbrev := abbrev l; atloc := v |}.
End LocationState.

Module DwarfState.
Record t : Type := mk { seen : Z; loc : Z; oldloc : Z }.
End DwarfState.

Module ObjectState.
Record t : Type := mk { fixed : Z; prop : Z; place : Z }.
Definition set_fixed (v : Z) (o : t) : t := {| fixed := v; prop := prop o; place := place o |}.
Definition set_prop (v : Z) (o : t) : t := {| fixed := fixed o; prop := v; place := place o |}.
Definition set_place (v : Z) (o : t) : t := {| fixed := fixed o; prop := prop o; place := v |}.
End ObjectState.

Module HintState.
Record t : Type := mk { used : bool; lc : Z }.
End HintState.

Record GameState : Type := mkGameState {
  lcgX : Z;
  abbnum : Z;
  bonus : Z;
  chloc : Z;
  chloc2 : Z;
  clock1 : Z;
  clock2 : Z;
  clshnt : bool;
  closed : bool;
  closng : bool;
  lmwarn : bool;
  novice : bool;
  panic : bool;
  wzdark : bool;
  blooded : bool;
  conds : Z;
  detail : Z;
  dflag : Z;
  dkill : Z;
  dtotal : Z;
  foobar : Z;
  holdng : Z;
  igo : Z;
  iwest : Z;
  knfloc : Z;
  limit : Z;
  loc : Z;
  newloc : Z;
  numdie : Z;
  oldloc : Z;
  oldlc2 : Z;
  oldobj : Z;
  saved : Z;
  tally : Z;
  thresh : Z;
  seenbigwords : bool;
  trnluz : Z;
  turns : Z;
  zzword : string;
  locs : list LocationState.t;
  dwarves : list DwarfState.t;
  objects : list ObjectState.t;
  hints : list HintState.t;
  link : list Z
}.

Definition set_lcgX (v : Z) (g : GameState) : GameState :=
  {| lcgX := v; abbnum := abbnum g; bonus := bonus g; chloc := chloc g;
     chloc2 := chloc2 g; clock1 := clock1 g; clock2 := clock2 g; clshnt := clshnt g;
     closed := closed g; closng := closng g; lmwarn := lmwarn g; novice := novice g;
     panic := panic g; wzdark := wzdark g; blooded := blooded g; conds := conds g;
     detail := detail g; dflag := dflag g; dkill := dkill g; dtotal := dtotal g;
     foobar := foobar g; holdng := holdng g; igo := igo g; iwest := iwest g;
     knfloc := knfloc g; limit := limit g; loc := loc g; newloc := newloc g;
     numdie := numdie g; oldloc := oldloc g; oldlc2 := oldlc2 g; oldobj := oldobj g;
     saved := saved g; tally := tally g; thresh := thresh g;
     seenbigwords := seenbigwords g; trnluz := trnluz g; turns := turns g;
     zzword := zzword g; locs := locs g; dwarves := dwarves g; objects := objects g;
     hints := hints g; link := link g |}.

Definition set_holdng (v : Z) (g : GameState) : GameState :=
  {| lcgX := lcgX g; abbnum := abbnum g; bonus := bonus g; chloc := chloc g;
     chloc2 := chloc2 g; clock1 := clock1 g; clock2 := clock2 g; clshnt := clshnt g;
     closed := closed g; closng := closng g; lmwarn := lmwarn g; novice := novice g;
     panic := panic g; wzdark := wzdark g; blooded := blooded g; conds := conds g;
     detail := detail g; dflag := dflag g; dkill := dkill g; dtotal := dtotal g;
     foobar := foobar g; holdng := v; igo := igo g; iwest := iwest g; knfloc := knfloc g;
     limit := limit g; loc := loc g; newloc := newloc g; numdie := numdie g;
     oldloc := oldloc g; oldlc2 := oldlc2 g; oldobj := oldobj g; saved := saved g;
     tally := tally g; thresh := thresh g; seenbigwords := seenbigwords g;
     trnluz := trnluz g; turns := turns g; zzword := zzword g; locs := locs g;
     dwarves := dwarves g; objects := objects g; hints := hints g; link := link g |}.

Definition set_newloc (v : Z) (g : GameState) : GameState :=
  {| lcgX := lcgX g; abbnum := abbnum g; bonus := bonus g; chloc := chloc g;
     chloc2 := chloc2 g; clock1 := clock1 g; clock2 := clock2 g; clshnt := clshnt g;
     closed := closed g; closng := closng g; lmwarn := lmwarn g; novice := novice g;
     panic := panic g; wzdark := wzdark g; blooded := blooded g; conds := conds g;
     detail := detail g; dflag := dflag g; dkill := dkill g; dtotal := dtotal g;
     foobar := foobar g; holdng := holdng g; igo := igo g; iwest := iwest g;
     knfloc := knfloc g; limit := limit g; loc := loc g; newloc := v; numdie := numdie g;
     oldloc := oldloc g; oldlc2 := oldlc2 g; oldobj := oldobj g; saved := saved g;
     tally := tally g; thresh := thresh g; seenbigwords := seenbigwords g;
     trnluz := trnluz g; turns := turns g; zzword := zzword g; locs := locs g;
     dwarves := dwarves g; objects := objects g; hints := hints g; link := link g |}.

Definition set_oldloc (v : Z) (g : GameState) : GameState :=
  {| lcgX := lcgX g; abbnum := abbnum g; bonus := bonus g; chloc := chloc g;
     chloc2 := chloc2 g; clock1 := clock1 g; clock2 := clock2 g; clshnt := clshnt g;
     closed := closed g; closng := closng g; lmwarn := lmwarn g; novice := novice g;
     panic := panic g; wzdark := wzdark g; blooded := blooded g; conds := conds g;
     detail := detail g; dflag := dflag g; dkill := dkill g; dtotal := dtotal g;
     foobar := foobar g; holdng := holdng g; igo := igo g; iwest := iwest g;
     knfloc := knfloc g; limit := limit g; loc := loc g; newloc := newloc g;
     numdie := numdie g; oldloc := v; oldlc2 := oldlc2 g; oldobj := oldobj g;
     saved := saved g; tally := tally g; thresh := thresh g;
     seenbigwords := seenbigwords g; trnluz := trnluz g; turns := turns g;
     zzword := zzword g; locs := locs g; dwarves := dwarves g; objects := objects g;
     hints := hints g; link := link g |}.

Definition set_oldlc2 (v : Z) (g : GameState) : GameState :=
  {| lcgX := lcgX g; abbnum := abbnum g; bonus := bonus g; chloc := chloc g;
     chloc2 := chloc2 g; clock1 := clock1 g; clock2 := clock2 g; clshnt := clshnt g;
     closed := closed g; closng := closng g; lmwarn := lmwarn g; novice := novice g;
     panic := panic g; wzdark := wzdark g; blooded := blooded g; conds := conds g;
     detail := detail g; dflag := dflag g; dkill := dkill g; dtotal := dtotal g;
     foobar := foobar g; holdng := holdng g; igo := igo g; iwest := iwest g;
     knfloc := knfloc g; limit := limit g; loc := loc g; newloc := newloc g;
     numdie := numdie g; oldloc := oldloc g; oldlc2 := v; oldobj := oldobj g;
     saved := saved g; tally := tally g; thresh := thresh g;
     seenbigwords := seenbigwords g; trnluz := trnluz g; turns := turns g;
     zzword := zzword g; locs := locs g; dwarves := dwarves g; objects := objects g;
     hints := hints g; link := link g |}.

Definition set_foobar (v : Z) (g : GameState) : GameState :=
  {| lcgX := lcgX g; abbnum := abbnum g; bonus := bonus g; chloc := chloc g;
     chloc2 := chloc2 g; clock1 := clock1 g; clock2 := clock2 g; clshnt := clshnt g;
     closed := closed g; closng := closng g; lmwarn := lmwarn g; novice := novice g;
     panic := panic g; wzdark := wzdark g; blooded := blooded g; conds := conds g;
     detail := detail g; dflag := dflag g; dkill := dkill g; dtotal := dtotal g;
     foobar := v; holdng := holdng g; igo := igo g; iwest := iwest g; knfloc := knfloc g;
     limit := limit g; loc := loc g; newloc := newloc g; numdie := numdie g;
     oldloc := oldloc g; oldlc2 := oldlc2 g; oldobj := oldobj g; saved := saved g;
     tally := tally g; thresh := thresh g; seenbigwords := seenbigwords g;
     trnluz := trnluz g; turns := turns g; zzword := zzword g; locs := locs g;
     dwarves := dwarves g; objects := objects g; hints := hints g; link := link g |}.

Definition set_detail (v : Z) (g : GameState) : GameState :=
  {| lcgX := lcgX g; abbnum := abbnum g; bonus := bonus g; chloc := chloc g;
     chloc2 := chloc2 g; clock1 := clock1 g; clock2 := clock2 g; clshnt := clshnt g;
     closed := closed g; closng := closng g; lmwarn := lmwarn g; novice := novice g;
     panic := panic g; wzdark := wzdark g; blooded := blooded g; conds := conds g;
     detail := v; dflag := dflag g; dkill := dkill g; dtotal := dtotal g;
     foobar := foobar g; holdng := holdng g; igo := igo g; iwest := iwest g;
     knfloc := knfloc g; limit := limit g; loc := loc g; newloc := newloc g;
     numdie := numdie g; oldloc := oldloc g; oldlc2 := oldlc2 g; oldobj := oldobj g;
     saved := saved g; tally := tally g; thresh := thresh g;
     seenbigwords := seenbigwords g; trnluz := trnluz g; turns := turns g;
     zzword := zzword g; locs := locs g; dwarves := dwarves g; objects := objects g;
     hints := hints g; link := link g |}.

Definition set_wzdark (v : bool) (g : GameState) : GameState :=
  {| lcgX := lcgX g; abbnum := abbnum g; bonus := bonus g; chloc := chloc g;
     chloc2 := chloc2 g; clock1 := clock1 g; clock2 := clock2 g; clshnt := clshnt g;
     closed := closed g; closng := closng g; lmwarn := lmwarn g; novice := novice g;
     panic := panic g; wzdark := v; blooded := blooded g; conds := conds g;
     detail := detail g; dflag := dflag g; dkill := dkill g; dtotal := dtotal g;
     foobar := foobar g; holdng := holdng g; igo := igo g; iwest := iwest g;
     knfloc := knfloc g; limit := limit g; loc := loc g; newloc := newloc g;
     numdie := numdie g; oldloc := oldloc g; oldlc2 := oldlc2 g; oldobj := oldobj g;
     saved := saved g; tally := tally g; thresh := thresh g;
     seenbigwords := seenbigwords g; trnluz := trnluz g; turns := turns g;
     zzword := zzword g; locs := locs g; dwarves := dwarves g; objects := objects g;
     hints := hints g; link := link g |}.

Definition set_dflag (v : Z) (g : GameState) : GameState :=
  {| lcgX := lcgX g; abbnum := abbnum g; bonus := bonus g; chloc := chloc g;
     chloc2 := chloc2 g; clock1 := clock1 g; clock2 := clock2 g; clshnt := clshnt g;
     closed := closed g; closng := closng g; lmwarn := lmwarn g; novice := novice g;
     panic := panic g; wzdark := wzdark g; blooded := blooded g; conds := conds g;
     detail := detail g; dflag := v; dkill := dkill g; dtotal := dtotal g;
     foobar := foobar g; holdng := holdng g; igo := igo g; iwest := iwest g;
     knfloc := knfloc g; limit := limit g; loc := loc g; newloc := newloc g;
     numdie := numdie g; oldloc := oldloc g; oldlc2 := oldlc2 g; oldobj := oldobj g;
     saved := saved g; tally := tally g; thresh := thresh g;
     seenbigwords := seenbigwords g; trnluz := trnluz g; turns := turns g;
     zzword := zzword g; locs := locs g; dwarves := dwarves g; objects := objects g;
     hints := hints g; link := link g |}.

Definition set_locs (v : list LocationState.t) (g : GameState) : GameState :=
  {| lcgX := lcgX g; abbnum := abbnum g; bonus := bonus g; chloc := chloc g;
     chloc2 := chloc2 g; clock1 := clock1 g; clock2 := clock2 g; clshnt := clshnt g;
     closed := closed g; closng := closng g; lmwarn := lmwarn g; novice := novice g;
     panic := panic g; wzdark := wzdark g; blooded := blooded g; conds := conds g;
     detail := detail g; dflag := dflag g; dkill := dkill g; dtotal := dtotal g;
     foobar := foobar g; holdng := holdng g; igo := igo g; iwest := iwest g;
     knfloc := knfloc g; limit := limit g; loc := loc g; newloc := newloc g;
     numdie := numdie g; oldloc := oldloc g; oldlc2 := oldlc2 g; oldobj := oldobj g;
     saved := saved g; tally := tally g; thresh := thresh g;
     seenbigwords := seenbigwords g; trnluz := trnluz g; turns := turns g;
     zzword := zzword g; locs := v; dwarves := dwarves g; objects := objects g;
     hints := hints g; link := link g |}.

Definition set_objects (v : list ObjectState.t) (g : GameState) : GameState :=
  {| lcgX := lcgX g; abbnum := abbnum g; bonus := bonus g; chloc := chloc g;
     chloc2 := chloc2 g; clock1 := clock1 g; clock2 := clock2 g; clshnt := clshnt g;
     closed := closed g; closng := closng g; lmwarn := lmwarn g; novice := novice g;
     panic := panic g; wzdark := wzdark g; blooded := blooded g; conds := conds g;
     detail := detail g; dflag := dflag g; dkill := dkill g; dtotal := dtotal g;
     foobar := foobar g; holdng := holdng g; igo := igo g; iwest := iwest g;
     knfloc := knfloc g; limit := limit g; loc := loc g; newloc := newloc g;
     numdie := numdie g; oldloc := oldloc g; oldlc2 := oldlc2 g; oldobj := oldobj g;
     saved := saved g; tally := tally g; thresh := thresh g;
     seenbigwords := seenbigwords g; trnluz := trnluz g; turns := turns g;
     zzword := zzword g; locs := locs g; dwarves := dwarves g; objects := v;
     hints := hints g; link := link g |}.

Definition set_link (v : list Z) (g : GameState) : GameState :=
  {| lcgX := lcgX g; abbnum := abbnum g; bonus := bonus g; chloc := chloc g;
     chloc2 := chloc2 g; clock1 := clock1 g; clock2 := clock2 g; clshnt := clshnt g;
     closed := closed g; closng := closng g; lmwarn := lmwarn g; novice := novice g;
     panic := panic g; wzdark := wzdark g; blooded := blooded g; conds := conds g;
     detail := detail g; dflag := dflag g; dkill := dkill g; dtotal := dtotal g;
     foobar := foobar g; holdng := holdng g; igo := igo g; iwest := iwest g;
     knfloc := knfloc g; limit := limit g; loc := loc g; newloc := newloc g;
     numdie := numdie g; oldloc := oldloc g; oldlc2 := oldlc2 g; oldobj := oldobj g;
     saved := saved g; tally := tally g; thresh := thresh g;
     seenbigwords := seenbigwords g; trnluz := trnluz g; turns := turns g;
     zzword := zzword g; locs := locs g; dwarves := dwarves g; objects := objects g;
     hints := hints g; link := v |}.

Definition set_loc (v : Z) (g : GameState) : GameState :=
  {| lcgX := lcgX g; abbnum := abbnum g; bonus := bonus g; chloc := chloc g;
     chloc2 := chloc2 g; clock1 := clock1 g; clock2 := clock2 g; clshnt := clshnt g;
     closed := closed g; closng := closng g; lmwarn := lmwarn g; novice := novice g;
     panic := panic g; wzdark := wzdark g; blooded := blooded g; conds := conds g;
     detail := detail g; dflag := dflag g; dkill := dkill g; dtotal := dtotal g;
     foobar := foobar g; holdng := holdng g; igo := igo g; iwest := iwest g;
     knfloc := knfloc g; limit := limit g; loc := v; newloc := newloc g;
     numdie := numdie g; oldloc := oldloc g; oldlc2 := oldlc2 g; oldobj := oldobj g;
     saved := saved g; tally := tally g; thresh := thresh g;
     seenbigwords := seenbigwords g; trnluz := trnluz g; turns := turns g;
     zzword := zzword g; locs := locs g; dwarves := dwarves g; objects := objects g;
     hints := hints g; link := link g |}.

Definition set_closed (v : bool) (g : GameState) : GameState :=
  {| lcgX := lcgX g; abbnum := abbnum g; bonus := bonus g; chloc := chloc g;
     chloc2 := chloc2 g; clock1 := clock1 g; clock2 := clock2 g; clshnt := clshnt g;
     closed := v; closng := closng g; lmwarn := lmwarn g; novice := novice g;
     panic := panic g; wzdark := wzdark g; blooded := blooded g; conds := conds g;
     detail := detail g; dflag := dflag g; dkill := dkill g; dtotal := dtotal g;
     foobar := foobar g; holdng := holdng g; igo := igo g; iwest := iwest g;
     knfloc := knfloc g; limit := limit g; loc := loc g; newloc := newloc g;
     numdie := numdie g; oldloc := oldloc g; oldlc2 := oldlc2 g; oldobj := oldobj g;
     saved := saved g; tally := tally g; thresh := thresh g;
     seenbigwords := seenbigwords g; trnluz := trnluz g; turns := turns g;
     zzword := zzword g; locs := locs g; dwarves := dwarves g; objects := objects g;
     hints := hints g; link := link g |}.

Definition set_seenbigwords (v : bool) (g : GameState) : GameState :=
  {| lcgX := lcgX g; abbnum := abbnum g; bonus := bonus g; chloc := chloc g;
     chloc2 := chloc2 g; clock1 := clock1 g; clock2 := clock2 g; clshnt := clshnt g;
     closed := closed g; closng := closng g; lmwarn := lmwarn g; novice := novice g;
     panic := panic g; wzdark := wzdark g; blooded := blooded g; conds := conds g;
     detail := detail g; dflag := dflag g; dkill := dkill g; dtotal := dtotal g;
     foobar := foobar g; holdng := holdng g; igo := igo g; iwest := iwest g;
     knfloc := knfloc g; limit := limit g; loc := loc g; newloc := newloc g;
     numdie := numdie g; oldloc := oldloc g; oldlc2 := oldlc2 g; oldobj := oldobj g;
     saved := saved g; tally := tally g; thresh := thresh g; seenbigwords := v;
     trnluz := trnluz g; turns := turns g; zzword := zzword g; locs := locs g;
     dwarves := dwarves g; objects := objects g; hints := hints g; link := link g |}.

Definition set_abbnum (v : Z) (g : GameState) : GameState :=
  {| lcgX := lcgX g; abbnum := v; bonus := bonus g; chloc := chloc g; chloc2 := chloc2 g;
     clock1 := clock1 g; clock2 := clock2 g; clshnt := clshnt g; closed := closed g;
     closng := closng g; lmwarn := lmwarn g; novice := novice g; panic := panic g;
     wzdark := wzdark g; blooded := blooded g; conds := conds g; detail := detail g;
     dflag := dflag g; dkill := dkill g; dtotal := dtotal g; foobar := foobar g;
     holdng := holdng g; igo := igo g; iwest := iwest g; knfloc := knfloc g;
     limit := limit g; loc := loc g; newloc := newloc g; numdie := numdie g;
     oldloc := oldloc g; oldlc2 := oldlc2 g; oldobj := oldobj g; saved := saved g;
     tally := tally g; thresh := thresh g; seenbigwords := seenbigwords g;
     trnluz := trnluz g; turns := turns g; zzword := zzword g; locs := locs g;
     dwarves := dwarves g; objects := objects g; hints := hints g; link := link g |}.

(** The fields of [Settings] that the engine reads; the log sink and the
    script cursor belong to the console adapter. *)
Module Settings.
Record t : Type := mk { oldstyle : bool; prompt : bool; debug : Z }.
End Settings.

(** init.ts: the default settings. *)
Definition createSettings : Settings.t :=
  {| Settings.oldstyle := false; Settings.prompt := true; Settings.debug := 0 |}.

Module SaveFile.
Record t : Type := mk {
  magic : string;
  version : Z;
  canary : Z;
  game : GameState
}.
End SaveFile.

(** ** dungeon.ts: the generated tables

    The engine imports its story tables from a module generated out of the
    story file (dungeon.generated.ts), which is not among the sources.  The
    generator numbers the members of each enumeration by their position in
    the story file, so the ids of one enumeration are pairwise distinct.
    The tables and the ids the engine names are parameters of the
    development: one class per exported namespace. *)

Module Dungeon.
Class t : Type := mk {
  NLOCATIONS : Z;
  NOBJECTS : Z;
  NHINTS : Z;
  NDWARVES : Z;
  NDEATHS : Z;
  MAX_STATE : Z;
  objects : list ObjectData.t;
  actions : list ActionData.t;
  travel : list TravelOp.t;
  tkey : list Z;
  conditions : list Z
}.
End Dungeon.

Abbreviation NLOCATIONS := Dungeon.NLOCATIONS.
Abbreviation NOBJECTS := Dungeon.NOBJECTS.
Abbreviation NHINTS := Dungeon.NHINTS.
Abbreviation NDWARVES := Dungeon.NDWARVES.
Abbreviation NDEATHS := Dungeon.NDEATHS.
Abbreviation MAX_STATE := Dungeon.MAX_STATE.
Abbreviation travel := Dungeon.travel.
Abbreviation tkey := Dungeon.tkey.
Abbreviation conditions := Dungeon.conditions.

Module Location.
(** Modelled from the spec: the generated [Location] enumeration is not
    among the sources; id 0 is reserved as "none/nowhere" throughout, and
    the generator emits travel entry 0 for LOC_NOWHERE at index 0. *)
Definition LOC_NOWHERE : Z := 0.
Class ids : Type := mk {
  LOC_START : Z; LOC_PLOVER : Z; LOC_ALCOVE : Z; LOC_GRATE : Z;
  LOC_MAZEEND12 : Z; LOC_DEADEND13 : Z
}.
End Location.

Module Obj.
Class ids : Type := mk {
  BIRD : Z; SNAKE : Z; DRAGON : Z; TROLL : Z; TROLL2 : Z; DWARF : Z;
  FOOD : Z; BEAR : Z; AXE : Z; OGRE : Z; EGGS : Z; EMERALD : Z; CHASM : Z
}.
(** Members of one generated enumeration have different ids. *)
Definition distinct `{ids} : Prop :=
  NoDup [BIRD; SNAKE; DRAGON; TROLL; TROLL2; DWARF; FOOD; BEAR; AXE; OGRE;
         EGGS; EMERALD; CHASM].
End Obj.

Module Motion.
Class ids : Type := mk {
  NUL : Z; HERE : Z; BACK : Z; LOOK : Z; CAVE : Z;
  EAST : Z; WEST : Z; SOUTH : Z; NORTH : Z; NE : Z; NW : Z; SW : Z; SE : Z;
  UP : Z; DOWN : Z; FORWARD : Z; LEFT : Z; RIGHT : Z; OUTSIDE : Z;
  INSIDE : Z; XYZZY : Z; PLUGH : Z; CRAWL : Z
}.
Definition distinct `{ids} : Prop :=
  NoDup [NUL; HERE; BACK; LOOK; CAVE; EAST; WEST; SOUTH; NORTH; NE; NW; SW;
         SE; UP; DOWN; FORWARD; LEFT; RIGHT; OUTSIDE; INSIDE; XYZZY; PLUGH;
         CRAWL].
End Motion.

Module Action.
Class ids : Type := mk { FEE : Z; FIE : Z; FOE : Z; FOO : Z; FUM : Z }.
(** The five magic words are different actions, and none of them is
    action 0, which [WORD_EMPTY] stands for in the tracking counter. *)
Definition distinct `{ids} : Prop := NoDup [0; FEE; FIE; FOE; FOO; FUM].
End Action.

Module Msg.
Class ids : Type := mk {
  TWIST_TURN : Z; FORGOT_PATH : Z; NOT_CONNECTED : Z; NO_MORE_DETAIL : Z;
  FOLLOW_STREAM : Z; NEED_DETAIL : Z; BAD_DIRECTION : Z; UNSURE_FACING : Z;
  NO_INOUT_HERE : Z; NOTHING_HAPPENS : Z; WHICH_WAY : Z; CANT_APPLY : Z;
  MUST_DROP : Z; BIRD_PINING : Z; RIDICULOUS_ATTEMPT : Z; NOTHING_EDIBLE : Z;
  BIRD_DEVOURED : Z; TROLL_VICES : Z; REALLY_MAD : Z; OGRE_FULL : Z;
  AM_GAME : Z; OK_MAN : Z; START_OVER : Z; WELL_POINTLESS : Z; BAD_SAVE : Z;
  VERSION_SKEW : Z; SAVE_TAMPERING : Z
}.
Definition distinct `{ids} : Prop :=
  NoDup [TWIST_TURN; FORGOT_PATH; NOT_CONNECTED; NO_MORE_DETAIL;
         FOLLOW_STREAM; NEED_DETAIL; BAD_DIRECTION; UNSURE_FACING;
         NO_INOUT_HERE; NOTHING_HAPPENS; WHICH_WAY; CANT_APPLY; MUST_DROP;
         BIRD_PINING; RIDICULOUS_ATTEMPT; NOTHING_EDIBLE; BIRD_DEVOURED;
         TROLL_VICES; REALLY_MAD; OGRE_FULL; AM_GAME; OK_MAN; START_OVER;
         WELL_POINTLESS; BAD_SAVE; VERSION_SKEW; SAVE_TAMPERING].
End Msg.

Module ObjState.
Class ids : Type := mk {
  TROLL_UNPAID : Z; TROLL_PAIDONCE : Z; TROLL_GONE : Z; BRIDGE_WRECKED : Z;
  BEAR_DEAD : Z; UNTAMED_BEAR : Z; SITTING_BEAR : Z; DRAGON_BARS : Z;
  AXE_HERE : Z; EGGS_HERE : Z; EGGS_VANISHED : Z; EGGS_DONE : Z
}.
End ObjState.

(** ** Arrays and faults

    [arr[i]] in the source is [zlookup arr i]: [None] stands for the
    [undefined] that JavaScript gives outside the bounds. *)

Definition zlookup {A : Type} (l : list A) (i : Z) : option A :=
  if decide (0 ≤ i) then l !! Z.to_nat i else None.

Definition zinsert {A : Type} (i : Z) (x : A) (l : list A) : list A :=
  <[Z.to_nat i := x]> l.

(** How a call can end other than by returning.
    - [TypeError]: a field is read or written on [undefined]
      ([game.objects[i]!.place] with [i] outside the array).
    - [ArrayBounds]: a number array is read outside its bounds where the
      source asserts the value with [!], or written outside them (which
      would grow the array); the embedding stops there.
    - [Diverges]: a loop ran longer than the table it walks.
    - [BugFault]: [bug()] threw; the session aborts.
    - [ProcessExit]: [process.exit(code)]. *)
Inductive fault : Type :=
  | TypeError
  | ArrayBounds
  | Diverges
  | BugFault (b : BugType.t)
  | ProcessExit (code : Z).

Inductive result (A : Type) : Type :=
  | Ok (a : A)
  | Fail (f : fault).
Arguments Ok {A} a.
Arguments Fail {A} f.

#[global] Instance result_ret : MRet result := λ A a, Ok a.
#[global] Instance result_bind : MBind result := λ A B f m,
  match m with
  | Ok a => f a
  | Fail e => Fail e
  end.

Definition field {A : Type} (l : list A) (i : Z) : result A :=
  match zlookup l i with
  | Some x => Ok x
  | None => Fail TypeError
  end.

Definition number {A : Type} (l : list A) (i : Z) : result A :=
  match zlookup l i with
  | Some x => Ok x
  | None => Fail ArrayBounds
  end.

Definition store {A : Type} (f : fault) (l : list A) (i : Z) (x : A) : result (list A) :=
  match zlookup l i with
  | Some _ => Ok (zinsert i x l)
  | None => Fail f
  end.

(** What the text sink receives, at the level of the speaking call. *)
Inductive event : Type :=
  | Rspeak (msg : Z) (args : list Z)
  | Speak (msg : option string)
  | Pspeak (obj mode : Z) (blank : bool) (skip : Z)
  | DebugRandom (x : Z).

(** Code that speaks: a state over [GameState], a log of [event]s and the
    faults.  A fault keeps the state and the log reached so far. *)
Inductive outcome (A : Type) : Type :=
  | Done (a : A) (g : GameState) (out : list event)
  | Abort (f : fault) (g : GameState) (out : list event).
Arguments Done {A} a g out.
Arguments Abort {A} f g out.

Definition M (A : Type) : Type := GameState → outcome A.

#[global] Instance M_ret : MRet M := λ A a g, Done a g [].
#[global] Instance M_bind : MBind M := λ A B f m g,
  match m g with
  | Abort e g1 o1 => Abort e g1 o1
  | Done a g1 o1 =>
      match f a g1 with
      | Done b g2 o2 => Done b g2 (o1 ++ o2)
      | Abort e g2 o2 => Abort e g2 (o1 ++ o2)
      end
  end.

Definition gets {A : Type} (f : GameState → A) : M A := λ g, Done (f g) g [].
Definition modify (f : GameState → GameState) : M unit := λ g, Done () (f g) [].
Definition emit (e : event) : M unit := λ g, Done () g [e].
Definition throw {A : Type} (f : fault) : M A := λ g, Abort f g [].
Definition lift {A : Type} (r : result A) : M A := λ g,
  match r with
  | Ok a => Done a g []
  | Fail f => Abort f g []
  end.
Definition update (f : GameState → result GameState) : M unit := λ g,
  match f g with
  | Ok g' => Done () g' []
  | Fail e => Abort e g []
  end.

(** ** types.ts: predicates (the C macros) *)

Definition PROP_STASHIFY (n : Z) : Z := -1 - n.

Definition PROP_IS_INVALID (val maxState : Z) : bool :=
  bool_decide (val < - maxState - 1) || bool_decide (val > maxState).

(** The bit operators work on 32-bit signed integers. *)
Definition to_int32 (z : Z) : Z := (z + 2 ^ 31) `mod` 2 ^ 32 - 2 ^ 31.
Definition shl32 (a b : Z) : Z := to_int32 (Z.shiftl (to_int32 a) (b `mod` 32)).
Definition and32 (a b : Z) : Z := Z.land (to_int32 a) (to_int32 b).

Definition setbit (bit : Z) : Z := shl32 1 bit.

Definition tstbit (mask bit : Z) : bool :=
  bool_decide (and32 mask (shl32 1 bit) ≠ 0).

(** [conditions[loc]!] outside the table is [undefined], which [&] turns
    into 0: the bit reads as unset. *)
Definition CNDBIT (conds : list Z) (loc bit : Z) : bool :=
  match zlookup conds loc with
  | Some mask => tstbit mask bit
  | None => false
  end.

Definition FORCED (conds : list Z) (loc : Z) : bool := CNDBIT conds loc COND_FORCED.
Definition FOREST (conds : list Z) (loc : Z) : bool := CNDBIT conds loc COND_FOREST.
Definition OUTSIDE (conds : list Z) (loc : Z) : bool :=
  CNDBIT conds loc COND_ABOVE || FOREST conds loc.

Definition TOTING (g : GameState) (obj : Z) : result bool :=
  o ← field (objects g) obj;
  mret (bool_decide (ObjectState.place o = CARRIED)).

Definition AT (g : GameState) (obj : Z) : result bool :=
  o ← field (objects g) obj;
  mret (bool_decide (ObjectState.place o = loc g)
        || bool_decide (ObjectState.fixed o = loc g)).

Definition HERE (g : GameState) (obj : Z) : result bool :=
  a ← AT g obj;
  if a : bool then mret true else TOTING g obj.

Definition OBJECT_STASHIFY (g : GameState) (obj pval : Z) : result GameState :=
  o ← field (objects g) obj;
  mret (set_objects (zinsert obj (ObjectState.set_prop (PROP_STASHIFY pval) o) (objects g)) g).

Definition set_prop_of (obj v : Z) (g : GameState) : result GameState :=
  o ← field (objects g) obj;
  mret (set_objects (zinsert obj (ObjectState.set_prop v o) (objects g)) g).

Definition set_fixed_of (obj v : Z) (g : GameState) : result GameState :=
  o ← field (objects g) obj;
  mret (set_objects (zinsert obj (ObjectState.set_fixed v o) (objects g)) g).

(** ** rng.ts *)

Definition getNextLcgValue (settings : Settings.t) : M Z :=
  oldX ← gets lcgX;
  modify (set_lcgX (Z.rem (LCG_A * oldX + LCG_C) LCG_M));;
  (if decide (Settings.debug settings ≠ 0) then emit (DebugRandom oldX) else mret ());;
  mret oldX.

(** The product of two numbers is a binary64 product: the exact value
    rounded to 53 significant bits, a tie going to the even significand.
    [to_double z] is that rounding of the integer [z]; an integer of
    magnitude below 2^53 is its own rounding.  (The overflow to
    [Infinity], from 2^1024 on, is out of reach of a product of two safe
    integers.) *)
Definition to_double (z : Z) : Z :=
  let a := Z.abs z in
  if decide (a < 2 ^ 53) then z
  else
    let e := Z.log2 a - 52 in
    let q := a `div` 2 ^ e in
    let r := a `mod` 2 ^ e in
    let half := 2 ^ (e - 1) in
    let q' := if decide (r < half) then q
              else if decide (r > half) then q + 1
              else if Z.even q then q else q + 1 in
    Z.sgn z * (q' * 2 ^ e).

(** [Math.trunc((range * x) / LCG_M)]: the product is rounded, the
    division by a power of two is exact, [Math.trunc] drops the
    fraction. *)
Definition randrange (settings : Settings.t) (range : Z) : M Z :=
  x ← getNextLcgValue settings;
  mret (Z.quot (to_double (range * x)) LCG_M).

(** [PCT] as main.ts wires it into the game loop's dependencies. *)
Definition PCT (settings : Settings.t) (n : Z) : M bool :=
  r ← randrange settings 100;
  mret (bool_decide (r < n)).

(** ** object-manipulation.ts *)

Section ObjectManipulation.
Context `{Dungeon.t, Obj.ids}.

(** The [while] loop of [carry]: the node whose link is [object]. *)
Fixpoint carry_scan (fuel : nat) (lnk : list Z) (object temp : Z) : result Z :=
  match fuel with
  | O => Fail Diverges
  | S fuel' =>
      n ← number lnk temp;
      if decide (n = object) then mret temp
      else carry_scan fuel' lnk object n
  end.

(** The second half of [carry]: take [object] out of the chain of [where_]. *)
Definition carry_unlink (g : GameState) (object where_ : Z) : result GameState :=
  l ← field (locs g) where_;
  if decide (LocationState.atloc l = object) then
    n ← number (link g) object;
    mret (set_locs (zinsert where_ (LocationState.set_atloc n l) (locs g)) g)
  else
    temp ← carry_scan (S (length (link g))) (link g) object (LocationState.atloc l);
    n ← number (link g) object;
    mret (set_link (zinsert temp n (link g)) g).

Definition carry (g : GameState) (object where_ : Z) : result GameState :=
  if decide (object ≤ NOBJECTS) then
    o ← field (objects g) object;
    if decide (ObjectState.place o = CARRIED) then mret g
    else
      let g1 := set_objects (zinsert object (ObjectState.set_place CARRIED o) (objects g)) g in
      let g2 := if decide (object ≠ Obj.BIRD) then set_holdng (holdng g1 + 1) g1 else g1 in
      carry_unlink g2 object where_
  else carry_unlink g object where_.

(** The first half of [drop]: record the new home of [object]. *)
Definition drop_record (g : GameState) (object where_ : Z) : result GameState :=
  if decide (object > NOBJECTS) then
    o ← field (objects g) (object - NOBJECTS);
    mret (set_objects
            (zinsert (object - NOBJECTS) (ObjectState.set_fixed where_ o) (objects g)) g)
  else
    o ← field (objects g) object;
    let g' := if decide (ObjectState.place o = CARRIED)
              then (if decide (object ≠ Obj.BIRD) then set_holdng (holdng g - 1) g else g)
              else g in
    mret (set_objects (zinsert object (ObjectState.set_place where_ o) (objects g')) g').

Definition drop (g : GameState) (object where_ : Z) : result GameState :=
  g1 ← drop_record g object where_;
  if decide (where_ = Location.LOC_NOWHERE ∨ where_ = CARRIED) then mret g1
  else
    l ← field (locs g1) where_;
    lk ← store ArrayBounds (link g1) object (LocationState.atloc l);
    mret (set_locs (zinsert where_ (LocationState.set_atloc object l) (locs g1))
            (set_link lk g1)).

Definition move (g : GameState) (object where_ : Z) : result GameState :=
  from ← (if decide (object > NOBJECTS)
          then o ← field (objects g) (object - NOBJECTS); mret (ObjectState.fixed o)
          else o ← field (objects g) object; mret (ObjectState.place o));
  g1 ← (if decide (from ≠ Location.LOC_NOWHERE ∧ from ≠ CARRIED)
        then carry g object from else mret g);
  drop g1 object where_.

Definition put (g : GameState) (object where_ pval : Z) : result GameState :=
  g1 ← move g object where_;
  OBJECT_STASHIFY g1 object pval.

Definition juggle (g : GameState) (object : Z) : result GameState :=
  o ← field (objects g) object;
  let i := ObjectState.place o in
  let j := ObjectState.fixed o in
  g1 ← move g object i;
  move g1 (object + NOBJECTS) j.

Definition destroy (g : GameState) (object : Z) : result GameState :=
  move g object Location.LOC_NOWHERE.

(** The [for] loop of [atdwrf] over the dwarves still to look at. *)
Fixpoint atdwrf_loop (g : GameState) (where_ : Z) (ds : list Z) (at_ : Z) : result Z :=
  match ds with
  | [] => mret at_
  | i :: rest =>
      d ← field (dwarves g) i;
      if decide (DwarfState.loc d = where_) then mret i
      else atdwrf_loop g where_ rest (if decide (DwarfState.loc d ≠ 0) then 0 else at_)
  end.

Definition atdwrf (g : GameState) (where_ : Z) : result Z :=
  if decide (dflag g < 2) then mret 0
  else atdwrf_loop g where_ (seqZ 1 5) (-1).

End ObjectManipulation.

(** Where dwarf [i] is, when the state has such a dwarf. *)
Definition dwarf_loc (g : GameState) (i : Z) : option Z :=
  DwarfState.loc <$> zlookup (dwarves g) i.

(** ** dwarves.ts: its own copy of [atdwrf], bounded by [NDWARVES - 1] *)
Module Dwarves.
Definition atdwrf `{Dungeon.t} (g : GameState) (where_ : Z) : result Z :=
  if decide (dflag g < 2) then mret 0
  else atdwrf_loop g where_ (seqZ 1 (NDWARVES - 1)) (-1).
End Dwarves.

(** ** format.ts: the speaking calls, as events *)

Definition embed {A : Type} (f : GameState → result A) : M A := λ g, lift (f g) g.

Definition rspeak (i : Z) (args : list Z) : M unit := emit (Rspeak i args).

Definition speak (msg : option string) : M unit := emit (Speak msg).

Definition pspeak `{Dungeon.t} (obj mode : Z) (blank : bool) (skip : Z) : M unit :=
  match zlookup Dungeon.objects obj with
  | Some _ => emit (Pspeak obj mode blank skip)
  | None => mret ()
  end.

Definition stateChange `{Dungeon.t} (obj state : Z) : M unit :=
  update (set_prop_of obj state);;
  pspeak obj SpeakType.change true state.

(** ** movement.ts *)

Section Movement.
Context `{Dungeon.t, Obj.ids, Motion.ids, Msg.ids, Location.ids, ObjState.ids}.
Variable settings : Settings.t.
(** [croak] is the death handler the game loop passes in. *)
Variable croak : M unit.

Definition traveleq (a b : Z) : result bool :=
  ta ← field travel a;
  tb ← field travel b;
  mret (bool_decide (TravelOp.condtype ta = TravelOp.condtype tb)
        && bool_decide (TravelOp.condarg1 ta = TravelOp.condarg1 tb)
        && bool_decide (TravelOp.condarg2 ta = TravelOp.condarg2 tb)
        && bool_decide (TravelOp.desttype ta = TravelOp.desttype tb)
        && bool_decide (TravelOp.destval ta = TravelOp.destval tb)).

(** Every loop over the travel table moves its cursor forward and reads
    the entry under it, so none runs past [travel_fuel] rounds. *)
Definition travel_fuel : nat := S (length travel).

(** [travelEntry] is [undefined] when [tkey[game.loc]] is; the first
    [travel[travelEntry]!.f] then throws. *)
Definition entry (te0 : option Z) : M Z :=
  match te0 with
  | Some te => mret te
  | None => throw TypeError
  end.

(** The [for (;;)] of "go back": the entry that leads to [motion], or
    [None] when the two places are not connected. *)
Fixpoint back_scan (fuel : nat) (motion te teTmp : Z) : result (option Z) :=
  match fuel with
  | O => Fail Diverges
  | S fuel' =>
      op ← field travel te;
      let desttype := TravelOp.desttype op in
      let scratchloc := TravelOp.destval op in
      if decide (desttype ≠ DestType.dest_goto ∨ scratchloc ≠ motion) then
        teTmp' ← (if decide (desttype = DestType.dest_goto) then
                    if FORCED conditions scratchloc then
                      match zlookup tkey scratchloc with
                      | None => Fail TypeError
                      | Some k =>
                          op2 ← field travel k;
                          mret (if decide (TravelOp.destval op2 = motion) then te else teTmp)
                      end
                    else mret teTmp
                  else mret teTmp);
        if negb (TravelOp.stop op) then back_scan fuel' motion (te + 1) teTmp'
        else if decide (teTmp' = 0) then mret None
        else mret (Some teTmp')
      else mret (Some te)
  end.

(** The lookup loop: the first entry of the run whose motion is the
    request or the unconditional marker, or [None] at the last rule. *)
Fixpoint find_entry (fuel : nat) (motion te : Z) : result (option Z) :=
  match fuel with
  | O => Fail Diverges
  | S fuel' =>
      op ← field travel te;
      if decide (TravelOp.motion op = Motion.HERE ∨ TravelOp.motion op = motion)
      then mret (Some te)
      else if TravelOp.stop op then mret None
      else find_entry fuel' motion (te + 1)
  end.

(** The [switch] taken when no entry matches. *)
Definition cant_go (motion : Z) : Z :=
  if decide (motion ∈ [Motion.EAST; Motion.WEST; Motion.SOUTH; Motion.NORTH; Motion.NE;
                       Motion.NW; Motion.SW; Motion.SE; Motion.UP; Motion.DOWN])
  then Msg.BAD_DIRECTION
  else if decide (motion ∈ [Motion.FORWARD; Motion.LEFT; Motion.RIGHT])
  then Msg.UNSURE_FACING
  else if decide (motion ∈ [Motion.OUTSIDE; Motion.INSIDE])
  then Msg.NO_INOUT_HERE
  else if decide (motion ∈ [Motion.XYZZY; Motion.PLUGH])
  then Msg.NOTHING_HAPPENS
  else if decide (motion = Motion.CRAWL)
  then Msg.WHICH_WAY
  else Msg.CANT_APPLY.

(** The test of one entry's condition ([conditionMet]). *)
Definition condition_met (op : TravelOp.t) : M bool :=
  let condtype := TravelOp.condtype op in
  let condarg1 := TravelOp.condarg1 op in
  let condarg2 := TravelOp.condarg2 op in
  if decide (condtype < CondType.cond_not) then
    if decide (condtype = CondType.cond_goto ∨ condtype = CondType.cond_pct) then
      if decide (condarg1 = 0) then mret true
      else PCT settings condarg1
    else
      t ← embed (λ g, TOTING g condarg1);
      if t : bool then mret true
      else if decide (condtype = CondType.cond_with) then embed (λ g, AT g condarg1)
      else mret false
  else
    o ← embed (λ g, field (objects g) condarg1);
    mret (bool_decide (ObjectState.prop o ≠ condarg2)).

(** The [do ... while (traveleq(travelEntry, teTmp))] skip: the next
    entry that differs from [travelEntry]. *)
Fixpoint skip_same (fuel : nat) (travelEntry teTmp : Z) : result Z :=
  match fuel with
  | O => Fail Diverges
  | S fuel' =>
      op ← field travel teTmp;
      if TravelOp.stop op
      then Fail (BugFault BugType.CONDITIONAL_TRAVEL_ENTRY_WITH_NO_ALTERATION)
      else
        same ← traveleq travelEntry (teTmp + 1);
        if same : bool then skip_same fuel' travelEntry (teTmp + 1)
        else mret (teTmp + 1)
  end.

(** The inner [for (;;)] of L12: the first entry whose condition holds. *)
Fixpoint find_eligible (fuel : nat) (travelEntry : Z) : M Z :=
  match fuel with
  | O => throw Diverges
  | S fuel' =>
      op ← lift (field travel travelEntry);
      met ← condition_met op;
      if met : bool then mret travelEntry
      else
        te' ← lift (skip_same travel_fuel travelEntry travelEntry);
        find_eligible fuel' te'
  end.

(** Special travel 1: the Plover-alcove passage. *)
Definition special1 : M unit :=
  l ← gets loc;
  modify (set_newloc (if decide (l = Location.LOC_PLOVER)
                      then Location.LOC_ALCOVE else Location.LOC_PLOVER));;
  h ← gets holdng;
  blocked ← (if decide (h > 1) then mret true
             else if decide (h = 1)
                  then t ← embed (λ g, TOTING g Obj.EMERALD); mret (negb t)
                  else mret false);
  if blocked : bool then
    modify (set_newloc l);;
    rspeak Msg.MUST_DROP []
  else mret ().

(** Special travel 3: the troll bridge. *)
Definition special3 : M unit :=
  troll ← embed (λ g, field (objects g) Obj.TROLL);
  if decide (ObjectState.prop troll = ObjState.TROLL_PAIDONCE) then
    pspeak Obj.TROLL SpeakType.look true ObjState.TROLL_PAIDONCE;;
    update (set_prop_of Obj.TROLL ObjState.TROLL_UNPAID);;
    update (λ g, move g Obj.TROLL2 Location.LOC_NOWHERE);;
    update (λ g, move g (Obj.TROLL2 + NOBJECTS) IS_FREE);;
    td ← lift (field Dungeon.objects Obj.TROLL);
    update (λ g, move g Obj.TROLL (ObjectData.plac td));;
    update (λ g, move g (Obj.TROLL + NOBJECTS) (ObjectData.fixd td));;
    update (λ g, juggle g Obj.CHASM);;
    l ← gets loc;
    modify (set_newloc l)
  else
    td ← lift (field Dungeon.objects Obj.TROLL);
    l ← gets loc;
    modify (set_newloc (ObjectData.plac td + ObjectData.fixd td - l));;
    troll' ← embed (λ g, field (objects g) Obj.TROLL);
    (if decide (ObjectState.prop troll' = ObjState.TROLL_UNPAID)
     then update (set_prop_of Obj.TROLL ObjState.TROLL_PAIDONCE)
     else mret ());;
    t ← embed (λ g, TOTING g Obj.BEAR);
    if negb t then mret ()
    else
      stateChange Obj.CHASM ObjState.BRIDGE_WRECKED;;
      update (set_prop_of Obj.TROLL ObjState.TROLL_GONE);;
      nl ← gets newloc;
      update (λ g, drop g Obj.BEAR nl);;
      update (set_fixed_of Obj.BEAR IS_FIXED);;
      update (set_prop_of Obj.BEAR ObjState.BEAR_DEAD);;
      nl' ← gets newloc;
      modify (set_oldlc2 nl');;
      croak.

(** "Found an eligible rule, now execute it": [None] when [playermove]
    returns, [Some te] when it goes back to L12 at entry [te]. *)
Definition execute_rule (travelEntry : Z) : M (option Z) :=
  op ← lift (field travel travelEntry);
  let desttype := TravelOp.desttype op in
  modify (set_newloc (TravelOp.destval op));;
  if decide (desttype = DestType.dest_goto) then mret None
  else if decide (desttype = DestType.dest_speak) then
    nl ← gets newloc;
    rspeak nl [];;
    l ← gets loc;
    modify (set_newloc l);;
    mret None
  else
    nl ← gets newloc;
    if decide (nl = 1) then special1;; mret None
    else if decide (nl = 2) then
      l ← gets loc;
      update (λ g, drop g Obj.EMERALD l);;
      te' ← lift (skip_same travel_fuel travelEntry travelEntry);
      mret (Some te')
    else if decide (nl = 3) then special3;; mret None
    else throw (BugFault BugType.SPECIAL_TRAVEL_500_GT_L_GT_300_EXCEEDS_GOTO_LIST).

(** The L12 loop. *)
Fixpoint travel_rules (fuel : nat) (travelEntry : Z) : M unit :=
  match fuel with
  | O => throw Diverges
  | S fuel' =>
      te ← find_eligible travel_fuel travelEntry;
      next ← execute_rule te;
      match next with
      | None => mret ()
      | Some te' => travel_rules fuel' te'
      end
  end.

(** "Look for a way to fulfil the motion verb passed in", then L12. *)
Definition ordinary_travel (motion : Z) (te0 : option Z) : M unit :=
  te ← entry te0;
  found ← lift (find_entry travel_fuel motion te);
  match found with
  | None => rspeak (cant_go motion) []
  | Some te' => travel_rules travel_fuel te'
  end.

Definition playermove (motion : Z) : M unit :=
  l ← gets loc;
  let te0 := zlookup tkey l in
  modify (set_newloc l);;
  (if decide (te0 = Some 0)
   then throw (BugFault BugType.LOCATION_HAS_NO_TRAVEL_ENTRIES)
   else mret ());;
  if decide (motion = Motion.NUL) then mret ()
  else if decide (motion = Motion.BACK) then
    old ← gets oldloc;
    old2 ← gets oldlc2;
    let motion := if FORCED conditions old then old2 else old in
    modify (set_oldlc2 old);;
    modify (set_oldloc l);;
    if CNDBIT conditions l COND_NOBACK then rspeak Msg.TWIST_TURN []
    else if decide (motion = l) then rspeak Msg.FORGOT_PATH []
    else
      te ← entry te0;
      back ← lift (back_scan travel_fuel motion te 0);
      match back with
      | None => rspeak Msg.NOT_CONNECTED []
      | Some te' =>
          op ← lift (field travel te');
          ordinary_travel (TravelOp.motion op) te0
      end
  else if decide (motion = Motion.LOOK) then
    d ← gets detail;
    (if decide (d < 3) then rspeak Msg.NO_MORE_DETAIL [] else mret ());;
    modify (set_detail (d + 1));;
    modify (set_wzdark false);;
    update (λ g, ls ← field (locs g) (loc g);
                 mret (set_locs (zinsert (loc g) (LocationState.set_abbrev 0 ls) (locs g)) g))
  else if decide (motion = Motion.CAVE) then
    let isOutside := CNDBIT conditions l 5 || CNDBIT conditions l 7 in
    rspeak (if isOutside && bool_decide (l ≠ Location.LOC_GRATE)
            then Msg.FOLLOW_STREAM else Msg.NEED_DETAIL) []
  else
    old ← gets oldloc;
    modify (set_oldlc2 old);;
    modify (set_oldloc l);;
    ordinary_travel motion te0.

End Movement.

(** ** Runs of the travel table

    What the lookup and the skip loops meet in the table, stated on the
    table alone. *)

Section TravelRuns.
Context `{Dungeon.t, Motion.ids}.

(** The entry answers the request [motion]: it names that motion or the
    unconditional marker. *)
Definition matches (motion : Z) (op : TravelOp.t) : Prop :=
  TravelOp.motion op = Motion.HERE ∨ TravelOp.motion op = motion.

(** From entry [te] to the last rule of its run, no entry answers [motion]. *)
Inductive no_rule (motion : Z) : Z → Prop :=
  | no_rule_last te op :
      zlookup travel te = Some op → ¬ matches motion op →
      TravelOp.stop op = true → no_rule motion te
  | no_rule_next te op :
      zlookup travel te = Some op → ¬ matches motion op →
      TravelOp.stop op = false → no_rule motion (te + 1) → no_rule motion te.

(** [e] is the first entry from [te] on that answers [motion]. *)
Inductive first_rule (motion : Z) : Z → Z → Prop :=
  | first_rule_here te op :
      zlookup travel te = Some op → matches motion op → first_rule motion te te
  | first_rule_next te op e :
      zlookup travel te = Some op → ¬ matches motion op →
      TravelOp.stop op = false → first_rule motion (te + 1) e →
      first_rule motion te e.

(** From [t] to the last rule of the run, every entry after [t] has the
    condition and destination of entry [e]: no alternative is left. *)
Inductive unaltered (e : Z) : Z → Prop :=
  | unaltered_last t op :
      zlookup travel t = Some op → TravelOp.stop op = true → unaltered e t
  | unaltered_next t op :
      zlookup travel t = Some op → TravelOp.stop op = false →
      traveleq e (t + 1) = Ok true → unaltered e (t + 1) → unaltered e t.

End TravelRuns.

(** ** actions.ts: the two handlers under study *)

Section Actions.
Context `{Dungeon.t, Obj.ids, Msg.ids, Action.ids, ObjState.ids}.

Definition bigwords (settings : Settings.t) (id : Z) : M PhaseCode.t :=
  fb ← gets foobar;
  let foobar := Z.abs fb in
  if decide (foobar = WORD_EMPTY
             ∧ (id = Action.FIE ∨ id = Action.FOE ∨ id = Action.FOO ∨ id = Action.FUM))
  then
    rspeak Msg.NOTHING_HAPPENS [];;
    mret PhaseCode.GO_CLEAROBJ
  else if decide ((foobar = WORD_EMPTY ∧ id = Action.FEE)
                  ∨ (foobar = Action.FEE ∧ id = Action.FIE)
                  ∨ (foobar = Action.FIE ∧ id = Action.FOE)
                  ∨ (foobar = Action.FOE ∧ id = Action.FOO))
  then
    modify (set_foobar id);;
    if decide (id ≠ Action.FOO) then
      rspeak Msg.OK_MAN [];;
      mret PhaseCode.GO_CLEAROBJ
    else
      modify (set_foobar WORD_EMPTY);;
      eggs ← embed (λ g, field (objects g) Obj.EGGS);
      eggsd ← lift (field Dungeon.objects Obj.EGGS);
      l ← gets loc;
      let home := ObjectData.plac eggsd in
      if bool_decide (ObjectState.place eggs = home)
         || (bool_decide (ObjectState.place eggs = CARRIED) && bool_decide (l = home))
      then
        rspeak Msg.NOTHING_HAPPENS [];;
        mret PhaseCode.GO_CLEAROBJ
      else
        (if decide (ObjectState.place eggs = Location.LOC_NOWHERE) then
           troll ← embed (λ g, field (objects g) Obj.TROLL);
           if decide (ObjectState.place troll = Location.LOC_NOWHERE
                      ∧ ObjectState.prop troll = ObjState.TROLL_UNPAID)
           then update (set_prop_of Obj.TROLL ObjState.TROLL_PAIDONCE)
           else mret ()
         else mret ());;
        here ← embed (λ g, HERE g Obj.EGGS);
        (if here : bool then pspeak Obj.EGGS SpeakType.look true ObjState.EGGS_VANISHED
         else if decide (l = home)
              then pspeak Obj.EGGS SpeakType.look true ObjState.EGGS_HERE
              else pspeak Obj.EGGS SpeakType.look true ObjState.EGGS_DONE);;
        update (λ g, move g Obj.EGGS home);;
        mret PhaseCode.GO_CLEAROBJ
  else
    seen ← gets seenbigwords;
    (if Settings.oldstyle settings || seen then rspeak Msg.START_OVER []
     else rspeak Msg.WELL_POINTLESS []);;
    modify (set_foobar WORD_EMPTY);;
    mret PhaseCode.GO_CLEAROBJ.

(** The pairs (tracking counter, word) that advance the magic-word
    sequence: the second [if] of [bigwords]. *)
Definition valid_step (a id : Z) : Prop :=
  (a = WORD_EMPTY ∧ id = Action.FEE) ∨ (a = Action.FEE ∧ id = Action.FIE)
  ∨ (a = Action.FIE ∧ id = Action.FOE) ∨ (a = Action.FOE ∧ id = Action.FOO).

(** The step of the game loop taken at every input line, before the
    command is dispatched (game-loop.ts, [doCommand]). *)
Definition foobar_tick (g : GameState) : GameState :=
  set_foobar (if decide (foobar g > WORD_EMPTY) then - foobar g else WORD_EMPTY) g.



End Actions.

(** ** save.ts *)

Section Save.
Context `{Dungeon.t, Msg.ids}.

(** A bounded [for] loop with an early [return false]: [check i] tells
    whether index [i] passes. *)
Fixpoint all_pass (check : Z → result bool) (ds : list Z) : result bool :=
  match ds with
  | [] => mret true
  | i :: rest =>
      ok ← check i;
      if ok : bool then all_pass check rest else mret false
  end.

(** The loop that recomputes the tally of treasures not yet found. *)
Fixpoint count_tally (valgame : GameState) (ds : list Z) (tempTally : Z) : result Z :=
  match ds with
  | [] => mret tempTally
  | treasure :: rest =>
      od ← field Dungeon.objects treasure;
      if ObjectData.isTreasure od then
        o ← field (objects valgame) treasure;
        count_tally valgame rest
          (if decide (ObjectState.prop o = STATE_NOTFOUND) then tempTally + 1 else tempTally)
      else count_tally valgame rest tempTally
  end.

Definition out_of (lo hi v : Z) : bool := bool_decide (v < lo) || bool_decide (v > hi).

Definition isValid (valgame : GameState) : result bool :=
  if decide (abbnum valgame = 0) then mret false
  else if decide (lcgX valgame >= LCG_M) then mret false
  else if out_of (-1) NLOCATIONS (chloc valgame)
          || out_of (-1) NLOCATIONS (chloc2 valgame)
          || out_of 0 NLOCATIONS (loc valgame)
          || out_of 0 NLOCATIONS (newloc valgame)
          || out_of 0 NLOCATIONS (oldloc valgame)
          || out_of 0 NLOCATIONS (oldlc2 valgame)
  then mret false
  else
    dwarves_ok ← all_pass (λ i, d ← field (dwarves valgame) i;
                                mret (negb (out_of (-1) NLOCATIONS (DwarfState.loc d)
                                            || out_of (-1) NLOCATIONS (DwarfState.oldloc d))))
                          (seqZ 0 (NDWARVES + 1));
    if negb dwarves_ok then mret false
    else
      objects_ok ← all_pass (λ i, o ← field (objects valgame) i;
                                  mret (negb (out_of (-1) NLOCATIONS (ObjectState.place o)
                                              || out_of (-1) NLOCATIONS (ObjectState.fixed o))))
                            (seqZ 0 (NOBJECTS + 1));
      if negb objects_ok then mret false
      else if out_of 0 NDWARVES (dtotal valgame) || out_of 0 NDWARVES (dkill valgame)
      then mret false
      else if decide (numdie valgame >= NDEATHS) then mret false
      else
        tempTally ← count_tally valgame (seqZ 1 NOBJECTS) 0;
        if decide (tempTally ≠ tally valgame) then mret false
        else
          props_ok ← all_pass (λ obj, o ← field (objects valgame) obj;
                                      mret (negb (PROP_IS_INVALID (ObjectState.prop o) MAX_STATE)))
                              (seqZ 0 (NOBJECTS + 1));
          if negb props_ok then mret false
          else
            atloc_ok ← all_pass (λ l, ls ← field (locs valgame) l;
                                      mret (negb (out_of 0 (NOBJECTS * 2) (LocationState.atloc ls))))
                                (seqZ 0 (NLOCATIONS + 1));
            if negb atloc_ok then mret false
            else
              (* a missing link is [undefined]: both comparisons are false *)
              all_pass (λ obj, mret (match zlookup (link valgame) obj with
                                     | Some v => negb (out_of 0 (NOBJECTS * 2) v)
                                     | None => true
                                     end))
                       (seqZ 0 (NOBJECTS * 2 + 1)).

(** The save passes the header checks of [restore]. *)
Definition header_ok (save : SaveFile.t) : Prop :=
  SaveFile.magic save = ADVENT_MAGIC ∧ SaveFile.canary save = ENDIAN_MAGIC.

Definition restore (save : SaveFile.t) : M PhaseCode.t :=
  (if decide (SaveFile.magic save ≠ ADVENT_MAGIC ∨ SaveFile.canary save ≠ ENDIAN_MAGIC) then
     rspeak Msg.BAD_SAVE []
   else if decide (SaveFile.version save ≠ SAVE_VERSION) then
     rspeak Msg.VERSION_SKEW
       [Z.quot (SaveFile.version save) 10; Z.rem (SaveFile.version save) 10;
        Z.quot SAVE_VERSION 10; Z.rem SAVE_VERSION 10]
   else
     valid ← lift (isValid (SaveFile.game save));
     if negb valid then
       rspeak Msg.SAVE_TAMPERING [];;
       throw (ProcessExit 0)
     else modify (λ _, SaveFile.game save));;
  mret PhaseCode.GO_TOP.

End Save.

(** ** init.ts: the fresh state *)

Definition createGameState `{Dungeon.t, Location.ids} : GameState :=
  {| lcgX := 0; abbnum := 5; bonus := ScoreBonus.none;
     chloc := Location.LOC_MAZEEND12; chloc2 := Location.LOC_DEADEND13;
     clock1 := WARNTIME; clock2 := FLASHTIME;
     clshnt := false; closed := false; closng := false; lmwarn := false;
     novice := false; panic := false; wzdark := false; blooded := false;
     conds := 0; detail := 0; dflag := 0; dkill := 0; dtotal := 0;
     foobar := WORD_EMPTY; holdng := 0; igo := 0; iwest := 0; knfloc := 0;
     limit := GAMELIMIT; loc := Location.LOC_START; newloc := Location.LOC_START;
     numdie := 0; oldloc := 0; oldlc2 := 0; oldobj := 0; saved := 0; tally := 0;
     thresh := 0; seenbigwords := false; trnluz := 0; turns := 0; zzword := "";
     locs := replicate (Z.to_nat (NLOCATIONS + 1)) (LocationState.mk 0 0);
     dwarves := replicate (Z.to_nat (NDWARVES + 1)) (DwarfState.mk 0 0 0);
     objects := replicate (Z.to_nat (NOBJECTS + 1)) (ObjectState.mk 0 0 0);
     hints := replicate (Z.to_nat NHINTS) (HintState.mk false 0);
     link := replicate (Z.to_nat (NOBJECTS * 2 + 1)) 0 |}.

Definition savefile (g : GameState) (version : option Z) : SaveFile.t :=
  {| SaveFile.magic := ADVENT_MAGIC;
     SaveFile.version := default SAVE_VERSION version;
     SaveFile.canary := ENDIAN_MAGIC;
     SaveFile.game := g |}.

(** ** The object-location structure

    [chain lnk h l]: following [lnk] from head [h] visits exactly the
    nodes [l] and then reaches 0, the end of every chain. *)

Inductive chain (lnk : list Z) : Z → list Z → Prop :=
  | chain_end : chain lnk 0 []
  | chain_step h n l :
      h ≠ 0 → zlookup lnk h = Some n → chain lnk n l → chain lnk h (h :: l).

(** [reaches lnk h x]: node [x] is met when following [lnk] from [h]. *)
Inductive reaches (lnk : list Z) : Z → Z → Prop :=
  | reaches_here h : h ≠ 0 → reaches lnk h h
  | reaches_next h n x :
      h ≠ 0 → zlookup lnk h = Some n → reaches lnk n x → reaches lnk h x.

(** [scan lnk object temp l r]: the loop of [carry], started at [temp],
    passes the nodes [l] and stops with [r]. *)
Inductive scan (lnk : list Z) (object : Z) : Z → list Z → result Z → Prop :=
  | scan_outside temp : zlookup lnk temp = None → scan lnk object temp [] (Fail ArrayBounds)
  | scan_found temp : zlookup lnk temp = Some object → scan lnk object temp [] (Ok temp)
  | scan_next temp n l r :
      zlookup lnk temp = Some n → n ≠ object → scan lnk object n l r →
      scan lnk object temp (temp :: l) r.

Section Structure.
Context `{Dungeon.t}.

Definition atloc_at (g : GameState) (w : Z) : option Z :=
  LocationState.atloc <$> zlookup (locs g) w.

Definition place_of (g : GameState) (o : Z) : option Z :=
  ObjectState.place <$> zlookup (objects g) o.

Definition fixed_of (g : GameState) (o : Z) : option Z :=
  ObjectState.fixed <$> zlookup (objects g) o.

(** Node [x] is reachable from the chain of location [w]. *)
Definition in_chain (g : GameState) (w x : Z) : Prop :=
  ∃ a, atloc_at g w = Some a ∧ reaches (link g) a x.

(** The invariant as the specification words it: every object id is
    carried and in no chain, or in the chain of exactly one location. *)
Definition object_invariant (g : GameState) : Prop :=
  ∀ o, 1 ≤ o ≤ NOBJECTS →
    (place_of g o = Some CARRIED ∧ ∀ w, ¬ in_chain g w o)
    ∨ (place_of g o ≠ Some CARRIED
       ∧ ∃ w, in_chain g w o ∧ ∀ w', in_chain g w' o → w' = w).

(** Where a node of the index space is recorded to be: [place] for an
    object id, [fixed] of the object for its shadow id. *)
Definition node_home (g : GameState) (x : Z) : option Z :=
  if decide (x ≤ NOBJECTS) then place_of g x else fixed_of g (x - NOBJECTS).

(** The chains of [g] list, for every location, exactly the nodes recorded
    there, [skip] excepted (a node that is being moved). *)
Definition chains_ok (g : GameState) (skip : Z) : Prop :=
  ∀ w, 0 ≤ w ≤ NLOCATIONS →
    ∃ a l, atloc_at g w = Some a ∧ chain (link g) a l
           ∧ ∀ x, x ∈ l ↔ (1 ≤ x ≤ NOBJECTS * 2 ∧ 1 ≤ w ∧ node_home g x = Some w ∧ x ≠ skip).

Record well_linked (g : GameState) (skip : Z) : Prop := {
  wl_objects : length (objects g) = Z.to_nat (NOBJECTS + 1);
  wl_link : length (link g) = Z.to_nat (NOBJECTS * 2 + 1);
  wl_locs : length (locs g) = Z.to_nat (NLOCATIONS + 1);
  wl_sizes : 0 ≤ NOBJECTS ∧ 0 ≤ NLOCATIONS;
  wl_homes : ∀ x h, 1 ≤ x ≤ NOBJECTS * 2 → node_home g x = Some h → -1 ≤ h ≤ NLOCATIONS;
  wl_chains : chains_ok g skip
}.

(** The structural invariant of the object-location model. *)
Definition WF (g : GameState) : Prop := well_linked g 0.

(** The three places an object can be under [WF]. *)
Definition object_situation (g : GameState) (o : Z) : Prop :=
  (place_of g o = Some CARRIED ∧ ∀ w, ¬ in_chain g w o)
  ∨ (place_of g o = Some Location.LOC_NOWHERE ∧ ∀ w, ¬ in_chain g w o)
  ∨ (∃ w, 1 ≤ w ≤ NLOCATIONS ∧ place_of g o = Some w
          ∧ ∀ w', in_chain g w' o ↔ w' = w).

End Structure.

(** A reading of the state that ignores the four fields the primitives
    write. *)
Definition frame_field {A : Type} (f : GameState → A) : Prop :=
  ∀ g, (∀ v, f (set_objects v g) = f g) ∧ (∀ v, f (set_holdng v g) = f g)
       ∧ (∀ v, f (set_locs v g) = f g) ∧ (∀ v, f (set_link v g) = f g).

(** ** A small dungeon to run the definitions on

    Four rooms and fourteen objects, numbered the way the generator
    numbers the story file: each enumeration from 0 upwards, in order.
    Room 1 has a plain exit east and an exit west that asks for the
    emerald; rooms 2 and 3 are the two ends of the special passage. *)

Module Sample.

Definition motions : Motion.ids :=
  {| Motion.NUL := 0; Motion.HERE := 1; Motion.BACK := 2; Motion.LOOK := 3;
     Motion.CAVE := 4; Motion.EAST := 5; Motion.WEST := 6; Motion.SOUTH := 7;
     Motion.NORTH := 8; Motion.NE := 9; Motion.NW := 10; Motion.SW := 11;
     Motion.SE := 12; Motion.UP := 13; Motion.DOWN := 14; Motion.FORWARD := 15;
     Motion.LEFT := 16; Motion.RIGHT := 17; Motion.OUTSIDE := 18;
     Motion.INSIDE := 19; Motion.XYZZY := 20; Motion.PLUGH := 21;
     Motion.CRAWL := 22 |}.

Definition obj : Obj.ids :=
  {| Obj.BIRD := 1; Obj.SNAKE := 2; Obj.DRAGON := 3; Obj.TROLL := 4;
     Obj.TROLL2 := 5; Obj.DWARF := 6; Obj.FOOD := 7; Obj.BEAR := 8;
     Obj.AXE := 9; Obj.OGRE := 10; Obj.EGGS := 11; Obj.EMERALD := 12;
     Obj.CHASM := 13 |}.

Definition locations : Location.ids :=
  {| Location.LOC_START := 1; Location.LOC_PLOVER := 2; Location.LOC_ALCOVE := 3;
     Location.LOC_GRATE := 4; Location.LOC_MAZEEND12 := 3;
     Location.LOC_DEADEND13 := 4 |}.

Definition action : Action.ids :=
  {| Action.FEE := 1; Action.FIE := 2; Action.FOE := 3; Action.FOO := 4;
     Action.FUM := 5 |}.

Definition msg : Msg.ids :=
  {| Msg.TWIST_TURN := 1; Msg.FORGOT_PATH := 2; Msg.NOT_CONNECTED := 3;
     Msg.NO_MORE_DETAIL := 4; Msg.FOLLOW_STREAM := 5; Msg.NEED_DETAIL := 6;
     Msg.BAD_DIRECTION := 7; Msg.UNSURE_FACING := 8; Msg.NO_INOUT_HERE := 9;
     Msg.NOTHING_HAPPENS := 10; Msg.WHICH_WAY := 11; Msg.CANT_APPLY := 12;
     Msg.MUST_DROP := 13; Msg.BIRD_PINING := 14; Msg.RIDICULOUS_ATTEMPT := 15;
     Msg.NOTHING_EDIBLE := 16; Msg.BIRD_DEVOURED := 17; Msg.TROLL_VICES := 18;
     Msg.REALLY_MAD := 19; Msg.OGRE_FULL := 20; Msg.AM_GAME := 21;
     Msg.OK_MAN := 22; Msg.START_OVER := 23; Msg.WELL_POINTLESS := 24;
     Msg.BAD_SAVE := 25; Msg.VERSION_SKEW := 26; Msg.SAVE_TAMPERING := 27 |}.

Definition objstate : ObjState.ids :=
  {| ObjState.TROLL_UNPAID := 0; ObjState.TROLL_PAIDONCE := 1;
     ObjState.TROLL_GONE := 2; ObjState.BRIDGE_WRECKED := 1;
     ObjState.BEAR_DEAD := 3; ObjState.UNTAMED_BEAR := 0;
     ObjState.SITTING_BEAR := 1; ObjState.DRAGON_BARS := 0;
     ObjState.AXE_HERE := 0; ObjState.EGGS_HERE := 0;
     ObjState.EGGS_VANISHED := 1; ObjState.EGGS_DONE := 2 |}.

Definition thing (plac fixd : Z) (treasure : bool) : ObjectData.t :=
  {| ObjectData.inventory := Some "thing"; ObjectData.plac := plac;
     ObjectData.fixd := fixd; ObjectData.isTreasure := treasure |}.

Definition rule (motion condtype condarg1 desttype destval : Z) (stop : bool) : TravelOp.t :=
  {| TravelOp.motion := motion; TravelOp.condtype := condtype;
     TravelOp.condarg1 := condarg1; TravelOp.condarg2 := 0;
     TravelOp.desttype := desttype; TravelOp.destval := destval;
     TravelOp.nodwarves := false; TravelOp.stop := stop |}.

Definition dungeon : Dungeon.t :=
  {| Dungeon.NLOCATIONS := 4; Dungeon.NOBJECTS := 14; Dungeon.NHINTS := 2;
     Dungeon.NDWARVES := 6; Dungeon.NDEATHS := 3; Dungeon.MAX_STATE := 5;
     Dungeon.objects :=
       [thing 0 0 false; thing 1 0 false; thing 1 (-1) false; thing 4 (-1) false;
        thing 4 3 false; thing 0 0 false; thing 0 0 false; thing 1 0 false;
        thing 4 (-1) false; thing 1 0 false; thing 4 (-1) false; thing 3 0 true;
        thing 2 0 true; thing 4 3 false; thing 1 0 false];
     Dungeon.actions :=
       [ActionData.mk None false; ActionData.mk (Some "Nothing happens.") false];
     Dungeon.travel :=
       [rule 0 CondType.cond_goto 0 DestType.dest_goto 0 false;
        rule 5 CondType.cond_goto 0 DestType.dest_goto 2 false;
        rule 6 CondType.cond_carry 12 DestType.dest_goto 3 true;
        rule 9 CondType.cond_goto 0 DestType.dest_special 1 true;
        rule 11 CondType.cond_goto 0 DestType.dest_special 1 true;
        rule 13 CondType.cond_goto 0 DestType.dest_speak 10 true];
     Dungeon.tkey := [0; 1; 3; 4; 5];
     Dungeon.conditions := [0; 0; 0; 0; 0] |}.

Definition start : GameState := @createGameState dungeon locations.

(** Object 1 lies in room 1 and every other object is carried. *)
Definition one_on_floor : GameState :=
  set_objects
    (ObjectState.mk 0 0 0 :: ObjectState.mk 0 0 1
       :: replicate 13 (ObjectState.mk 0 0 CARRIED))
    (set_locs
       [LocationState.mk 0 0; LocationState.mk 0 1; LocationState.mk 0 0;
        LocationState.mk 0 0; LocationState.mk 0 0] start).

End Sample.

(** * Further parts of the engine

    The rest of the predicates of types.ts, the seeding of the generator,
    the formatter, the validator's companions, scoring, initialisation and
    some of the action handlers, embedded on the definitions above. *)

(** ** types.ts: further constants and predicates *)

Definition TOKLEN : Z := 5.
Definition INVLIMIT : Z := 7.
Definition INTRANSITIVE : Z := -1.
Definition BATTERYLIFE : Z := 2500.
Definition PANICTIME : Z := 15.
Definition COND_HBASE : Z := 11.

(** Writers of further fields of the state. *)
Definition set_zzword (v : string) (g : GameState) : GameState :=
  {| lcgX := lcgX g; abbnum := abbnum g; bonus := bonus g; chloc := chloc g;
     chloc2 := chloc2 g; clock1 := clock1 g; clock2 := clock2 g; clshnt := clshnt g;
     closed := closed g; closng := closng g; lmwarn := lmwarn g; novice := novice g;
     panic := panic g; wzdark := wzdark g; blooded := blooded g; conds := conds g;
     detail := detail g; dflag := dflag g; dkill := dkill g; dtotal := dtotal g;
     foobar := foobar g; holdng := holdng g; igo := igo g; iwest := iwest g;
     knfloc := knfloc g; limit := limit g; loc := loc g; newloc := newloc g;
     numdie := numdie g; oldloc := oldloc g; oldlc2 := oldlc2 g; oldobj := oldobj g;
     saved := saved g; tally := tally g; thresh := thresh g;
     seenbigwords := seenbigwords g; trnluz := trnluz g; turns := turns g; zzword := v;
     locs := locs g; dwarves := dwarves g; objects := objects g; hints := hints g;
     link := link g |}.

Definition set_limit (v : Z) (g : GameState) : GameState :=
  {| lcgX := lcgX g; abbnum := abbnum g; bonus := bonus g; chloc := chloc g;
     chloc2 := chloc2 g; clock1 := clock1 g; clock2 := clock2 g; clshnt := clshnt g;
     closed := closed g; closng := closng g; lmwarn := lmwarn g; novice := novice g;
     panic := panic g; wzdark := wzdark g; blooded := blooded g; conds := conds g;
     detail := detail g; dflag := dflag g; dkill := dkill g; dtotal := dtotal g;
     foobar := foobar g; holdng := holdng g; igo := igo g; iwest := iwest g;
     knfloc := knfloc g; limit := v; loc := loc g; newloc := newloc g; numdie := numdie g;
     oldloc := oldloc g; oldlc2 := oldlc2 g; oldobj := oldobj g; saved := saved g;
     tally := tally g; thresh := thresh g; seenbigwords := seenbigwords g;
     trnluz := trnluz g; turns := turns g; zzword := zzword g; locs := locs g;
     dwarves := dwarves g; objects := objects g; hints := hints g; link := link g |}.

Definition set_lmwarn (v : bool) (g : GameState) : GameState :=
  {| lcgX := lcgX g; abbnum := abbnum g; bonus := bonus g; chloc := chloc g;
     chloc2 := chloc2 g; clock1 := clock1 g; clock2 := clock2 g; clshnt := clshnt g;
     closed := closed g; closng := closng g; lmwarn := v; novice := novice g;
     panic := panic g; wzdark := wzdark g; blooded := blooded g; conds := conds g;
     detail := detail g; dflag := dflag g; dkill := dkill g; dtotal := dtotal g;
     foobar := foobar g; holdng := holdng g; igo := igo g; iwest := iwest g;
     knfloc := knfloc g; limit := limit g; loc := loc g; newloc := newloc g;
     numdie := numdie g; oldloc := oldloc g; oldlc2 := oldlc2 g; oldobj := oldobj g;
     saved := saved g; tally := tally g; thresh := thresh g;
     seenbigwords := seenbigwords g; trnluz := trnluz g; turns := turns g;
     zzword := zzword g; locs := locs g; dwarves := dwarves g; objects := objects g;
     hints := hints g; link := link g |}.

Definition set_tally (v : Z) (g : GameState) : GameState :=
  {| lcgX := lcgX g; abbnum := abbnum g; bonus := bonus g; chloc := chloc g;
     chloc2 := chloc2 g; clock1 := clock1 g; clock2 := clock2 g; clshnt := clshnt g;
     closed := closed g; closng := closng g; lmwarn := lmwarn g; novice := novice g;
     panic := panic g; wzdark := wzdark g; blooded := blooded g; conds := conds g;
     detail := detail g; dflag := dflag g; dkill := dkill g; dtotal := dtotal g;
     foobar := foobar g; holdng := holdng g; igo := igo g; iwest := iwest g;
     knfloc := knfloc g; limit := limit g; loc := loc g; newloc := newloc g;
     numdie := numdie g; oldloc := oldloc g; oldlc2 := oldlc2 g; oldobj := oldobj g;
     saved := saved g; tally := v; thresh := thresh g; seenbigwords := seenbigwords g;
     trnluz := trnluz g; turns := turns g; zzword := zzword g; locs := locs g;
     dwarves := dwarves g; objects := objects g; hints := hints g; link := link g |}.

Definition set_conds (v : Z) (g : GameState) : GameState :=
  {| lcgX := lcgX g; abbnum := abbnum g; bonus := bonus g; chloc := chloc g;
     chloc2 := chloc2 g; clock1 := clock1 g; clock2 := clock2 g; clshnt := clshnt g;
     closed := closed g; closng := closng g; lmwarn := lmwarn g; novice := novice g;
     panic := panic g; wzdark := wzdark g; blooded := blooded g; conds := v;
     detail := detail g; dflag := dflag g; dkill := dkill g; dtotal := dtotal g;
     foobar := foobar g; holdng := holdng g; igo := igo g; iwest := iwest g;
     knfloc := knfloc g; limit := limit g; loc := loc g; newloc := newloc g;
     numdie := numdie g; oldloc := oldloc g; oldlc2 := oldlc2 g; oldobj := oldobj g;
     saved := saved g; tally := tally g; thresh := thresh g;
     seenbigwords := seenbigwords g; trnluz := trnluz g; turns := turns g;
     zzword := zzword g; locs := locs g; dwarves := dwarves g; objects := objects g;
     hints := hints g; link := link g |}.

Definition set_dwarves (v : list DwarfState.t) (g : GameState) : GameState :=
  {| lcgX := lcgX g; abbnum := abbnum g; bonus := bonus g; chloc := chloc g;
     chloc2 := chloc2 g; clock1 := clock1 g; clock2 := clock2 g; clshnt := clshnt g;
     closed := closed g; closng := closng g; lmwarn := lmwarn g; novice := novice g;
     panic := panic g; wzdark := wzdark g; blooded := blooded g; conds := conds g;
     detail := detail g; dflag := dflag g; dkill := dkill g; dtotal := dtotal g;
     foobar := foobar g; holdng := holdng g; igo := igo g; iwest := iwest g;
     knfloc := knfloc g; limit := limit g; loc := loc g; newloc := newloc g;
     numdie := numdie g; oldloc := oldloc g; oldlc2 := oldlc2 g; oldobj := oldobj g;
     saved := saved g; tally := tally g; thresh := thresh g;
     seenbigwords := seenbigwords g; trnluz := trnluz g; turns := turns g;
     zzword := zzword g; locs := locs g; dwarves := v; objects := objects g;
     hints := hints g; link := link g |}.

Definition set_numdie (v : Z) (g : GameState) : GameState :=
  {| lcgX := lcgX g; abbnum := abbnum g; bonus := bonus g; chloc := chloc g;
     chloc2 := chloc2 g; clock1 := clock1 g; clock2 := clock2 g; clshnt := clshnt g;
     closed := closed g; closng := closng g; lmwarn := lmwarn g; novice := novice g;
     panic := panic g; wzdark := wzdark g; blooded := blooded g; conds := conds g;
     detail := detail g; dflag := dflag g; dkill := dkill g; dtotal := dtotal g;
     foobar := foobar g; holdng := holdng g; igo := igo g; iwest := iwest g;
     knfloc := knfloc g; limit := limit g; loc := loc g; newloc := newloc g; numdie := v;
     oldloc := oldloc g; oldlc2 := oldlc2 g; oldobj := oldobj g; saved := saved g;
     tally := tally g; thresh := thresh g; seenbigwords := seenbigwords g;
     trnluz := trnluz g; turns := turns g; zzword := zzword g; locs := locs g;
     dwarves := dwarves g; objects := objects g; hints := hints g; link := link g |}.

Definition set_bonus (v : Z) (g : GameState) : GameState :=
  {| lcgX := lcgX g; abbnum := abbnum g; bonus := v; chloc := chloc g; chloc2 := chloc2 g;
     clock1 := clock1 g; clock2 := clock2 g; clshnt := clshnt g; closed := closed g;
     closng := closng g; lmwarn := lmwarn g; novice := novice g; panic := panic g;
     wzdark := wzdark g; blooded := blooded g; conds := conds g; detail := detail g;
     dflag := dflag g; dkill := dkill g; dtotal := dtotal g; foobar := foobar g;
     holdng := holdng g; igo := igo g; iwest := iwest g; knfloc := knfloc g;
     limit := limit g; loc := loc g; newloc := newloc g; numdie := numdie g;
     oldloc := oldloc g; oldlc2 := oldlc2 g; oldobj := oldobj g; saved := saved g;
     tally := tally g; thresh := thresh g; seenbigwords := seenbigwords g;
     trnluz := trnluz g; turns := turns g; zzword := zzword g; locs := locs g;
     dwarves := dwarves g; objects := objects g; hints := hints g; link := link g |}.

Definition set_saved (v : Z) (g : GameState) : GameState :=
  {| lcgX := lcgX g; abbnum := abbnum g; bonus := bonus g; chloc := chloc g;
     chloc2 := chloc2 g; clock1 := clock1 g; clock2 := clock2 g; clshnt := clshnt g;
     closed := closed g; closng := closng g; lmwarn := lmwarn g; novice := novice g;
     panic := panic g; wzdark := wzdark g; blooded := blooded g; conds := conds g;
     detail := detail g; dflag := dflag g; dkill := dkill g; dtotal := dtotal g;
     foobar := foobar g; holdng := holdng g; igo := igo g; iwest := iwest g;
     knfloc := knfloc g; limit := limit g; loc := loc g; newloc := newloc g;
     numdie := numdie g; oldloc := oldloc g; oldlc2 := oldlc2 g; oldobj := oldobj g;
     saved := v; tally := tally g; thresh := thresh g; seenbigwords := seenbigwords g;
     trnluz := trnluz g; turns := turns g; zzword := zzword g; locs := locs g;
     dwarves := dwarves g; objects := objects g; hints := hints g; link := link g |}.

Definition set_trnluz (v : Z) (g : GameState) : GameState :=
  {| lcgX := lcgX g; abbnum := abbnum g; bonus := bonus g; chloc := chloc g;
     chloc2 := chloc2 g; clock1 := clock1 g; clock2 := clock2 g; clshnt := clshnt g;
     closed := closed g; closng := closng g; lmwarn := lmwarn g; novice := novice g;
     panic := panic g; wzdark := wzdark g; blooded := blooded g; conds := conds g;
     detail := detail g; dflag := dflag g; dkill := dkill g; dtotal := dtotal g;
     foobar := foobar g; holdng := holdng g; igo := igo g; iwest := iwest g;
     knfloc := knfloc g; limit := limit g; loc := loc g; newloc := newloc g;
     numdie := numdie g; oldloc := oldloc g; oldlc2 := oldlc2 g; oldobj := oldobj g;
     saved := saved g; tally := tally g; thresh := thresh g;
     seenbigwords := seenbigwords g; trnluz := v; turns := turns g; zzword := zzword g;
     locs := locs g; dwarves := dwarves g; objects := objects g; hints := hints g;
     link := link g |}.

Definition set_turns (v : Z) (g : GameState) : GameState :=
  {| lcgX := lcgX g; abbnum := abbnum g; bonus := bonus g; chloc := chloc g;
     chloc2 := chloc2 g; clock1 := clock1 g; clock2 := clock2 g; clshnt := clshnt g;
     closed := closed g; closng := closng g; lmwarn := lmwarn g; novice := novice g;
     panic := panic g; wzdark := wzdark g; blooded := blooded g; conds := conds g;
     detail := detail g; dflag := dflag g; dkill := dkill g; dtotal := dtotal g;
     foobar := foobar g; holdng := holdng g; igo := igo g; iwest := iwest g;
     knfloc := knfloc g; limit := limit g; loc := loc g; newloc := newloc g;
     numdie := numdie g; oldloc := oldloc g; oldlc2 := oldlc2 g; oldobj := oldobj g;
     saved := saved g; tally := tally g; thresh := thresh g;
     seenbigwords := seenbigwords g; trnluz := trnluz g; turns := v; zzword := zzword g;
     locs := locs g; dwarves := dwarves g; objects := objects g; hints := hints g;
     link := link g |}.

Definition set_blooded (v : bool) (g : GameState) : GameState :=
  {| lcgX := lcgX g; abbnum := abbnum g; bonus := bonus g; chloc := chloc g;
     chloc2 := chloc2 g; clock1 := clock1 g; clock2 := clock2 g; clshnt := clshnt g;
     closed := closed g; closng := closng g; lmwarn := lmwarn g; novice := novice g;
     panic := panic g; wzdark := wzdark g; blooded := v; conds := conds g;
     detail := detail g; dflag := dflag g; dkill := dkill g; dtotal := dtotal g;
     foobar := foobar g; holdng := holdng g; igo := igo g; iwest := iwest g;
     knfloc := knfloc g; limit := limit g; loc := loc g; newloc := newloc g;
     numdie := numdie g; oldloc := oldloc g; oldlc2 := oldlc2 g; oldobj := oldobj g;
     saved := saved g; tally := tally g; thresh := thresh g;
     seenbigwords := seenbigwords g; trnluz := trnluz g; turns := turns g;
     zzword := zzword g; locs := locs g; dwarves := dwarves g; objects := objects g;
     hints := hints g; link := link g |}.

Definition set_clock2 (v : Z) (g : GameState) : GameState :=
  {| lcgX := lcgX g; abbnum := abbnum g; bonus := bonus g; chloc := chloc g;
     chloc2 := chloc2 g; clock1 := clock1 g; clock2 := v; clshnt := clshnt g;
     closed := closed g; closng := closng g; lmwarn := lmwarn g; novice := novice g;
     panic := panic g; wzdark := wzdark g; blooded := blooded g; conds := conds g;
     detail := detail g; dflag := dflag g; dkill := dkill g; dtotal := dtotal g;
     foobar := foobar g; holdng := holdng g; igo := igo g; iwest := iwest g;
     knfloc := knfloc g; limit := limit g; loc := loc g; newloc := newloc g;
     numdie := numdie g; oldloc := oldloc g; oldlc2 := oldlc2 g; oldobj := oldobj g;
     saved := saved g; tally := tally g; thresh := thresh g;
     seenbigwords := seenbigwords g; trnluz := trnluz g; turns := turns g;
     zzword := zzword g; locs := locs g; dwarves := dwarves g; objects := objects g;
     hints := hints g; link := link g |}.

Definition set_panic (v : bool) (g : GameState) : GameState :=
  {| lcgX := lcgX g; abbnum := abbnum g; bonus := bonus g; chloc := chloc g;
     chloc2 := chloc2 g; clock1 := clock1 g; clock2 := clock2 g; clshnt := clshnt g;
     closed := closed g; closng := closng g; lmwarn := lmwarn g; novice := novice g;
     panic := v; wzdark := wzdark g; blooded := blooded g; conds := conds g;
     detail := detail g; dflag := dflag g; dkill := dkill g; dtotal := dtotal g;
     foobar := foobar g; holdng := holdng g; igo := igo g; iwest := iwest g;
     knfloc := knfloc g; limit := limit g; loc := loc g; newloc := newloc g;
     numdie := numdie g; oldloc := oldloc g; oldlc2 := oldlc2 g; oldobj := oldobj g;
     saved := saved g; tally := tally g; thresh := thresh g;
     seenbigwords := seenbigwords g; trnluz := trnluz g; turns := turns g;
     zzword := zzword g; locs := locs g; dwarves := dwarves g; objects := objects g;
     hints := hints g; link := link g |}.

Definition set_dtotal (v : Z) (g : GameState) : GameState :=
  {| lcgX := lcgX g; abbnum := abbnum g; bonus := bonus g; chloc := chloc g;
     chloc2 := chloc2 g; clock1 := clock1 g; clock2 := clock2 g; clshnt := clshnt g;
     closed := closed g; closng := closng g; lmwarn := lmwarn g; novice := novice g;
     panic := panic g; wzdark := wzdark g; blooded := blooded g; conds := conds g;
     detail := detail g; dflag := dflag g; dkill := dkill g; dtotal := v;
     foobar := foobar g; holdng := holdng g; igo := igo g; iwest := iwest g;
     knfloc := knfloc g; limit := limit g; loc := loc g; newloc := newloc g;
     numdie := numdie g; oldloc := oldloc g; oldlc2 := oldlc2 g; oldobj := oldobj g;
     saved := saved g; tally := tally g; thresh := thresh g;
     seenbigwords := seenbigwords g; trnluz := trnluz g; turns := turns g;
     zzword := zzword g; locs := locs g; dwarves := dwarves g; objects := objects g;
     hints := hints g; link := link g |}.

Definition set_dkill (v : Z) (g : GameState) : GameState :=
  {| lcgX := lcgX g; abbnum := abbnum g; bonus := bonus g; chloc := chloc g;
     chloc2 := chloc2 g; clock1 := clock1 g; clock2 := clock2 g; clshnt := clshnt g;
     closed := closed g; closng := closng g; lmwarn := lmwarn g; novice := novice g;
     panic := panic g; wzdark := wzdark g; blooded := blooded g; conds := conds g;
     detail := detail g; dflag := dflag g; dkill := v; dtotal := dtotal g;
     foobar := foobar g; holdng := holdng g; igo := igo g; iwest := iwest g;
     knfloc := knfloc g; limit := limit g; loc := loc g; newloc := newloc g;
     numdie := numdie g; oldloc := oldloc g; oldlc2 := oldlc2 g; oldobj := oldobj g;
     saved := saved g; tally := tally g; thresh := thresh g;
     seenbigwords := seenbigwords g; trnluz := trnluz g; turns := turns g;
     zzword := zzword g; locs := locs g; dwarves := dwarves g; objects := objects g;
     hints := hints g; link := link g |}.

Definition set_knfloc (v : Z) (g : GameState) : GameState :=
  {| lcgX := lcgX g; abbnum := abbnum g; bonus := bonus g; chloc := chloc g;
     chloc2 := chloc2 g; clock1 := clock1 g; clock2 := clock2 g; clshnt := clshnt g;
     closed := closed g; closng := closng g; lmwarn := lmwarn g; novice := novice g;
     panic := panic g; wzdark := wzdark g; blooded := blooded g; conds := conds g;
     detail := detail g; dflag := dflag g; dkill := dkill g; dtotal := dtotal g;
     foobar := foobar g; holdng := holdng g; igo := igo g; iwest := iwest g; knfloc := v;
     limit := limit g; loc := loc g; newloc := newloc g; numdie := numdie g;
     oldloc := oldloc g; oldlc2 := oldlc2 g; oldobj := oldobj g; saved := saved g;
     tally := tally g; thresh := thresh g; seenbigwords := seenbigwords g;
     trnluz := trnluz g; turns := turns g; zzword := zzword g; locs := locs g;
     dwarves := dwarves g; objects := objects g; hints := hints g; link := link g |}.

Definition INSIDE (conds : list Z) (loc LOC_BUILDING : Z) : bool :=
  negb (OUTSIDE conds loc) || bool_decide (loc = LOC_BUILDING).

Definition INDEEP (conds : list Z) (loc : Z) : bool := CNDBIT conds loc COND_DEEP.

Definition OBJECT_IS_NOTFOUND (g : GameState) (obj : Z) : result bool :=
  o ← field (objects g) obj;
  mret (bool_decide (ObjectState.prop o = STATE_NOTFOUND)).

Definition OBJECT_IS_FOUND (g : GameState) (obj : Z) : result bool :=
  o ← field (objects g) obj;
  mret (bool_decide (ObjectState.prop o = STATE_FOUND)).

Definition OBJECT_SET_FOUND (g : GameState) (obj : Z) : result GameState :=
  o ← field (objects g) obj;
  mret (set_objects (zinsert obj (ObjectState.set_prop STATE_FOUND o) (objects g)) g).

Definition OBJECT_SET_NOT_FOUND (g : GameState) (obj : Z) : result GameState :=
  o ← field (objects g) obj;
  mret (set_objects (zinsert obj (ObjectState.set_prop STATE_NOTFOUND o) (objects g)) g).

Definition OBJECT_IS_STASHED (g : GameState) (obj : Z) : result bool :=
  o ← field (objects g) obj;
  mret (bool_decide (ObjectState.prop o < STATE_NOTFOUND)).

Definition OBJECT_STATE_EQUALS (g : GameState) (obj pval : Z) : result bool :=
  o ← field (objects g) obj;
  mret (bool_decide (ObjectState.prop o = pval)
        || bool_decide (ObjectState.prop o = PROP_STASHIFY pval)).

Definition GSTONE (obj EMERALD RUBY AMBER SAPPH : Z) : bool :=
  bool_decide (obj = EMERALD) || bool_decide (obj = RUBY)
  || bool_decide (obj = AMBER) || bool_decide (obj = SAPPH).

(** ** rng.ts: seeding *)

(** [String.fromCharCode].  A character of the embedding is one byte; the
    codes [setSeed] asks for are those of the capital letters. *)
Definition fromCharCode (n : Z) : ascii := ascii_of_N (Z.to_N n).

(** [s[0]!] used as a string: the first character, or the text of
    [undefined]. *)
Definition first_char (s : string) : string :=
  match s with
  | String c _ => String c EmptyString
  | EmptyString => "undefined"
  end.

(** [s.slice(n)]. *)
Definition slice (n : nat) (s : string) : string :=
  String.substring n (String.length s - n) s.

(** The [for] loop of [setSeed]: [n] more letters onto [zzword]. *)
Fixpoint zzword_loop (settings : Settings.t) (n : nat) (zzword : string) : M string :=
  match n with
  | O => mret zzword
  | S n' =>
      r ← randrange settings 26;
      zzword_loop settings n' (zzword +:+ String (fromCharCode (65 + r)) EmptyString)
  end.

Definition setSeed (settings : Settings.t) (seedval : Z) : M unit :=
  modify (set_lcgX (Z.rem seedval LCG_M));;
  x ← gets lcgX;
  (if decide (x < 0) then modify (set_lcgX (LCG_M + x)) else mret ());;
  zzword ← zzword_loop settings (Z.to_nat TOKLEN) "";
  modify (set_zzword (first_char zzword +:+ "'" +:+ slice 2 zzword)).

(** [k] calls in a row, the results dropped. *)
Fixpoint calls {A : Type} (k : nat) (m : M A) : M unit :=
  match k with
  | O => mret ()
  | S k' => m;; calls k' m
  end.

(** ** The objects in hand *)

(** How many object ids are carried, the bird apart: what the held-count
    stands for. *)
Definition held `{Dungeon.t, Obj.ids} (g : GameState) : Z :=
  Z.of_nat (length (filter (λ o, o ≠ Obj.BIRD ∧ place_of g o = Some CARRIED)
                           (seqZ 1 NOBJECTS))).

(** ** What the save validator accepts *)

Section Accepted.
Context `{Dungeon.t}.

(** The table marks object [i] as a treasure. *)
Definition treasure (i : Z) : bool :=
  match zlookup Dungeon.objects i with
  | Some od => ObjectData.isTreasure od
  | None => false
  end.

(** The recorded state of object [i]. *)
Definition prop_of (g : GameState) (i : Z) : option Z :=
  ObjectState.prop <$> zlookup (objects g) i.

(** The treasures whose state is still "not found". *)
Definition unfound (g : GameState) : Z :=
  Z.of_nat (length (filter (λ i, treasure i = true ∧ prop_of g i = Some STATE_NOTFOUND)
                           (seqZ 1 NOBJECTS))).

(** The conditions [isValid] tests, in the order of the source. *)
Record accepted (g : GameState) : Prop := {
  ok_abbnum : abbnum g ≠ 0;
  ok_lcgX : lcgX g < LCG_M;
  ok_chloc : -1 ≤ chloc g ≤ NLOCATIONS ∧ -1 ≤ chloc2 g ≤ NLOCATIONS;
  ok_loc : 0 ≤ loc g ≤ NLOCATIONS ∧ 0 ≤ newloc g ≤ NLOCATIONS
           ∧ 0 ≤ oldloc g ≤ NLOCATIONS ∧ 0 ≤ oldlc2 g ≤ NLOCATIONS;
  ok_dwarves : ∀ i, 0 ≤ i ≤ NDWARVES →
    ∃ d, zlookup (dwarves g) i = Some d
         ∧ -1 ≤ DwarfState.loc d ≤ NLOCATIONS ∧ -1 ≤ DwarfState.oldloc d ≤ NLOCATIONS;
  ok_objects : ∀ i, 0 ≤ i ≤ NOBJECTS →
    ∃ o, zlookup (objects g) i = Some o
         ∧ -1 ≤ ObjectState.place o ≤ NLOCATIONS ∧ -1 ≤ ObjectState.fixed o ≤ NLOCATIONS
         ∧ - MAX_STATE - 1 ≤ ObjectState.prop o ≤ MAX_STATE;
  ok_dtotal : 0 ≤ dtotal g ≤ NDWARVES ∧ 0 ≤ dkill g ≤ NDWARVES;
  ok_numdie : numdie g < NDEATHS;
  ok_table : ∀ i, 1 ≤ i ≤ NOBJECTS → is_Some (zlookup Dungeon.objects i);
  ok_tally : tally g = unfound g;
  ok_atloc : ∀ l, 0 ≤ l ≤ NLOCATIONS →
    ∃ ls, zlookup (locs g) l = Some ls ∧ 0 ≤ LocationState.atloc ls ≤ NOBJECTS * 2;
  ok_link : ∀ x v, 0 ≤ x ≤ NOBJECTS * 2 → zlookup (link g) x = Some v → 0 ≤ v ≤ NOBJECTS * 2
}.

End Accepted.

(** ** init.ts: setting up a game *)

Module LocationData.
(** The two descriptions of a location ([description.small] and
    [description.big]). *)
Record t : Type := mk { small : option string; big : option string }.
End LocationData.

(** dungeon.ts: the two further tables [initialise] reads. *)
Module InitTables.
Class t : Type := mk {
  dwarflocs : list Z;
  locations : list LocationData.t
}.
End InitTables.
Export InitTables (dwarflocs, locations).

Definition dwarf_set_loc (v : Z) (d : DwarfState.t) : DwarfState.t :=
  {| DwarfState.seen := DwarfState.seen d; DwarfState.loc := v;
     DwarfState.oldloc := DwarfState.oldloc d |}.

(** [a | b] on 32-bit integers. *)
Definition or32 (a b : Z) : Z := to_int32 (Z.lor (to_int32 a) (to_int32 b)).

Definition newline : string := String (ascii_of_nat 10) EmptyString.

(** A counted [for] loop whose body writes the state: [ds] lists the
    values of the loop variable in the order they are taken. *)
Fixpoint each (ds : list Z) (body : Z → GameState → result GameState) (g : GameState)
    : result GameState :=
  match ds with
  | [] => mret g
  | i :: rest => g1 ← body i g; each rest body g1
  end.

Section Initialise.
Context `{Dungeon.t, Obj.ids, Motion.ids, Location.ids, InitTables.t}.

(** "Set up dwarf locations". *)
Definition place_dwarf (i : Z) (g : GameState) : result GameState :=
  d ← field (dwarves g) i;
  l ← number dwarflocs (i - 1);
  mret (set_dwarves (zinsert i (dwarf_set_loc l d) (dwarves g)) g).

(** "Set all objects to LOC_NOWHERE initially". *)
Definition clear_place (i : Z) (g : GameState) : result GameState :=
  o ← field (objects g) i;
  mret (set_objects (zinsert i (ObjectState.set_place Location.LOC_NOWHERE o) (objects g)) g).

(** "Compute COND_FORCED bits": one round on the [conditions] table, which
    the source updates in place.  [tkey[i]] outside the table is
    [undefined], so is [travel[undefined]], and the location is left
    alone. *)
Definition forced_bit (conds : list Z) (i : Z) : result (list Z) :=
  match zlookup locations i with
  | None => mret conds
  | Some loc =>
      if bool_decide (LocationData.big loc = None) || bool_decide (zlookup tkey i = Some 0)
      then mret conds
      else
        match zlookup tkey i with
        | None => mret conds
        | Some k =>
            match zlookup travel k with
            | None => mret conds
            | Some t =>
                if decide (TravelOp.motion t = Motion.HERE)
                then store ArrayBounds conds i
                       (or32 (default 0 (zlookup conds i)) (shl32 1 COND_FORCED))
                else mret conds
            end
        end
  end.

Fixpoint forced_bits (ds : list Z) (conds : list Z) : result (list Z) :=
  match ds with
  | [] => mret conds
  | i :: rest => conds' ← forced_bit conds i; forced_bits rest conds'
  end.

(** "Two-placed objects first". *)
Definition place_two (i : Z) (g : GameState) : result GameState :=
  od ← field Dungeon.objects i;
  if decide (ObjectData.fixd od > 0) then
    g1 ← drop g (i + NOBJECTS) (ObjectData.fixd od);
    drop g1 i (ObjectData.plac od)
  else mret g.

(** "Then single-placed objects, also in reverse order". *)
Definition place_one (i : Z) (g : GameState) : result GameState :=
  let k := NOBJECTS + 1 - i in
  o ← field (objects g) k;
  od ← field Dungeon.objects k;
  let g1 := set_objects (zinsert k (ObjectState.set_fixed (ObjectData.fixd od) o) (objects g)) g in
  if decide (ObjectData.plac od ≠ 0 ∧ ObjectData.fixd od ≤ 0)
  then drop g1 k (ObjectData.plac od)
  else mret g1.

(** "Set treasure props". *)
Definition set_found_state (object : Z) (g : GameState) : result GameState :=
  od ← field Dungeon.objects object;
  if ObjectData.isTreasure od then
    let g1 := set_tally (tally g + 1) g in
    if decide (ObjectData.inventory od ≠ None) then OBJECT_SET_NOT_FOUND g1 object
    else mret g1
  else OBJECT_SET_FOUND g object.

(** [initialise].  The draw of [Math.random] is the argument [seedval];
    the call answers what it wrote to the standard output, the
    [conditions] table as it leaves it, and the seed. *)
Definition initialise (settings : Settings.t) (seedval : Z) : M (list string * list Z * Z) :=
  let written := if Settings.oldstyle settings
                 then ["Initialising..." +:+ newline] else [] in
  setSeed settings seedval;;
  update (each (seqZ 1 NDWARVES) place_dwarf);;
  update (each (seqZ 1 NOBJECTS) clear_place);;
  conds' ← lift (forced_bits (seqZ 1 NLOCATIONS) conditions);
  update (each (reverse (seqZ 1 NOBJECTS)) place_two);;
  update (each (seqZ 1 NOBJECTS) place_one);;
  update (each (seqZ 1 NOBJECTS) set_found_state);;
  modify (set_conds (setbit COND_HBASE));;
  mret (written, conds', seedval).

(** *** What [initialise] establishes *)

(** The place and the second place the table gives object [i]. *)
Definition plac_at (i : Z) : Z := default 0 (ObjectData.plac <$> zlookup Dungeon.objects i).
Definition fixd_at (i : Z) : Z := default 0 (ObjectData.fixd <$> zlookup Dungeon.objects i).

(** The state of object [i] after the last loop of [initialise]. *)
Definition first_prop (i : Z) : Z :=
  match zlookup Dungeon.objects i with
  | Some od => if ObjectData.isTreasure od && bool_decide (ObjectData.inventory od ≠ None)
               then STATE_NOTFOUND else STATE_FOUND
  | None => STATE_FOUND
  end.

(** The number of treasures of the table. *)
Definition treasures : Z :=
  Z.of_nat (length (filter (λ i, treasure i = true) (seqZ 1 NOBJECTS))).

(** Every link points into the index space. *)
Definition link_bounded (g : GameState) : Prop :=
  ∀ x v, zlookup (link g) x = Some v → 0 ≤ v ≤ NOBJECTS * 2.

(** The structure holds, nothing is held, and no object has a state. *)
Definition sound (g : GameState) : Prop :=
  WF g ∧ link_bounded g ∧ holdng g = 0
  ∧ zlookup (objects g) 0 = Some (ObjectState.mk 0 0 0)
  ∧ ∀ i, 1 ≤ i ≤ NOBJECTS → prop_of g i = Some 0.

(** The objects [i] with [S i] stand where the table has them, the
    others are still nowhere. *)
Definition placed (S : Z → bool) (g : GameState) : Prop :=
  ∀ i, 1 ≤ i ≤ NOBJECTS →
    if S i
    then node_home g i = Some (plac_at i) ∧ node_home g (i + NOBJECTS) = Some (fixd_at i)
    else node_home g i = Some 0 ∧ node_home g (i + NOBJECTS) = Some 0.

(** The fields that the object primitives leave alone. *)
Definition beside_objects (g : GameState) : GameState :=
  set_objects [] (set_holdng 0 (set_locs [] (set_link [] g))).

(** The fields that [initialise] leaves alone. *)
Definition untouched (g : GameState) : GameState :=
  set_conds 0 (set_tally 0 (set_dwarves [] (set_zzword "" (set_lcgX 0 (beside_objects g))))).

(** Location [i] has a long description, and its travel entries begin
    with one for the motion HERE: the player is moved on at once. *)
Definition forced_here (i : Z) : bool :=
  match zlookup locations i, zlookup tkey i with
  | Some loc, Some k =>
      bool_decide (LocationData.big loc ≠ None) && bool_decide (k ≠ 0)
      && match zlookup travel k with
         | Some t => bool_decide (TravelOp.motion t = Motion.HERE)
         | None => false
         end
  | _, _ => false
  end.

(** Where the table starts dwarf [i]. *)
Definition dwarfloc_at (i : Z) : Z := default 0 (zlookup dwarflocs (i - 1)).

End Initialise.

(** The two further tables of the small dungeon: six dwarves, and a long
    description for every room but the last. *)
Module SampleInit.

Definition tables : InitTables.t :=
  {| InitTables.dwarflocs := [1; 2; 3; 4; 1; 2];
     InitTables.locations :=
       [LocationData.mk None None;
        LocationData.mk (Some "Road") (Some "You are at the end of a road.");
        LocationData.mk None (Some "You are in a small chamber.");
        LocationData.mk None (Some "You are in an alcove.");
        LocationData.mk (Some "Grate") None] |}.

End SampleInit.

(** ** score.ts: scoring and wrap-up *)

Module Termination.
Definition endgame : Z := 0.
Definition quitgame : Z := 1.
Definition scoregame : Z := 2.
End Termination.

Module ClassData.
Record t : Type := mk { threshold : Z; message : option string }.
End ClassData.

Module HintData.
Record t : Type := mk { penalty : Z }.
End HintData.

(** dungeon.ts: the tables that the scoring reads, and further members
    of the enumerations [Location], [Obj] and [Msg]. *)
Module ScoreTables.
Class t : Type := mk {
  NCLASSES : Z;
  classes : list ClassData.t;
  hints : list HintData.t
}.
End ScoreTables.

Module Location'.
Class ids : Type := mk { LOC_BUILDING : Z; LOC_WITTSEND : Z }.
End Location'.

Module Obj'.
Class ids : Type := mk { CHEST : Z; MAGAZINE : Z }.
End Obj'.

Module Msg'.
Class ids : Type := mk {
  GARNERED_POINTS : Z;
  TOOK_LONG : Z;
  WITHOUT_SUSPENDS : Z;
  TOTAL_SCORE : Z;
  NEXT_HIGHER : Z;
  NO_HIGHER : Z;
  OFF_SCALE : Z
}.
End Msg'.

(** What [terminate] throws. *)
Inductive thrown : Type := TerminateError (code : Z).

Section Score.
Context `{Dungeon.t, ScoreTables.t, Location'.ids, Obj'.ids, Msg'.ids}.

(** "First tally up the treasures": one round of the loop on the pair
    of [points] and [mxscor]. *)
Definition score_treasure (g : GameState) (i : Z) (acc : Z * Z) : result (Z * Z) :=
  let '(points, mxscor) := acc in
  od ← field Dungeon.objects i;
  if negb (ObjectData.isTreasure od) then mret (points, mxscor)
  else if decide (ObjectData.inventory od ≠ None) then
    let k := if decide (i > Obj'.CHEST) then 16
             else if decide (i = Obj'.CHEST) then 14 else 12 in
    stashed ← OBJECT_IS_STASHED g i;
    unseen ← (if stashed : bool then mret true else OBJECT_IS_NOTFOUND g i);
    let points1 := if unseen : bool then points else points + 2 in
    o ← field (objects g) i;
    inbuilding ← (if decide (ObjectState.place o = Location'.LOC_BUILDING)
                  then OBJECT_IS_FOUND g i else mret false);
    let points2 := if inbuilding : bool then points1 + (k - 2) else points1 in
    mret (points2, mxscor + k)
  else mret (points, mxscor).

Fixpoint score_treasures (g : GameState) (ds : list Z) (acc : Z * Z) : result (Z * Z) :=
  match ds with
  | [] => mret acc
  | i :: rest => acc' ← score_treasure g i acc; score_treasures g rest acc'
  end.

(** "Deduct for hints". *)
Fixpoint score_hints (g : GameState) (ds : list Z) (points : Z) : result Z :=
  match ds with
  | [] => mret points
  | i :: rest =>
      h ← field (hints g) i;
      if HintState.used h then
        hd ← field ScoreTables.hints i;
        score_hints g rest (points - HintData.penalty hd)
      else score_hints g rest points
  end.

(** [score]: the points, and the value it leaves in the module variable
    [mxscor]. *)
Definition score (mode : Z) : M (Z * Z) :=
  g ← gets id;
  '(points, mxscor) ← lift (score_treasures g (seqZ 1 NOBJECTS) (0, 0));
  let points := points + (NDEATHS - numdie g) * 10 in
  let mxscor := mxscor + NDEATHS * 10 in
  let points := if decide (mode = Termination.endgame) then points + 4 else points in
  let mxscor := mxscor + 4 in
  let points := if decide (dflag g ≠ 0) then points + 25 else points in
  let mxscor := mxscor + 25 in
  let points := if closng g then points + 25 else points in
  let mxscor := mxscor + 25 in
  let points :=
    if closed g then
      let points := if decide (bonus g = 0) then points + 10 else points in
      let points := if decide (bonus g = 1) then points + 25 else points in
      let points := if decide (bonus g = 2) then points + 30 else points in
      if decide (bonus g = 3) then points + 45 else points
    else points in
  let mxscor := mxscor + 45 in
  magazine ← lift (field (objects g) Obj'.MAGAZINE);
  let points := if decide (ObjectState.place magazine = Location'.LOC_WITTSEND)
                then points + 1 else points in
  let mxscor := mxscor + 1 in
  let points := points + 2 in
  let mxscor := mxscor + 2 in
  points ← lift (score_hints g (seqZ 0 NHINTS) points);
  let points := if novice g then points - 5 else points in
  let points := if clshnt g then points - 10 else points in
  let points := points - trnluz g - saved g in
  (if decide (mode = Termination.scoregame)
   then rspeak Msg'.GARNERED_POINTS [points; mxscor; turns g; turns g]
   else mret ());;
  mret (points, mxscor).

(** The loop of [terminate] over the classes: [None] when no class
    takes the score. *)
Fixpoint rank (ds : list Z) (points : Z) : M (option thrown) :=
  match ds with
  | [] => mret None
  | i :: rest =>
      c ← lift (field ScoreTables.classes i);
      if decide (ClassData.threshold c >= points) then
        speak (ClassData.message c);;
        (if decide (i < ScoreTables.NCLASSES) then
           let nxt := ClassData.threshold c + 1 - points in
           rspeak Msg'.NEXT_HIGHER [nxt; nxt]
         else rspeak Msg'.NO_HIGHER []);;
        mret (Some (TerminateError 0))
      else rank rest points
  end.

(** [terminate] never returns: the value is the error it throws. *)
Definition terminate (mode : Z) : M thrown :=
  '(points, mxscor) ← score mode;
  g ← gets id;
  (if decide (points + trnluz g + 1 >= mxscor ∧ trnluz g ≠ 0)
   then rspeak Msg'.TOOK_LONG [] else mret ());;
  (if decide (points + saved g + 1 >= mxscor ∧ saved g ≠ 0)
   then rspeak Msg'.WITHOUT_SUSPENDS [] else mret ());;
  rspeak Msg'.TOTAL_SCORE [points; mxscor; turns g; turns g];;
  r ← rank (seqZ 1 ScoreTables.NCLASSES) points;
  match r with
  | Some e => mret e
  | None => rspeak Msg'.OFF_SCALE [];; mret (TerminateError 0)
  end.

(** *** The highest score *)

(** What treasure [i] is worth at most: nothing without an inventory
    text. *)
Definition worth (i : Z) : Z :=
  match zlookup Dungeon.objects i with
  | Some od =>
      if ObjectData.isTreasure od && bool_decide (ObjectData.inventory od ≠ None)
      then (if decide (i > Obj'.CHEST) then 16
            else if decide (i = Obj'.CHEST) then 14 else 12)
      else 0
  | None => 0
  end.

(** The threshold of class [i]. *)
Definition threshold_at (i : Z) : Z :=
  default 0 (ClassData.threshold <$> zlookup ScoreTables.classes i).

Definition max_score : Z :=
  foldr Z.add 0 (worth <$> seqZ 1 NOBJECTS) + NDEATHS * 10 + 102.

End Score.

(** The scoring tables of the small dungeon: three classes, two hints. *)
Module SampleScore.

Definition tables : ScoreTables.t :=
  {| ScoreTables.NCLASSES := 3;
     ScoreTables.classes :=
       [ClassData.mk 0 None;
        ClassData.mk 45 (Some "You are obviously a rank amateur.");
        ClassData.mk 120 (Some "You have achieved the rating: Experienced Adventurer.");
        ClassData.mk 9999 (Some "All of Adventuredom gives tribute to you!")];
     ScoreTables.hints := [HintData.mk 2; HintData.mk 5] |}.

Definition locations : Location'.ids :=
  {| Location'.LOC_BUILDING := 1; Location'.LOC_WITTSEND := 4 |}.

Definition obj : Obj'.ids := {| Obj'.CHEST := 12; Obj'.MAGAZINE := 7 |}.

Definition msg : Msg'.ids :=
  {| Msg'.GARNERED_POINTS := 28; Msg'.TOOK_LONG := 29; Msg'.WITHOUT_SUSPENDS := 30;
     Msg'.TOTAL_SCORE := 31; Msg'.NEXT_HIGHER := 32; Msg'.NO_HIGHER := 33;
     Msg'.OFF_SCALE := 34 |}.

End SampleScore.

(** ** format.ts: the text of a message *)

(** An argument of a speaking call: a number or a string. *)
Inductive arg : Type :=
  | ANum (n : Z)
  | AStr (s : string).

Definition VERSION : string := "1.20".

(** [String(a)] for an argument that may be missing: the decimal digits
    of a number, the string itself, or the text of [undefined]. *)
Definition arg_text (a : option arg) : string :=
  match a with
  | Some (ANum n) => pretty n
  | Some (AStr s) => s
  | None => "undefined"
  end.

(** [arg !== 1]. *)
Definition not_one (a : option arg) : bool :=
  match a with
  | Some (ANum n) => bool_decide (n ≠ 1)
  | _ => true
  end.

(** The test at index [i], on the text from [i] on: the next five
    characters are "floor", and a blank, a full stop or the end follows. *)
Definition floor_here (msg : string) : bool :=
  String.prefix "floor" msg
  && match String.get 5 msg with
     | Some c => Ascii.eqb c " " || Ascii.eqb c "."
     | None => true
     end.

(** The [for] loop of [vspeak] on the text from index [i] on.  [skip]
    counts the characters still to pass after [i += 4]; [ground] is
    [!INSIDE(...)]. *)
Fixpoint vspeak_loop (ground : bool) (skip : nat) (msg : string)
    (rendered : string) (pluralize : bool) (args : list arg) : string :=
  match msg with
  | EmptyString => rendered
  | String c rest =>
      match skip with
      | S k => vspeak_loop ground k rest rendered pluralize args
      | O =>
          if negb (Ascii.eqb c "%") then
            if floor_here msg && ground
            then vspeak_loop ground 4 rest (rendered +:+ "ground") pluralize args
            else vspeak_loop ground 0 rest (rendered +:+ String c EmptyString) pluralize args
          else
            match rest with
            | EmptyString => rendered
            | String d rest' =>
                if Ascii.eqb d "d" then
                  vspeak_loop ground 0 rest' (rendered +:+ arg_text (head args))
                    (not_one (head args)) (tail args)
                else if Ascii.eqb d "s" then
                  vspeak_loop ground 0 rest' (rendered +:+ arg_text (head args))
                    pluralize (tail args)
                else if Ascii.eqb d "S" then
                  vspeak_loop ground 0 rest'
                    (if pluralize then rendered +:+ "s" else rendered) pluralize args
                else if Ascii.eqb d "V" then
                  vspeak_loop ground 0 rest' (rendered +:+ VERSION) pluralize args
                else vspeak_loop ground 0 rest' rendered pluralize args
            end
      end
  end.

(** The character [a] does not occur in [s]. *)
Fixpoint lacks (a : ascii) (s : string) : bool :=
  match s with
  | EmptyString => true
  | String c rest => negb (Ascii.eqb c a) && lacks a rest
  end.

(** dungeon.ts: the texts of the numbered messages. *)
Module Messages.
Class t : Type := mk { arbitraryMessages : list (option string) }.
End Messages.

Section Speaking.
Context `{Dungeon.t, Location'.ids, Messages.t}.

(** [vspeak]: what it hands to [io.print], call by call. *)
Definition vspeak (g : GameState) (msg : option string) (blank : bool) (args : list arg)
    : list string :=
  match msg with
  | None => []
  | Some m =>
      if decide (String.length m = 0%nat) then []
      else
        (if blank then [newline] else [])
        ++ [vspeak_loop (negb (INSIDE conditions (loc g) Location'.LOC_BUILDING)) 0 m ""
              false args +:+ newline]
  end.

(** [arbitraryMessages[i] ?? null]. *)
Definition rspeak_text (g : GameState) (i : Z) (args : list arg) : list string :=
  vspeak g (default None (zlookup Messages.arbitraryMessages i)) true args.

End Speaking.

(** Two messages, and the small dungeon with room 2 under the open sky. *)
Module SampleText.

Definition messages : Messages.t :=
  {| Messages.arbitraryMessages :=
       [None; Some "You have %d point%S."; Some "There is sand on the floor."] |}.

Definition outdoors : Dungeon.t :=
  {| Dungeon.NLOCATIONS := @NLOCATIONS Sample.dungeon;
     Dungeon.NOBJECTS := @NOBJECTS Sample.dungeon;
     Dungeon.NHINTS := @NHINTS Sample.dungeon;
     Dungeon.NDWARVES := @NDWARVES Sample.dungeon;
     Dungeon.NDEATHS := @NDEATHS Sample.dungeon;
     Dungeon.MAX_STATE := @MAX_STATE Sample.dungeon;
     Dungeon.objects := @Dungeon.objects Sample.dungeon;
     Dungeon.actions := @Dungeon.actions Sample.dungeon;
     Dungeon.travel := @travel Sample.dungeon;
     Dungeon.tkey := @tkey Sample.dungeon;
     Dungeon.conditions := [0; 0; setbit COND_ABOVE; 0; 0] |}.

End SampleText.

(** * Properties *)

(** Unfolds the monad of speaking code, leaving the engine's own
    functions folded. *)
Ltac run_M :=
  cbv [mbind mret M_bind M_ret gets modify emit throw lift update embed rspeak entry].

(** Closes the side goals that are arithmetic, propositional or by
    congruence. *)
Ltac crush := first [done | tauto | lia | congruence].

(** ** Arrays *)

Section Arrays.
Context {A : Type}.
Implicit Types (l : list A) (i j : Z) (x : A).

Lemma zlookup_Some l i x : zlookup l i = Some x → 0 ≤ i < Z.of_nat (length l).
Proof.
  unfold zlookup. case_decide; [|done]. intros Hl.
  apply lookup_lt_Some in Hl. lia.
Qed.

Lemma zlookup_is_Some l i : 0 ≤ i < Z.of_nat (length l) → is_Some (zlookup l i).
Proof.
  intros Hi. unfold zlookup. rewrite decide_True by lia.
  apply lookup_lt_is_Some. lia.
Qed.

Lemma zlookup_zinsert_eq l i x : is_Some (zlookup l i) → zlookup (zinsert i x l) i = Some x.
Proof.
  intros [y Hy]. pose proof (zlookup_Some _ _ _ Hy).
  unfold zlookup, zinsert. rewrite decide_True by lia.
  apply list_lookup_insert_eq. lia.
Qed.

Lemma zlookup_zinsert_ne l i j x : 0 ≤ i → i ≠ j → zlookup (zinsert i x l) j = zlookup l j.
Proof.
  intros Hi Hne. unfold zlookup, zinsert. case_decide; [|done].
  apply list_lookup_insert_ne. lia.
Qed.

Lemma length_zinsert l i x : length (zinsert i x l) = length l.
Proof. apply length_insert. Qed.

Lemma zlookup_replicate (n : nat) x i :
  zlookup (replicate n x) i = if decide (0 ≤ i < Z.of_nat n) then Some x else None.
Proof.
  unfold zlookup. case_decide.
  - case_decide.
    + apply lookup_replicate_2. lia.
    + apply lookup_ge_None. rewrite length_replicate. lia.
  - rewrite decide_False by lia. done.
Qed.

End Arrays.

(** ** Chains *)

Section Chains.
Implicit Types (lnk : list Z) (h x : Z) (l : list Z).

Lemma chain_head_zero lnk l : chain lnk 0 l → l = [].
Proof. inversion 1; [done | congruence]. Qed.

Lemma chain_det lnk h l1 l2 : chain lnk h l1 → chain lnk h l2 → l1 = l2.
Proof.
  intros H1. revert l2. induction H1 as [|h n l Hh Hn _ IH]; intros l2 H2.
  - by apply chain_head_zero in H2.
  - inversion H2 as [|h' n' l' _ Hn' Hl']; subst; [done|].
    rewrite Hn in Hn'. injection Hn' as <-. f_equal. by apply IH.
Qed.

Lemma chain_nonzero lnk h l : chain lnk h l → 0 ∉ l.
Proof.
  induction 1 as [|h n l Hh _ _ IH]; [apply not_elem_of_nil|].
  apply not_elem_of_cons. split; [congruence | done].
Qed.

Lemma chain_link lnk h l x : chain lnk h l → x ∈ l → is_Some (zlookup lnk x).
Proof.
  induction 1 as [|h n l Hh Hn _ IH]; intros Hx.
  - by apply elem_of_nil in Hx.
  - apply elem_of_cons in Hx as [->|Hx]; [by eexists | by apply IH].
Qed.

(** The part of a chain that starts at one of its nodes is a chain. *)
Lemma chain_suffix lnk h l1 x l2 : chain lnk h (l1 ++ x :: l2) → chain lnk x (x :: l2).
Proof.
  revert h. induction l1 as [|y l1 IH]; intros h Hc; simpl in Hc.
  - inversion Hc; subst. by econstructor.
  - inversion Hc; subst. by eapply IH.
Qed.

(** A chain that ends cannot visit a node twice. *)
Lemma chain_NoDup lnk h l : chain lnk h l → NoDup l.
Proof.
  induction 1 as [|h n l Hh Hn Hc IH]; [constructor|].
  apply NoDup_cons. split; [|done].
  intros Hin. apply list_elem_of_split in Hin as (l1 & l2 & ->).
  pose proof (chain_suffix _ _ _ _ _ Hc) as Hs.
  assert (Hfull : chain lnk h (h :: l1 ++ h :: l2)) by (by econstructor).
  pose proof (chain_det _ _ _ _ Hs Hfull) as Heq.
  apply (f_equal length) in Heq. simpl in Heq. rewrite length_app in Heq. simpl in Heq. lia.
Qed.

(** A chain only depends on the links of its own nodes. *)
Lemma chain_ext lnk lnk' h l :
  chain lnk h l → (∀ x, x ∈ l → zlookup lnk' x = zlookup lnk x) → chain lnk' h l.
Proof.
  induction 1 as [|h n l Hh Hn _ IH]; intros Hext; [constructor|].
  econstructor; [done| |].
  - rewrite Hext; [done | apply elem_of_cons; by left].
  - apply IH. intros x Hx. apply Hext. apply elem_of_cons. by right.
Qed.

Lemma reaches_chain lnk h l x : chain lnk h l → reaches lnk h x ↔ x ∈ l.
Proof.
  intros Hc. split.
  - intros Hr. revert l Hc. induction Hr as [h Hh|h n x Hh Hn _ IH]; intros l Hc.
    + inversion Hc; subst; [done|]. apply elem_of_cons. by left.
    + inversion Hc as [|h' n' l' _ Hn' Hl']; subst; [done|].
      rewrite Hn in Hn'. injection Hn' as <-. apply elem_of_cons. right. by apply IH.
  - induction Hc as [|h n l Hh Hn _ IH]; intros Hx.
    + by apply elem_of_nil in Hx.
    + apply elem_of_cons in Hx as [->|Hx]; [by constructor|].
      eapply reaches_next; [done..|by apply IH].
Qed.

(** The length of a chain is bounded by the size of the link array. *)
Lemma chain_length lnk h l : chain lnk h l → (length l ≤ length lnk)%nat.
Proof.
  intros Hc.
  assert (Hnd : NoDup (Z.to_nat <$> l)).
  { apply NoDup_fmap_2_strong; [|by eapply chain_NoDup].
    intros x y Hx Hy Heq.
    destruct (chain_link _ _ _ _ Hc Hx) as [? Hx'%zlookup_Some].
    destruct (chain_link _ _ _ _ Hc Hy) as [? Hy'%zlookup_Some]. lia. }
  assert (Hsub : (Z.to_nat <$> l) ⊆ seq 0 (length lnk)).
  { intros k Hk. apply list_elem_of_fmap in Hk as (x & -> & Hx).
    destruct (chain_link _ _ _ _ Hc Hx) as [? Hx'%zlookup_Some].
    apply elem_of_seq. lia. }
  pose proof (submseteq_length _ _ (NoDup_submseteq _ _ Hnd (λ k Hk, Hsub k Hk))) as Hlen.
  rewrite length_fmap, length_seq in Hlen. done.
Qed.

End Chains.

(** ** Numbers *)

(** A safe integer is a double. *)
Lemma to_double_small z : - 2 ^ 53 < z < 2 ^ 53 → to_double z = z.
Proof. intros Hz. unfold to_double. rewrite decide_True by lia. done. Qed.

(** Rounding is off by at most half a unit of the last place. *)
Lemma to_double_near z :
  2 ^ 53 ≤ z → 0 ≤ to_double z ≤ z + 2 ^ (Z.log2 z - 53).
Proof.
  intros Hz. unfold to_double. rewrite Z.abs_eq by lia. rewrite decide_False by lia.
  rewrite Z.sgn_pos by lia.
  assert (53 ≤ Z.log2 z) as Hlog by (apply Z.log2_le_pow2; lia).
  set (e := Z.log2 z - 52). replace (Z.log2 z - 53) with (e - 1) by lia.
  assert (2 ^ e = 2 * 2 ^ (e - 1)) as Hpow.
  { replace e with (Z.succ (e - 1)) at 1 by lia. apply Z.pow_succ_r. lia. }
  assert (0 < 2 ^ (e - 1)) as Hhalf by (apply Z.pow_pos_nonneg; lia).
  pose proof (Z.div_mod z (2 ^ e) ltac:(lia)) as Hdm.
  pose proof (Z.mod_pos_bound z (2 ^ e) ltac:(lia)) as Hr.
  assert (0 ≤ z `div` 2 ^ e) as Hq by (apply Z.div_pos; lia).
  set (q := z `div` 2 ^ e) in *. set (r := z `mod` 2 ^ e) in *.
  set (h := 2 ^ (e - 1)) in *. set (p := 2 ^ e) in *.
  repeat case_decide; try destruct (Z.even q); nia.
Qed.

(** Above 2^53 only every second integer is a double, and a tie goes to the
    even significand; the product of 2^40 + 1 and 2^20 - 1 is rounded up. *)
Example to_double_rounds :
  to_double (2 ^ 53 + 1) = 2 ^ 53
  ∧ to_double (2 ^ 53 + 2) = 2 ^ 53 + 2
  ∧ to_double (2 ^ 53 + 3) = 2 ^ 53 + 4
  ∧ to_double (2 ^ 54 + 2) = 2 ^ 54
  ∧ to_double (2 ^ 54 + 3) = 2 ^ 54 + 4
  ∧ to_double (- (2 ^ 53 + 3)) = - (2 ^ 53 + 4)
  ∧ to_double ((2 ^ 40 + 1) * 1048575) = 2 ^ 60 - 2 ^ 40 + 2 ^ 20.
Proof. repeat split; vm_compute; reflexivity. Qed.

Section ChainUpdates.
Implicit Types (lnk : list Z) (h x p n : Z) (l : list Z).

(** The scan of [carry] stops at the node before [x]. *)
Lemma carry_scan_finds lnk h l1 p x l2 (fuel : nat) :
  chain lnk h (l1 ++ p :: x :: l2) → x ∉ l1 ++ [p] → (length l1 < fuel)%nat →
  carry_scan fuel lnk x h = Ok p.
Proof.
  revert h fuel. induction l1 as [|y l1 IH]; intros h fuel Hc Hx Hf.
  - destruct fuel as [|fuel]; [lia|]. simpl in *.
    inversion Hc as [|h' n l' _ Hn Hc']; subst.
    inversion Hc'; subst.
    unfold number. rewrite Hn. simpl. by rewrite decide_True.
  - destruct fuel as [|fuel]; [simpl in Hf; lia|]. simpl in *.
    inversion Hc as [|h' n l' _ Hn Hc']; subst.
    unfold number. rewrite Hn. simpl.
    assert (n ≠ x) as Hnx.
    { intros ->. apply Hx. apply elem_of_cons. right.
      destruct l1; inversion Hc'; subst; simpl; apply elem_of_cons; by left. }
    rewrite decide_False by done.
    apply IH; [done| |lia].
    intros Hin. apply Hx. apply elem_of_cons. by right.
Qed.

(** Relinking the node before [x] to the node after it takes [x] out. *)
Lemma chain_unlink lnk h l1 p x l2 n :
  chain lnk h (l1 ++ p :: x :: l2) → zlookup lnk x = Some n →
  chain (zinsert p n lnk) h (l1 ++ p :: l2).
Proof.
  intros Hc Hn. pose proof (chain_NoDup _ _ _ Hc) as Hnd.
  revert h Hc Hnd. induction l1 as [|y l1 IH]; intros h Hc Hnd; simpl in *.
  - inversion Hc as [|h' m l' Hp Hm Hc']; subst.
    inversion Hc' as [|h' m' l' Hx Hm' Hc'']; subst.
    rewrite Hn in Hm'. injection Hm' as <-.
    apply NoDup_cons in Hnd as [Hp1 Hnd]. apply NoDup_cons in Hnd as [Hx1 Hnd].
    econstructor; [done| |].
    + apply zlookup_zinsert_eq. by eexists.
    + eapply chain_ext; [done|]. intros z Hz. apply zlookup_zinsert_ne.
      * apply zlookup_Some in Hm. lia.
      * intros ->. apply Hp1. apply elem_of_cons. by right.
  - inversion Hc as [|h' m l' Hy Hm Hc']; subst.
    apply NoDup_cons in Hnd as [Hy1 Hnd].
    econstructor; [done| |by apply IH].
    rewrite zlookup_zinsert_ne; [done| |].
    + assert (p ∈ l1 ++ p :: x :: l2) as Hp by (apply elem_of_app; right; apply elem_of_cons; by left).
      destruct (chain_link _ _ _ _ Hc' Hp) as [? Hp'%zlookup_Some]. lia.
    + intros ->. apply Hy1. apply elem_of_app. right. apply elem_of_cons. by left.
Qed.

(** Linking a fresh node in front of a chain. *)
Lemma chain_push lnk a l x :
  chain lnk a l → x ≠ 0 → x ∉ l → is_Some (zlookup lnk x) →
  chain (zinsert x a lnk) x (x :: l).
Proof.
  intros Hc Hx Hnin Hsome.
  pose proof Hsome as [? Hr%zlookup_Some].
  econstructor; [done| |].
  - by apply zlookup_zinsert_eq.
  - eapply chain_ext; [done|]. intros z Hz. apply zlookup_zinsert_ne; [lia|].
    intros ->. done.
Qed.

End ChainUpdates.

(** ** The bound of the loops

    The loops are written with a bound on their rounds.  A larger bound
    changes nothing: where a loop ends with [Diverges], the loop of the
    source does not end. *)

Section ScanBound.
Implicit Types (lnk : list Z) (object temp : Z) (l : list Z) (r : result Z).

Lemma scan_det lnk object temp l1 r1 l2 r2 :
  scan lnk object temp l1 r1 → scan lnk object temp l2 r2 → l1 = l2 ∧ r1 = r2.
Proof.
  intros H1. revert l2 r2.
  induction H1 as [t Ht|t Ht|t n l r Ht Hn _ IH]; intros l2 r2 H2;
    inversion H2; subst; try congruence; try done.
  assert (n0 = n) as -> by congruence.
  destruct (IH _ _ ltac:(eassumption)) as [-> ->]. done.
Qed.

Lemma scan_suffix lnk object temp l1 x l2 r :
  scan lnk object temp (l1 ++ x :: l2) r → scan lnk object x (x :: l2) r.
Proof.
  revert temp. induction l1 as [|y l1 IH]; intros temp Hs; simpl in Hs.
  - inversion Hs; subst. by econstructor.
  - inversion Hs; subst. by eapply IH.
Qed.

Lemma scan_link lnk object temp l r x :
  scan lnk object temp l r → x ∈ l → is_Some (zlookup lnk x).
Proof.
  induction 1 as [| |t n l r Ht Hn _ IH]; intros Hx; [by apply elem_of_nil in Hx..|].
  apply elem_of_cons in Hx as [->|Hx]; [by eexists | by apply IH].
Qed.

(** A scan that stops passes no node twice. *)
Lemma scan_NoDup lnk object temp l r : scan lnk object temp l r → NoDup l.
Proof.
  induction 1 as [| |t n l r Ht Hn Hs IH]; [constructor..|].
  apply NoDup_cons. split; [|done].
  intros Hin. apply list_elem_of_split in Hin as (l1 & l2 & ->).
  pose proof (scan_suffix _ _ _ _ _ _ _ Hs) as Hsuf.
  assert (Hfull : scan lnk object t (t :: l1 ++ t :: l2) r) by (by econstructor).
  destruct (scan_det _ _ _ _ _ _ _ Hsuf Hfull) as [Heq _].
  apply (f_equal length) in Heq. simpl in Heq. rewrite length_app in Heq. simpl in Heq. lia.
Qed.

Lemma scan_length lnk object temp l r :
  scan lnk object temp l r → (length l ≤ length lnk)%nat.
Proof.
  intros Hs.
  assert (Hnd : NoDup (Z.to_nat <$> l)).
  { apply NoDup_fmap_2_strong; [|by eapply scan_NoDup].
    intros x y Hx Hy Heq.
    destruct (scan_link _ _ _ _ _ _ Hs Hx) as [? Hx'%zlookup_Some].
    destruct (scan_link _ _ _ _ _ _ Hs Hy) as [? Hy'%zlookup_Some]. lia. }
  assert (Hsub : (Z.to_nat <$> l) ⊆ seq 0 (length lnk)).
  { intros k Hk. apply list_elem_of_fmap in Hk as (x & -> & Hx).
    destruct (scan_link _ _ _ _ _ _ Hs Hx) as [? Hx'%zlookup_Some].
    apply elem_of_seq. lia. }
  pose proof (submseteq_length _ _ (NoDup_submseteq _ _ Hnd (λ k Hk, Hsub k Hk))) as Hlen.
  rewrite length_fmap, length_seq in Hlen. done.
Qed.

Lemma scan_run lnk object temp l r (fuel : nat) :
  scan lnk object temp l r → (length l < fuel)%nat → carry_scan fuel lnk object temp = r.
Proof.
  intros Hs. revert fuel.
  induction Hs as [t Ht|t Ht|t n l r Ht Hn _ IH]; intros [|fuel] Hf; simpl in Hf; try lia;
    cbn [carry_scan]; unfold number; rewrite Ht; simpl.
  - done.
  - by rewrite decide_True.
  - rewrite decide_False by done. apply IH. lia.
Qed.

Lemma run_scan lnk object temp r (fuel : nat) :
  carry_scan fuel lnk object temp = r → r ≠ Fail Diverges →
  ∃ l, scan lnk object temp l r ∧ (length l < fuel)%nat.
Proof.
  revert temp. induction fuel as [|fuel IH]; intros temp Hrun Hr; [simpl in Hrun; congruence|].
  cbn [carry_scan] in Hrun. unfold number in Hrun.
  destruct (zlookup lnk temp) as [n|] eqn:Ht; simpl in Hrun.
  - destruct (decide (n = object)) as [->|Hn].
    + subst r. exists []. split; [by apply scan_found | simpl; lia].
    + destruct (IH _ Hrun Hr) as (l & Hs & Hl).
      exists (temp :: l). split; [by econstructor | simpl; lia].
  - subst r. exists []. split; [by apply scan_outside | simpl; lia].
Qed.

(** The scan of [carry] needs no more rounds than the link array has
    cells, and one. *)
Lemma carry_scan_bound lnk object temp (fuel : nat) :
  (S (length lnk) ≤ fuel)%nat →
  carry_scan fuel lnk object temp = carry_scan (S (length lnk)) lnk object temp.
Proof.
  intros Hf.
  assert (Hup : ∀ f1 f2 r, carry_scan f1 lnk object temp = r → r ≠ Fail Diverges →
                 (S (length lnk) ≤ f2)%nat → carry_scan f2 lnk object temp = r).
  { intros f1 f2 r Hrun Hr Hf2. destruct (run_scan _ _ _ _ _ Hrun Hr) as (l & Hs & _).
    apply (scan_run _ _ _ _ _ _ Hs). pose proof (scan_length _ _ _ _ _ Hs). lia. }
  assert (Hdec : ∀ r, r = Fail Diverges ∨ r ≠ @Fail Z Diverges).
  { intros [a|[]]; (by left) || (by right). }
  destruct (Hdec (carry_scan fuel lnk object temp)) as [Hd|Hd].
  - destruct (Hdec (carry_scan (S (length lnk)) lnk object temp)) as [Hd'|Hd'];
      [congruence|].
    rewrite (Hup _ fuel _ eq_refl Hd' Hf). done.
  - symmetry. by apply (Hup fuel).
Qed.

End ScanBound.

Section TravelBound.
Context `{Dungeon.t, Obj.ids, Motion.ids, Msg.ids, Location.ids, ObjState.ids}.
Variable settings : Settings.t.
Variable croak : M unit.
Implicit Types (g : GameState) (motion te e : Z) (fuel : nat).

(** Below, a cursor [te] with [te < 0 ∨ length travel - te ≤ fuel] is
    within [fuel] rounds of the end of the table, or before the table,
    where the first read fails. *)

Lemma near_travel_fuel te fuel :
  (travel_fuel ≤ S fuel)%nat → te < 0 ∨ Z.of_nat (length travel) - te ≤ Z.of_nat fuel.
Proof. unfold travel_fuel. intros Hf. destruct (decide (te < 0)); [by left | right; lia]. Qed.

(** One induction serves the three scans: both bounds are unfolded once,
    the read of the entry under the cursor is split, and the bounds that
    cannot hold there are dismissed. *)
Local Ltac rounds f IH tac :=
  let k1 := fresh "k" in let k2 := fresh "k" in
  let te := fresh "te" in let Hn1 := fresh "Hn" in let Hn2 := fresh "Hn" in
  let op := fresh "op" in let Hop := fresh "Hop" in
  induction f as [|f IH]; intros [|f2] te Hn1 Hn2;
  [ | | | set (k1 := S f); set (k2 := S f2) ];
  cbn [find_entry back_scan skip_same]; unfold field;
  (destruct (zlookup travel te) as [op|] eqn:Hop; cbn [mbind result_bind]; [|done]);
  apply zlookup_Some in Hop; [lia..|];
  subst k1 k2; tac; rewrite (IH f2 (te + 1)) by (right; lia); done.

Lemma find_entry_rounds motion (f1 f2 : nat) te :
  te < 0 ∨ Z.of_nat (length travel) - te ≤ Z.of_nat f1 →
  te < 0 ∨ Z.of_nat (length travel) - te ≤ Z.of_nat f2 →
  find_entry (S f1) motion te = find_entry (S f2) motion te.
Proof. revert f2 te. rounds f1 IH idtac. Qed.

Lemma find_entry_bound motion te fuel :
  (travel_fuel ≤ fuel)%nat → find_entry fuel motion te = find_entry travel_fuel motion te.
Proof.
  intros Hf. destruct fuel as [|fuel]; [unfold travel_fuel in Hf; lia|].
  unfold travel_fuel. apply find_entry_rounds; by apply near_travel_fuel.
Qed.

Lemma back_scan_rounds motion (f1 f2 : nat) te :
  te < 0 ∨ Z.of_nat (length travel) - te ≤ Z.of_nat f1 →
  te < 0 ∨ Z.of_nat (length travel) - te ≤ Z.of_nat f2 →
  ∀ teTmp, back_scan (S f1) motion te teTmp = back_scan (S f2) motion te teTmp.
Proof.
  revert f2 te.
  rounds f1 IH
    ltac:(intros teTmp; destruct (decide _); [|done];
          match goal with |- mbind _ ?m = _ => destruct m; cbn [mbind result_bind]; [|done] end).
Qed.

Lemma back_scan_bound motion te teTmp fuel :
  (travel_fuel ≤ fuel)%nat →
  back_scan fuel motion te teTmp = back_scan travel_fuel motion te teTmp.
Proof.
  intros Hf. destruct fuel as [|fuel]; [unfold travel_fuel in Hf; lia|].
  unfold travel_fuel. apply back_scan_rounds; by apply near_travel_fuel.
Qed.

Lemma skip_same_rounds e (f1 f2 : nat) te :
  te < 0 ∨ Z.of_nat (length travel) - te ≤ Z.of_nat f1 →
  te < 0 ∨ Z.of_nat (length travel) - te ≤ Z.of_nat f2 →
  skip_same (S f1) e te = skip_same (S f2) e te.
Proof. revert f2 te. rounds f1 IH idtac. Qed.

Lemma skip_same_bound e te fuel :
  (travel_fuel ≤ fuel)%nat → skip_same fuel e te = skip_same travel_fuel e te.
Proof.
  intros Hf. destruct fuel as [|fuel]; [unfold travel_fuel in Hf; lia|].
  unfold travel_fuel. apply skip_same_rounds; by apply near_travel_fuel.
Qed.

(** The skip moves the cursor forward. *)
Lemma skip_same_forward e te te' fuel : skip_same fuel e te = Ok te' → te < te'.
Proof.
  revert te. induction fuel as [|fuel IH]; intros te; cbn [skip_same]; [done|].
  unfold field. destruct (zlookup travel te) as [op|]; simpl; [|done].
  destruct (TravelOp.stop op); [done|].
  destruct (traveleq e (te + 1)) as [[]|]; simpl; [|intros [= <-]; lia|done].
  intros Hs%IH. lia.
Qed.

(** The search for an eligible entry moves forward inside the table. *)
Lemma find_eligible_forward fuel te g e g' out :
  find_eligible settings fuel te g = Done e g' out →
  0 ≤ te ≤ e ∧ e < Z.of_nat (length travel).
Proof.
  revert te g e g' out.
  induction fuel as [|fuel IH]; intros te g e g' out; cbn [find_eligible]; [done|].
  run_M. unfold field. destruct (zlookup travel te) as [op|] eqn:Hop; [|done].
  apply zlookup_Some in Hop.
  destruct (condition_met settings op g) as [[|] g1 o1|]; [intros [= <- _ _]; lia| |done].
  destruct (skip_same travel_fuel te te) as [t'|] eqn:Hs; [|done].
  apply skip_same_forward in Hs.
  destruct (find_eligible settings fuel t' g1) as [e' g2 o2|] eqn:He; [|done].
  apply IH in He. intros [= <- _ _]. lia.
Qed.

Lemma find_eligible_rounds (f1 f2 : nat) te g :
  te < 0 ∨ Z.of_nat (length travel) - te ≤ Z.of_nat f1 →
  te < 0 ∨ Z.of_nat (length travel) - te ≤ Z.of_nat f2 →
  find_eligible settings (S f1) te g = find_eligible settings (S f2) te g.
Proof.
  revert f2 te g.
  induction f1 as [|f1 IH]; intros [|f2] te g Hn1 Hn2;
    [ | | | set (k1 := S f1); set (k2 := S f2) ];
    cbn [find_eligible]; run_M; unfold field;
    (destruct (zlookup travel te) as [op|] eqn:Hop; [|done]);
    apply zlookup_Some in Hop; [lia..|].
  destruct (condition_met settings op g) as [[|] g1 o1|]; [done| |done].
  destruct (skip_same travel_fuel te te) as [t'|] eqn:Hs; [|done].
  apply skip_same_forward in Hs. subst k1 k2.
  rewrite (IH f2 t' g1) by (right; lia). done.
Qed.

Lemma find_eligible_bound te g fuel :
  (travel_fuel ≤ fuel)%nat →
  find_eligible settings fuel te g = find_eligible settings travel_fuel te g.
Proof.
  intros Hf. destruct fuel as [|fuel]; [unfold travel_fuel in Hf; lia|].
  unfold travel_fuel. apply find_eligible_rounds; by apply near_travel_fuel.
Qed.

(** A rule that sends [playermove] back to L12 does so further on. *)
Lemma execute_rule_forward e g te' g' out :
  execute_rule croak e g = Done (Some te') g' out → e < te'.
Proof.
  unfold execute_rule. run_M. intros Hrun.
  repeat case_match; simplify_eq.
  by eapply skip_same_forward.
Qed.

Lemma travel_rules_rounds (f1 f2 : nat) te g :
  te < 0 ∨ Z.of_nat (length travel) - te ≤ Z.of_nat f1 →
  te < 0 ∨ Z.of_nat (length travel) - te ≤ Z.of_nat f2 →
  travel_rules settings croak (S f1) te g = travel_rules settings croak (S f2) te g.
Proof.
  revert f2 te g.
  induction f1 as [|f1 IH]; intros [|f2] te g Hn1 Hn2;
    [ | | | set (k1 := S f1); set (k2 := S f2) ];
    cbn [travel_rules]; run_M;
    (destruct (find_eligible settings travel_fuel te g) as [e g1 o1|] eqn:He; [|done]);
    apply find_eligible_forward in He; [lia..|].
  destruct (execute_rule croak e g1) as [[t'|] g2 o2|] eqn:Hx; [|done..].
  apply execute_rule_forward in Hx. subst k1 k2.
  rewrite (IH f2 t' g2) by (right; lia). done.
Qed.

(** The L12 loop needs no more rounds than the table has entries, and
    one. *)
Lemma travel_rules_bound te g fuel :
  (travel_fuel ≤ fuel)%nat →
  travel_rules settings croak fuel te g = travel_rules settings croak travel_fuel te g.
Proof.
  intros Hf. destruct fuel as [|fuel]; [unfold travel_fuel in Hf; lia|].
  unfold travel_fuel. apply travel_rules_rounds; by apply near_travel_fuel.
Qed.

End TravelBound.

Section Linking.
Context `{Dungeon.t, Obj.ids}.
Implicit Types (g : GameState) (x w a : Z) (l : list Z).

Lemma atloc_at_Some g w a :
  atloc_at g w = Some a ↔ ∃ ls, zlookup (locs g) w = Some ls ∧ LocationState.atloc ls = a.
Proof.
  unfold atloc_at. destruct (zlookup (locs g) w) as [ls|]; simpl; split.
  - intros [= <-]. by eexists.
  - intros (? & [= <-] & <-). done.
  - done.
  - intros (? & ? & _). done.
Qed.

(** Taking a node out of the chain it is in. *)
Lemma carry_unlink_spec g x w a l :
  atloc_at g w = Some a → chain (link g) a l → x ∈ l →
  ∃ g', carry_unlink g x w = Ok g'
    ∧ objects g' = objects g ∧ holdng g' = holdng g
    ∧ length (locs g') = length (locs g) ∧ length (link g') = length (link g)
    ∧ (∀ w', w' ≠ w → atloc_at g' w' = atloc_at g w')
    ∧ (∀ y, y ∉ l → zlookup (link g') y = zlookup (link g) y)
    ∧ ∃ a' l', atloc_at g' w = Some a' ∧ chain (link g') a' l'
               ∧ ∀ y, y ∈ l' ↔ y ∈ l ∧ y ≠ x.
Proof.
  intros Ha Hc Hx. pose proof (chain_NoDup _ _ _ Hc) as Hnd.
  apply atloc_at_Some in Ha as (ls & Hls & <-).
  pose proof (zlookup_Some _ _ _ Hls) as Hw.
  destruct (chain_link _ _ _ _ Hc Hx) as [n Hn].
  unfold carry_unlink, field, number. rewrite Hls.
  remember (S (length (link g))) as fuel eqn:Hfuel. simpl.
  destruct (decide (LocationState.atloc ls = x)) as [Heq|Hne].
  - (* the node heads the chain *)
    rewrite Hn. simpl. eexists. split; [done|]. simpl.
    rewrite length_zinsert. split_and!; try done.
    + intros w' Hw'. unfold atloc_at. simpl. by rewrite zlookup_zinsert_ne by lia.
    + inversion Hc as [|h n' l' Hh Hn' Hc']; subst; [by apply elem_of_nil in Hx|].
      rewrite Hn in Hn'. injection Hn' as <-.
      exists n, l'. split; [|split; [done|]].
      * unfold atloc_at. simpl. rewrite zlookup_zinsert_eq by (by eexists). done.
      * apply NoDup_cons in Hnd as [Hx1 Hnd']. intros y. rewrite elem_of_cons. split.
        -- intros Hy. split; [by right|]. by intros ->.
        -- intros [[->|Hy] Hyx]; done.
  - (* the node is further down *)
    apply list_elem_of_split in Hx as (l0 & l2 & ->).
    destruct (decide (l0 = [])) as [->|Hl0].
    { simpl in Hc. inversion Hc; subst. done. }
    destruct (exists_last Hl0) as (l1 & p & ->).
    rewrite <- app_assoc in Hc, Hnd. simpl in Hc, Hnd.
    pose proof Hnd as Hsplit. apply NoDup_app in Hsplit as (_ & Hd & Hnd2).
    apply NoDup_cons in Hnd2 as [Hp Hnd2]. apply NoDup_cons in Hnd2 as [Hx2 _].
    assert (x ∉ l1 ++ [p]) as Hxl.
    { intros Hin. apply elem_of_app in Hin as [Hin|Hin%list_elem_of_singleton].
      - apply (Hd x Hin). apply elem_of_cons. right. apply elem_of_cons. by left.
      - subst p. apply Hp. apply elem_of_cons. by left. }
    erewrite carry_scan_finds; [|done|done|].
    2:{ pose proof (chain_length _ _ _ Hc) as Hlen. rewrite length_app in Hlen.
        simpl in Hlen. lia. }
    simpl. rewrite Hn. simpl. eexists. split; [done|]. simpl.
    rewrite length_zinsert. split_and!; try done.
    + intros y Hy. apply zlookup_zinsert_ne.
      * assert (p ∈ l1 ++ p :: x :: l2) as Hpin by (apply elem_of_app; right; apply elem_of_cons; by left).
        destruct (chain_link _ _ _ _ Hc Hpin) as [? Hp'%zlookup_Some]. lia.
      * intros ->. apply Hy. rewrite <- app_assoc. simpl.
        apply elem_of_app. right. apply elem_of_cons. by left.
    + exists (LocationState.atloc ls), (l1 ++ p :: l2). split; [|split].
      * unfold atloc_at. simpl. by rewrite Hls.
      * by eapply chain_unlink.
      * intros y. rewrite <- app_assoc. simpl.
        rewrite !elem_of_app, !elem_of_cons.
        rewrite elem_of_app in Hxl. rewrite list_elem_of_singleton in Hxl.
        split.
        -- intros [Hy|[->|Hy]].
           ++ split; [by left|]. intros ->. apply Hxl. by left.
           ++ split; [right; by left|]. intros ->. apply Hxl. by right.
           ++ split; [right; right; by right|]. by intros ->.
        -- intros [[Hy|[->|[->|Hy]]] Hyx]; [by left|right; by left|done|right; by right].
Qed.

End Linking.

Section Homes.
Context `{Dungeon.t}.
Implicit Types (g : GameState) (x y w : Z) (o : ObjectState.t).

Lemma home_after_place g g' x o v :
  0 ≤ x ≤ NOBJECTS → zlookup (objects g) x = Some o →
  objects g' = zinsert x (ObjectState.set_place v o) (objects g) →
  ∀ y, node_home g' y = if decide (y = x) then Some v else node_home g y.
Proof.
  intros Hx Ho Hg' y. unfold node_home, place_of, fixed_of. rewrite Hg'.
  destruct (decide (y ≤ NOBJECTS)) as [Hy|Hy].
  - destruct (decide (y = x)) as [->|Hne].
    + rewrite zlookup_zinsert_eq by (by eexists). done.
    + rewrite zlookup_zinsert_ne by lia. done.
  - rewrite decide_False by lia.
    destruct (decide (x = y - NOBJECTS)) as [->|Hne].
    + rewrite zlookup_zinsert_eq by (by eexists). rewrite Ho. done.
    + rewrite zlookup_zinsert_ne by lia. done.
Qed.

Lemma home_after_fixed g g' x o v :
  NOBJECTS < x → 0 ≤ x - NOBJECTS → zlookup (objects g) (x - NOBJECTS) = Some o →
  objects g' = zinsert (x - NOBJECTS) (ObjectState.set_fixed v o) (objects g) →
  ∀ y, node_home g' y = if decide (y = x) then Some v else node_home g y.
Proof.
  intros Hx Hx0 Ho Hg' y. unfold node_home, place_of, fixed_of. rewrite Hg'.
  destruct (decide (y ≤ NOBJECTS)) as [Hy|Hy].
  - rewrite decide_False by lia.
    destruct (decide (x - NOBJECTS = y)) as [<-|Hne].
    + rewrite zlookup_zinsert_eq by (by eexists). rewrite Ho. done.
    + rewrite zlookup_zinsert_ne by lia. done.
  - destruct (decide (y = x)) as [->|Hne].
    + rewrite zlookup_zinsert_eq by (by eexists). done.
    + rewrite zlookup_zinsert_ne by lia. done.
Qed.

Lemma home_after_prop g g' x o v :
  0 ≤ x → zlookup (objects g) x = Some o →
  objects g' = zinsert x (ObjectState.set_prop v o) (objects g) →
  ∀ y, node_home g' y = node_home g y.
Proof.
  intros Hx Ho Hg' y. unfold node_home, place_of, fixed_of. rewrite Hg'.
  case_decide.
  - destruct (decide (x = y)) as [<-|Hne].
    + rewrite zlookup_zinsert_eq by (by eexists). rewrite Ho. done.
    + rewrite zlookup_zinsert_ne by lia. done.
  - destruct (decide (x = y - NOBJECTS)) as [->|Hne].
    + rewrite zlookup_zinsert_eq by (by eexists). rewrite Ho. done.
    + rewrite zlookup_zinsert_ne by lia. done.
Qed.

(** Every node of the index space has a recorded home. *)
Lemma node_home_is_Some g s x :
  well_linked g s → 1 ≤ x ≤ NOBJECTS * 2 → is_Some (node_home g x).
Proof.
  intros [Hlen _ _ [HN _] _ _] Hx. unfold node_home, place_of, fixed_of.
  case_decide.
  - destruct (zlookup_is_Some (objects g) x) as [o ->]; [rewrite Hlen; lia|]. by eexists.
  - destruct (zlookup_is_Some (objects g) (x - NOBJECTS)) as [o ->]; [rewrite Hlen; lia|].
    by eexists.
Qed.

Lemma well_linked_ext g g' s :
  length (objects g') = length (objects g) → link g' = link g → locs g' = locs g →
  (∀ y, node_home g' y = node_home g y) →
  well_linked g s → well_linked g' s.
Proof.
  intros Ho Hl Hlocs Hhome [H1 H2 H3 H4 H5 H6]. split.
  - by rewrite Ho.
  - by rewrite Hl.
  - by rewrite Hlocs.
  - done.
  - intros x h Hx. rewrite Hhome. by apply H5.
  - intros w Hw. destruct (H6 w Hw) as (a & l & Ha & Hc & Hmem).
    exists a, l. unfold atloc_at in *. rewrite Hlocs, Hl. split_and!; [done..|].
    intros x. rewrite Hhome. apply Hmem.
Qed.

(** A node whose home is no location is in no chain: skipping it changes
    nothing. *)
Lemma well_linked_unskip g x :
  (∀ w, 1 ≤ w ≤ NLOCATIONS → node_home g x ≠ Some w) →
  well_linked g x → well_linked g 0.
Proof.
  intros Hx [H1 H2 H3 H4 H5 H6]. split; try done.
  intros w Hw. destruct (H6 w Hw) as (a & l & Ha & Hc & Hmem).
  exists a, l. split_and!; [done..|]. intros y. rewrite Hmem. split.
  - intros ([? ?] & ? & ? & ?). split_and!; [done..|lia].
  - intros ([? ?] & ? & Hy & ?). split_and!; [done..|]. intros ->. eapply Hx; [|done]. lia.
Qed.

Lemma well_linked_skip g x :
  (∀ w, 1 ≤ w ≤ NLOCATIONS → node_home g x ≠ Some w) →
  well_linked g 0 → well_linked g x.
Proof.
  intros Hx [H1 H2 H3 H4 H5 H6]. split; try done.
  intros w Hw. destruct (H6 w Hw) as (a & l & Ha & Hc & Hmem).
  exists a, l. split_and!; [done..|]. intros y. rewrite Hmem. split.
  - intros ([? ?] & ? & Hy & ?). split_and!; [done..|]. intros ->. eapply Hx; [|done]. lia.
  - intros ([? ?] & ? & ? & ?). split_and!; [done..|lia].
Qed.

End Homes.

Section Primitives.
Context `{Dungeon.t, Obj.ids}.
Implicit Types (g : GameState) (x y w : Z) (o : ObjectState.t).

(** Unlinking a node from the chain of its home leaves a structure that
    is well linked but for that node. *)
Lemma unlink_linked g g2 x w :
  well_linked g 0 →
  locs g2 = locs g → link g2 = link g → length (objects g2) = length (objects g) →
  (∀ y, y ≠ x → node_home g2 y = node_home g y) →
  (∀ h, node_home g2 x = Some h → -1 ≤ h ≤ NLOCATIONS) →
  1 ≤ x ≤ NOBJECTS * 2 → 1 ≤ w ≤ NLOCATIONS → node_home g x = Some w →
  ∃ g', carry_unlink g2 x w = Ok g' ∧ well_linked g' x
        ∧ objects g' = objects g2 ∧ holdng g' = holdng g2.
Proof.
  intros [H1 H2 H3 H4 H5 H6] Hlocs Hlink Hobjs Hhome Hrange Hx Hw Hxw.
  destruct (H6 w ltac:(lia)) as (a & l & Ha & Hc & Hmem).
  assert (x ∈ l) as Hxl by (apply Hmem; split_and!; [lia..|done|lia]).
  destruct (carry_unlink_spec g2 x w a l) as
    (g' & Hrun & Ho & Hh & Hll & Hlk & Hother & Hoff & a' & l' & Ha' & Hc' & Hmem').
  { unfold atloc_at. by rewrite Hlocs. }
  { by rewrite Hlink. }
  { done. }
  exists g'. split_and!; [done| |done..].
  assert (∀ y, node_home g' y = node_home g2 y) as Hhome'.
  { intros y. unfold node_home, place_of, fixed_of. by rewrite Ho. }
  split.
  - by rewrite Ho, Hobjs.
  - by rewrite Hlk, Hlink.
  - by rewrite Hll, Hlocs.
  - done.
  - intros y h Hy. rewrite Hhome'. destruct (decide (y = x)) as [->|Hne].
    + apply Hrange.
    + rewrite Hhome by done. by apply H5.
  - intros w' Hw'. destruct (decide (w' = w)) as [->|Hne].
    + exists a', l'. split_and!; [done..|]. intros y. rewrite Hmem', Hmem, Hhome'. split.
      * intros ((? & ? & ? & ?) & ?). rewrite Hhome by done. split_and!; crush.
      * intros (? & ? & Hy & ?). rewrite Hhome in Hy by done. split_and!; crush.
    + destruct (H6 w' Hw') as (b & lb & Hb & Hcb & Hmemb).
      exists b, lb. split_and!.
      * rewrite Hother by done. unfold atloc_at. by rewrite Hlocs.
      * eapply chain_ext; [done|]. intros y Hy. rewrite Hoff; [by rewrite Hlink|].
        intros Hyl. apply Hmemb in Hy as (_ & _ & Hy & _).
        apply Hmem in Hyl as (_ & _ & Hyl & _). congruence.
      * intros y. rewrite Hmemb, Hhome'. split.
        -- intros (? & ? & Hy & ?). assert (y ≠ x) by congruence.
           rewrite Hhome by done. split_and!; crush.
        -- intros (? & ? & Hy & ?). rewrite Hhome in Hy by done. split_and!; crush.
Qed.

Lemma node_home_obj g x : x ≤ NOBJECTS → node_home g x = place_of g x.
Proof. intros. unfold node_home. by rewrite decide_True. Qed.

Lemma node_home_shadow g x :
  ¬ x ≤ NOBJECTS → node_home g x = fixed_of g (x - NOBJECTS).
Proof. intros. unfold node_home. by rewrite decide_False. Qed.

Lemma place_of_Some g x h :
  place_of g x = Some h ↔ ∃ o, zlookup (objects g) x = Some o ∧ ObjectState.place o = h.
Proof.
  unfold place_of. destruct (zlookup (objects g) x) as [o|]; simpl; split.
  - intros [= <-]. by eexists.
  - intros (? & [= <-] & <-). done.
  - done.
  - intros (? & ? & _). done.
Qed.

Lemma fixed_of_Some g x h :
  fixed_of g x = Some h ↔ ∃ o, zlookup (objects g) x = Some o ∧ ObjectState.fixed o = h.
Proof.
  unfold fixed_of. destruct (zlookup (objects g) x) as [o|]; simpl; split.
  - intros [= <-]. by eexists.
  - intros (? & [= <-] & <-). done.
  - done.
  - intros (? & ? & _). done.
Qed.

(** [carry] on a node that sits in the chain of its home. *)
Lemma carry_linked g x w :
  well_linked g 0 → 1 ≤ x ≤ NOBJECTS * 2 → 1 ≤ w ≤ NLOCATIONS →
  node_home g x = Some w →
  ∃ g', carry g x w = Ok g' ∧ well_linked g' x
        ∧ (∀ y, node_home g' y
                = if decide (y = x ∧ x ≤ NOBJECTS) then Some CARRIED else node_home g y)
        ∧ holdng g' = (if decide (x ≤ NOBJECTS ∧ x ≠ Obj.BIRD)
                       then holdng g + 1 else holdng g).
Proof.
  intros Hwl Hx Hw Hxw. unfold carry.
  destruct (decide (x ≤ NOBJECTS)) as [Hle|Hgt].
  - pose proof Hxw as Hp. rewrite node_home_obj in Hp by done.
    apply place_of_Some in Hp as (o & Ho & Hpl).
    unfold field. rewrite Ho. simpl.
    rewrite decide_False by (unfold CARRIED; lia).
    set (g1 := set_objects _ g).
    set (g2 := if decide (x ≠ Obj.BIRD) then _ else _).
    assert (Hg2 : objects g2 = objects g1 ∧ locs g2 = locs g ∧ link g2 = link g
                  ∧ holdng g2 = if decide (x ≠ Obj.BIRD) then holdng g + 1 else holdng g).
    { subst g2. case_decide; done. }
    destruct Hg2 as (Ho2 & Hl2 & Hk2 & Hh2).
    assert (Hhome2 : ∀ y, node_home g2 y = if decide (y = x) then Some CARRIED else node_home g y).
    { eapply home_after_place; [|done|]; [lia|]. by rewrite Ho2. }
    destruct (unlink_linked g g2 x w) as (g' & Hrun & Hwl' & Ho' & Hh'); try done.
    { rewrite Ho2. subst g1. simpl. apply length_zinsert. }
    { intros y Hy. rewrite Hhome2. by rewrite decide_False. }
    { intros h. rewrite Hhome2, decide_True by done. intros [= <-].
      destruct Hwl as [_ _ _ [? ?] _ _]. unfold CARRIED. lia. }
    exists g'. split_and!; [done..| |].
    + intros y. transitivity (node_home g2 y).
      { unfold node_home, place_of, fixed_of. by rewrite Ho'. }
      rewrite Hhome2.
      destruct (decide (y = x)); [rewrite decide_True by done|rewrite decide_False by tauto]; done.
    + rewrite Hh', Hh2.
      destruct (decide (x ≠ Obj.BIRD)); [rewrite decide_True by done|rewrite decide_False by tauto];
        done.
  - destruct (unlink_linked g g x w) as (g' & Hrun & Hwl' & Ho' & Hh'); try done.
    { intros h Hh. destruct Hwl as [_ _ _ _ H5 _]. by eapply H5. }
    exists g'. split_and!; [done..| |].
    + intros y. rewrite decide_False by tauto.
      unfold node_home, place_of, fixed_of. by rewrite Ho'.
    + rewrite Hh'. rewrite decide_False by tauto. done.
Qed.

(** [drop] on a node that is in no chain. *)
Lemma drop_linked g x w :
  well_linked g x → 1 ≤ x ≤ NOBJECTS * 2 → -1 ≤ w ≤ NLOCATIONS →
  ∃ g', drop g x w = Ok g' ∧ well_linked g' 0
        ∧ (∀ y, node_home g' y = if decide (y = x) then Some w else node_home g y)
        ∧ holdng g' = (if decide (x ≤ NOBJECTS ∧ node_home g x = Some CARRIED ∧ x ≠ Obj.BIRD)
                       then holdng g - 1 else holdng g).
Proof.
  intros Hwl Hx Hw.
  destruct (node_home_is_Some g x x Hwl Hx) as [h Hh].
  pose proof Hwl as [H1 H2 H3 [HN HL] H5 H6].
  (* the first half: record the new home *)
  assert (∃ g1, drop_record g x w = Ok g1
          ∧ locs g1 = locs g ∧ link g1 = link g
          ∧ length (objects g1) = length (objects g)
          ∧ (∀ y, node_home g1 y = if decide (y = x) then Some w else node_home g y)
          ∧ holdng g1 = (if decide (x ≤ NOBJECTS ∧ node_home g x = Some CARRIED ∧ x ≠ Obj.BIRD)
                         then holdng g - 1 else holdng g))
    as (g1 & Hstep & Hlocs & Hlink & Hlen & Hhome & Hhold).
  { unfold drop_record. destruct (decide (x > NOBJECTS)) as [Hgt|Hle].
    - rewrite node_home_shadow in Hh by lia.
      apply fixed_of_Some in Hh as (o & Ho & _).
      unfold field. rewrite Ho. simpl. eexists. split; [done|]. simpl.
      split_and!; [done..|apply length_zinsert| |].
      + eapply home_after_fixed; [lia| |done|done].
        apply zlookup_Some in Ho. lia.
      + rewrite decide_False by lia. done.
    - rewrite node_home_obj in Hh by lia.
      apply place_of_Some in Hh as (o & Ho & Hpl).
      unfold field. rewrite Ho. simpl. eexists. split; [done|].
      assert (node_home g x = Some (ObjectState.place o)) as Hhx.
      { rewrite node_home_obj by lia. apply place_of_Some. by eexists. }
      split_and!.
      + repeat case_decide; done.
      + repeat case_decide; done.
      + simpl. rewrite length_zinsert. repeat case_decide; done.
      + eapply home_after_place; [|done|]; [lia|]. simpl. repeat case_decide; done.
      + rewrite Hhx.
        destruct (decide (ObjectState.place o = CARRIED)) as [Hcar|Hcar];
          [destruct (decide (x ≠ Obj.BIRD)) as [Hb|Hb]|]; simpl;
          case_decide as Hcond; try done.
        * exfalso. apply Hcond. split_and!; [lia|rewrite Hcar; done|done].
        * destruct Hcond as (_ & _ & ?). done.
        * destruct Hcond as (_ & [= ?] & _). done. }
  unfold drop. rewrite Hstep. simpl.
  assert (Hbase : ∀ w', 0 ≤ w' ≤ NLOCATIONS → w' ≠ w →
            ∃ a l, atloc_at g w' = Some a ∧ chain (link g) a l ∧ (x ∉ l)
                   ∧ ∀ y, y ∈ l ↔ 1 ≤ y ≤ NOBJECTS * 2 ∧ 1 ≤ w'
                                   ∧ node_home g1 y = Some w' ∧ y ≠ 0).
  { intros w' Hw' Hne. destruct (H6 w' Hw') as (a & l & Ha & Hc & Hmem).
    exists a, l. split_and!; [done..| |].
    - intros Hin. apply Hmem in Hin. tauto.
    - intros y. rewrite Hmem, Hhome. split.
      + intros (? & ? & ? & ?). rewrite decide_False by done. split_and!; crush.
      + intros (? & ? & Hy & ?). destruct (decide (y = x)); [congruence|]. done. }
  destruct (decide (w = Location.LOC_NOWHERE ∨ w = CARRIED)) as [Hnone|Hloc].
  - (* nothing to link *)
    exists g1. split_and!; [done| |done..]. split.
    + by rewrite Hlen.
    + by rewrite Hlink.
    + by rewrite Hlocs.
    + done.
    + intros y h' Hy. rewrite Hhome. destruct (decide (y = x)); [intros ?; simplify_eq; lia|by apply H5].
    + intros w' Hw'. destruct (decide (w' = w)) as [->|Hne].
      * destruct (H6 w Hw') as (a & l & Ha & Hc & Hmem).
        exists a, l. unfold atloc_at in *. rewrite Hlocs, Hlink. split_and!; [done..|].
        intros y. rewrite Hmem. unfold Location.LOC_NOWHERE, CARRIED in Hnone.
        split; intros (? & ? & ? & ?); lia.
      * destruct (Hbase w' Hw' Hne) as (a & l & Ha & Hc & _ & Hmem).
        exists a, l. unfold atloc_at in *. rewrite Hlocs, Hlink. done.
  - (* link the node in front of the chain of [w] *)
    unfold Location.LOC_NOWHERE, CARRIED in Hloc.
    assert (1 ≤ w ≤ NLOCATIONS) as Hw1 by lia.
    destruct (H6 w ltac:(lia)) as (a & l & Ha & Hc & Hmem).
    pose proof Ha as Ha0. apply atloc_at_Some in Ha0 as (ls & Hls & Hatl).
    assert (is_Some (zlookup (link g) x)) as Hxs.
    { apply zlookup_is_Some. rewrite H2. lia. }
    assert (x ∉ l) as Hxl by (intros Hin; apply Hmem in Hin; tauto).
    unfold field, store. rewrite Hlocs, Hls, Hlink. simpl.
    destruct Hxs as [n0 Hn0]. rewrite Hn0. simpl.
    eexists. split; [done|]. simpl. split_and!; [|done..]. split; simpl.
    + by rewrite Hlen.
    + by rewrite length_zinsert.
    + by rewrite length_zinsert.
    + done.
    + intros y h' Hy.
      change (node_home g1 y = Some h' → -1 ≤ h' ≤ NLOCATIONS).
      rewrite Hhome. destruct (decide (y = x)); [intros ?; simplify_eq; lia|by apply H5].
    + intros w' Hw'. destruct (decide (w' = w)) as [->|Hne].
      * exists x, (x :: l). split_and!.
        -- unfold atloc_at. simpl. rewrite zlookup_zinsert_eq by (by eexists). done.
        -- simpl. rewrite Hatl. apply chain_push; [done|lia|done|by eexists].
        -- intros y. change (y ∈ x :: l ↔ 1 ≤ y ≤ NOBJECTS * 2 ∧ 1 ≤ w
                                          ∧ node_home g1 y = Some w ∧ y ≠ 0).
           rewrite elem_of_cons, Hmem, Hhome. split.
           ++ intros [->|(? & ? & ? & ?)].
              ** rewrite decide_True by done. split_and!; crush.
              ** rewrite decide_False by done. split_and!; crush.
           ++ intros (? & ? & Hy & ?). destruct (decide (y = x)); [by left|right; done].
      * destruct (Hbase w' Hw' Hne) as (b & lb & Hb & Hcb & Hxb & Hmemb).
        exists b, lb. split_and!.
        -- unfold atloc_at in *. simpl. rewrite zlookup_zinsert_ne by lia. done.
        -- simpl. eapply chain_ext; [done|]. intros y Hy.
           apply zlookup_zinsert_ne; [lia|]. by intros ->.
        -- done.
Qed.

End Primitives.

Section Moves.
Context `{Dungeon.t, Obj.ids}.
Implicit Types (g : GameState) (x y w : Z).

(** [move] keeps the structure, wherever the node was. *)
Lemma move_linked g x w :
  WF g → 1 ≤ x ≤ NOBJECTS * 2 → -1 ≤ w ≤ NLOCATIONS →
  ∃ g', move g x w = Ok g' ∧ WF g'
        ∧ ∀ y, node_home g' y = if decide (y = x) then Some w else node_home g y.
Proof.
  intros Hwf Hx Hw. unfold WF in *.
  destruct (node_home_is_Some g 0 x Hwf Hx) as [from Hfrom].
  pose proof Hwf as [_ _ _ _ H5 _]. pose proof (H5 x from Hx Hfrom) as Hrange.
  unfold move.
  assert ((if decide (x > NOBJECTS)
           then o ← field (objects g) (x - NOBJECTS); mret (ObjectState.fixed o)
           else o ← field (objects g) x; mret (ObjectState.place o)) = Ok from) as ->.
  { unfold node_home in Hfrom. destruct (decide (x > NOBJECTS)).
    - rewrite decide_False in Hfrom by lia.
      apply fixed_of_Some in Hfrom as (o & Ho & <-). unfold field. by rewrite Ho.
    - rewrite decide_True in Hfrom by lia.
      apply place_of_Some in Hfrom as (o & Ho & <-). unfold field. by rewrite Ho. }
  simpl.
  destruct (decide (from ≠ Location.LOC_NOWHERE ∧ from ≠ CARRIED)) as [Hloc|Hnone].
  - unfold Location.LOC_NOWHERE, CARRIED in Hloc.
    destruct (carry_linked g x from) as (g1 & Hrun & Hwl1 & Hhome1 & _); [done|done|lia|done|].
    rewrite Hrun. simpl.
    destruct (drop_linked g1 x w) as (g' & Hrun' & Hwl' & Hhome' & _); [done..|].
    exists g'. split_and!; [done..|].
    intros y. rewrite Hhome', Hhome1. repeat case_decide; try done; tauto.
  - simpl.
    destruct (drop_linked g x w) as (g' & Hrun' & Hwl' & Hhome' & _); [|done..|].
    { apply well_linked_skip; [|done]. intros w' Hw' Heq.
      apply Hnone. unfold Location.LOC_NOWHERE, CARRIED. rewrite Hfrom in Heq.
      simplify_eq. lia. }
    exists g'. done.
Qed.

Lemma stashify_linked g x pval :
  WF g → 1 ≤ x ≤ NOBJECTS →
  ∃ g', OBJECT_STASHIFY g x pval = Ok g' ∧ WF g'
        ∧ ∀ y, node_home g' y = node_home g y.
Proof.
  intros Hwf Hx. unfold WF in *. pose proof Hwf as [H1 _ _ _ _ _].
  destruct (zlookup_is_Some (objects g) x) as [o Ho]; [rewrite H1; lia|].
  unfold OBJECT_STASHIFY, field. rewrite Ho. simpl. eexists. split; [done|].
  assert (∀ y, node_home (set_objects
             (zinsert x (ObjectState.set_prop (PROP_STASHIFY pval) o) (objects g)) g) y
             = node_home g y) as Hhome.
  { eapply home_after_prop; [|done..]. lia. }
  split; [|done].
  eapply well_linked_ext; [..|done]; try done. simpl. apply length_zinsert.
Qed.

Lemma put_linked g x w pval :
  WF g → 1 ≤ x ≤ NOBJECTS → -1 ≤ w ≤ NLOCATIONS →
  ∃ g', put g x w pval = Ok g' ∧ WF g'
        ∧ ∀ y, node_home g' y = if decide (y = x) then Some w else node_home g y.
Proof.
  intros Hwf Hx Hw. pose proof Hwf as [_ _ _ [? ?] _ _].
  destruct (move_linked g x w) as (g1 & Hrun & Hwf1 & Hhome1); [done|lia|done|].
  destruct (stashify_linked g1 x pval) as (g' & Hrun' & Hwf' & Hhome'); [done..|].
  exists g'. unfold put. rewrite Hrun. simpl. split_and!; [done..|].
  intros y. by rewrite Hhome', Hhome1.
Qed.

Lemma juggle_linked g x :
  WF g → 1 ≤ x ≤ NOBJECTS →
  ∃ g', juggle g x = Ok g' ∧ WF g' ∧ ∀ y, node_home g' y = node_home g y.
Proof.
  intros Hwf Hx. pose proof Hwf as [H1 _ _ [? ?] H5 _].
  destruct (zlookup_is_Some (objects g) x) as [o Ho]; [rewrite H1; lia|].
  assert (node_home g x = Some (ObjectState.place o)) as Hi.
  { rewrite node_home_obj by lia. apply place_of_Some. by eexists. }
  assert (node_home g (x + NOBJECTS) = Some (ObjectState.fixed o)) as Hj.
  { rewrite node_home_shadow by lia. apply fixed_of_Some.
    replace (x + NOBJECTS - NOBJECTS) with x by lia. by eexists. }
  destruct (move_linked g x (ObjectState.place o)) as (g1 & Hrun1 & Hwf1 & Hhome1);
    [done|lia|by eapply H5; [|done]; lia|].
  destruct (move_linked g1 (x + NOBJECTS) (ObjectState.fixed o))
    as (g' & Hrun' & Hwf' & Hhome'); [done|lia|by eapply (H5 (x + NOBJECTS)); [lia|done]|].
  exists g'. unfold juggle, field. rewrite Ho. simpl. rewrite Hrun1. simpl.
  split_and!; [done..|].
  intros y. rewrite Hhome', Hhome1. repeat case_decide; congruence.
Qed.

(** The fresh state has every chain empty and every object nowhere. *)
Lemma createGameState_WF `{Location.ids} :
  0 ≤ NOBJECTS → 0 ≤ NLOCATIONS → WF createGameState.
Proof.
  intros HN HL.
  assert (∀ x h, node_home createGameState x = Some h → h = 0) as Hzero.
  { intros x h. unfold node_home, place_of, fixed_of. simpl.
    rewrite !zlookup_replicate. repeat case_decide; simpl; congruence. }
  split; simpl.
  - apply length_replicate.
  - apply length_replicate.
  - apply length_replicate.
  - done.
  - intros x h _ Hh. apply Hzero in Hh. lia.
  - intros w Hw. exists 0, []. split_and!.
    + unfold atloc_at. simpl. rewrite zlookup_replicate. rewrite decide_True by lia. done.
    + constructor.
    + intros x. split; [by intros ?%elem_of_nil|].
      intros (_ & ? & Hh%Hzero & _). lia.
Qed.

(** Under the structural invariant an object is in exactly one of three
    situations. *)
Lemma WF_object_situation g o :
  WF g → 1 ≤ o ≤ NOBJECTS → object_situation g o.
Proof.
  intros Hwf Ho. pose proof Hwf as [H1 _ H3 [? ?] H5 H6].
  destruct (node_home_is_Some g 0 o Hwf ltac:(lia)) as [h Hh].
  pose proof (H5 o h ltac:(lia) Hh) as Hrange.
  pose proof Hh as Hp. rewrite node_home_obj in Hp by lia.
  assert (∀ w, in_chain g w o ↔ 1 ≤ w ≤ NLOCATIONS ∧ h = w) as Hin.
  { intros w. unfold in_chain. split.
    - intros (a & Ha & Hr).
      assert (0 ≤ w ≤ NLOCATIONS) as Hw.
      { apply atloc_at_Some in Ha as (ls & Hls%zlookup_Some & _). rewrite H3 in Hls. lia. }
      destruct (H6 w Hw) as (a' & l & Ha' & Hc & Hmem).
      rewrite Ha in Ha'. injection Ha' as <-.
      apply (reaches_chain _ _ _ _ Hc) in Hr. apply Hmem in Hr as (_ & ? & Hr & _).
      rewrite Hh in Hr. injection Hr as <-. lia.
    - intros [Hw <-]. destruct (H6 h ltac:(lia)) as (a & l & Ha & Hc & Hmem).
      exists a. split; [done|]. apply (reaches_chain _ _ _ _ Hc). apply Hmem.
      split_and!; [lia..|done|lia]. }
  unfold object_situation.
  destruct (decide (h = CARRIED)) as [->|Hnc].
  { left. split; [done|]. intros w Hw%Hin. unfold CARRIED in Hw. lia. }
  destruct (decide (h = Location.LOC_NOWHERE)) as [->|Hnn].
  { right. left. split; [done|]. intros w Hw%Hin. unfold Location.LOC_NOWHERE in Hw. lia. }
  right. right. exists h. unfold CARRIED, Location.LOC_NOWHERE in *.
  split_and!; [lia..|done|]. intros w. rewrite Hin. split; [by intros [_ ->]|intros ->; lia].
Qed.

End Moves.

Section HeldCount.
Context `{Dungeon.t, Obj.ids}.
Implicit Types (g : GameState) (x y w : Z).

Lemma carry_unlink_holdng g x w g' :
  carry_unlink g x w = Ok g' → holdng g' = holdng g.
Proof.
  unfold carry_unlink, field, number.
  destruct (zlookup (locs g) w) as [ls|]; cbn -[carry_scan]; [|done].
  destruct (decide (LocationState.atloc ls = x)).
  - destruct (zlookup (link g) x); simpl; [|done]. by intros [= <-].
  - destruct (carry_scan _ _ _ _); simpl; [|done].
    destruct (zlookup (link g) x); simpl; [|done]. by intros [= <-].
Qed.

Lemma carry_holdng g x w g' :
  carry g x w = Ok g' →
  holdng g' = if decide (x ≤ NOBJECTS ∧ place_of g x ≠ Some CARRIED ∧ x ≠ Obj.BIRD)
              then holdng g + 1 else holdng g.
Proof.
  unfold carry, field, place_of.
  destruct (decide (x ≤ NOBJECTS)) as [Hle|Hgt].
  - destruct (zlookup (objects g) x) as [o|]; simpl; [|done].
    destruct (decide (ObjectState.place o = CARRIED)) as [Hc|Hc].
    + intros [= <-]. rewrite Hc. rewrite decide_False; [done|]. intros (_ & ? & _). done.
    + intros Hrun%carry_unlink_holdng. rewrite Hrun.
      destruct (decide (x ≠ Obj.BIRD)).
      * rewrite decide_True; [done|]. split_and!; [done| |done]. congruence.
      * rewrite decide_False by tauto. done.
  - intros Hrun%carry_unlink_holdng. rewrite decide_False by tauto. done.
Qed.

Lemma drop_record_holdng g x w g1 :
  drop_record g x w = Ok g1 →
  holdng g1 = if decide (x ≤ NOBJECTS ∧ place_of g x = Some CARRIED ∧ x ≠ Obj.BIRD)
              then holdng g - 1 else holdng g.
Proof.
  unfold drop_record, field, place_of.
  destruct (decide (x > NOBJECTS)) as [Hgt|Hle].
  - destruct (zlookup (objects g) (x - NOBJECTS)); simpl; [|done].
    intros [= <-]. rewrite decide_False by lia. done.
  - destruct (zlookup (objects g) x) as [o|]; simpl; [|done]. intros [= <-]. simpl.
    destruct (decide (ObjectState.place o = CARRIED)) as [Hc|Hc].
    + destruct (decide (x ≠ Obj.BIRD)).
      * rewrite decide_True; [done|]. split_and!; [lia|congruence|done].
      * rewrite decide_False by tauto. done.
    + rewrite decide_False; [done|]. intros (_ & ? & _). congruence.
Qed.

Lemma drop_holdng g x w g' :
  drop g x w = Ok g' →
  holdng g' = if decide (x ≤ NOBJECTS ∧ place_of g x = Some CARRIED ∧ x ≠ Obj.BIRD)
              then holdng g - 1 else holdng g.
Proof.
  unfold drop. destruct (drop_record g x w) as [g1|] eqn:Hrec; simpl; [|done].
  apply drop_record_holdng in Hrec. rewrite <- Hrec.
  destruct (decide (_ ∨ _)); [by intros [= <-]|].
  unfold field, store. destruct (zlookup (locs g1) w); simpl; [|done].
  destruct (zlookup (link g1) x); simpl; [|done]. by intros [= <-].
Qed.

End HeldCount.

Section ObjectClaims.
Context `{Dungeon.t, Obj.ids}.
Implicit Types (g : GameState) (x y w : Z).

(** C1, as amended.  On a state with the structural invariant [WF] (every
    location's chain ends, and holds exactly the nodes recorded at that
    location) each object id in [1, NOBJECTS] is in exactly one of three
    situations: carried and in no chain, nowhere and in no chain, or in the
    chain of its place and of no other location.  On such a state [move],
    [put] and [juggle] return and keep [WF]; [carry] does when the object
    lies at [where_], and [drop] when the object is in no chain. *)
Theorem object_primitives_keep_structure g :
  WF g →
  (∀ o, 1 ≤ o ≤ NOBJECTS → object_situation g o)
  ∧ (∀ o w, 1 ≤ o ≤ NOBJECTS → 1 ≤ w ≤ NLOCATIONS → place_of g o = Some w →
       ∃ g', carry g o w = Ok g' ∧ WF g' ∧ place_of g' o = Some CARRIED)
  ∧ (∀ o w, 1 ≤ o ≤ NOBJECTS → -1 ≤ w ≤ NLOCATIONS →
       place_of g o = Some CARRIED ∨ place_of g o = Some Location.LOC_NOWHERE →
       ∃ g', drop g o w = Ok g' ∧ WF g' ∧ place_of g' o = Some w)
  ∧ (∀ x w, 1 ≤ x ≤ NOBJECTS * 2 → -1 ≤ w ≤ NLOCATIONS →
       ∃ g', move g x w = Ok g' ∧ WF g' ∧ node_home g' x = Some w)
  ∧ (∀ o w pval, 1 ≤ o ≤ NOBJECTS → -1 ≤ w ≤ NLOCATIONS →
       ∃ g', put g o w pval = Ok g' ∧ WF g' ∧ place_of g' o = Some w)
  ∧ (∀ o, 1 ≤ o ≤ NOBJECTS →
       ∃ g', juggle g o = Ok g' ∧ WF g' ∧ place_of g' o = place_of g o).
Proof.
  intros Hwf. pose proof Hwf as [_ _ _ [HN HL] _ _]. split_and!.
  - intros o Ho. by apply WF_object_situation.
  - intros o w Ho Hw Hp.
    destruct (carry_linked g o w) as (g' & Hrun & Hwl & Hhome & _); [done|lia|done| |].
    { by rewrite node_home_obj by lia. }
    assert (node_home g' o = Some CARRIED) as Ho'.
    { rewrite Hhome. rewrite decide_True; [done|]. split; [done|lia]. }
    exists g'. split_and!; [done| |by rewrite node_home_obj in Ho' by lia].
    apply (well_linked_unskip g' o); [|done].
    intros w' Hw'. rewrite Ho'. unfold CARRIED. intros [= ?]. lia.
  - intros o w Ho Hw Hp.
    destruct (drop_linked g o w) as (g' & Hrun & Hwl & Hhome & _); [|lia|done|].
    { apply well_linked_skip; [|done]. intros w' Hw'. rewrite node_home_obj by lia.
      unfold CARRIED, Location.LOC_NOWHERE in Hp. destruct Hp as [-> | ->]; intros [= ?]; lia. }
    exists g'. split_and!; [done..|].
    specialize (Hhome o). rewrite decide_True in Hhome by done.
    by rewrite node_home_obj in Hhome by lia.
  - intros x w Hx Hw.
    destruct (move_linked g x w) as (g' & Hrun & Hwf' & Hhome); [done..|].
    exists g'. split_and!; [done..|]. rewrite Hhome. by rewrite decide_True.
  - intros o w pval Ho Hw.
    destruct (put_linked g o w pval) as (g' & Hrun & Hwf' & Hhome); [done..|].
    exists g'. split_and!; [done..|].
    specialize (Hhome o). rewrite decide_True in Hhome by done.
    by rewrite node_home_obj in Hhome by lia.
  - intros o Ho.
    destruct (juggle_linked g o) as (g' & Hrun & Hwf' & Hhome); [done..|].
    exists g'. split_and!; [done..|].
    specialize (Hhome o). by rewrite !node_home_obj in Hhome by lia.
Qed.

(** C5.  [carry] on the bird never changes the held-count (caged or not);
    [carry] on any other object id in [1, NOBJECTS] that is not yet held
    adds exactly 1; [drop] on a held object other than the bird takes
    exactly 1 away.  On a state with the structural invariant these calls
    return: [carry] for an object lying at [where_], [drop] for a held
    object. *)
Theorem held_count g :
  (∀ w g', carry g Obj.BIRD w = Ok g' → holdng g' = holdng g)
  ∧ (∀ o w g', 1 ≤ o ≤ NOBJECTS → o ≠ Obj.BIRD → place_of g o ≠ Some CARRIED →
       carry g o w = Ok g' → holdng g' = holdng g + 1)
  ∧ (∀ o w g', 1 ≤ o ≤ NOBJECTS → o ≠ Obj.BIRD → place_of g o = Some CARRIED →
       drop g o w = Ok g' → holdng g' = holdng g - 1)
  ∧ (WF g →
       (∀ o w, 1 ≤ o ≤ NOBJECTS → 1 ≤ w ≤ NLOCATIONS → place_of g o = Some w →
          ∃ g', carry g o w = Ok g')
       ∧ (∀ o w, 1 ≤ o ≤ NOBJECTS → -1 ≤ w ≤ NLOCATIONS → place_of g o = Some CARRIED →
          ∃ g', drop g o w = Ok g')).
Proof.
  split_and!.
  - intros w g' Hrun%carry_holdng. rewrite Hrun. rewrite decide_False; [done|].
    intros (_ & _ & ?). done.
  - intros o w g' Ho Hb Hp Hrun%carry_holdng. rewrite Hrun.
    rewrite decide_True; [done|]. split_and!; [lia|done..].
  - intros o w g' Ho Hb Hp Hrun%drop_holdng. rewrite Hrun.
    rewrite decide_True; [done|]. split_and!; [lia|done..].
  - intros Hwf. pose proof Hwf as [_ _ _ [HN HL] _ _]. split.
    + intros o w Ho Hw Hp.
      destruct (carry_linked g o w) as (g' & Hrun & _); [done|lia|done| |by exists g'].
      by rewrite node_home_obj by lia.
    + intros o w Ho Hw Hp.
      destruct (drop_linked g o w) as (g' & Hrun & _); [|lia|done|by exists g'].
      apply well_linked_skip; [|done]. intros w' Hw'. rewrite node_home_obj by lia.
      rewrite Hp. unfold CARRIED. intros [= ?]. lia.
Qed.

End ObjectClaims.

(** ** What the primitives leave alone *)

Section Frame.
Context `{Dungeon.t, Obj.ids}.
Context {A : Type} (f : GameState → A) (Hf : frame_field f).
Implicit Types (g : GameState) (x w : Z).

Lemma carry_unlink_frame g x w g' : carry_unlink g x w = Ok g' → f g' = f g.
Proof.
  unfold carry_unlink, field, number.
  destruct (zlookup (locs g) w) as [ls|]; cbn -[carry_scan]; [|done].
  destruct (decide (LocationState.atloc ls = x)).
  - destruct (zlookup (link g) x); simpl; [|done]. intros [= <-]. apply Hf.
  - destruct (carry_scan _ _ _ _); simpl; [|done].
    destruct (zlookup (link g) x); simpl; [|done]. intros [= <-]. apply Hf.
Qed.

Lemma carry_frame g x w g' : carry g x w = Ok g' → f g' = f g.
Proof.
  unfold carry, field. destruct (decide (x ≤ NOBJECTS)).
  - destruct (zlookup (objects g) x) as [o|]; simpl; [|done].
    destruct (decide (ObjectState.place o = CARRIED)); [by intros [= <-]|].
    intros ->%carry_unlink_frame. destruct (decide (x ≠ Obj.BIRD)).
    + etrans; [apply Hf|apply Hf].
    + apply Hf.
  - apply carry_unlink_frame.
Qed.

Lemma drop_frame g x w g' : drop g x w = Ok g' → f g' = f g.
Proof.
  unfold drop. destruct (drop_record g x w) as [g1|] eqn:Hrec; simpl; [|done].
  assert (f g1 = f g) as <-.
  { revert Hrec. unfold drop_record, field. destruct (decide (x > NOBJECTS)).
    - destruct (zlookup (objects g) (x - NOBJECTS)); simpl; [|done].
      intros [= <-]. apply Hf.
    - destruct (zlookup (objects g) x) as [o|]; simpl; [|done]. intros [= <-].
      etrans; [apply Hf|]. repeat case_decide; try done; apply Hf. }
  destruct (decide (_ ∨ _)); [by intros [= <-]|].
  unfold field, store. destruct (zlookup (locs g1) w); simpl; [|done].
  destruct (zlookup (link g1) x); simpl; [|done]. intros [= <-].
  etrans; [apply Hf|apply Hf].
Qed.

Lemma move_frame g x w g' : move g x w = Ok g' → f g' = f g.
Proof.
  unfold move.
  destruct (if decide (x > NOBJECTS) then _ else _) as [from|]; simpl; [|done].
  destruct (decide (_ ∧ _)).
  - destruct (carry g x from) as [g1|] eqn:Hc; simpl; [|done].
    intros ->%drop_frame. by eapply carry_frame.
  - simpl. apply drop_frame.
Qed.

End Frame.

Lemma frame_foobar : frame_field foobar.
Proof. intros g. done. Qed.

Section SetProp.
Context `{Dungeon.t}.

Lemma set_prop_of_linked g x v :
  WF g → 1 ≤ x ≤ NOBJECTS →
  ∃ g', set_prop_of x v g = Ok g' ∧ WF g'
        ∧ (∀ y, node_home g' y = node_home g y)
        ∧ foobar g' = foobar g ∧ loc g' = loc g.
Proof.
  intros Hwf Hx. unfold WF in *. pose proof Hwf as [H1 _ _ _ _ _].
  destruct (zlookup_is_Some (objects g) x) as [o Ho]; [rewrite H1; lia|].
  unfold set_prop_of, field. rewrite Ho. simpl. eexists. split; [done|].
  assert (∀ y, node_home (set_objects
             (zinsert x (ObjectState.set_prop v o) (objects g)) g) y
             = node_home g y) as Hhome.
  { eapply home_after_prop; [|done..]. lia. }
  split_and!; [|done..].
  eapply well_linked_ext; [..|done]; try done. simpl. apply length_zinsert.
Qed.

End SetProp.

Section FeedClaim.
Context `{Dungeon.t, Obj.ids, Msg.ids, Action.ids, ObjState.ids}.
Implicit Types (g : GameState).


End FeedClaim.

(** ** The travel evaluator *)

Section TravelLoops.
Context `{Dungeon.t, Obj.ids, Motion.ids, Msg.ids, Location.ids, ObjState.ids}.
Implicit Types (g : GameState) (motion te e : Z).

Lemma find_entry_none motion te (fuel : nat) :
  no_rule motion te → Z.of_nat (length travel) - te < Z.of_nat fuel →
  find_entry fuel motion te = Ok None.
Proof.
  intros Hno. revert fuel. induction Hno as [te op Hop Hm Hs|te op Hop Hm Hs _ IH];
    intros fuel Hf; pose proof (zlookup_Some _ _ _ Hop) as Hte;
    (destruct fuel as [|fuel]; [lia|]); simpl; unfold field; rewrite Hop; simpl;
    rewrite decide_False by done; rewrite Hs.
  - done.
  - apply IH. lia.
Qed.

Lemma find_entry_first motion te e (fuel : nat) :
  first_rule motion te e → Z.of_nat (length travel) - te < Z.of_nat fuel →
  find_entry fuel motion te = Ok (Some e).
Proof.
  intros Hfirst. revert fuel.
  induction Hfirst as [te op Hop Hm|te op e Hop Hm Hs _ IH];
    intros fuel Hf; pose proof (zlookup_Some _ _ _ Hop) as Hte;
    (destruct fuel as [|fuel]; [lia|]); simpl; unfold field; rewrite Hop; simpl.
  - by rewrite decide_True.
  - rewrite decide_False by done. rewrite Hs. apply IH. lia.
Qed.

Lemma skip_same_bug e t (fuel : nat) :
  unaltered e t → Z.of_nat (length travel) - t < Z.of_nat fuel →
  skip_same fuel e t = Fail (BugFault BugType.CONDITIONAL_TRAVEL_ENTRY_WITH_NO_ALTERATION).
Proof.
  intros Hun. revert fuel. induction Hun as [t op Hop Hs|t op Hop Hs Heq _ IH];
    intros fuel Hf; pose proof (zlookup_Some _ _ _ Hop) as Hte;
    (destruct fuel as [|fuel]; [lia|]); simpl; unfold field at 1; rewrite Hop; simpl;
    rewrite Hs.
  - done.
  - rewrite Heq. simpl. apply IH. lia.
Qed.

Lemma travel_fuel_enough t : 0 ≤ t → Z.of_nat (length travel) - t < Z.of_nat travel_fuel.
Proof. unfold travel_fuel. lia. Qed.

Variable settings : Settings.t.
Variable croak : M unit.

Lemma ordinary_travel_no_rule motion k g :
  no_rule motion k →
  ordinary_travel settings croak motion (Some k) g
  = Done () g [Rspeak (cant_go motion) []].
Proof.
  intros Hno. unfold ordinary_travel. run_M.
  rewrite find_entry_none; [done..|].
  apply travel_fuel_enough. inversion Hno as [? ? Hop|? ? Hop]; apply zlookup_Some in Hop; lia.
Qed.

End TravelLoops.

Section MovementClaims.
Context `{Dungeon.t, Obj.ids, Motion.ids, Msg.ids, Location.ids, ObjState.ids}.
Variable settings : Settings.t.
Variable croak : M unit.
Implicit Types (g : GameState) (motion te e : Z).

(** The classes of the "can't go" switch, in the order of its cases. *)
Lemma cant_go_classes motion :
  Motion.distinct →
  (motion ∈ [Motion.EAST; Motion.WEST; Motion.SOUTH; Motion.NORTH; Motion.NE;
             Motion.NW; Motion.SW; Motion.SE; Motion.UP; Motion.DOWN]
   → cant_go motion = Msg.BAD_DIRECTION)
  ∧ (motion ∈ [Motion.FORWARD; Motion.LEFT; Motion.RIGHT]
     → cant_go motion = Msg.UNSURE_FACING)
  ∧ (motion ∈ [Motion.OUTSIDE; Motion.INSIDE] → cant_go motion = Msg.NO_INOUT_HERE)
  ∧ (motion ∈ [Motion.XYZZY; Motion.PLUGH] → cant_go motion = Msg.NOTHING_HAPPENS)
  ∧ (motion = Motion.CRAWL → cant_go motion = Msg.WHICH_WAY)
  ∧ (motion ∉ [Motion.EAST; Motion.WEST; Motion.SOUTH; Motion.NORTH; Motion.NE;
               Motion.NW; Motion.SW; Motion.SE; Motion.UP; Motion.DOWN;
               Motion.FORWARD; Motion.LEFT; Motion.RIGHT; Motion.OUTSIDE;
               Motion.INSIDE; Motion.XYZZY; Motion.PLUGH; Motion.CRAWL]
     → cant_go motion = Msg.CANT_APPLY).
Proof.
  intros Hd. unfold Motion.distinct in Hd.
  set (c1 := [Motion.EAST; Motion.WEST; Motion.SOUTH; Motion.NORTH; Motion.NE;
              Motion.NW; Motion.SW; Motion.SE; Motion.UP; Motion.DOWN]) in *.
  set (c2 := [Motion.FORWARD; Motion.LEFT; Motion.RIGHT]) in *.
  set (c3 := [Motion.OUTSIDE; Motion.INSIDE]) in *.
  set (c4 := [Motion.XYZZY; Motion.PLUGH]) in *.
  change (NoDup ([Motion.NUL; Motion.HERE; Motion.BACK; Motion.LOOK; Motion.CAVE]
                 ++ c1 ++ c2 ++ c3 ++ c4 ++ [Motion.CRAWL])) in Hd.
  apply NoDup_app in Hd as (_ & _ & Hd).
  apply NoDup_app in Hd as (_ & Hd1 & Hd).
  apply NoDup_app in Hd as (_ & Hd2 & Hd).
  apply NoDup_app in Hd as (_ & Hd3 & Hd).
  apply NoDup_app in Hd as (_ & Hd4 & _).
  unfold cant_go. fold c1 c2 c3 c4. split_and!.
  - intros Hm. by rewrite decide_True.
  - intros Hm. rewrite decide_False, decide_True; [done..|].
    intros Hc. apply (Hd1 _ Hc). apply elem_of_app. by left.
  - intros Hm. rewrite decide_False, decide_False, decide_True; [done..| |].
    + intros Hc. apply (Hd2 _ Hc). apply elem_of_app. by left.
    + intros Hc. apply (Hd1 _ Hc). apply elem_of_app. right. apply elem_of_app. by left.
  - intros Hm. rewrite decide_False, decide_False, decide_False, decide_True; [done..| | |].
    + intros Hc. apply (Hd3 _ Hc). apply elem_of_app. by left.
    + intros Hc. apply (Hd2 _ Hc). apply elem_of_app. right. apply elem_of_app. by left.
    + intros Hc. apply (Hd1 _ Hc). do 2 (apply elem_of_app; right). apply elem_of_app. by left.
  - intros ->.
    assert (Motion.CRAWL ∈ [Motion.CRAWL]) as Hin by (apply elem_of_cons; by left).
    rewrite decide_False, decide_False, decide_False, decide_False, decide_True; [done..| | | |].
    + intros Hc. apply (Hd4 _ Hc). done.
    + intros Hc. apply (Hd3 _ Hc). apply elem_of_app. by right.
    + intros Hc. apply (Hd2 _ Hc). do 2 (apply elem_of_app; right). done.
    + intros Hc. apply (Hd1 _ Hc). do 3 (apply elem_of_app; right). done.
  - intros Hm.
    change (motion ∉ c1 ++ c2 ++ c3 ++ c4 ++ [Motion.CRAWL]) in Hm.
    rewrite !not_elem_of_app in Hm. destruct Hm as (? & ? & ? & ? & Hc).
    rewrite decide_False, decide_False, decide_False, decide_False, decide_False;
      [done| |done..].
    intros ->. apply Hc. apply elem_of_cons. by left.
Qed.

(** C4.  At a location that has travel entries, an ordinary motion (not the
    null move, "back", "look" or "cave") that no entry of the location's
    run answers leaves the player where they are: [newloc] is [loc], the
    location is untouched, and exactly one message is spoken, chosen by the
    class of the motion. *)
Theorem playermove_no_rule g motion k :
  Motion.distinct →
  zlookup tkey (loc g) = Some k → k ≠ 0 →
  motion ≠ Motion.NUL → motion ≠ Motion.BACK →
  motion ≠ Motion.LOOK → motion ≠ Motion.CAVE →
  no_rule motion k →
  playermove settings croak motion g
  = Done () (set_oldloc (loc g) (set_oldlc2 (oldloc g) (set_newloc (loc g) g)))
         [Rspeak (cant_go motion) []]
  ∧ (motion ∈ [Motion.EAST; Motion.WEST; Motion.SOUTH; Motion.NORTH; Motion.NE;
               Motion.NW; Motion.SW; Motion.SE; Motion.UP; Motion.DOWN]
     → cant_go motion = Msg.BAD_DIRECTION)
  ∧ (motion ∈ [Motion.FORWARD; Motion.LEFT; Motion.RIGHT]
     → cant_go motion = Msg.UNSURE_FACING)
  ∧ (motion ∈ [Motion.OUTSIDE; Motion.INSIDE] → cant_go motion = Msg.NO_INOUT_HERE)
  ∧ (motion ∈ [Motion.XYZZY; Motion.PLUGH] → cant_go motion = Msg.NOTHING_HAPPENS)
  ∧ (motion = Motion.CRAWL → cant_go motion = Msg.WHICH_WAY)
  ∧ (motion ∉ [Motion.EAST; Motion.WEST; Motion.SOUTH; Motion.NORTH; Motion.NE;
               Motion.NW; Motion.SW; Motion.SE; Motion.UP; Motion.DOWN;
               Motion.FORWARD; Motion.LEFT; Motion.RIGHT; Motion.OUTSIDE;
               Motion.INSIDE; Motion.XYZZY; Motion.PLUGH; Motion.CRAWL]
     → cant_go motion = Msg.CANT_APPLY).
Proof.
  intros Hd Hk Hk0 Hnul Hback Hlook Hcave Hno.
  split; [|by apply cant_go_classes].
  unfold playermove. run_M. rewrite Hk.
  rewrite (decide_False (P := Some k = Some 0)) by congruence.
  rewrite (decide_False _ _ Hnul), (decide_False _ _ Hback),
    (decide_False _ _ Hlook), (decide_False _ _ Hcave).
  rewrite ordinary_travel_no_rule by done. done.
Qed.

End MovementClaims.

Section MovementClaims2.
Context `{Dungeon.t, Obj.ids, Motion.ids, Msg.ids, Location.ids, ObjState.ids}.
Variable settings : Settings.t.
Variable croak : M unit.
Implicit Types (g : GameState) (motion te e : Z).

(** A rule whose condition holds is the eligible one. *)
Lemma find_eligible_met (fuel : nat) te op g g' out :
  zlookup travel te = Some op →
  condition_met settings op g = Done true g' out →
  find_eligible settings (S fuel) te g = Done te g' out.
Proof.
  intros Hop Hcond. cbn [find_eligible]. run_M. unfold field. rewrite Hop, Hcond.
  by rewrite app_nil_r.
Qed.

(** [playermove] on an ordinary motion whose first answering entry has its
    condition met: the rule is executed, and when the execution returns so
    does [playermove]. *)
Lemma playermove_first_rule g motion k e op g1 out1 g2 out2 :
  zlookup tkey (loc g) = Some k → k ≠ 0 →
  motion ≠ Motion.NUL → motion ≠ Motion.BACK →
  motion ≠ Motion.LOOK → motion ≠ Motion.CAVE →
  first_rule motion k e → zlookup travel e = Some op →
  condition_met settings op
    (set_oldloc (loc g) (set_oldlc2 (oldloc g) (set_newloc (loc g) g)))
  = Done true g1 out1 →
  execute_rule croak e g1 = Done None g2 out2 →
  playermove settings croak motion g = Done () g2 (out1 ++ out2).
Proof.
  intros Hk Hk0 Hnul Hback Hlook Hcave Hfirst Hop Hcond Hexec.
  unfold playermove. run_M. rewrite Hk.
  rewrite (decide_False (P := Some k = Some 0)) by congruence.
  rewrite (decide_False _ _ Hnul), (decide_False _ _ Hback),
    (decide_False _ _ Hlook), (decide_False _ _ Hcave).
  unfold ordinary_travel. run_M.
  rewrite (find_entry_first motion k e) by
    (try done; apply travel_fuel_enough;
     inversion Hfirst as [? ? Hop'|? ? ? Hop']; apply zlookup_Some in Hop'; lia).
  unfold travel_fuel at 1. cbn [travel_rules]. run_M.
  unfold travel_fuel at 1. erewrite find_eligible_met by done.
  rewrite Hexec. by rewrite app_nil_r.
Qed.

(** C8.  Executing special travel destination 1 sets [newloc] to the room
    opposite to the current one (the alcove from the Plover room, the
    Plover room otherwise) exactly when the held-count is 0, or is 1 with
    the emerald carried; otherwise [newloc] is reset to the current
    location and MUST_DROP is spoken.  Nothing else changes.  The same
    holds of [playermove] when the rule is the first to answer an ordinary
    motion and its condition is met. *)
Theorem special_travel_1 g te op :
  Location.LOC_ALCOVE ≠ Location.LOC_PLOVER →
  zlookup travel te = Some op →
  TravelOp.desttype op = DestType.dest_special → TravelOp.destval op = 1 →
  0 ≤ holdng g → is_Some (zlookup (objects g) Obj.EMERALD) →
  let opposite := if decide (loc g = Location.LOC_PLOVER)
                  then Location.LOC_ALCOVE else Location.LOC_PLOVER in
  let free := holdng g = 0 ∨ (holdng g = 1 ∧ place_of g Obj.EMERALD = Some CARRIED) in
  (free → execute_rule croak te g = Done None (set_newloc opposite g) [])
  ∧ (¬ free → execute_rule croak te g
              = Done None (set_newloc (loc g) g) [Rspeak Msg.MUST_DROP []])
  ∧ (∀ g' out, execute_rule croak te g = Done None g' out →
       (newloc g' = opposite ↔ free))
  ∧ (∀ g0 motion k out,
       zlookup tkey (loc g0) = Some k → k ≠ 0 →
       motion ≠ Motion.NUL → motion ≠ Motion.BACK →
       motion ≠ Motion.LOOK → motion ≠ Motion.CAVE →
       first_rule motion k te →
       condition_met settings op
         (set_oldloc (loc g0) (set_oldlc2 (oldloc g0) (set_newloc (loc g0) g0)))
       = Done true g out →
       (free → playermove settings croak motion g0
               = Done () (set_newloc opposite g) out)
       ∧ (¬ free → playermove settings croak motion g0
                   = Done () (set_newloc (loc g) g) (out ++ [Rspeak Msg.MUST_DROP []]))).
Proof.
  intros Hrooms Hop Hdt Hdv Hh [o Ho] opposite free.
  assert (Hfree : free → execute_rule croak te g
                         = Done None (set_newloc opposite g) []).
  { intros Hf. unfold execute_rule, special1, TOTING. run_M. unfold field. rewrite Hop. simpl.
    rewrite Hdt, Hdv. simpl.
    destruct Hf as [Hz|[Hone Hem]].
    - rewrite decide_False by lia. rewrite decide_False by lia. done.
    - rewrite decide_False by lia. rewrite decide_True by done. simpl.
      rewrite Ho. simpl. unfold place_of in Hem. rewrite Ho in Hem. injection Hem as Hem.
      rewrite bool_decide_eq_true_2 by done. done. }
  assert (Hblocked : ¬ free → execute_rule croak te g
                              = Done None (set_newloc (loc g) g) [Rspeak Msg.MUST_DROP []]).
  { intros Hnf. unfold execute_rule, special1, TOTING. run_M. unfold field. rewrite Hop. simpl.
    rewrite Hdt, Hdv. simpl.
    destruct (decide (holdng g > 1)); [done|].
    destruct (decide (holdng g = 1)) as [Hone|Hne].
    - simpl. rewrite Ho. simpl. rewrite bool_decide_eq_false_2; [done|]. intros Hc. apply Hnf. right.
      split; [done|]. unfold place_of. rewrite Ho. simpl. by rewrite Hc.
    - exfalso. apply Hnf. left. lia. }
  split_and!; [done..| |].
  - intros g' out Hrun. destruct (decide free) as [Hf|Hnf].
    + rewrite (Hfree Hf) in Hrun. injection Hrun as <- _. done.
    + rewrite (Hblocked Hnf) in Hrun. injection Hrun as <- _. simpl. split; [|done].
      intros Heq. exfalso. subst opposite.
      destruct (decide (loc g = Location.LOC_PLOVER)); congruence.
  - intros g0 motion k out Hk Hk0 Hnul Hback Hlook Hcave Hfirst Hcond. split.
    + intros Hf. erewrite playermove_first_rule; [|done..|by apply Hfree].
      by rewrite app_nil_r.
    + intros Hnf. erewrite playermove_first_rule; [|done..|by apply Hblocked]. done.
Qed.

Lemma find_eligible_unaltered (fuel : nat) te op g g' out :
  zlookup travel te = Some op →
  condition_met settings op g = Done false g' out →
  unaltered te te →
  find_eligible settings (S fuel) te g
  = Abort (BugFault BugType.CONDITIONAL_TRAVEL_ENTRY_WITH_NO_ALTERATION) g' out.
Proof.
  intros Hop Hcond Hun. cbn [find_eligible]. run_M. unfold field. rewrite Hop. rewrite Hcond.
  rewrite (skip_same_bug te te travel_fuel Hun).
  - simpl. by rewrite app_nil_r.
  - apply travel_fuel_enough. apply zlookup_Some in Hop. lia.
Qed.

(** C9.  When the condition of a travel entry fails and every later entry
    up to the last rule of the run has the same condition and destination,
    the evaluator raises CONDITIONAL_TRAVEL_ENTRY_WITH_NO_ALTERATION: the
    loop over the rules aborts, and so does [playermove] when the failing
    entry is the first that answers an ordinary motion. *)
Theorem unaltered_condition_is_fatal :
  (∀ (fuel : nat) te op g g' out,
     zlookup travel te = Some op →
     condition_met settings op g = Done false g' out →
     unaltered te te →
     find_eligible settings (S fuel) te g
     = Abort (BugFault BugType.CONDITIONAL_TRAVEL_ENTRY_WITH_NO_ALTERATION) g' out)
  ∧ (∀ g motion k e op g' out,
       zlookup tkey (loc g) = Some k → k ≠ 0 →
       motion ≠ Motion.NUL → motion ≠ Motion.BACK →
       motion ≠ Motion.LOOK → motion ≠ Motion.CAVE →
       first_rule motion k e → zlookup travel e = Some op →
       condition_met settings op
         (set_oldloc (loc g) (set_oldlc2 (oldloc g) (set_newloc (loc g) g)))
       = Done false g' out →
       unaltered e e →
       playermove settings croak motion g
       = Abort (BugFault BugType.CONDITIONAL_TRAVEL_ENTRY_WITH_NO_ALTERATION) g' out).
Proof.
  split; [intros; by eapply find_eligible_unaltered|].
  intros g motion k e op g' out Hk Hk0 Hnul Hback Hlook Hcave Hfirst Hop Hcond Hun.
  unfold playermove. run_M. rewrite Hk.
  rewrite (decide_False (P := Some k = Some 0)) by congruence.
  rewrite (decide_False _ _ Hnul), (decide_False _ _ Hback),
    (decide_False _ _ Hlook), (decide_False _ _ Hcave).
  unfold ordinary_travel. run_M.
  rewrite (find_entry_first motion k e) by
    (try done; apply travel_fuel_enough;
     inversion Hfirst as [? ? Hop'|? ? ? Hop']; apply zlookup_Some in Hop'; lia).
  unfold travel_fuel at 1. cbn [travel_rules]. run_M.
  unfold travel_fuel at 1. erewrite find_eligible_unaltered by done. done.
Qed.

End MovementClaims2.

(** ** The generator *)

(** C2.  With the register [x] in [0, 1048576) and a positive range [n]
    whose product with [x] is below 2^53 (every [n] up to 2^33 is such),
    [randrange] returns floor(n * x / 1048576) computed from the register
    before it advances, and leaves the register at
    (1093 * x + 221587) mod 1048576; nothing else of the state changes. *)
Theorem randrange_spec (settings : Settings.t) (g : GameState) (n : Z) :
  0 ≤ lcgX g < 1048576 → 0 < n →
  n ≤ 8589934592 ∨ n * lcgX g < 9007199254740992 →
  randrange settings n g
  = Done ((n * lcgX g) `div` 1048576)
         (set_lcgX ((1093 * lcgX g + 221587) `mod` 1048576) g)
         (if decide (Settings.debug settings ≠ 0) then [DebugRandom (lcgX g)] else []).
Proof.
  intros Hx Hn Hsafe.
  assert (to_double (n * lcgX g) = n * lcgX g) as Hexact.
  { apply to_double_small. change (2 ^ 53) with 9007199254740992. nia. }
  unfold randrange, getNextLcgValue, LCG_A, LCG_C, LCG_M. run_M.
  rewrite Z.rem_mod_nonneg by lia.
  destruct (decide (Settings.debug settings ≠ 0)); simpl;
    rewrite Hexact, Z.quot_div_nonneg by lia; done.
Qed.

(** ** Dwarves *)

Section Atdwrf.
Implicit Types (g : GameState) (ds : list Z).

Lemma dwarf_loc_Some g i l :
  dwarf_loc g i = Some l ↔ ∃ d, zlookup (dwarves g) i = Some d ∧ DwarfState.loc d = l.
Proof.
  unfold dwarf_loc. destruct (zlookup (dwarves g) i) as [d|]; simpl; split.
  - intros [= <-]. by eexists.
  - intros (? & [= <-] & <-). done.
  - done.
  - intros (? & ? & _). done.
Qed.

(** The loop returns the first dwarf found at [w]. *)
Lemma atdwrf_loop_found g w ds1 i ds2 at_ :
  (∀ j, j ∈ ds1 → is_Some (dwarf_loc g j) ∧ dwarf_loc g j ≠ Some w) →
  dwarf_loc g i = Some w →
  atdwrf_loop g w (ds1 ++ i :: ds2) at_ = Ok i.
Proof.
  intros Hpre Hi. revert at_. induction ds1 as [|j ds1 IH]; intros at_; simpl.
  - apply dwarf_loc_Some in Hi as (d & Hd & Hl). unfold field. rewrite Hd. simpl.
    by rewrite decide_True.
  - destruct (Hpre j) as [[l Hl] Hne]; [apply elem_of_cons; by left|].
    pose proof Hl as Hl0. apply dwarf_loc_Some in Hl as (d & Hd & Hl).
    unfold field. rewrite Hd. simpl. rewrite decide_False by congruence.
    apply IH. intros k Hk. apply Hpre. apply elem_of_cons. by right.
Qed.

(** With no dwarf at [w], the loop answers 0 once a live dwarf was met. *)
Lemma atdwrf_loop_alive g w ds :
  (∀ j, j ∈ ds → is_Some (dwarf_loc g j) ∧ dwarf_loc g j ≠ Some w) →
  atdwrf_loop g w ds 0 = Ok 0.
Proof.
  intros Hpre. induction ds as [|j ds IH]; simpl; [done|].
  destruct (Hpre j) as [[l Hl] Hne]; [apply elem_of_cons; by left|].
  pose proof Hl as Hl0. apply dwarf_loc_Some in Hl as (d & Hd & Hl).
  unfold field. rewrite Hd. simpl. rewrite decide_False by congruence.
  replace (if decide (DwarfState.loc d ≠ 0) then 0 else 0) with 0 by (by case_decide).
  apply IH. intros k Hk. apply Hpre. apply elem_of_cons. by right.
Qed.

Lemma atdwrf_loop_none g w ds at_ :
  (∀ j, j ∈ ds → is_Some (dwarf_loc g j) ∧ dwarf_loc g j ≠ Some w) →
  atdwrf_loop g w ds at_
  = Ok (if decide (Forall (λ j, dwarf_loc g j = Some 0) ds) then at_ else 0).
Proof.
  intros Hpre. revert at_. induction ds as [|j ds IH]; intros at_; simpl.
  - first [done | case_decide as Hn; [done|]; exfalso; apply Hn; constructor].
  - destruct (Hpre j) as [[l Hl] Hne]; [apply elem_of_cons; by left|].
    pose proof Hl as Hl0. apply dwarf_loc_Some in Hl as (d & Hd & Hl).
    unfold field. rewrite Hd. simpl. rewrite decide_False by congruence.
    assert (Hrest : ∀ k, k ∈ ds → is_Some (dwarf_loc g k) ∧ dwarf_loc g k ≠ Some w).
    { intros k Hk. apply Hpre. apply elem_of_cons. by right. }
    destruct (decide (DwarfState.loc d ≠ 0)) as [Halive|Hdead].
    + rewrite atdwrf_loop_alive by done. rewrite decide_False; [done|].
      intros [Hj _]%Forall_cons. congruence.
    + rewrite IH by done. assert (l = 0) as -> by lia.
      destruct (decide (Forall (λ k, dwarf_loc g k = Some 0) ds)) as [Hall|Hnot].
      * rewrite decide_True; [done|]. by apply Forall_cons.
      * rewrite decide_False; [done|]. by intros [_ ?]%Forall_cons.
Qed.

Lemma atdwrf_loop_ext g g2 w ds at_ :
  (∀ i, i ∈ ds → zlookup (dwarves g2) i = zlookup (dwarves g) i) →
  atdwrf_loop g2 w ds at_ = atdwrf_loop g w ds at_.
Proof.
  revert at_. induction ds as [|j ds IH]; intros at_ Hext; simpl; [done|].
  unfold field. rewrite Hext by (apply elem_of_cons; by left).
  destruct (zlookup (dwarves g) j); simpl; [|done].
  case_decide; [done|]. apply IH. intros i Hi. apply Hext. apply elem_of_cons. by right.
Qed.

Lemma elem_of_1_to_5 j : j ∈ seqZ 1 5 ↔ 1 ≤ j ≤ 5.
Proof. rewrite elem_of_seqZ. lia. Qed.

End Atdwrf.

Section AtdwrfClaim.
Context `{Dungeon.t}.
Implicit Types (g : GameState).

(** C10.  [atdwrf] answers 0 while the dwarf activity counter is below 2.
    From 2 on it answers the smallest index in [1, 5] of a dwarf whose
    location is [where_]; with no dwarf there it answers -1 when all five
    have location 0 and 0 when one of them has not.  Dwarf 6, the pirate,
    is never read.  The copy in dwarves.ts agrees when NDWARVES is 6. *)
Theorem atdwrf_spec g where_ :
  (∀ i, 1 ≤ i ≤ 5 → is_Some (dwarf_loc g i)) →
  (dflag g < 2 → atdwrf g where_ = Ok 0)
  ∧ (2 ≤ dflag g →
       (∀ i, 1 ≤ i ≤ 5 → dwarf_loc g i = Some where_ →
          (∀ j, 1 ≤ j < i → dwarf_loc g j ≠ Some where_) → atdwrf g where_ = Ok i)
       ∧ ((∀ i, 1 ≤ i ≤ 5 → dwarf_loc g i ≠ Some where_) →
          (∀ i, 1 ≤ i ≤ 5 → dwarf_loc g i = Some 0) → atdwrf g where_ = Ok (-1))
       ∧ ((∀ i, 1 ≤ i ≤ 5 → dwarf_loc g i ≠ Some where_) →
          (∃ i, 1 ≤ i ≤ 5 ∧ dwarf_loc g i ≠ Some 0) → atdwrf g where_ = Ok 0)
       ∧ (where_ ≠ Location.LOC_NOWHERE →
          (∀ i, 1 ≤ i ≤ 5 → dwarf_loc g i = Some 0) → atdwrf g where_ = Ok (-1)))
  ∧ (∀ g2, dflag g2 = dflag g →
       (∀ i, 1 ≤ i ≤ 5 → zlookup (dwarves g2) i = zlookup (dwarves g) i) →
       atdwrf g2 where_ = atdwrf g where_)
  ∧ (NDWARVES = 6 → Dwarves.atdwrf g where_ = atdwrf g where_).
Proof.
  intros Hlen.
  assert (Hnone : 2 ≤ dflag g → (∀ i, 1 ≤ i ≤ 5 → dwarf_loc g i ≠ Some where_) →
            atdwrf g where_
            = Ok (if decide (Forall (λ j, dwarf_loc g j = Some 0) (seqZ 1 5)) then -1 else 0)).
  { intros Hflag Hno. unfold atdwrf. rewrite decide_False by lia.
    apply atdwrf_loop_none. intros j Hj%elem_of_1_to_5. split; [by apply Hlen|by apply Hno]. }
  split_and!.
  - intros Hflag. unfold atdwrf. by rewrite decide_True.
  - intros Hflag. split_and!.
    + intros i Hi Hat Hbefore. unfold atdwrf. rewrite decide_False by lia.
      assert (seqZ 1 5 = seqZ 1 (i - 1) ++ i :: seqZ (i + 1) (5 - i)) as ->.
      { assert (i = 1 ∨ i = 2 ∨ i = 3 ∨ i = 4 ∨ i = 5) as Hcases by lia.
        destruct Hcases as [->|[->|[->|[->| ->]]]]; reflexivity. }
      apply atdwrf_loop_found; [|done].
      intros j Hj%elem_of_seqZ. split; [apply Hlen; lia|apply Hbefore; lia].
    + intros Hno Hdead. rewrite Hnone by done. rewrite decide_True; [done|].
      apply Forall_forall. intros j Hj%elem_of_1_to_5. by apply Hdead.
    + intros Hno (i & Hi & Halive). rewrite Hnone by done. rewrite decide_False; [done|].
      intros Hall. rewrite Forall_forall in Hall. apply Halive, Hall. by apply elem_of_1_to_5.
    + intros Hw Hdead.
      assert (∀ i, 1 ≤ i ≤ 5 → dwarf_loc g i ≠ Some where_) as Hno.
      { intros i Hi. rewrite Hdead by done. unfold Location.LOC_NOWHERE in Hw. congruence. }
      rewrite Hnone by done. rewrite decide_True; [done|].
      apply Forall_forall. intros j Hj%elem_of_1_to_5. by apply Hdead.
  - intros g2 Hflag Hsame. unfold atdwrf. rewrite Hflag.
    destruct (decide (dflag g < 2)); [done|].
    apply atdwrf_loop_ext. intros i Hi%elem_of_1_to_5. by apply Hsame.
  - intros Hn. unfold Dwarves.atdwrf, atdwrf. rewrite Hn. done.
Qed.

End AtdwrfClaim.

(** ** Restoring a save *)

Section RestoreClaim.
Context `{Dungeon.t, Msg.ids}.
Implicit Types (g : GameState) (save : SaveFile.t).

(** C3.  [restore] leaves the state as it is and only speaks when the magic
    string or the canary of the save is wrong (BAD_SAVE), or when its
    version is not SAVE_VERSION (VERSION_SKEW, with version/10 and
    version%10 of the save and of the engine); a save that passes these
    checks and fails [isValid] is reported as SAVE_TAMPERING and the
    process exits; a save that passes all of them replaces the state, and
    no other save does. *)
Theorem restore_spec save g :
  (¬ header_ok save →
     restore save g = Done PhaseCode.GO_TOP g [Rspeak Msg.BAD_SAVE []])
  ∧ (header_ok save → SaveFile.version save ≠ SAVE_VERSION →
     restore save g
     = Done PhaseCode.GO_TOP g
         [Rspeak Msg.VERSION_SKEW
            [Z.quot (SaveFile.version save) 10; Z.rem (SaveFile.version save) 10; 3; 1]])
  ∧ (header_ok save → SaveFile.version save = SAVE_VERSION →
     isValid (SaveFile.game save) = Ok false →
     restore save g = Abort (ProcessExit 0) g [Rspeak Msg.SAVE_TAMPERING []])
  ∧ (header_ok save → SaveFile.version save = SAVE_VERSION →
     isValid (SaveFile.game save) = Ok true →
     restore save g = Done PhaseCode.GO_TOP (SaveFile.game save) [])
  ∧ (∀ g', (∃ r out, restore save g = Done r g' out)
           ∨ (∃ f out, restore save g = Abort f g' out) →
       g' ≠ g →
       header_ok save ∧ SaveFile.version save = SAVE_VERSION
       ∧ isValid (SaveFile.game save) = Ok true ∧ g' = SaveFile.game save).
Proof.
  unfold header_ok.
  assert (Hbad : ¬ (SaveFile.magic save = ADVENT_MAGIC ∧ SaveFile.canary save = ENDIAN_MAGIC) →
            restore save g = Done PhaseCode.GO_TOP g [Rspeak Msg.BAD_SAVE []]).
  { intros Hh. unfold restore. run_M. rewrite decide_True; [done|].
    destruct (decide (SaveFile.magic save = ADVENT_MAGIC)); [|by left].
    destruct (decide (SaveFile.canary save = ENDIAN_MAGIC)); [|by right]. tauto. }
  assert (Hgood : SaveFile.magic save = ADVENT_MAGIC ∧ SaveFile.canary save = ENDIAN_MAGIC →
            ¬ (SaveFile.magic save ≠ ADVENT_MAGIC ∨ SaveFile.canary save ≠ ENDIAN_MAGIC))
    by tauto.
  assert (Hskew : SaveFile.magic save = ADVENT_MAGIC ∧ SaveFile.canary save = ENDIAN_MAGIC →
            SaveFile.version save ≠ SAVE_VERSION →
            restore save g
            = Done PhaseCode.GO_TOP g
                [Rspeak Msg.VERSION_SKEW
                   [Z.quot (SaveFile.version save) 10; Z.rem (SaveFile.version save) 10; 3; 1]]).
  { intros Hh Hv. unfold restore. run_M.
    rewrite (decide_False _ _ (Hgood Hh)). rewrite decide_True by done. done. }
  assert (Hrest : SaveFile.magic save = ADVENT_MAGIC ∧ SaveFile.canary save = ENDIAN_MAGIC →
            SaveFile.version save = SAVE_VERSION →
            restore save g
            = match isValid (SaveFile.game save) with
              | Ok true => Done PhaseCode.GO_TOP (SaveFile.game save) []
              | Ok false => Abort (ProcessExit 0) g [Rspeak Msg.SAVE_TAMPERING []]
              | Fail f => Abort f g []
              end).
  { intros Hh Hv. unfold restore. run_M.
    rewrite (decide_False _ _ (Hgood Hh)). rewrite decide_False by tauto.
    destruct (isValid (SaveFile.game save)) as [[|]|]; done. }
  split_and!; [done..| | |].
  - intros Hh Hv Hval. rewrite Hrest by done. by rewrite Hval.
  - intros Hh Hv Hval. rewrite Hrest by done. by rewrite Hval.
  - intros g' Hrun Hne.
    destruct (decide (SaveFile.magic save = ADVENT_MAGIC ∧ SaveFile.canary save = ENDIAN_MAGIC))
      as [Hh|Hh].
    2:{ rewrite (Hbad Hh) in Hrun. destruct Hrun as [(? & ? & [= ? ? ?])|(? & ? & [=])]. done. }
    destruct (decide (SaveFile.version save = SAVE_VERSION)) as [Hv|Hv].
    2:{ rewrite (Hskew Hh Hv) in Hrun. destruct Hrun as [(? & ? & [= ? ? ?])|(? & ? & [=])]. done. }
    rewrite (Hrest Hh Hv) in Hrun.
    destruct (isValid (SaveFile.game save)) as [[|]|].
    + destruct Hrun as [(? & ? & [= ? ? ?])|(? & ? & [=])]. done.
    + destruct Hrun as [(? & ? & [=])|(? & ? & [= ? ? ?])]. done.
    + destruct Hrun as [(? & ? & [=])|(? & ? & [= ? ? ?])]. done.
Qed.

End RestoreClaim.

Section BigwordsClaim.
Context `{Dungeon.t, Obj.ids, Msg.ids, Action.ids, ObjState.ids}.
Variable settings : Settings.t.
Implicit Types (g : GameState) (id : Z).

Lemma valid_step_not_first a id :
  Action.distinct → valid_step a id →
  ¬ (a = WORD_EMPTY ∧ (id = Action.FIE ∨ id = Action.FOE ∨ id = Action.FOO ∨ id = Action.FUM)).
Proof.
  unfold Action.distinct, valid_step, WORD_EMPTY.
  rewrite !NoDup_cons, !not_elem_of_cons. intros Hd Hv [Ha Hid].
  destruct Hv as [[_ ->]|[[-> _]|[[-> _]|[-> _]]]]; [|symmetry in Ha; tauto..].
  destruct Hid as [Hid|[Hid|[Hid|Hid]]]; tauto.
Qed.

(** C7, as amended.  With [a] the absolute value of the tracking counter:
    a word that continues the sequence fee, fie, foe is answered OK_MAN and
    recorded in the counter; "foo" after "foe" clears the counter and, when
    the eggs are neither at their home nor carried there, speaks one
    description of the eggs and moves them home, while with the eggs at
    home it only speaks NOTHING_HAPPENS.  A word out of sequence is
    answered NOTHING_HAPPENS, with the counter untouched, when no sequence
    was started (fie, foe, foo or fum on an empty counter), and otherwise
    clears the counter and is answered START_OVER (old style, or once the
    eggs were seen) or WELL_POINTLESS. *)
Theorem bigwords_spec g id :
  Action.distinct →
  let a := Z.abs (foobar g) in
  (valid_step a id → id ≠ Action.FOO →
     bigwords settings id g
     = Done PhaseCode.GO_CLEAROBJ (set_foobar id g) [Rspeak Msg.OK_MAN []])
  ∧ (∀ eggs eggsd,
       a = Action.FOE → id = Action.FOO →
       zlookup (objects g) Obj.EGGS = Some eggs →
       zlookup Dungeon.objects Obj.EGGS = Some eggsd →
       let home := ObjectData.plac eggsd in
       let at_home := ObjectState.place eggs = home
                      ∨ (ObjectState.place eggs = CARRIED ∧ loc g = home) in
       (at_home →
          bigwords settings id g
          = Done PhaseCode.GO_CLEAROBJ (set_foobar WORD_EMPTY g)
              [Rspeak Msg.NOTHING_HAPPENS []])
       ∧ (¬ at_home → WF g → 1 ≤ Obj.EGGS ≤ NOBJECTS → 1 ≤ Obj.TROLL ≤ NOBJECTS →
          -1 ≤ home ≤ NLOCATIONS →
          ∃ g' skip,
            bigwords settings id g
            = Done PhaseCode.GO_CLEAROBJ g' [Pspeak Obj.EGGS SpeakType.look true skip]
            ∧ skip ∈ [ObjState.EGGS_VANISHED; ObjState.EGGS_HERE; ObjState.EGGS_DONE]
            ∧ foobar g' = WORD_EMPTY ∧ place_of g' Obj.EGGS = Some home ∧ WF g'))
  ∧ (a = WORD_EMPTY → id ∈ [Action.FIE; Action.FOE; Action.FOO; Action.FUM] →
     bigwords settings id g
     = Done PhaseCode.GO_CLEAROBJ g [Rspeak Msg.NOTHING_HAPPENS []])
  ∧ (¬ valid_step a id →
     ¬ (a = WORD_EMPTY ∧ id ∈ [Action.FIE; Action.FOE; Action.FOO; Action.FUM]) →
     bigwords settings id g
     = Done PhaseCode.GO_CLEAROBJ (set_foobar WORD_EMPTY g)
         [Rspeak (if Settings.oldstyle settings || seenbigwords g
                  then Msg.START_OVER else Msg.WELL_POINTLESS) []]).
Proof.
  intros Hd a. split_and!.
  - intros Hv Hfoo. unfold bigwords. run_M. fold a.
    rewrite decide_False by (by apply valid_step_not_first).
    rewrite decide_True by done. rewrite decide_True by done. done.
  - intros eggs eggsd Ha Hid Heggs Heggsd home at_home.
    assert (Hv : valid_step a id) by (unfold valid_step; tauto).
    split.
    + intros Hhome. subst at_home. unfold bigwords. run_M. fold a.
      rewrite decide_False by (by apply valid_step_not_first).
      rewrite decide_True by done. rewrite decide_False by tauto.
      unfold field. simpl. rewrite Heggs, Heggsd. simpl. fold home.
      assert (bool_decide (ObjectState.place eggs = home)
              || bool_decide (ObjectState.place eggs = CARRIED) && bool_decide (loc g = home)
              = true) as ->.
      { destruct Hhome as [Hh|[Hc Hl]].
        - by rewrite (bool_decide_eq_true_2 _ Hh).
        - rewrite (bool_decide_eq_true_2 _ Hc), (bool_decide_eq_true_2 _ Hl).
          by rewrite orb_true_r. }
      done.
    + intros Hnot Hwf Heggs_r Htroll_r Hhome_r. subst at_home.
      (* the troll is paid when both the eggs and the troll are gone *)
      set (g1 := set_foobar WORD_EMPTY g).
      assert (WF g1) as Hwf1.
      { eapply well_linked_ext; [..|exact Hwf]; done. }
      assert (∃ g2, (if decide (ObjectState.place eggs = Location.LOC_NOWHERE) then
                       troll ← embed (λ g, field (objects g) Obj.TROLL);
                       if decide (ObjectState.place troll = Location.LOC_NOWHERE
                                  ∧ ObjectState.prop troll = ObjState.TROLL_UNPAID)
                       then update (set_prop_of Obj.TROLL ObjState.TROLL_PAIDONCE)
                       else mret ()
                     else mret ()) g1 = Done () g2 []
                    ∧ WF g2 ∧ foobar g2 = WORD_EMPTY ∧ loc g2 = loc g
                    ∧ is_Some (zlookup (objects g2) Obj.EGGS))
        as (g2 & Hg2 & Hwf2 & Hfb2 & Hloc2 & Heggs2).
      { destruct (decide (ObjectState.place eggs = Location.LOC_NOWHERE)).
        2:{ exists g1. split_and!; try done; by eexists. }
        pose proof Hwf1 as [Hlen _ _ _ _ _].
        destruct (zlookup_is_Some (objects g1) Obj.TROLL) as [troll Htroll];
          [rewrite Hlen; lia|].
        run_M. unfold field. rewrite Htroll.
        destruct (decide (_ ∧ _)).
        2:{ exists g1. split_and!; try done; by eexists. }
        destruct (set_prop_of_linked g1 Obj.TROLL ObjState.TROLL_PAIDONCE Hwf1 Htroll_r)
          as (g2 & Hrun & Hwf2 & _ & Hfb & Hl).
        exists g2. rewrite Hrun. split_and!; try done.
        pose proof Hwf2 as [Hlen2 _ _ _ _ _]. apply zlookup_is_Some. rewrite Hlen2. lia. }
      destruct Heggs2 as [eggs2 Heggs2].
      assert (∃ b, HERE g2 Obj.EGGS = Ok b) as [b Hb].
      { unfold HERE, AT, TOTING, field. rewrite Heggs2. simpl.
        destruct (_ || _); by eexists. }
      destruct (move_linked g2 Obj.EGGS home) as (g' & Hmove & Hwf' & Hhome');
        [done|lia|done|].
      exists g', (if b then ObjState.EGGS_VANISHED
                  else if decide (loc g = home) then ObjState.EGGS_HERE
                       else ObjState.EGGS_DONE).
      split_and!; [| |by rewrite (move_frame foobar frame_foobar _ _ _ _ Hmove)| |done].
      * unfold bigwords. run_M. fold a.
        rewrite decide_False by (by apply valid_step_not_first).
        rewrite decide_True by done. rewrite decide_False by tauto.
        unfold field.
        change (set_foobar WORD_EMPTY (set_foobar id g)) with g1.
        change (objects g1) with (objects g).
        rewrite Heggs, Heggsd. cbv beta iota.
        change (loc g1) with (loc g). fold home.
        assert (bool_decide (ObjectState.place eggs = home)
                || bool_decide (ObjectState.place eggs = CARRIED) && bool_decide (loc g = home)
                = false) as ->.
        { apply orb_false_iff. split.
          - apply bool_decide_eq_false_2. tauto.
          - apply andb_false_iff.
            destruct (decide (ObjectState.place eggs = CARRIED));
              [right|left]; apply bool_decide_eq_false_2; tauto. }
        revert Hg2. run_M. unfold field. intros ->. cbv beta iota. rewrite Hb.
        unfold pspeak. cbv beta iota.
        destruct b; [|destruct (decide (loc g = home))];
          rewrite Heggsd; unfold emit; rewrite Hmove; done.
      * destruct b; [|destruct (decide (loc g = home))]; rewrite !elem_of_cons; auto.
      * specialize (Hhome' Obj.EGGS). rewrite decide_True in Hhome' by done.
        by rewrite node_home_obj in Hhome' by lia.
  - intros Ha Hid. unfold bigwords. run_M. fold a.
    rewrite decide_True; [done|]. split; [done|].
    rewrite !elem_of_cons, elem_of_nil in Hid. tauto.
  - intros Hnv Hnf. unfold bigwords. run_M. fold a.
    rewrite decide_False.
    2:{ intros [? ?]. apply Hnf. split; [done|]. rewrite !elem_of_cons. tauto. }
    rewrite decide_False by done.
    destruct (Settings.oldstyle settings || seenbigwords g); done.
Qed.

End BigwordsClaim.

(** * Further properties *)

(** ** The generator *)

Section Generator.
Variable settings : Settings.t.
Implicit Types (g : GameState) (n x : Z).

Lemma getNextLcgValue_run g :
  0 ≤ lcgX g < LCG_M →
  ∃ out, getNextLcgValue settings g
         = Done (lcgX g) (set_lcgX ((LCG_A * lcgX g + LCG_C) `mod` LCG_M) g) out.
Proof.
  intros Hx. unfold getNextLcgValue. run_M.
  rewrite Z.rem_mod_nonneg by (unfold LCG_A, LCG_C, LCG_M in *; lia).
  destruct (decide (Settings.debug settings ≠ 0)); by eexists.
Qed.

(** A range up to 2^33 keeps the product below 2^53, where it is exact. *)
Lemma randrange_run g n :
  0 ≤ lcgX g < LCG_M → 0 ≤ n ≤ 8589934592 →
  ∃ out, randrange settings n g
         = Done ((n * lcgX g) `div` LCG_M)
                (set_lcgX ((LCG_A * lcgX g + LCG_C) `mod` LCG_M) g) out.
Proof.
  intros Hx Hn. unfold randrange. run_M.
  destruct (getNextLcgValue_run g Hx) as [out ->]. simpl.
  rewrite to_double_small
    by (change (2 ^ 53) with 9007199254740992; unfold LCG_M in *; nia).
  rewrite Z.quot_div_nonneg by (unfold LCG_M in *; lia). by eexists.
Qed.

(** The rounded product of a range and a register value stays below the
    range times 2^20: the rounding moves it by less than the range. *)
Lemma rounded_product_below n x :
  0 < n → 0 ≤ x < LCG_M →
  0 ≤ to_double (n * x) < n * LCG_M.
Proof.
  intros Hn Hx. unfold LCG_M in *.
  destruct (decide (n * x < 2 ^ 53)) as [Hs|Hb].
  - rewrite to_double_small by nia. nia.
  - assert (2 ^ 53 ≤ n * x) as Hz by lia.
    destruct (to_double_near (n * x) Hz) as [H0 Hup]. split; [done|].
    change (2 ^ 53) with 9007199254740992 in Hz.
    assert (8589934592 < n) as Hbig by nia.
    assert (33 ≤ Z.log2 n) as Hl.
    { apply Z.log2_le_pow2; [lia|]. change (2 ^ 33) with 8589934592. lia. }
    assert (Z.log2 (n * x) ≤ Z.log2 n + 20) as Hle.
    { assert (n * x < 2 ^ (Z.log2 n + 21)) as Hlt.
      { rewrite Z.pow_add_r by lia. change (2 ^ 21) with 2097152.
        pose proof (Z.log2_spec n ltac:(lia)) as [Hlo Hhi].
        rewrite Z.pow_succ_r in Hhi by lia. nia. }
      apply Z.log2_lt_pow2 in Hlt; lia. }
    assert (2 ^ (Z.log2 (n * x) - 53) ≤ 2 ^ (Z.log2 n - 1)) as Hp.
    { apply Z.pow_le_mono_r; lia. }
    assert (2 * 2 ^ (Z.log2 n - 1) ≤ n) as Hhalf.
    { replace (2 * 2 ^ (Z.log2 n - 1)) with (2 ^ Z.log2 n).
      - apply Z.log2_spec. lia.
      - replace (Z.log2 n) with (1 + (Z.log2 n - 1)) at 1 by lia.
        rewrite Z.pow_add_r by lia. done. }
    assert (0 < 2 ^ (Z.log2 n - 1)) by (apply Z.pow_pos_nonneg; lia).
    nia.
Qed.

(** X1.  With the register in [0, 1048576), [randrange n] for a positive
    safe integer [n] (below 2^53) answers a number in [0, n), also where
    the product is rounded, and leaves the register in range; so [PCT n]
    always holds for [n] of 100 or more and never for [n] of 0 or less. *)
Theorem randrange_in_range g :
  0 ≤ lcgX g < LCG_M →
  (∀ n, 0 < n < 2 ^ 53 →
     ∃ r g' out, randrange settings n g = Done r g' out
                 ∧ 0 ≤ r < n ∧ 0 ≤ lcgX g' < LCG_M)
  ∧ (∀ n, ∃ b g' out, PCT settings n g = Done b g' out
                      ∧ (100 ≤ n → b = true) ∧ (n ≤ 0 → b = false)
                      ∧ 0 ≤ lcgX g' < LCG_M).
Proof.
  intros Hx. split.
  - intros n Hn. unfold randrange. run_M.
    destruct (getNextLcgValue_run g Hx) as [out ->]. simpl.
    do 3 eexists. split; [done|]. simpl.
    destruct (rounded_product_below n (lcgX g) ltac:(lia) Hx) as [H0 Hup].
    unfold LCG_A, LCG_C, LCG_M in *. split.
    + rewrite Z.quot_div_nonneg by lia.
      split; [apply Z.div_pos; lia|]. apply Z.div_lt_upper_bound; lia.
    + apply Z.mod_pos_bound. lia.
  - intros n. unfold PCT. run_M.
    destruct (randrange_run g 100 Hx ltac:(lia)) as [out ->].
    do 3 eexists. split; [done|]. simpl. unfold LCG_A, LCG_C, LCG_M in *.
    assert (0 ≤ (100 * lcgX g) `div` 1048576 < 100) as Hr.
    { split; [apply Z.div_pos; lia|]. apply Z.div_lt_upper_bound; lia. }
    split_and!.
    + intros ?. apply bool_decide_eq_true_2. lia.
    + intros ?. apply bool_decide_eq_false_2. lia.
    + apply Z.mod_pos_bound. lia.
    + apply Z.mod_pos_bound. lia.
Qed.

End Generator.

(** ** The period of the generator *)

Section Period.
Variable settings : Settings.t.
Implicit Types (g : GameState) (x : Z) (k j : nat).

(** One step of the register, and the step of [2 ^ j] steps at once: both
    are maps [x ↦ (a * x + c) mod LCG_M]. *)
Local Abbreviation step := (λ x : Z, (LCG_A * x + LCG_C) `mod` LCG_M).
Local Abbreviation twice := (λ p : Z * Z, ((p.1 * p.1) `mod` LCG_M, (p.1 * p.2 + p.2) `mod` LCG_M)).

Lemma calls_register k g :
  0 ≤ lcgX g < LCG_M →
  ∃ g' out, calls k (getNextLcgValue settings) g = Done () g' out
            ∧ lcgX g' = Nat.iter k step (lcgX g).
Proof.
  revert g. induction k as [|k IH]; intros g Hx.
  - by exists g, [].
  - cbn [calls]. run_M. destruct (getNextLcgValue_run settings g Hx) as [out ->].
    destruct (IH (set_lcgX ((LCG_A * lcgX g + LCG_C) `mod` LCG_M) g)) as (g' & out' & -> & Hg').
    { simpl. apply Z.mod_pos_bound. done. }
    exists g', (out ++ out'). split; [done|]. rewrite Hg', Nat.iter_succ_r. done.
Qed.

Lemma iter_pow2 j x :
  Nat.iter (2 ^ j) step x
  = ((Nat.iter j twice (LCG_A, LCG_C)).1 * x + (Nat.iter j twice (LCG_A, LCG_C)).2) `mod` LCG_M.
Proof.
  revert x. induction j as [|j IH]; intros x; [done|].
  rewrite Nat.pow_succ_r'. replace (2 * 2 ^ j)%nat with (2 ^ j + 2 ^ j)%nat by lia.
  rewrite Nat.iter_add, !IH, Nat.iter_succ.
  destruct (Nat.iter j twice (LCG_A, LCG_C)) as [a c]. cbn [fst snd].
  transitivity ((a * a * x + (a * c + c)) `mod` LCG_M).
  - rewrite <- (Z.add_mod_idemp_l (a * ((a * x + c) `mod` LCG_M)) c) by done.
    rewrite Z.mul_mod_idemp_r, Z.add_mod_idemp_l by done. f_equal. ring.
  - rewrite Z.add_mod_idemp_r by done.
    rewrite <- (Z.add_mod_idemp_l ((a * a) `mod` LCG_M * x)) by done.
    rewrite Z.mul_mod_idemp_l, Z.add_mod_idemp_l by done. done.
Qed.

(** The divisors of a power of two are powers of two. *)
Lemma divisor_of_pow2 (n : nat) (d : Z) :
  0 < d → (d | 2 ^ Z.of_nat n) → ∃ j : nat, (j ≤ n)%nat ∧ d = 2 ^ Z.of_nat j.
Proof.
  revert d. induction n as [|n IH]; intros d Hd Hdiv.
  - exists 0%nat. split; [done|]. apply Z.divide_1_r_nonneg in Hdiv; [done|lia].
  - rewrite Nat2Z.inj_succ, Z.pow_succ_r in Hdiv by lia.
    destruct (Z.even d) eqn:He.
    + apply Z.even_spec in He as [d' ->].
      apply Z.mul_divide_cancel_l in Hdiv; [|done].
      destruct (IH d' ltac:(lia) Hdiv) as (j & Hj & ->).
      exists (S j). split; [lia|]. rewrite Nat2Z.inj_succ, Z.pow_succ_r by lia. done.
    + assert (Z.gcd d 2 = 1) as Hg.
      { pose proof (Z.gcd_divide_l d 2) as Hgl. pose proof (Z.gcd_divide_r d 2) as Hgr.
        pose proof (Z.gcd_nonneg d 2) as Hg0.
        apply Z.divide_pos_le in Hgr as Hle; [|lia].
        assert (Z.gcd d 2 ≠ 0) by (intros Hz; rewrite Hz in Hgr; destruct Hgr; lia).
        assert (Z.gcd d 2 ≠ 2).
        { intros H2. rewrite H2 in Hgl. destruct Hgl as [q ->].
          rewrite Z.even_mul in He. simpl in He. by rewrite orb_true_r in He. }
        lia. }
      apply Z.gauss in Hdiv; [|done].
      destruct (IH d Hd Hdiv) as (j & Hj & ->). exists j. split; [lia|done].
Qed.

Section Orbit.
Variable x : Z.
Hypothesis Hx : 0 ≤ x < LCG_M.

(** [k] steps bring [x] back to itself. *)
Local Abbreviation back k := (Nat.iter k step x = x).

Lemma back_mul k (n : nat) : back k → back (n * k).
Proof.
  intros Hk. induction n as [|n IH]; [done|].
  rewrite Nat.mul_succ_l, Nat.iter_add. by rewrite Hk.
Qed.

Lemma back_sub (a b : nat) : back a → back (a + b) → back b.
Proof. intros Ha Hab. rewrite Nat.add_comm, Nat.iter_add, Ha in Hab. done. Qed.

Lemma back_full : back (2 ^ 20).
Proof.
  rewrite iter_pow2.
  change (Nat.iter 20 twice (LCG_A, LCG_C)) with (1, 0).
  cbn [fst snd]. rewrite Z.mul_1_l, Z.add_0_r. by apply Z.mod_small.
Qed.

Lemma not_back_half : ¬ back (2 ^ 19).
Proof.
  rewrite iter_pow2.
  change (Nat.iter 19 twice (LCG_A, LCG_C)) with (1, 524288).
  cbn [fst snd]. rewrite Z.mul_1_l. unfold LCG_M in *. intros Heq.
  Z.div_mod_to_equations. lia.
Qed.

Lemma pow2_20 : Z.of_nat (2 ^ 20) = 1048576.
Proof. rewrite Nat2Z.inj_pow. reflexivity. Qed.

Lemma back_iff k : back k ↔ (1048576 | Z.of_nat k).
Proof.
  split.
  - intros Hk.
    assert (2 ^ 20 ≠ 0)%nat as Hnz by (apply Nat.pow_nonzero; lia).
    pose proof (Nat.div_mod k (2 ^ 20) Hnz) as Hdm.
    pose proof (Nat.mod_upper_bound k (2 ^ 20) Hnz) as Hlt.
    set (q := (k / 2 ^ 20)%nat) in *. set (r := (k mod 2 ^ 20)%nat) in *.
    assert (back r) as Hr.
    { apply (back_sub (q * 2 ^ 20)); [apply back_mul, back_full|].
      by rewrite (Nat.mul_comm q), <- Hdm. }
    destruct (decide (r = 0%nat)) as [Hr0|Hr0].
    { exists (Z.of_nat q). rewrite Hdm, Hr0, Nat.add_0_r, Nat2Z.inj_mul, pow2_20. lia. }
    exfalso. apply not_back_half.
    pose proof (Nat.gcd_bezout_pos r (2 ^ 20) ltac:(lia)) as (a & b & Hab).
    assert (back (Nat.gcd r (2 ^ 20))) as Hg.
    { apply (back_sub (b * 2 ^ 20)); [apply back_mul, back_full|].
      rewrite Nat.add_comm, <- Hab. by apply back_mul. }
    pose proof (Nat.gcd_divide_l r (2 ^ 20)) as Hgl.
    pose proof (Nat.gcd_divide_r r (2 ^ 20)) as Hgr.
    apply Nat.divide_pos_le in Hgl as Hle; [|lia].
    set (d := Nat.gcd r (2 ^ 20)) in *.
    assert (0 < d)%nat as Hd.
    { destruct Hgl as [c Hc]. destruct d; [|lia]. rewrite Nat.mul_0_r in Hc. lia. }
    destruct (divisor_of_pow2 20 (Z.of_nat d)) as (j & Hj & Hdj); [lia| |].
    { destruct Hgr as [c Hc]. exists (Z.of_nat c).
      change (2 ^ Z.of_nat 20) with 1048576. rewrite <- pow2_20, Hc. lia. }
    assert (j ≠ 20%nat) as Hj20.
    { intros ->. change (2 ^ Z.of_nat 20) with 1048576 in Hdj.
      rewrite <- pow2_20 in Hdj. apply Nat2Z.inj in Hdj. lia. }
    assert (d = 2 ^ j)%nat as Hdpow.
    { apply Nat2Z.inj. rewrite Hdj, Nat2Z.inj_pow. done. }
    replace (2 ^ 19)%nat with (2 ^ (19 - j) * d)%nat; [by apply back_mul|].
    rewrite Hdpow, <- Nat.pow_add_r. f_equal. lia.
  - intros [c Hc].
    assert (k = Z.to_nat c * 2 ^ 20)%nat as ->.
    { apply Nat2Z.inj. rewrite Nat2Z.inj_mul, pow2_20. lia. }
    apply back_mul, back_full.
Qed.

End Orbit.

(** X2.  The generator has full period: with the register in
    [0, 1048576), [k] calls of [getNextLcgValue] bring the register back to
    the value it started from exactly when [k] is a multiple of 1048576. *)
Theorem lcg_full_period g k :
  0 ≤ lcgX g < LCG_M →
  ∃ g' out, calls k (getNextLcgValue settings) g = Done () g' out
            ∧ (lcgX g' = lcgX g ↔ (1048576 | Z.of_nat k)).
Proof.
  intros Hx. destruct (calls_register k g Hx) as (g' & out & Hrun & Hreg).
  exists g', out. split; [done|]. rewrite Hreg. by apply back_iff.
Qed.

End Period.

(** ** Seeding *)

Section Seeding.
Variable settings : Settings.t.
Implicit Types (g : GameState) (zz : string) (l : list ascii).

Lemma fromCharCode_capital r :
  0 ≤ r < 26 → 65 ≤ Z.of_N (N_of_ascii (fromCharCode (65 + r))) ≤ 90.
Proof.
  intros Hr. unfold fromCharCode. rewrite N_ascii_embedding by lia. lia.
Qed.

Lemma append_cons (a : ascii) zz (t : string) : String a zz +:+ t = String a (zz +:+ t).
Proof. reflexivity. Qed.

Lemma append_assoc_char zz c l :
  (zz +:+ String c EmptyString) +:+ string_of_list_ascii l
  = zz +:+ string_of_list_ascii (c :: l).
Proof. induction zz as [|a zz IH]; [done|]. by rewrite !append_cons, IH. Qed.

Lemma append_empty_r zz : zz +:+ "" = zz.
Proof. induction zz as [|a zz IH]; [done|]. by rewrite append_cons, IH. Qed.

(** The loop appends [n] capital letters and keeps the register in
    range. *)
Lemma zzword_loop_run (n : nat) zz g :
  0 ≤ lcgX g < LCG_M →
  ∃ l g' out,
    zzword_loop settings n zz g = Done (zz +:+ string_of_list_ascii l) g' out
    ∧ length l = n
    ∧ Forall (λ c, 65 ≤ Z.of_N (N_of_ascii c) ≤ 90) l
    ∧ 0 ≤ lcgX g' < LCG_M.
Proof.
  revert zz g. induction n as [|n IH]; intros zz g Hx.
  - exists [], g, []. cbn [zzword_loop string_of_list_ascii]. rewrite append_empty_r.
    split_and!; [done|done|apply Forall_nil_2|apply Hx..].
  - cbn [zzword_loop]. run_M.
    destruct (randrange_run settings g 26 Hx ltac:(lia)) as [out ->].
    set (r := (26 * lcgX g) `div` LCG_M).
    assert (0 ≤ r < 26) as Hr.
    { subst r. unfold LCG_M in *. split; [apply Z.div_pos; lia|].
      apply Z.div_lt_upper_bound; lia. }
    edestruct (IH (zz +:+ String (fromCharCode (65 + r)) EmptyString)) as (l & g' & out' & -> & Hl & Hcap & Hx').
    { simpl. apply Z.mod_pos_bound. done. }
    exists (fromCharCode (65 + r) :: l), g', (out ++ out').
    rewrite append_assoc_char. split; [done|]. split; [simpl; lia|]. split; [|done].
    constructor; [by apply fromCharCode_capital|done].
Qed.

Lemma rem_negative (s : Z) :
  Z.rem s 1048576 < 0 → 1048576 + Z.rem s 1048576 = s `mod` 1048576.
Proof. intros ?. Z.to_euclidean_division_equations. lia. Qed.

Lemma rem_nonnegative (s : Z) :
  ¬ Z.rem s 1048576 < 0 → Z.rem s 1048576 = s `mod` 1048576.
Proof. intros ?. Z.to_euclidean_division_equations. lia. Qed.

(** Seeding first brings the seed into [0, LCG_M), whatever its sign. *)
Lemma setSeed_normal seedval g :
  setSeed settings seedval g
  = (zzword ← zzword_loop settings (Z.to_nat TOKLEN) "";
     modify (set_zzword (first_char zzword +:+ "'" +:+ slice 2 zzword)))
      (set_lcgX (seedval `mod` LCG_M) g).
Proof.
  unfold setSeed.
  set (rest := mbind _ (zzword_loop settings (Z.to_nat TOKLEN) "")). clearbody rest.
  run_M. change (lcgX (set_lcgX (Z.rem seedval LCG_M) g)) with (Z.rem seedval LCG_M).
  pose proof (rem_negative seedval) as Hneg. pose proof (rem_nonnegative seedval) as Hpos.
  change 1048576 with LCG_M in Hneg, Hpos.
  destruct (decide (Z.rem seedval LCG_M < 0)) as [Hlt|Hge].
  - change (set_lcgX (LCG_M + Z.rem seedval LCG_M) (set_lcgX (Z.rem seedval LCG_M) g))
      with (set_lcgX (LCG_M + Z.rem seedval LCG_M) g).
    rewrite (Hneg Hlt). by destruct (rest _).
  - rewrite (Hpos Hge). by destruct (rest _).
Qed.

(** X3.  [setSeed] accepts every integer seed: it leaves the register in
    [0, 1048576) and a magic word of five characters, capital letters but
    for an apostrophe in second place; seeds that agree modulo 1048576,
    negative ones included, give the same result. *)
Theorem setSeed_spec seedval g :
  ∃ g' out c0 c2 c3 c4,
    setSeed settings seedval g = Done () g' out
    ∧ 0 ≤ lcgX g' < LCG_M
    ∧ zzword g' = String c0 (String "'" (String c2 (String c3 (String c4 ""))))
    ∧ Forall (λ c, 65 ≤ Z.of_N (N_of_ascii c) ≤ 90) [c0; c2; c3; c4]
    ∧ ∀ seedval', seedval' `mod` LCG_M = seedval `mod` LCG_M →
        setSeed settings seedval' g = setSeed settings seedval g.
Proof.
  assert (∀ seedval', seedval' `mod` LCG_M = seedval `mod` LCG_M →
            setSeed settings seedval' g = setSeed settings seedval g) as Hsame.
  { intros seedval' Heq. by rewrite !setSeed_normal, Heq. }
  revert Hsame. generalize (setSeed settings seedval g) at 1 3. intros same Hsame.
  rewrite setSeed_normal. run_M.
  destruct (zzword_loop_run (Z.to_nat TOKLEN) "" (set_lcgX (seedval `mod` LCG_M) g))
    as (l & g' & out & Hrun & Hl & Hcap & Hx).
  { simpl. apply Z.mod_pos_bound. done. }
  rewrite Hrun.
  destruct l as [|c0 [|c1 [|c2 [|c3 [|c4 [|]]]]]]; try done.
  apply Forall_cons in Hcap as [H0 Hcap]. apply Forall_cons in Hcap as [_ Hcap].
  eexists _, _, c0, c2, c3, c4. split; [done|]. split; [done|]. split; [reflexivity|].
  split; [by constructor|done].
Qed.

End Seeding.

(** ** Bits and stashed states *)

Section Bits.
Implicit Types (m a k n : Z).

Lemma to_int32_range m : - 2 ^ 31 ≤ to_int32 m < 2 ^ 31.
Proof. unfold to_int32. Z.div_mod_to_equations. lia. Qed.

Lemma to_int32_small m : - 2 ^ 31 ≤ m < 2 ^ 31 → to_int32 m = m.
Proof. unfold to_int32. intros ?. Z.div_mod_to_equations. lia. Qed.

(** The conversion to 32 bits keeps the 32 low bits. *)
Lemma to_int32_testbit m k : 0 ≤ k < 32 → Z.testbit (to_int32 m) k = Z.testbit m k.
Proof.
  intros Hk.
  rewrite <- (Z.mod_pow2_bits_low (to_int32 m) 32 k), <- (Z.mod_pow2_bits_low m 32 k) by lia.
  f_equal. unfold to_int32. Z.div_mod_to_equations. lia.
Qed.

Lemma land_pow2 a k : 0 ≤ k → Z.land a (2 ^ k) = if Z.testbit a k then 2 ^ k else 0.
Proof.
  intros Hk. apply Z.bits_inj'. intros n Hn.
  rewrite Z.land_spec, Z.pow2_bits_eqb by done.
  destruct (Z.eqb_spec k n) as [->|Hne].
  - rewrite andb_true_r. destruct (Z.testbit a n) eqn:Ha.
    + by rewrite Z.pow2_bits_true.
    + by rewrite Z.bits_0.
  - rewrite andb_false_r. destruct (Z.testbit a k).
    + by rewrite Z.pow2_bits_false.
    + by rewrite Z.bits_0.
Qed.

Lemma testbit_min_int n : 0 ≤ n → Z.testbit (- 2 ^ 31) n = bool_decide (31 ≤ n).
Proof.
  intros Hn. change (- 2 ^ 31) with (Z.lnot (Z.ones 31)).
  rewrite Z.lnot_spec by done. case_bool_decide.
  - by rewrite Z.ones_spec_high by lia.
  - by rewrite Z.ones_spec_low by lia.
Qed.

(** The sign bit of a 32-bit integer. *)
Lemma land_min_int a :
  - 2 ^ 31 ≤ a < 2 ^ 31 → (Z.land a (- 2 ^ 31) ≠ 0 ↔ Z.testbit a 31 = true).
Proof.
  intros Ha. split.
  - intros Hne. destruct (Z.testbit a 31) eqn:Hbit; [done|]. exfalso. apply Hne.
    assert (0 ≤ a) as Hpos.
    { destruct (decide (0 ≤ a)); [done|].
      rewrite Z.bits_above_log2_neg in Hbit; [done|lia|].
      destruct (decide (Z.pred (- a) ≤ 0)) as [Hz|Hz].
      - rewrite Z.log2_nonpos by done. lia.
      - apply Z.log2_lt_pow2; lia. }
    apply Z.bits_inj'. intros n Hn. rewrite Z.land_spec, testbit_min_int, Z.bits_0 by done.
    case_bool_decide; [|by rewrite andb_false_r].
    rewrite andb_true_r. destruct (decide (a = 0)) as [->|]; [by rewrite Z.bits_0|].
    apply Z.bits_above_log2; [done|].
    assert (Z.log2 a < 31) by (apply Z.log2_lt_pow2; lia). lia.
  - intros Hbit Hz. apply (f_equal (λ z, Z.testbit z 31)) in Hz.
    rewrite Z.land_spec, testbit_min_int, Hbit, Z.bits_0 in Hz by done. done.
Qed.

(** [tstbit] reads one bit of the mask. *)
Lemma tstbit_testbit m bit : tstbit m bit = Z.testbit m (bit `mod` 32).
Proof.
  unfold tstbit, and32, shl32.
  pose proof (Z.mod_pos_bound bit 32 ltac:(done)) as Hk.
  set (k := bit `mod` 32) in *.
  rewrite (to_int32_small 1) by done. rewrite Z.shiftl_1_l.
  rewrite <- (to_int32_testbit m k) by done.
  destruct (decide (k = 31)) as [->|Hk31].
  - change (to_int32 (2 ^ 31)) with (- 2 ^ 31).
    rewrite (to_int32_small (- 2 ^ 31)) by done.
    pose proof (land_min_int (to_int32 m) (to_int32_range m)) as Hsign.
    destruct (Z.testbit (to_int32 m) 31).
    + apply bool_decide_eq_true_2. by apply Hsign.
    + apply bool_decide_eq_false_2. intros Hne. by apply Hsign in Hne.
  - assert (0 < 2 ^ k < 2 ^ 31) as Hpow.
    { split; [apply Z.pow_pos_nonneg; lia|]. apply Z.pow_lt_mono_r; lia. }
    rewrite (to_int32_small (2 ^ k)) by lia.
    rewrite (to_int32_small (2 ^ k)) by lia.
    rewrite land_pow2 by lia. destruct (Z.testbit (to_int32 m) k).
    + apply bool_decide_eq_true_2. lia.
    + apply bool_decide_eq_false_2. intros Hne. by apply Hne.
Qed.

(** The bits of the one-bit mask [1 << b]. *)
Lemma shl32_one_testbit b k :
  0 ≤ k < 32 → Z.testbit (shl32 1 b) k = bool_decide (b `mod` 32 = k).
Proof.
  intros Hk. unfold shl32.
  pose proof (Z.mod_pos_bound b 32 ltac:(done)) as Hb.
  rewrite (to_int32_small 1) by done. rewrite Z.shiftl_1_l.
  rewrite to_int32_testbit by done. rewrite Z.pow2_bits_eqb by lia.
  destruct (Z.eqb_spec (b `mod` 32) k).
  - by rewrite bool_decide_eq_true_2.
  - by rewrite bool_decide_eq_false_2.
Qed.

(** X4.  [tstbit mask bit] is the bit of [mask] numbered [bit mod 32]:
    the shift count of [<<] wraps at 32, so bit numbers 32 apart read the
    same bit, and bit 31 is read through the sign.  The mask [setbit b]
    has exactly the bit [b mod 32]. *)
Theorem tstbit_reads_bit mask bit :
  tstbit mask bit = Z.testbit mask (bit `mod` 32)
  ∧ ∀ b, tstbit (setbit b) bit = bool_decide (b `mod` 32 = bit `mod` 32).
Proof.
  split; [apply tstbit_testbit|].
  intros b. rewrite tstbit_testbit. unfold setbit.
  apply shl32_one_testbit. by apply Z.mod_pos_bound.
Qed.

End Bits.

Section Stash.
Implicit Types (g : GameState) (obj pval : Z).

(** X5.  Stashing state [pval] records [-1 - pval]: [OBJECT_STATE_EQUALS]
    still reads state [pval], stashing twice gives [pval] back, and the
    validator accepts the value for [pval] in [0, maxState].  Only a
    positive [pval] reads as stashed: an object stashed in state 0 has the
    property of one that was not found. *)
Theorem stash_round_trip g obj pval o :
  zlookup (objects g) obj = Some o →
  ∃ g', OBJECT_STASHIFY g obj pval = Ok g'
        ∧ OBJECT_STATE_EQUALS g' obj pval = Ok true
        ∧ OBJECT_IS_STASHED g' obj = Ok (bool_decide (0 < pval))
        ∧ OBJECT_IS_NOTFOUND g' obj = Ok (bool_decide (pval = 0))
        ∧ PROP_STASHIFY (PROP_STASHIFY pval) = pval
        ∧ ∀ maxState, 0 ≤ pval ≤ maxState →
            PROP_IS_INVALID (PROP_STASHIFY pval) maxState = false.
Proof.
  intros Ho. unfold OBJECT_STASHIFY, field. rewrite Ho. simpl. eexists. split; [done|].
  unfold OBJECT_STATE_EQUALS, OBJECT_IS_STASHED, OBJECT_IS_NOTFOUND, field. simpl.
  rewrite zlookup_zinsert_eq by (by eexists). simpl.
  unfold PROP_STASHIFY, PROP_IS_INVALID, STATE_NOTFOUND. split_and!.
  - rewrite (bool_decide_eq_true_2 (-1 - pval = -1 - pval)) by done. by rewrite orb_true_r.
  - f_equal. apply bool_decide_ext. lia.
  - f_equal. apply bool_decide_ext. lia.
  - lia.
  - intros maxState Hp. apply orb_false_iff. split; apply bool_decide_eq_false_2; lia.
Qed.

End Stash.

(** ** Moving objects *)

Section FrontOfChain.
Context `{Dungeon.t, Obj.ids}.
Implicit Types (g : GameState) (x y w : Z).

(** [drop] puts the node at the head of the chain. *)
Lemma drop_head g x w g' :
  1 ≤ w → drop g x w = Ok g' → atloc_at g' w = Some x.
Proof.
  intros Hw. unfold drop. destruct (drop_record g x w) as [g1|]; simpl; [|done].
  rewrite decide_False by (unfold Location.LOC_NOWHERE, CARRIED; lia).
  unfold field, store. destruct (zlookup (locs g1) w) as [ls|] eqn:Hls; simpl; [|done].
  destruct (zlookup (link g1) x); simpl; [|done]. intros [= <-].
  unfold atloc_at. simpl. rewrite zlookup_zinsert_eq by (by eexists). done.
Qed.

Lemma drop_record_locs g x w g1 :
  drop_record g x w = Ok g1 → locs g1 = locs g ∧ link g1 = link g.
Proof.
  unfold drop_record, field. destruct (decide (x > NOBJECTS)).
  - destruct (zlookup (objects g) (x - NOBJECTS)); simpl; [|done]. by intros [= <-].
  - destruct (zlookup (objects g) x) as [o|]; simpl; [|done]. intros [= <-].
    repeat case_decide; done.
Qed.

(** The heads of the other chains stay. *)
Lemma drop_other_heads g x w g' w' :
  drop g x w = Ok g' → w' ≠ w → atloc_at g' w' = atloc_at g w'.
Proof.
  unfold drop. destruct (drop_record g x w) as [g1|] eqn:Hrec; simpl; [|done].
  apply drop_record_locs in Hrec as [Hlocs _].
  destruct (decide (_ ∨ _)).
  - intros [= <-] _. unfold atloc_at. by rewrite Hlocs.
  - unfold field, store. destruct (zlookup (locs g1) w) as [ls|] eqn:Hls; simpl; [|done].
    destruct (zlookup (link g1) x); simpl; [|done]. intros [= <-] Hne.
    unfold atloc_at. simpl. apply zlookup_Some in Hls as Hw.
    rewrite zlookup_zinsert_ne by lia. by rewrite Hlocs.
Qed.

Lemma carry_unlink_other_heads g x w g' w' :
  carry_unlink g x w = Ok g' → w' ≠ w → atloc_at g' w' = atloc_at g w'.
Proof.
  unfold carry_unlink, field, number.
  destruct (zlookup (locs g) w) as [ls|] eqn:Hls; cbn -[carry_scan]; [|done].
  apply zlookup_Some in Hls as Hw.
  destruct (decide (LocationState.atloc ls = x)).
  - destruct (zlookup (link g) x); simpl; [|done]. intros [= <-] Hne.
    unfold atloc_at. simpl. by rewrite zlookup_zinsert_ne by lia.
  - destruct (carry_scan _ _ _ _); simpl; [|done].
    destruct (zlookup (link g) x); simpl; [|done]. by intros [= <-].
Qed.

Lemma carry_other_heads g x w g' w' :
  carry g x w = Ok g' → w' ≠ w → atloc_at g' w' = atloc_at g w'.
Proof.
  unfold carry, field. destruct (decide (x ≤ NOBJECTS)).
  - destruct (zlookup (objects g) x) as [o|]; simpl; [|done].
    destruct (decide (ObjectState.place o = CARRIED)); [by intros [= <-]|].
    intros Hrun Hne. rewrite (carry_unlink_other_heads _ _ _ _ _ Hrun Hne).
    by destruct (decide (x ≠ Obj.BIRD)).
  - apply carry_unlink_other_heads.
Qed.

(** What [move] reads first: where the node is recorded to be. *)
Lemma move_from g x from :
  node_home g x = Some from →
  (if decide (x > NOBJECTS)
   then o ← field (objects g) (x - NOBJECTS); mret (ObjectState.fixed o)
   else o ← field (objects g) x; mret (ObjectState.place o)) = Ok from.
Proof.
  intros Hfrom. unfold node_home in Hfrom. destruct (decide (x > NOBJECTS)).
  - rewrite decide_False in Hfrom by lia.
    apply fixed_of_Some in Hfrom as (o & Ho & <-). unfold field. by rewrite Ho.
  - rewrite decide_True in Hfrom by lia.
    apply place_of_Some in Hfrom as (o & Ho & <-). unfold field. by rewrite Ho.
Qed.

(** The run of [move] on a well-formed state. *)
Lemma move_run g x w :
  WF g → 1 ≤ x ≤ NOBJECTS * 2 → -1 ≤ w ≤ NLOCATIONS →
  ∃ g', move g x w = Ok g' ∧ WF g'
        ∧ (∀ y, node_home g' y = if decide (y = x) then Some w else node_home g y)
        ∧ (1 ≤ w → atloc_at g' w = Some x)
        ∧ holdng g' = (if decide (x ≤ NOBJECTS ∧ node_home g x = Some CARRIED ∧ x ≠ Obj.BIRD)
                       then holdng g - 1 else holdng g).
Proof.
  intros Hwf Hx Hw. unfold WF in *.
  destruct (node_home_is_Some g 0 x Hwf Hx) as [from Hfrom].
  pose proof Hwf as [_ _ _ _ H5 _]. pose proof (H5 x from Hx Hfrom) as Hrange.
  unfold move. rewrite (move_from g x from Hfrom). simpl.
    destruct (decide (from ≠ Location.LOC_NOWHERE ∧ from ≠ CARRIED)) as [Hloc|Hnone].
    - unfold Location.LOC_NOWHERE, CARRIED in Hloc.
      destruct (carry_linked g x from) as (g1 & Hrun & Hwl1 & Hhome1 & Hheld1);
        [done|done|lia|done|].
      rewrite Hrun. simpl.
      destruct (drop_linked g1 x w) as (g' & Hrun' & Hwl' & Hhome' & Hheld'); [done|done|lia|].
      exists g'. split_and!; [done|done| | |].
      + intros y. rewrite Hhome', Hhome1. repeat case_decide; try done; tauto.
      + intros ?. by eapply drop_head.
      + rewrite Hheld', Hheld1, Hhome1, Hfrom.
        rewrite (decide_False (P := _ ∧ Some from = Some CARRIED ∧ _))
          by (unfold CARRIED; intros (_ & [= ?] & _); lia).
        destruct (decide (x ≤ NOBJECTS)) as [Hobj|Hsh];
          [|rewrite !decide_False by tauto; done].
        rewrite (decide_True (P := x = x ∧ _)) by done.
        destruct (decide (x = Obj.BIRD)) as [Hb|Hb].
        * rewrite !decide_False by tauto. done.
        * rewrite !decide_True by done. lia.
    - simpl.
      destruct (drop_linked g x w) as (g' & Hrun' & Hwl' & Hhome' & Hheld'); [|done|lia|].
      { apply well_linked_skip; [|done]. intros w' Hw' Heq.
        apply Hnone. unfold Location.LOC_NOWHERE, CARRIED. rewrite Hfrom in Heq.
        simplify_eq. lia. }
      exists g'. split_and!; [done..| |done]. intros ?. by eapply drop_head.
Qed.

(** X6.  On a well-formed state [move] of any node of the index space to
    a location, to nowhere or into the hand returns: the node is recorded there and
    nowhere else, every other node stays where it was, the structure is
    kept, and a real location has the node at the head of its chain.  The
    held-count goes down by one exactly when the node was a carried object
    other than the bird.  Moved to [LOC_NOWHERE] (which is [destroy]) an
    object is in no chain. *)
Theorem move_places g x w :
  WF g → 1 ≤ x ≤ NOBJECTS * 2 → -1 ≤ w ≤ NLOCATIONS →
  ∃ g', move g x w = Ok g' ∧ WF g'
        ∧ (∀ y, node_home g' y = if decide (y = x) then Some w else node_home g y)
        ∧ (1 ≤ w → atloc_at g' w = Some x)
        ∧ holdng g' = (if decide (x ≤ NOBJECTS ∧ node_home g x = Some CARRIED ∧ x ≠ Obj.BIRD)
                       then holdng g - 1 else holdng g)
        ∧ (w = Location.LOC_NOWHERE → x ≤ NOBJECTS →
           destroy g x = Ok g' ∧ ∀ w', ¬ in_chain g' w' x).
Proof.
  intros Hwf Hx Hw.
  destruct (move_run g x w Hwf Hx Hw) as (g' & Hrun & Hwf' & Hhome & Hhead & Hheld).
  exists g'. split_and!; [done..|].
  intros -> Hobj. split; [done|].
  destruct (WF_object_situation g' x Hwf' ltac:(lia)) as [[_ ?]|[[_ ?]|(w' & Hw' & Hp & _)]];
    [done..|].
  specialize (Hhome x). rewrite decide_True, node_home_obj in Hhome by done.
  rewrite Hp in Hhome. unfold Location.LOC_NOWHERE in Hhome. simplify_eq. lia.
Qed.

Lemma move_head g x w g' : 1 ≤ w → move g x w = Ok g' → atloc_at g' w = Some x.
Proof.
  intros Hw. unfold move.
  destruct (if decide (x > NOBJECTS) then _ else _) as [from|]; simpl; [|done].
  destruct (decide (_ ∧ _)).
  - destruct (carry g x from) as [g1|]; simpl; [|done]. by apply drop_head.
  - simpl. by apply drop_head.
Qed.

Lemma move_other_heads g x w g' from w' :
  node_home g x = Some from → move g x w = Ok g' → w' ≠ w → w' ≠ from →
  atloc_at g' w' = atloc_at g w'.
Proof.
  intros Hfrom. unfold move. rewrite (move_from g x from Hfrom). simpl.
  destruct (decide (_ ∧ _)).
  - destruct (carry g x from) as [g1|] eqn:Hc; simpl; [|done]. intros Hd Hw Hf.
    rewrite (drop_other_heads _ _ _ _ _ Hd Hw). by eapply carry_other_heads.
  - simpl. intros Hd Hw _. by eapply drop_other_heads.
Qed.

Lemma move_shadow_holdng g x w g' :
  NOBJECTS < x → move g x w = Ok g' → holdng g' = holdng g.
Proof.
  intros Hx. unfold move.
  destruct (if decide (x > NOBJECTS) then _ else _) as [from|]; simpl; [|done].
  destruct (decide (_ ∧ _)).
  - destruct (carry g x from) as [g1|] eqn:Hc; simpl; [|done]. intros Hd.
    apply carry_holdng in Hc. apply drop_holdng in Hd.
    rewrite decide_False in Hc by lia. rewrite decide_False in Hd by lia. congruence.
  - simpl. intros Hd. apply drop_holdng in Hd. by rewrite decide_False in Hd by lia.
Qed.

(** X7.  [juggle] brings an object that lies in a room to the front of
    the room's chain, and its shadow to the front of the chain of its
    second place; with both in the same room the shadow comes first.  No
    node changes place, and the structure and the held-count are kept. *)
Theorem juggle_front g o i j :
  WF g → 1 ≤ o ≤ NOBJECTS → place_of g o = Some i → fixed_of g o = Some j → 1 ≤ i →
  ∃ g', juggle g o = Ok g' ∧ WF g'
        ∧ (∀ y, node_home g' y = node_home g y)
        ∧ atloc_at g' i = Some (if decide (j = i) then o + NOBJECTS else o)
        ∧ (1 ≤ j → atloc_at g' j = Some (o + NOBJECTS))
        ∧ holdng g' = holdng g.
Proof.
  intros Hwf Ho Hi Hj Hi1. pose proof Hwf as [_ _ _ [HN HL] H5 _].
  apply place_of_Some in Hi as Hi'. destruct Hi' as (os & Hos & Hplace).
  apply fixed_of_Some in Hj as Hj'. destruct Hj' as (os' & Hos' & Hfixed).
  assert (os' = os) as -> by congruence.
  assert (node_home g o = Some i) as Hhi by (by rewrite node_home_obj by lia).
  assert (node_home g (o + NOBJECTS) = Some j) as Hhj.
  { rewrite node_home_shadow by lia. by replace (o + NOBJECTS - NOBJECTS) with o by lia. }
  assert (-1 ≤ i ≤ NLOCATIONS) as Hirange by (apply (H5 o); [lia|done]).
  assert (-1 ≤ j ≤ NLOCATIONS) as Hjrange by (apply (H5 (o + NOBJECTS)); [lia|done]).
  destruct (move_run g o i) as (g1 & Hrun1 & Hwf1 & Hhome1 & Hhead1 & Hheld1);
    [done|lia|lia|].
  destruct (move_linked g1 (o + NOBJECTS) j) as (g' & Hrun' & Hwf' & Hhome');
    [done|lia|lia|].
  assert (node_home g1 (o + NOBJECTS) = Some j) as Hhj1.
  { rewrite Hhome1. rewrite decide_False by lia. done. }
  exists g'. unfold juggle, field. rewrite Hos. simpl. rewrite Hplace, Hfixed, Hrun1. simpl.
  split_and!; [done|done| | | |].
  - intros y. rewrite Hhome', Hhome1. repeat case_decide; congruence.
  - destruct (decide (j = i)) as [->|Hji].
    + by eapply move_head.
    + rewrite (move_other_heads g1 (o + NOBJECTS) j g' j i) by done. by apply Hhead1.
  - intros Hj1. by eapply move_head.
  - rewrite (move_shadow_holdng g1 (o + NOBJECTS) j g') by (done || lia).
    rewrite Hheld1, Hhi. rewrite decide_False; [done|].
    unfold CARRIED. intros (_ & [= ?] & _). lia.
Qed.

End FrontOfChain.

(** ** The held-count *)

Section Counting.
Context (P Q : Z → Prop) `{!∀ y, Decision (P y), !∀ y, Decision (Q y)}.

Lemma count_same (l : list Z) :
  (∀ y, y ∈ l → P y ↔ Q y) → length (filter P l) = length (filter Q l).
Proof.
  induction l as [|a l IH]; [done|]. intros Hpq.
  rewrite !filter_cons.
  assert (P a ↔ Q a) as Ha by (apply Hpq; left).
  assert (length (filter P l) = length (filter Q l)) as Hl
    by (apply IH; intros y Hy; apply Hpq; by right).
  destruct (decide (P a)), (decide (Q a)); simpl; try tauto; by rewrite ?Hl.
Qed.

Lemma count_change (l : list Z) x :
  NoDup l → x ∈ l → (∀ y, y ∈ l → y ≠ x → P y ↔ Q y) →
  (length (filter P l) + (if decide (Q x) then 1 else 0)
   = length (filter Q l) + (if decide (P x) then 1 else 0))%nat.
Proof.
  induction l as [|a l IH]; intros Hnd Hin Hpq; [by apply elem_of_nil in Hin|].
  apply NoDup_cons in Hnd as [Ha Hnd]. rewrite !filter_cons.
  destruct (decide (a = x)) as [->|Hne].
  - assert (length (filter P l) = length (filter Q l)) as Hl.
    { apply count_same. intros y Hy. apply Hpq; [by right|]. intros ->. done. }
    destruct (decide (P x)), (decide (Q x)); simpl; lia.
  - apply elem_of_cons in Hin as [->|Hin]; [done|].
    assert (∀ y, y ∈ l → y ≠ x → P y ↔ Q y) as Hpq' by (intros y Hy; apply Hpq; by right).
    specialize (IH Hnd Hin Hpq'). pose proof (Hpq a ltac:(left) Hne).
    destruct (decide (P a)), (decide (Q a)); simpl; try tauto; lia.
Qed.

End Counting.

Section HeldCount.
Context `{Dungeon.t, Obj.ids}.
Implicit Types (g : GameState) (x y w : Z).

(** A change of one node's place changes the count by that node alone. *)
Lemma held_change g g' x w :
  (∀ y, node_home g' y = if decide (y = x) then Some w else node_home g y) →
  held g' + (if decide (1 ≤ x ≤ NOBJECTS ∧ x ≠ Obj.BIRD ∧ node_home g x = Some CARRIED)
             then 1 else 0)
  = held g + (if decide (1 ≤ x ≤ NOBJECTS ∧ x ≠ Obj.BIRD ∧ w = CARRIED) then 1 else 0).
Proof.
  intros Hhome. unfold held.
  assert (∀ y, y ∈ seqZ 1 NOBJECTS → y ≠ x →
            (y ≠ Obj.BIRD ∧ place_of g' y = Some CARRIED)
            ↔ (y ≠ Obj.BIRD ∧ place_of g y = Some CARRIED)) as Hother.
  { intros y Hy%elem_of_seqZ Hne. rewrite <- !node_home_obj by lia.
    rewrite Hhome. by rewrite decide_False. }
  destruct (decide (1 ≤ x ≤ NOBJECTS)) as [Hobj|Hsh].
  - pose proof (count_change (λ o, o ≠ Obj.BIRD ∧ place_of g' o = Some CARRIED)
                  (λ o, o ≠ Obj.BIRD ∧ place_of g o = Some CARRIED)
                  (seqZ 1 NOBJECTS) x (NoDup_seqZ _ _)) as Hc.
    cbv beta in Hc.
    assert (place_of g' x = Some w) as Hpx.
    { rewrite <- node_home_obj by lia. rewrite Hhome. by rewrite decide_True. }
    rewrite Hpx in Hc. rewrite node_home_obj by lia.
    specialize (Hc ltac:(apply elem_of_seqZ; lia) Hother).
    destruct (decide (x ≠ Obj.BIRD ∧ place_of g x = Some CARRIED)) as [Hp|Hp];
      destruct (decide (x ≠ Obj.BIRD ∧ Some w = Some CARRIED)) as [Hq|Hq].
    + rewrite !decide_True; [lia| |tauto]. destruct Hq as [? [= ?]]. done.
    + rewrite decide_True by tauto. rewrite decide_False; [lia|].
      intros (_ & ? & ->). by apply Hq.
    + rewrite decide_False by tauto. rewrite decide_True; [lia|].
      destruct Hq as [? [= ?]]. done.
    + rewrite !decide_False; [lia| |tauto]. intros (_ & ? & ->). by apply Hq.
  - rewrite !decide_False by tauto.
    rewrite (count_same (λ o, o ≠ Obj.BIRD ∧ place_of g' o = Some CARRIED)
               (λ o, o ≠ Obj.BIRD ∧ place_of g o = Some CARRIED) (seqZ 1 NOBJECTS)); [lia|].
    intros y Hy. apply Hother; [done|]. apply elem_of_seqZ in Hy. lia.
Qed.

Local Ltac tally :=
  repeat case_decide; try lia; exfalso;
  unfold CARRIED in *; intuition (simplify_eq; (congruence || lia)).

Lemma drop_keeps_tally g x w :
  well_linked g x → 1 ≤ x ≤ NOBJECTS * 2 → 0 ≤ w ≤ NLOCATIONS →
  ∃ g', drop g x w = Ok g' ∧ WF g' ∧ holdng g' - held g' = holdng g - held g.
Proof.
  intros Hwl Hx Hw.
  destruct (drop_linked g x w) as (g' & Hrun & Hwl' & Hhome & Hheld); [done|done|lia|].
  exists g'. split_and!; [done..|].
  pose proof (held_change g g' x w Hhome) as Hc. rewrite Hheld. tally.
Qed.

(** X8.  The held-count follows the objects in hand.  On a well-formed
    state the difference between [holdng] and the number of carried
    objects (the bird apart) is kept by [move] to a location or to
    nowhere, by [carry] of a node from its location and the [drop] that
    follows it, and by [drop] of a node that is in no chain.  [move] into
    the hand is the exception: for an object other than the bird it
    lowers the difference by one. *)
Theorem holdng_counts_carried g x :
  WF g → 1 ≤ x ≤ NOBJECTS * 2 →
  (∀ w, -1 ≤ w ≤ NLOCATIONS →
     ∃ g', move g x w = Ok g'
           ∧ holdng g' - held g'
             = holdng g - held g
               - (if decide (x ≤ NOBJECTS ∧ x ≠ Obj.BIRD ∧ w = CARRIED) then 1 else 0))
  ∧ (∀ w, 1 ≤ w ≤ NLOCATIONS → node_home g x = Some w →
     ∃ g1, carry g x w = Ok g1
           ∧ holdng g1 - held g1 = holdng g - held g
           ∧ ∀ w', 0 ≤ w' ≤ NLOCATIONS →
               ∃ g2, drop g1 x w' = Ok g2 ∧ WF g2
                     ∧ holdng g2 - held g2 = holdng g - held g)
  ∧ (∀ w, (∀ w', 1 ≤ w' ≤ NLOCATIONS → node_home g x ≠ Some w') → 0 ≤ w ≤ NLOCATIONS →
     ∃ g', drop g x w = Ok g' ∧ WF g' ∧ holdng g' - held g' = holdng g - held g).
Proof.
  intros Hwf Hx. split_and!.
  - intros w Hw.
    destruct (move_run g x w Hwf Hx Hw) as (g' & Hrun & _ & Hhome & _ & Hheld).
    exists g'. split; [done|].
    pose proof (held_change g g' x w Hhome) as Hc. rewrite Hheld. tally.
  - intros w Hw Hat.
    destruct (carry_linked g x w Hwf Hx Hw Hat) as (g1 & Hrun & Hwl1 & Hhome1 & Hheld1).
    assert (holdng g1 - held g1 = holdng g - held g) as Hkept.
    { rewrite Hheld1. destruct (decide (x ≤ NOBJECTS)) as [Hobj|Hsh].
      - assert (∀ y, node_home g1 y
                     = if decide (y = x) then Some CARRIED else node_home g y) as Hh.
        { intros y. rewrite Hhome1. repeat case_decide; try done; tauto. }
        pose proof (held_change g g1 x CARRIED Hh) as Hc. rewrite Hat in Hc. tally.
      - assert (∀ y, node_home g1 y = if decide (y = x) then Some w else node_home g y) as Hh.
        { intros y. rewrite Hhome1. rewrite decide_False by tauto.
          destruct (decide (y = x)) as [->|]; done. }
        pose proof (held_change g g1 x w Hh) as Hc. tally. }
    exists g1. split_and!; [done..|]. intros w' Hw'.
    destruct (drop_keeps_tally g1 x w' Hwl1 Hx Hw') as (g2 & ? & ? & Hk2).
    exists g2. split_and!; [done..|]. by rewrite Hk2.
  - intros w Hnot Hw. apply drop_keeps_tally; [|done..].
    by apply well_linked_skip.
Qed.

End HeldCount.

(** ** The save validator *)

Section Validator.
Context `{Dungeon.t, Msg.ids}.
Implicit Types (g : GameState).

Lemma out_of_false lo hi v : out_of lo hi v = false ↔ lo ≤ v ≤ hi.
Proof.
  unfold out_of. rewrite orb_false_iff, !bool_decide_eq_false. lia.
Qed.

Lemma all_pass_true (check : Z → result bool) (ds : list Z) :
  all_pass check ds = Ok true ↔ ∀ i, i ∈ ds → check i = Ok true.
Proof.
  induction ds as [|a ds IH]; simpl.
  - split; [|done]. intros _ i Hi. by apply elem_of_nil in Hi.
  - split.
    + destruct (check a) as [[|]|] eqn:Ha; simpl; [|done..].
      intros Hrest i [->|Hi]%elem_of_cons; [done|]. by apply IH.
    + intros Hall. rewrite (Hall a) by left. simpl. apply IH.
      intros i Hi. apply Hall. by right.
Qed.

Lemma count_tally_Ok g (ds : list Z) (acc t : Z) :
  (∀ i, i ∈ ds → is_Some (zlookup (objects g) i)) →
  count_tally g ds acc = Ok t
  ↔ (∀ i, i ∈ ds → is_Some (zlookup Dungeon.objects i))
    ∧ t = acc + Z.of_nat (length (filter
            (λ i, treasure i = true ∧ prop_of g i = Some STATE_NOTFOUND) ds)).
Proof.
  revert acc. induction ds as [|a ds IH]; intros acc Hobj; simpl.
  - split.
    + intros [= <-]. split; [|lia]. intros i Hi. by apply elem_of_nil in Hi.
    + intros [_ ->]. f_equal. lia.
  - destruct (Hobj a) as [o Ho]; [left|].
    assert (∀ i, i ∈ ds → is_Some (zlookup (objects g) i)) as Hobj'
      by (intros i Hi; apply Hobj; by right).
    assert (prop_of g a = Some (ObjectState.prop o)) as Hpa
      by (unfold prop_of; by rewrite Ho).
    assert ((∀ i, i ∈ a :: ds → is_Some (zlookup Dungeon.objects i))
            ↔ is_Some (zlookup Dungeon.objects a)
              ∧ ∀ i, i ∈ ds → is_Some (zlookup Dungeon.objects i)) as ->.
    { split.
      - intros Hall. split; [apply Hall; left|]. intros i Hi. apply Hall. by right.
      - intros [Ha Hall] i [->|Hi]%elem_of_cons; [done|by apply Hall]. }
    rewrite filter_cons. unfold field. rewrite Ho.
    destruct (zlookup Dungeon.objects a) as [od|] eqn:Hod; simpl.
    + assert (treasure a = ObjectData.isTreasure od) as Htr
        by (unfold treasure; by rewrite Hod).
      assert (is_Some (Some od)) as Hsome by (by eexists).
      destruct (ObjectData.isTreasure od); simpl; rewrite IH by done.
      * destruct (decide (ObjectState.prop o = STATE_NOTFOUND)) as [Hp|Hp];
          destruct (decide (treasure a = true ∧ prop_of g a = Some STATE_NOTFOUND))
            as [Hq|Hq]; simpl.
        -- split; intros [? ->]; (split; [tauto|lia]).
        -- exfalso. apply Hq. by rewrite Hpa, Hp.
        -- exfalso. destruct Hq as [_ Hq]. rewrite Hpa in Hq. by injection Hq.
        -- split; intros [? ->]; (split; [tauto|lia]).
      * rewrite decide_False by (intros [? _]; congruence).
        split; intros [? ->]; (split; [tauto|lia]).
    + split; [done|]. intros [[Ha _] _]. by destruct Ha.
Qed.

Lemma bounds_pass lo hi a b :
  negb (out_of lo hi a || out_of lo hi b) = true ↔ lo ≤ a ≤ hi ∧ lo ≤ b ≤ hi.
Proof.
  rewrite negb_true_iff, orb_false_iff, !out_of_false. done.
Qed.

Lemma prop_pass v : negb (PROP_IS_INVALID v MAX_STATE) = true ↔ - MAX_STATE - 1 ≤ v ≤ MAX_STATE.
Proof.
  unfold PROP_IS_INVALID. rewrite negb_true_iff, orb_false_iff, !bool_decide_eq_false. lia.
Qed.

(** What an accepted state satisfies. *)
Lemma isValid_sound g : isValid g = Ok true → accepted g.
Proof.
  intros Hv. unfold isValid in Hv.
  destruct (decide (abbnum g = 0)) as [|Habb]; [done|].
  destruct (decide (lcgX g >= LCG_M)) as [|Hlcg]; [done|].
  match type of Hv with (if ?c then _ else _) = _ => destruct c eqn:Hlocs end; [done|].
  rewrite !orb_false_iff, !out_of_false in Hlocs.
  match type of Hv with (?m ≫= _) = _ => destruct m as [[|]|] eqn:Hd end;
    simpl in Hv; [|done..].
  match type of Hv with (?m ≫= _) = _ => destruct m as [[|]|] eqn:Ho end;
    simpl in Hv; [|done..].
  match type of Hv with (if ?c then _ else _) = _ => destruct c eqn:Hdw end; [done|].
  rewrite !orb_false_iff, !out_of_false in Hdw.
  destruct (decide (numdie g >= NDEATHS)) as [|Hdie]; [done|].
  match type of Hv with (?m ≫= _) = _ => destruct m as [t|] eqn:Ht end;
    simpl in Hv; [|done].
  destruct (decide (t ≠ tally g)) as [|Htally]; [done|].
  match type of Hv with (?m ≫= _) = _ => destruct m as [[|]|] eqn:Hp end;
    simpl in Hv; [|done..].
  match type of Hv with (?m ≫= _) = _ => destruct m as [[|]|] eqn:Ha end;
    simpl in Hv; [|done..].
  rewrite all_pass_true in Hd, Ho, Hp, Ha, Hv.
  assert (∀ i, 0 ≤ i ≤ NOBJECTS → ∃ o, zlookup (objects g) i = Some o
            ∧ -1 ≤ ObjectState.place o ≤ NLOCATIONS ∧ -1 ≤ ObjectState.fixed o ≤ NLOCATIONS
            ∧ - MAX_STATE - 1 ≤ ObjectState.prop o ≤ MAX_STATE) as Hobjects.
  { intros i Hi. specialize (Ho i ltac:(apply elem_of_seqZ; lia)).
    specialize (Hp i ltac:(apply elem_of_seqZ; lia)). unfold field in Ho, Hp.
    destruct (zlookup (objects g) i) as [o|]; simpl in *; [|done].
    injection Ho as Ho. injection Hp as Hp. apply bounds_pass in Ho. apply prop_pass in Hp.
    exists o. tauto. }
  apply count_tally_Ok in Ht as [Htable ->].
  2:{ intros i Hi%elem_of_seqZ. destruct (Hobjects i) as (o & -> & _); [lia|]. by eexists. }
  split; try tauto.
  + lia.
  + intros i Hi. specialize (Hd i ltac:(apply elem_of_seqZ; lia)). unfold field in Hd.
    destruct (zlookup (dwarves g) i) as [d|]; simpl in *; [|done].
    injection Hd as Hd. apply bounds_pass in Hd. exists d. tauto.
  + lia.
  + intros i Hi. apply Htable. apply elem_of_seqZ. lia.
  + unfold unfound. lia.
  + intros l Hl. specialize (Ha l ltac:(apply elem_of_seqZ; lia)). unfold field in Ha.
    destruct (zlookup (locs g) l) as [ls|]; simpl in *; [|done].
    injection Ha as Ha. rewrite negb_true_iff, out_of_false in Ha. by exists ls.
  + intros x v Hx Hlk. specialize (Hv x ltac:(apply elem_of_seqZ; lia)).
    rewrite Hlk in Hv. injection Hv as Hv. by rewrite negb_true_iff, out_of_false in Hv.
Qed.

(** A state with these properties is accepted. *)
Lemma isValid_complete g : accepted g → isValid g = Ok true.
Proof.
  intros [Habb Hlcg [Hc1 Hc2] (Hl1 & Hl2 & Hl3 & Hl4) Hd Ho [Hdt Hdk] Hdie Htable Htally
            Ha Hlk].
  unfold isValid.
  rewrite decide_False by done. rewrite decide_False by lia.
  rewrite (proj2 (out_of_false _ _ _) Hc1), (proj2 (out_of_false _ _ _) Hc2),
    (proj2 (out_of_false _ _ _) Hl1), (proj2 (out_of_false _ _ _) Hl2),
    (proj2 (out_of_false _ _ _) Hl3), (proj2 (out_of_false _ _ _) Hl4),
    (proj2 (out_of_false _ _ _) Hdt), (proj2 (out_of_false _ _ _) Hdk). simpl.
  match goal with |- (?m ≫= _) = _ => assert (m = Ok true) as -> end.
  { apply all_pass_true. intros i Hi%elem_of_seqZ. destruct (Hd i) as (d & Hdi & ?); [lia|].
    unfold field. rewrite Hdi. simpl. f_equal. by apply bounds_pass. }
  simpl.
  match goal with |- (?m ≫= _) = _ => assert (m = Ok true) as -> end.
  { apply all_pass_true. intros i Hi%elem_of_seqZ.
    destruct (Ho i) as (o & Hoi & ? & ? & ?); [lia|].
    unfold field. rewrite Hoi. simpl. f_equal. by apply bounds_pass. }
  simpl. rewrite decide_False by lia.
  assert (count_tally g (seqZ 1 NOBJECTS) 0 = Ok (tally g)) as ->.
  { apply count_tally_Ok.
    - intros i Hi%elem_of_seqZ. destruct (Ho i) as (o & -> & _); [lia|]. by eexists.
    - split.
      + intros i Hi%elem_of_seqZ. apply Htable. lia.
      + rewrite Htally. unfold unfound. lia. }
  simpl. rewrite decide_False by (intros Hne; by apply Hne).
  match goal with |- (?m ≫= _) = _ => assert (m = Ok true) as -> end.
  { apply all_pass_true. intros i Hi%elem_of_seqZ.
    destruct (Ho i) as (o & Hoi & ? & ? & ?); [lia|].
    unfold field. rewrite Hoi. simpl. f_equal. by apply prop_pass. }
  simpl.
  match goal with |- (?m ≫= _) = _ => assert (m = Ok true) as -> end.
  { apply all_pass_true. intros l Hl%elem_of_seqZ. destruct (Ha l) as (ls & Hls & ?); [lia|].
    unfold field. rewrite Hls. simpl. f_equal. by rewrite negb_true_iff, out_of_false. }
  simpl. apply all_pass_true. intros x Hx%elem_of_seqZ.
  destruct (zlookup (link g) x) as [v|] eqn:Hv; [|done].
  simpl. f_equal. rewrite negb_true_iff, out_of_false. apply (Hlk x); [lia|done].
Qed.

(** X9.  [isValid] returns true exactly on the states that satisfy
    [accepted]: the twelve conditions of the source, none more.  In
    particular a negative generator register, a wrong held-count and a
    [link] array that is too short all pass. *)
Theorem isValid_accepts g : isValid g = Ok true ↔ accepted g.
Proof.
  split; [apply isValid_sound|apply isValid_complete].
Qed.

End Validator.

Section BlindSpots.
Context `{Dungeon.t, Msg.ids, Obj.ids}.
Implicit Types (g : GameState).

(** A chain that runs into a node linked to itself never reaches another
    node. *)
Lemma carry_scan_self_loop (fuel : nat) (lnk : list Z) object temp :
  zlookup lnk temp = Some temp → temp ≠ object →
  carry_scan fuel lnk object temp = Fail Diverges.
Proof.
  intros Hself Hne. induction fuel as [|fuel IH]; [done|].
  cbn [carry_scan]. unfold number. rewrite Hself. simpl.
  by rewrite decide_False.
Qed.

(** X10.  What [isValid] does not see.  An accepted state stays accepted
    when the held-count is replaced by any number and the generator
    register by any number below the modulus, negative ones included.  It
    also stays accepted when node 1 is made the head of the chain of
    location 1 and linked to itself; in that state the search loop of
    [carry] for object 2 at location 1 never ends. *)
Theorem isValid_blind_spots g :
  isValid g = Ok true → 1 ≤ NLOCATIONS → 2 ≤ NOBJECTS →
  is_Some (zlookup (link g) 1) → place_of g 2 ≠ Some CARRIED →
  (∀ h, isValid (set_holdng h g) = Ok true)
  ∧ (∀ x, x < LCG_M → isValid (set_lcgX x g) = Ok true)
  ∧ ∃ ls, zlookup (locs g) 1 = Some ls
      ∧ let looped := set_link (zinsert 1 1 (link g))
                        (set_locs (zinsert 1 (LocationState.set_atloc 1 ls) (locs g)) g) in
        isValid looped = Ok true
        ∧ (∀ fuel : nat, carry_scan fuel (link looped) 2 1 = Fail Diverges)
        ∧ carry looped 2 1 = Fail Diverges.
Proof.
  intros Hv HL HN Hlink Hplace. apply isValid_sound in Hv.
  destruct Hv as [Habb Hlcg Hch Hloc Hd Ho Hdt Hdie Htable Htally Ha Hlk].
  split_and!.
  - intros h. apply isValid_complete. by split.
  - intros x Hx. apply isValid_complete. by split.
  - destruct (Ha 1) as (ls & Hls & Hat); [lia|]. exists ls. split; [done|].
    intros looped.
    assert (zlookup (link looped) 1 = Some 1) as Hself
      by (subst looped; simpl; by apply zlookup_zinsert_eq).
    split_and!.
    + apply isValid_complete. split; try done.
      * intros l Hl. subst looped. simpl. destruct (decide (l = 1)) as [->|Hne].
        -- rewrite zlookup_zinsert_eq by (by eexists). eexists. split; [done|]. simpl. lia.
        -- rewrite zlookup_zinsert_ne by (done || lia). by apply Ha.
      * intros x v Hx. subst looped. simpl. destruct (decide (x = 1)) as [->|Hne].
        -- rewrite zlookup_zinsert_eq by done. intros [= <-]. lia.
        -- rewrite zlookup_zinsert_ne by (done || lia). by apply Hlk.
    + intros fuel. by apply carry_scan_self_loop.
    + destruct (Ho 2) as (o & Hobj & _); [lia|].
      assert (ObjectState.place o ≠ CARRIED) as Hnc.
      { intros Hc. apply Hplace. unfold place_of. by rewrite Hobj, <- Hc. }
      unfold carry. rewrite decide_True by lia.
      unfold field. replace (objects looped) with (objects g) by done.
      rewrite Hobj. simpl. rewrite decide_False by done.
      assert (∀ g2, zlookup (locs g2) 1 = Some (LocationState.set_atloc 1 ls) →
                zlookup (link g2) 1 = Some 1 →
                carry_unlink g2 2 1 = Fail Diverges) as Hunlink.
      { intros g2 Hl1 Hk1. unfold carry_unlink, field. rewrite Hl1.
        cbn [mbind result_bind LocationState.atloc LocationState.set_atloc].
        rewrite decide_False by done. by rewrite carry_scan_self_loop. }
      assert (zlookup (locs looped) 1 = Some (LocationState.set_atloc 1 ls)) as Hhead
        by (subst looped; simpl; apply zlookup_zinsert_eq; by eexists).
      case_decide; by apply Hunlink.
Qed.

End BlindSpots.

(** ** Setting up a game *)

(** A loop keeps what each round keeps. *)
Lemma each_inv (Inv : list Z → GameState → Prop) body :
  (∀ i rest g, Inv (i :: rest) g → ∃ g', body i g = Ok g' ∧ Inv rest g') →
  ∀ ds g, Inv ds g → ∃ g', each ds body g = Ok g' ∧ Inv [] g'.
Proof.
  intros Hstep ds. induction ds as [|i rest IH]; intros g Hinv.
  - by exists g.
  - destruct (Hstep i rest g Hinv) as (g1 & Hrun & Hinv1).
    destruct (IH g1 Hinv1) as (g' & Hrun' & Hinv').
    exists g'. split; [|done]. cbn [each]. rewrite Hrun. done.
Qed.

Section Seed.
Variable settings : Settings.t.

Lemma zzword_loop_frame (n : nat) zz g :
  0 ≤ lcgX g < LCG_M →
  ∃ z x out, zzword_loop settings n zz g = Done z (set_lcgX x g) out ∧ 0 ≤ x < LCG_M.
Proof.
  revert zz g. induction n as [|n IH]; intros zz g Hx.
  - exists zz, (lcgX g), []. split; [|done]. cbn [zzword_loop]. by destruct g.
  - cbn [zzword_loop]. run_M.
    destruct (randrange_run settings g 26 Hx ltac:(lia)) as [out ->].
    set (x1 := (LCG_A * lcgX g + LCG_C) `mod` LCG_M).
    assert (0 ≤ x1 < LCG_M) as Hx1 by (apply Z.mod_pos_bound; unfold LCG_M; lia).
    destruct (IH (zz +:+ String (fromCharCode (65 + (26 * lcgX g) `div` LCG_M)) EmptyString)
                (set_lcgX x1 g) Hx1) as (z & x & out' & -> & Hx').
    exists z, x, (out ++ out'). split; [|done]. done.
Qed.

Lemma setSeed_frame seedval g :
  ∃ z x out, setSeed settings seedval g = Done () (set_zzword z (set_lcgX x g)) out
             ∧ 0 ≤ x < LCG_M.
Proof.
  rewrite setSeed_normal. run_M.
  assert (0 ≤ lcgX (set_lcgX (seedval `mod` LCG_M) g) < LCG_M) as Hx
    by (apply Z.mod_pos_bound; unfold LCG_M; lia).
  destruct (zzword_loop_frame (Z.to_nat TOKLEN) "" _ Hx) as (z & x & out & -> & Hx').
  exists (first_char z +:+ "'" +:+ slice 2 z), x, out. split; [|done].
  by rewrite app_nil_r.
Qed.

End Seed.

Section Placement.
Context `{Dungeon.t, Obj.ids, Motion.ids, Location.ids, InitTables.t}.
Implicit Types (g : GameState) (x y w i : Z).

Lemma frame_beside : frame_field beside_objects.
Proof. intros g. by destruct g. Qed.

Lemma atloc_bounded g w :
  WF g → 0 ≤ w ≤ NLOCATIONS →
  ∃ ls, zlookup (locs g) w = Some ls ∧ 0 ≤ LocationState.atloc ls ≤ NOBJECTS * 2.
Proof.
  intros [_ _ _ [HN _] _ H6] Hw. destruct (H6 w Hw) as (a & l & Ha & Hc & Hmem).
  unfold atloc_at in Ha. destruct (zlookup (locs g) w) as [ls|]; [|done].
  injection Ha as <-. exists ls. split; [done|].
  inversion Hc as [|h n l' Hne Hlk Hrest]; subst; [lia|].
  destruct (proj1 (Hmem (LocationState.atloc ls))) as (? & _); [left|lia].
Qed.

Lemma drop_link_bounded g x w g' :
  WF g → link_bounded g → -1 ≤ w ≤ NLOCATIONS → drop g x w = Ok g' → link_bounded g'.
Proof.
  intros Hwf Hb Hw. unfold drop.
  destruct (drop_record g x w) as [g1|] eqn:Hrec; simpl; [|done].
  apply drop_record_locs in Hrec as [Hlocs Hlink].
  destruct (decide (_ ∨ _)) as [|Hloc].
  - intros [= <-]. unfold link_bounded. by rewrite Hlink.
  - unfold Location.LOC_NOWHERE, CARRIED in Hloc.
    unfold field, store. rewrite Hlocs, Hlink.
    destruct (atloc_bounded g w Hwf) as (ls & -> & Hat); [lia|]. simpl.
    destruct (zlookup (link g) x) eqn:Hx; simpl; [|done]. intros [= <-].
    intros y v. simpl. apply zlookup_Some in Hx as Hx0.
    destruct (decide (y = x)) as [->|Hne].
    + rewrite zlookup_zinsert_eq by (by eexists). by intros [= <-].
    + rewrite zlookup_zinsert_ne by lia. apply Hb.
Qed.

(** [drop] writes one object record, and never its state. *)
Lemma drop_objects g x w g' :
  drop g x w = Ok g' →
  (∀ j, prop_of g' j = prop_of g j)
  ∧ (∀ j, (x ≤ NOBJECTS → j ≠ x) → (x > NOBJECTS → j ≠ x - NOBJECTS) →
       zlookup (objects g') j = zlookup (objects g) j).
Proof.
  unfold drop. destruct (drop_record g x w) as [g1|] eqn:Hrec; simpl; [|done].
  assert ((∀ j, prop_of g1 j = prop_of g j)
          ∧ (∀ j, (x ≤ NOBJECTS → j ≠ x) → (x > NOBJECTS → j ≠ x - NOBJECTS) →
               zlookup (objects g1) j = zlookup (objects g) j))
    as Hrecord.
  { revert Hrec. unfold drop_record, field. destruct (decide (x > NOBJECTS)).
    - destruct (zlookup (objects g) (x - NOBJECTS)) as [o|] eqn:Ho; simpl; [|done].
      intros [= <-]. apply zlookup_Some in Ho as Hx0. split.
      + intros j. unfold prop_of. simpl. destruct (decide (j = x - NOBJECTS)) as [->|Hne].
        * rewrite zlookup_zinsert_eq by (by eexists). by rewrite Ho.
        * by rewrite zlookup_zinsert_ne by lia.
      + intros j _ Hne. simpl. rewrite zlookup_zinsert_ne; [done|lia|]. intros Heq. by apply Hne.
    - destruct (zlookup (objects g) x) as [o|] eqn:Ho; simpl; [|done].
      intros [= <-]. apply zlookup_Some in Ho as Hx0.
      assert (∀ g0, objects g0 = objects g →
                (∀ j, prop_of (set_objects (zinsert x (ObjectState.set_place w o)
                                              (objects g0)) g0) j = prop_of g j)
                ∧ (∀ j, (x ≤ NOBJECTS → j ≠ x) → (x > NOBJECTS → j ≠ x - NOBJECTS) →
                     zlookup (objects (set_objects (zinsert x (ObjectState.set_place w o)
                                                      (objects g0)) g0)) j
                     = zlookup (objects g) j)) as Hany.
      { intros g0 Hg0. split.
        - intros j. unfold prop_of. simpl. rewrite Hg0.
          destruct (decide (j = x)) as [->|Hne].
          + rewrite zlookup_zinsert_eq by (by eexists). by rewrite Ho.
          + by rewrite zlookup_zinsert_ne by lia.
        - intros j Hne _. simpl. rewrite Hg0. rewrite zlookup_zinsert_ne; [done|lia|].
          intros Heq. apply Hne; [lia|done]. }
      repeat case_decide;
        first [exact (Hany g eq_refl) | exact (Hany (set_holdng (holdng g - 1) g) eq_refl)]. }
  destruct (decide (_ ∨ _)); [by intros [= <-]|].
  unfold field, store. destruct (zlookup (locs g1) w); simpl; [|done].
  destruct (zlookup (link g1) x); simpl; [|done]. by intros [= <-].
Qed.

(** Putting down a node that is still nowhere. *)
Lemma drop_fresh g x w :
  WF g → link_bounded g → 1 ≤ x ≤ NOBJECTS * 2 → node_home g x = Some 0 →
  -1 ≤ w ≤ NLOCATIONS →
  ∃ g', drop g x w = Ok g' ∧ WF g' ∧ link_bounded g'
        ∧ (∀ y, node_home g' y = if decide (y = x) then Some w else node_home g y)
        ∧ holdng g' = holdng g ∧ beside_objects g' = beside_objects g.
Proof.
  intros Hwf Hb Hx Hhome Hw.
  destruct (drop_linked g x w) as (g' & Hrun & Hwf' & Hhome' & Hheld); [|done|done|].
  { apply well_linked_skip; [|done]. intros w' Hw'. rewrite Hhome. intros [= ?]. lia. }
  exists g'. split_and!; [done|done|by apply (drop_link_bounded g x w g')|done| |].
  - rewrite Hheld, Hhome. rewrite decide_False; [done|].
    unfold CARRIED. intros (_ & [= ?] & _).
  - by apply (drop_frame beside_objects frame_beside g x w g').
Qed.

Lemma sound_drop g x w :
  sound g → 1 ≤ x ≤ NOBJECTS * 2 → node_home g x = Some 0 → -1 ≤ w ≤ NLOCATIONS →
  ∃ g', drop g x w = Ok g' ∧ sound g'
        ∧ (∀ y, node_home g' y = if decide (y = x) then Some w else node_home g y)
        ∧ beside_objects g' = beside_objects g.
Proof.
  intros (Hwf & Hb & Hheld & Hzero & Hprops) Hx Hhome Hw.
  destruct (drop_fresh g x w) as (g' & Hrun & Hwf' & Hb' & Hhome' & Hheld' & Hbeside);
    [done..|].
  destruct (drop_objects g x w g' Hrun) as [Hprop Hother].
  exists g'. split_and!; [done| |done|done].
  split_and!; [done|done|congruence| |].
  - rewrite Hother; [done|lia|lia].
  - intros i Hi. rewrite Hprop. by apply Hprops.
Qed.

Hypothesis Htable : ∀ i, 1 ≤ i ≤ NOBJECTS →
  ∃ od, zlookup Dungeon.objects i = Some od
        ∧ -1 ≤ ObjectData.plac od ≤ NLOCATIONS ∧ -1 ≤ ObjectData.fixd od ≤ NLOCATIONS.

Lemma table_at i od :
  zlookup Dungeon.objects i = Some od →
  plac_at i = ObjectData.plac od ∧ fixd_at i = ObjectData.fixd od.
Proof. intros Hod. unfold plac_at, fixd_at. by rewrite Hod. Qed.

Lemma place_two_step B i rest g :
  (∀ j, j ∈ i :: rest → 1 ≤ j ≤ NOBJECTS) → NoDup (i :: rest) →
  sound g → beside_objects g = B →
  placed (λ j, bool_decide ((j ∉ i :: rest) ∧ fixd_at j > 0)) g →
  ∃ g', place_two i g = Ok g' ∧ sound g' ∧ beside_objects g' = B
        ∧ placed (λ j, bool_decide ((j ∉ rest) ∧ fixd_at j > 0)) g'.
Proof.
  intros Hrange [Hfresh Hnd]%NoDup_cons Hsound HB Hplaced.
  assert (1 ≤ i ≤ NOBJECTS) as Hi by (apply Hrange; left).
  destruct (Htable i Hi) as (od & Hod & Hplac & Hfixd).
  destruct (table_at i od Hod) as [Hp Hf].
  pose proof (Hplaced i Hi) as Hhere. cbv beta in Hhere.
  rewrite bool_decide_eq_false_2 in Hhere by (intros [Hn _]; apply Hn; left).
  destruct Hhere as [Hhome Hshadow].
  assert (∀ j, j ≠ i → ((j ∉ i :: rest) ∧ fixd_at j > 0) ↔ ((j ∉ rest) ∧ fixd_at j > 0)) as Hsame.
  { intros j Hne. rewrite not_elem_of_cons. tauto. }
  unfold place_two, field. rewrite Hod. simpl.
  destruct (decide (ObjectData.fixd od > 0)) as [Htwo|Hone].
  - destruct (sound_drop g (i + NOBJECTS) (ObjectData.fixd od))
      as (g1 & -> & Hsound1 & Hhome1 & Hbeside1); [done|lia|done|done|]. simpl.
    destruct (sound_drop g1 i (ObjectData.plac od))
      as (g2 & -> & Hsound2 & Hhome2 & Hbeside2); [done|lia| |done|].
    { rewrite Hhome1. by rewrite decide_False by lia. }
    exists g2. split_and!; [done|done|congruence|].
    intros j Hj. cbv beta.
    destruct (decide (j = i)) as [->|Hne]; rewrite !Hhome2, !Hhome1.
    + rewrite bool_decide_eq_true_2 by (split; [done|lia]).
      rewrite (decide_True (P := i = i)) by done.
      rewrite (decide_False (P := i + NOBJECTS = i)) by lia.
      rewrite (decide_True (P := i + NOBJECTS = i + NOBJECTS)) by done.
      by rewrite Hp, Hf.
    + rewrite (decide_False (P := j = i)) by done.
      rewrite (decide_False (P := j = i + NOBJECTS)) by lia.
      rewrite (decide_False (P := j + NOBJECTS = i)) by lia.
      rewrite (decide_False (P := j + NOBJECTS = i + NOBJECTS)) by lia.
      pose proof (Hplaced j Hj) as Hj'. cbv beta in Hj'.
      rewrite (bool_decide_ext _ _ (Hsame j Hne)) in Hj'. done.
  - exists g. split_and!; [done..|].
    intros j Hj. cbv beta. pose proof (Hplaced j Hj) as Hj'. cbv beta in Hj'.
    destruct (decide (j = i)) as [->|Hne].
    + rewrite bool_decide_eq_false_2 by (intros [_ ?]; lia). done.
    + rewrite (bool_decide_ext _ _ (Hsame j Hne)) in Hj'. done.
Qed.

Lemma set_objects_same g : set_objects (objects g) g = g.
Proof. by destruct g. Qed.

Lemma zinsert_same {A} (l : list A) k (a : A) : zlookup l k = Some a → zinsert k a l = l.
Proof.
  unfold zlookup, zinsert. case_decide; [|done]. apply list_insert_id.
Qed.

Lemma place_one_step B i rest g :
  (∀ j, j ∈ i :: rest → 1 ≤ j ≤ NOBJECTS) → NoDup (i :: rest) →
  sound g → beside_objects g = B →
  placed (λ k, bool_decide ((NOBJECTS + 1 - k ∉ i :: rest) ∨ fixd_at k > 0)) g →
  ∃ g', place_one i g = Ok g' ∧ sound g' ∧ beside_objects g' = B
        ∧ placed (λ k, bool_decide ((NOBJECTS + 1 - k ∉ rest) ∨ fixd_at k > 0)) g'.
Proof.
  intros Hrange [Hfresh Hnd]%NoDup_cons Hsound HB Hplaced.
  assert (1 ≤ i ≤ NOBJECTS) as Hi by (apply Hrange; left).
  unfold place_one. set (k := NOBJECTS + 1 - i).
  assert (1 ≤ k ≤ NOBJECTS) as Hk by lia.
  destruct (Htable k Hk) as (od & Hod & Hplac & Hfixd).
  destruct (table_at k od Hod) as [Hp Hf].
  pose proof Hsound as (Hwf & _).
  destruct (node_home_is_Some g 0 k Hwf ltac:(lia)) as [h Hh].
  rewrite node_home_obj in Hh by lia. apply place_of_Some in Hh as (o & Ho & _).
  assert (node_home g (k + NOBJECTS) = Some (ObjectState.fixed o)) as Hshadow.
  { rewrite node_home_shadow by lia. replace (k + NOBJECTS - NOBJECTS) with k by lia.
    apply fixed_of_Some. by eexists. }
  assert (∀ j, 1 ≤ j ≤ NOBJECTS → j ≠ k →
            ((NOBJECTS + 1 - j ∉ i :: rest) ∨ fixd_at j > 0)
            ↔ ((NOBJECTS + 1 - j ∉ rest) ∨ fixd_at j > 0)) as Hsame.
  { intros j Hj Hne. rewrite not_elem_of_cons. subst k. split; [tauto|].
    intros [?|?]; [left|by right]. split; [lia|done]. }
  pose proof (Hplaced k Hk) as Hhere. cbv beta in Hhere.
  unfold field. rewrite Ho, Hod. simpl.
  destruct (decide (ObjectData.fixd od > 0)) as [Htwo|Hone].
  - rewrite bool_decide_eq_true_2 in Hhere by (right; lia).
    destruct Hhere as [Hhome Hsh]. rewrite Hshadow, Hf in Hsh. injection Hsh as Hsh.
    assert (ObjectState.set_fixed (ObjectData.fixd od) o = o) as ->
      by (destruct o; unfold ObjectState.set_fixed; simpl in *; congruence).
    rewrite (zinsert_same _ _ _ Ho), set_objects_same.
    rewrite decide_False by lia.
    exists g. split_and!; [done..|].
    intros j Hj. cbv beta. pose proof (Hplaced j Hj) as Hj'. cbv beta in Hj'.
    destruct (decide (j = k)) as [->|Hne].
    + rewrite bool_decide_eq_true_2 by (right; lia). split; [done|].
      by rewrite Hshadow, Hsh, Hf.
    + rewrite (bool_decide_ext _ _ (Hsame j Hj Hne)) in Hj'. done.
  - rewrite bool_decide_eq_false_2 in Hhere.
    2:{ intros [Hn|?]; [|lia]. apply Hn. subst k. replace (NOBJECTS + 1 - (NOBJECTS + 1 - i)) with i by lia. left. }
    destruct Hhere as [Hhome Hsh].
    destruct (sound_drop g (k + NOBJECTS) (ObjectData.fixd od))
      as (g1 & Hrun1 & Hsound1 & Hhome1 & Hbeside1); [done|lia|done|done|].
    assert (g1 = set_objects
                   (zinsert k (ObjectState.set_fixed (ObjectData.fixd od) o) (objects g)) g)
      as Hg1.
    { revert Hrun1. unfold drop, drop_record. rewrite decide_True by lia.
      replace (k + NOBJECTS - NOBJECTS) with k by lia. unfold field. rewrite Ho. simpl.
      rewrite decide_True by (unfold Location.LOC_NOWHERE, CARRIED; lia). by intros [= <-]. }
    rewrite <- Hg1.
    assert (∀ g2, sound g2 → beside_objects g2 = B →
              (∀ y, node_home g2 y = if decide (y = k) then Some (ObjectData.plac od)
                                     else node_home g1 y) →
              placed (λ k, bool_decide ((NOBJECTS + 1 - k ∉ rest) ∨ fixd_at k > 0)) g2)
      as Hdone.
    { intros g2 _ _ Hhome2 j Hj. cbv beta. rewrite !Hhome2, !Hhome1.
      destruct (decide (j = k)) as [->|Hne].
      - rewrite bool_decide_eq_true_2.
        2:{ left. subst k. replace (NOBJECTS + 1 - (NOBJECTS + 1 - i)) with i by lia. done. }
        rewrite (decide_False (P := k + NOBJECTS = k)) by lia.
        rewrite (decide_True (P := k + NOBJECTS = k + NOBJECTS)) by done.
        by rewrite Hp, Hf.
      - rewrite (decide_False (P := j = k + NOBJECTS)) by lia.
        rewrite (decide_False (P := j + NOBJECTS = k)) by lia.
        rewrite (decide_False (P := j + NOBJECTS = k + NOBJECTS)) by lia.
        pose proof (Hplaced j Hj) as Hj'. cbv beta in Hj'.
        rewrite (bool_decide_ext _ _ (Hsame j Hj Hne)) in Hj'. done. }
    destruct (decide (ObjectData.plac od ≠ 0 ∧ ObjectData.fixd od ≤ 0)) as [Hput|Hstay].
    + destruct (sound_drop g1 k (ObjectData.plac od))
        as (g2 & Hrun2 & Hsound2 & Hhome2 & Hbeside2); [done|lia| |done|].
      { rewrite Hhome1. by rewrite decide_False by lia. }
      exists g2. split_and!; [done|done|congruence|]. apply Hdone; [done|congruence|done].
    + exists g1. split_and!; [done|done|congruence|]. apply Hdone; [done|congruence|].
      intros y. destruct (decide (y = k)) as [->|]; [|done].
      rewrite Hhome1. rewrite decide_False by lia. rewrite Hhome. f_equal. lia.
Qed.

Lemma place_two_loop B g :
  0 ≤ NOBJECTS → sound g → beside_objects g = B → placed (λ _, false) g →
  ∃ g', each (reverse (seqZ 1 NOBJECTS)) place_two g = Ok g' ∧ sound g'
        ∧ beside_objects g' = B ∧ placed (λ j, bool_decide (fixd_at j > 0)) g'.
Proof.
  intros HN Hsound HB Hplaced.
  destruct (each_inv
    (λ rest g, (∀ j, j ∈ rest → 1 ≤ j ≤ NOBJECTS) ∧ NoDup rest ∧ sound g
               ∧ beside_objects g = B
               ∧ placed (λ j, bool_decide ((j ∉ rest) ∧ fixd_at j > 0)) g)
    place_two) with (ds := reverse (seqZ 1 NOBJECTS)) (g := g)
    as (g' & Hrun & _ & _ & Hsound' & HB' & Hplaced').
  - intros i rest g0 (Hrange & Hnd & Hs & Hb & Hp).
    destruct (place_two_step B i rest g0) as (g1 & ? & ? & ? & ?); [done..|].
    exists g1. split_and!; [done| |by apply NoDup_cons in Hnd as [_ ?]|done..].
    intros j Hj. apply Hrange. by right.
  - split_and!; [|rewrite reverse_Permutation; apply NoDup_seqZ|done..|].
    + intros j Hj%elem_of_reverse%elem_of_seqZ. lia.
    + intros j Hj. cbv beta. rewrite bool_decide_eq_false_2; [by apply Hplaced|].
      intros [Hn _]. apply Hn. apply elem_of_reverse, elem_of_seqZ. lia.
  - exists g'. split_and!; [done..|]. intros j Hj. cbv beta.
    pose proof (Hplaced' j Hj) as Hj'. cbv beta in Hj'.
    erewrite bool_decide_ext; [exact Hj'|]. split; [|tauto]. intros ?. split; [|done].
    apply not_elem_of_nil.
Qed.

Lemma place_one_loop B g :
  0 ≤ NOBJECTS → sound g → beside_objects g = B →
  placed (λ j, bool_decide (fixd_at j > 0)) g →
  ∃ g', each (seqZ 1 NOBJECTS) place_one g = Ok g' ∧ sound g'
        ∧ beside_objects g' = B ∧ placed (λ _, true) g'.
Proof.
  intros HN Hsound HB Hplaced.
  destruct (each_inv
    (λ rest g, (∀ j, j ∈ rest → 1 ≤ j ≤ NOBJECTS) ∧ NoDup rest ∧ sound g
               ∧ beside_objects g = B
               ∧ placed (λ k, bool_decide ((NOBJECTS + 1 - k ∉ rest) ∨ fixd_at k > 0)) g)
    place_one) with (ds := seqZ 1 NOBJECTS) (g := g)
    as (g' & Hrun & _ & _ & Hsound' & HB' & Hplaced').
  - intros i rest g0 (Hrange & Hnd & Hs & Hb & Hp).
    destruct (place_one_step B i rest g0) as (g1 & ? & ? & ? & ?); [done..|].
    exists g1. split_and!; [done| |by apply NoDup_cons in Hnd as [_ ?]|done..].
    intros j Hj. apply Hrange. by right.
  - split_and!; [|by apply NoDup_seqZ|done..|].
    + intros j Hj%elem_of_seqZ. lia.
    + intros j Hj. cbv beta. pose proof (Hplaced j Hj) as Hj'. cbv beta in Hj'.
      erewrite bool_decide_ext; [exact Hj'|]. split; [|tauto].
      intros [Hn|?]; [|done]. exfalso. apply Hn. apply elem_of_seqZ. lia.
  - exists g'. split_and!; [done..|]. intros j Hj. cbv beta.
    pose proof (Hplaced' j Hj) as Hj'. cbv beta in Hj'.
    rewrite bool_decide_eq_true_2 in Hj'; [done|]. left. apply not_elem_of_nil.
Qed.

Lemma clear_place_loop g :
  sound g → placed (λ _, false) g →
  each (seqZ 1 NOBJECTS) clear_place g = Ok g.
Proof.
  intros (Hwf & _) Hplaced.
  assert (∀ ds, (∀ j, j ∈ ds → 1 ≤ j ≤ NOBJECTS) → each ds clear_place g = Ok g) as Hall.
  { induction ds as [|i ds IH]; intros Hrange; [done|].
    cbn [each]. assert (1 ≤ i ≤ NOBJECTS) as Hi by (apply Hrange; left).
    destruct (Hplaced i Hi) as [Hhome _]. rewrite node_home_obj in Hhome by lia.
    apply place_of_Some in Hhome as (o & Ho & Hpl).
    assert (clear_place i g = Ok g) as ->.
    { unfold clear_place, field. rewrite Ho. simpl.
      assert (ObjectState.set_place Location.LOC_NOWHERE o = o) as ->
        by (destruct o; unfold ObjectState.set_place, Location.LOC_NOWHERE;
            simpl in *; congruence).
      by rewrite (zinsert_same _ _ _ Ho), set_objects_same. }
    simpl. apply IH. intros j Hj. apply Hrange. by right. }
  apply Hall. intros j Hj%elem_of_seqZ. lia.
Qed.

Lemma write_prop g i v o :
  WF g → 1 ≤ i ≤ NOBJECTS → zlookup (objects g) i = Some o →
  let g' := set_objects (zinsert i (ObjectState.set_prop v o) (objects g)) g in
  WF g' ∧ link g' = link g ∧ holdng g' = holdng g
  ∧ zlookup (objects g') 0 = zlookup (objects g) 0
  ∧ (∀ y, node_home g' y = node_home g y)
  ∧ (∀ j, prop_of g' j = if decide (j = i) then Some v else prop_of g j)
  ∧ tally g' = tally g ∧ beside_objects g' = beside_objects g.
Proof.
  intros Hwf Hi Ho g'.
  assert (∀ y, node_home g' y = node_home g y) as Hhome
    by (eapply home_after_prop; [|done..]; lia).
  split_and!; [|done|done| |done| |done|apply frame_beside].
  - eapply well_linked_ext; [..|exact Hwf]; try done. simpl. apply length_zinsert.
  - subst g'. simpl. by rewrite zlookup_zinsert_ne by lia.
  - intros j. unfold prop_of. subst g'. simpl. destruct (decide (j = i)) as [->|Hne].
    + by rewrite zlookup_zinsert_eq by (by eexists).
    + by rewrite zlookup_zinsert_ne by lia.
Qed.

Lemma found_step g0 T i rest g :
  (∀ j, j ∈ i :: rest → 1 ≤ j ≤ NOBJECTS) → NoDup (i :: rest) →
  WF g → link_bounded g → holdng g = 0 →
  zlookup (objects g) 0 = Some (ObjectState.mk 0 0 0) →
  (∀ y, node_home g y = node_home g0 y) →
  (∀ j, 1 ≤ j ≤ NOBJECTS →
     prop_of g j = Some (if decide (j ∈ i :: rest) then 0 else first_prop j)) →
  tally g + Z.of_nat (length (filter (λ j, treasure j = true) (i :: rest))) = T →
  set_tally 0 (beside_objects g) = set_tally 0 (beside_objects g0) →
  ∃ g', set_found_state i g = Ok g'
        ∧ WF g' ∧ link_bounded g' ∧ holdng g' = 0
        ∧ zlookup (objects g') 0 = Some (ObjectState.mk 0 0 0)
        ∧ (∀ y, node_home g' y = node_home g0 y)
        ∧ (∀ j, 1 ≤ j ≤ NOBJECTS →
             prop_of g' j = Some (if decide (j ∈ rest) then 0 else first_prop j))
        ∧ tally g' + Z.of_nat (length (filter (λ j, treasure j = true) rest)) = T
        ∧ set_tally 0 (beside_objects g') = set_tally 0 (beside_objects g0).
Proof.
  intros Hrange [Hfresh Hnd]%NoDup_cons Hwf Hb Hheld Hzero Hhome Hprops Htally Hrest.
  assert (1 ≤ i ≤ NOBJECTS) as Hi by (apply Hrange; left).
  destruct (Htable i Hi) as (od & Hod & _).
  destruct (node_home_is_Some g 0 i Hwf ltac:(lia)) as [h Hh].
  rewrite node_home_obj in Hh by lia. apply place_of_Some in Hh as (o & Ho & _).
  assert (treasure i = ObjectData.isTreasure od) as Htr by (unfold treasure; by rewrite Hod).
  assert (first_prop i = if ObjectData.isTreasure od
                            && bool_decide (ObjectData.inventory od ≠ None)
                         then STATE_NOTFOUND else STATE_FOUND) as Hfirst
    by (unfold first_prop; by rewrite Hod).
  rewrite filter_cons in Htally.
  assert (∀ j, j ≠ i → (if decide (j ∈ i :: rest) then 0 else first_prop j)
                        = (if decide (j ∈ rest) then 0 else first_prop j)) as Hother.
  { intros j Hne. destruct (decide (j ∈ rest)) as [Hin|Hout].
    - rewrite decide_True; [done|by right].
    - rewrite decide_False; [done|]. rewrite elem_of_cons. tauto. }
  assert (prop_of g i = Some 0) as Hpi
    by (rewrite Hprops by done; rewrite decide_True; [done|left]).
  assert (∀ t, WF (set_tally t g)) as Hwft.
  { intros t. eapply well_linked_ext; [..|exact Hwf]; done. }
  assert (∀ t, set_tally 0 (beside_objects (set_tally t g)) = set_tally 0 (beside_objects g))
    as Hbt by (intros t; by destruct g).
  unfold set_found_state, field. rewrite Hod. simpl.
  destruct (ObjectData.isTreasure od) eqn:Histr; simpl in Hfirst.
  - rewrite decide_True in Htally by done. simpl in Htally.
    destruct (decide (ObjectData.inventory od ≠ None)) as [Hinv|Hinv].
    + rewrite bool_decide_eq_true_2 in Hfirst by done.
      unfold OBJECT_SET_NOT_FOUND, field.
      change (zlookup (objects (set_tally (tally g + 1) g)) i) with (zlookup (objects g) i).
      rewrite Ho. cbn [mbind result_bind mret result_ret]. eexists. split; [done|].
      destruct (write_prop (set_tally (tally g + 1) g) i STATE_NOTFOUND o (Hwft _) Hi Ho)
        as (Hwf' & Hlink' & Hheld' & Hzero' & Hhome' & Hprop' & Htally' & Hbeside').
      split_and!; [done| |by rewrite Hheld'|by rewrite Hzero'| | | |].
      * unfold link_bounded. rewrite Hlink'. apply Hb.
      * intros y. rewrite Hhome'. apply Hhome.
      * intros j Hj. rewrite Hprop'. destruct (decide (j = i)) as [->|Hne].
        -- rewrite decide_False by done. by rewrite Hfirst.
        -- change (prop_of (set_tally (tally g + 1) g) j) with (prop_of g j).
           rewrite Hprops by done. by rewrite Hother.
      * rewrite Htally'. change (tally (set_tally (tally g + 1) g)) with (tally g + 1). lia.
      * rewrite Hbeside', Hbt. done.
    + rewrite bool_decide_eq_false_2 in Hfirst by done.
      eexists. split; [done|].
      split_and!; [apply Hwft|done|done|done|done| | |by rewrite Hbt].
      * intros j Hj. change (prop_of (set_tally (tally g + 1) g) j) with (prop_of g j).
        destruct (decide (j = i)) as [->|Hne].
        -- rewrite decide_False by done. rewrite Hfirst. done.
        -- rewrite Hprops by done. by rewrite Hother.
      * change (tally (set_tally (tally g + 1) g)) with (tally g + 1). lia.
  - rewrite decide_False in Htally by (rewrite Htr; done).
    unfold OBJECT_SET_FOUND, field. rewrite Ho. simpl. eexists. split; [done|].
    destruct (write_prop g i STATE_FOUND o Hwf Hi Ho)
      as (Hwf' & Hlink' & Hheld' & Hzero' & Hhome' & Hprop' & Htally' & Hbeside').
    split_and!; [done| |by rewrite Hheld'|by rewrite Hzero'| | | |].
    + unfold link_bounded. rewrite Hlink'. apply Hb.
    + intros y. rewrite Hhome'. apply Hhome.
    + intros j Hj. rewrite Hprop'. destruct (decide (j = i)) as [->|Hne].
      * rewrite decide_False by done. by rewrite Hfirst.
      * rewrite Hprops by done. by rewrite Hother.
    + by rewrite Htally'.
    + by rewrite Hbeside'.
Qed.

Lemma found_loop g :
  0 ≤ NOBJECTS → sound g →
  ∃ g', each (seqZ 1 NOBJECTS) set_found_state g = Ok g'
        ∧ WF g' ∧ link_bounded g' ∧ holdng g' = 0
        ∧ zlookup (objects g') 0 = Some (ObjectState.mk 0 0 0)
        ∧ (∀ y, node_home g' y = node_home g y)
        ∧ (∀ j, 1 ≤ j ≤ NOBJECTS → prop_of g' j = Some (first_prop j))
        ∧ tally g' = tally g + treasures
        ∧ set_tally 0 (beside_objects g') = set_tally 0 (beside_objects g).
Proof.
  intros HN (Hwf & Hb & Hheld & Hzero & Hprops).
  destruct (each_inv
    (λ rest g1, (∀ j, j ∈ rest → 1 ≤ j ≤ NOBJECTS) ∧ NoDup rest
       ∧ WF g1 ∧ link_bounded g1 ∧ holdng g1 = 0
       ∧ zlookup (objects g1) 0 = Some (ObjectState.mk 0 0 0)
       ∧ (∀ y, node_home g1 y = node_home g y)
       ∧ (∀ j, 1 ≤ j ≤ NOBJECTS →
            prop_of g1 j = Some (if decide (j ∈ rest) then 0 else first_prop j))
       ∧ tally g1 + Z.of_nat (length (filter (λ j, treasure j = true) rest))
         = tally g + treasures
       ∧ set_tally 0 (beside_objects g1) = set_tally 0 (beside_objects g))
    set_found_state) with (ds := seqZ 1 NOBJECTS) (g := g)
    as (g' & Hrun & _ & _ & Hf1 & Hf2 & Hf3 & Hf4 & Hf5 & Hf6 & Hf7 & Hf8).
  - intros i rest g1 (Hrange & Hnd & ? & ? & ? & ? & ? & ? & ? & ?).
    destruct (found_step g (tally g + treasures) i rest g1)
      as (g2 & ? & ? & ? & ? & ? & ? & ? & ? & ?); [done..|].
    exists g2. split_and!; [done| |by apply NoDup_cons in Hnd as [_ ?]|done..].
    intros j Hj. apply Hrange. by right.
  - split_and!; [|apply NoDup_seqZ|done..| |done|done].
    + intros j Hj%elem_of_seqZ. lia.
    + intros j Hj. rewrite decide_True by (apply elem_of_seqZ; lia). by apply Hprops.
  - exists g'. split_and!; [done..| | |done].
    + intros j Hj. rewrite Hf6 by done. rewrite decide_False; [done|apply not_elem_of_nil].
    + simpl in Hf7. lia.
Qed.

Hypothesis Hdwarflocs : ∀ i, 1 ≤ i ≤ NDWARVES → is_Some (zlookup dwarflocs (i - 1)).

Lemma dwarves_loop g :
  0 ≤ NDWARVES →
  dwarves g = replicate (Z.to_nat (NDWARVES + 1)) (DwarfState.mk 0 0 0) →
  ∃ ds, each (seqZ 1 NDWARVES) place_dwarf g = Ok (set_dwarves ds g)
        ∧ ∀ i, 0 ≤ i ≤ NDWARVES →
            zlookup ds i
            = Some (DwarfState.mk 0 (if decide (1 ≤ i) then dwarfloc_at i else 0) 0).
Proof.
  intros HN Hfresh.
  destruct (each_inv
    (λ rest g1, (∀ j, j ∈ rest → 1 ≤ j ≤ NDWARVES) ∧ NoDup rest
       ∧ ∃ ds, g1 = set_dwarves ds g
               ∧ ∀ i, 0 ≤ i ≤ NDWARVES →
                   zlookup ds i
                   = Some (DwarfState.mk 0 (if decide (1 ≤ i ∧ i ∉ rest)
                                            then dwarfloc_at i else 0) 0))
    place_dwarf) with (ds := seqZ 1 NDWARVES) (g := g)
    as (g' & Hrun & _ & _ & ds & -> & Hds).
  - intros i rest g1 (Hrange & [Hfr Hnd]%NoDup_cons & ds & -> & Hds).
    assert (1 ≤ i ≤ NDWARVES) as Hi by (apply Hrange; left).
    destruct (Hdwarflocs i Hi) as [l Hl].
    assert (dwarfloc_at i = l) as Hat by (unfold dwarfloc_at; by rewrite Hl).
    pose proof (Hds i ltac:(lia)) as Hdi.
    rewrite decide_False in Hdi by (intros [_ Hn]; apply Hn; left).
    unfold place_dwarf, field, number.
    change (dwarves (set_dwarves ds g)) with ds. rewrite Hdi, Hl. simpl.
    eexists. split; [done|]. split_and!; [|done|].
    { intros j Hj. apply Hrange. by right. }
    eexists. split; [reflexivity|]. intros j Hj.
    destruct (decide (j = i)) as [->|Hne].
    + rewrite zlookup_zinsert_eq by (by eexists).
      rewrite decide_True by (split; [lia|done]). by rewrite Hat.
    + rewrite zlookup_zinsert_ne by lia. rewrite Hds by done. do 2 f_equal.
      apply decide_ext. rewrite not_elem_of_cons. tauto.
  - split_and!; [|apply NoDup_seqZ|].
    + intros j Hj%elem_of_seqZ. lia.
    + exists (dwarves g). split; [by destruct g|]. intros i Hi.
      rewrite Hfresh, zlookup_replicate. rewrite decide_True by lia.
      rewrite decide_False; [done|]. intros [? Hn]. apply Hn. apply elem_of_seqZ. lia.
  - exists ds. split; [done|]. intros i Hi. rewrite Hds by done. do 2 f_equal.
    apply decide_ext. split; [tauto|]. intros ?. split; [done|apply not_elem_of_nil].
Qed.

End Placement.

Section Forced.
Context `{Dungeon.t, Motion.ids, InitTables.t}.

Lemma or32_testbit a m k :
  0 ≤ k < 32 → Z.testbit (or32 a m) k = Z.testbit a k || Z.testbit m k.
Proof.
  intros Hk. unfold or32. by rewrite to_int32_testbit, Z.lor_spec, !to_int32_testbit.
Qed.

Lemma forced_bit_run conds i :
  is_Some (zlookup conds i) →
  forced_bit conds i
  = Ok (if forced_here i
        then zinsert i (or32 (default 0 (zlookup conds i)) (shl32 1 COND_FORCED)) conds
        else conds).
Proof.
  intros [v Hv]. unfold forced_bit, forced_here.
  destruct (zlookup locations i) as [loc|]; [|done].
  destruct (zlookup tkey i) as [k|] eqn:Hk.
  - destruct (decide (LocationData.big loc = None)) as [Hbig|Hbig].
    + rewrite bool_decide_eq_true_2 by done. simpl.
      by rewrite (bool_decide_eq_false_2 (LocationData.big loc ≠ None)) by tauto.
    + rewrite bool_decide_eq_false_2 by done.
      rewrite (bool_decide_eq_true_2 (LocationData.big loc ≠ None)) by done. simpl.
      destruct (decide (k = 0)) as [->|Hk0].
      * rewrite bool_decide_eq_true_2 by done.
        by rewrite (bool_decide_eq_false_2 (0 ≠ 0)) by (intros Hne; by apply Hne).
      * rewrite bool_decide_eq_false_2 by congruence.
        rewrite (bool_decide_eq_true_2 (k ≠ 0)) by done. simpl.
        destruct (zlookup travel k) as [t|]; [|done].
        destruct (decide (TravelOp.motion t = Motion.HERE)).
        -- rewrite bool_decide_eq_true_2 by done. unfold store. by rewrite Hv.
        -- by rewrite bool_decide_eq_false_2 by done.
  - rewrite (bool_decide_eq_false_2 (None = Some 0)) by done.
    rewrite orb_false_r. by destruct (bool_decide _).
Qed.

Lemma forced_bits_run (ds : list Z) conds :
  NoDup ds → (∀ i, i ∈ ds → is_Some (zlookup conds i)) →
  ∃ conds', forced_bits ds conds = Ok conds'
    ∧ length conds' = length conds
    ∧ ∀ j, zlookup conds' j
           = if decide (j ∈ ds ∧ forced_here j = true)
             then (λ v, or32 v (shl32 1 COND_FORCED)) <$> zlookup conds j
             else zlookup conds j.
Proof.
  revert conds. induction ds as [|i ds IH]; intros conds Hnd Hin.
  - exists conds. split_and!; [done..|]. intros j.
    rewrite decide_False; [done|]. intros [?%elem_of_nil _]. done.
  - apply NoDup_cons in Hnd as [Hfresh Hnd].
    destruct (Hin i) as [v Hv]; [left|].
    cbn [forced_bits]. rewrite forced_bit_run by (by eexists). simpl.
    set (conds1 := if forced_here i then _ else conds).
    assert (length conds1 = length conds) as Hlen1
      by (subst conds1; destruct (forced_here i); [apply length_zinsert|done]).
    assert (∀ j, j ≠ i → zlookup conds1 j = zlookup conds j) as Hother.
    { intros j Hne. subst conds1. destruct (forced_here i); [|done].
      apply zlookup_Some in Hv. by rewrite zlookup_zinsert_ne by lia. }
    destruct (IH conds1 Hnd) as (conds' & Hrun & Hlen & Hread).
    { intros j Hj. rewrite Hother by (intros ->; done). apply Hin. by right. }
    exists conds'. split_and!; [done|congruence|]. intros j. rewrite Hread.
    destruct (decide (j = i)) as [->|Hne].
    + rewrite decide_False by (intros [? _]; done).
      subst conds1. destruct (forced_here i) eqn:Hf.
      * rewrite decide_True by (split; [left|done]).
        rewrite zlookup_zinsert_eq by (by eexists). by rewrite Hv.
      * rewrite decide_False; [done|]. intros [_ ?]. done.
    + rewrite Hother by done. apply decide_ext. rewrite elem_of_cons. tauto.
Qed.

(** The bits of the table after the loop: the FORCED bit may be new, the
    other bits are as they were. *)
Lemma forced_bits_read conds conds' (ds : list Z) i bit :
  (∀ j, zlookup conds' j
        = if decide (j ∈ ds ∧ forced_here j = true)
          then (λ v, or32 v (shl32 1 COND_FORCED)) <$> zlookup conds j
          else zlookup conds j) →
  is_Some (zlookup conds i) →
  CNDBIT conds' i bit
  = CNDBIT conds i bit
    || bool_decide (i ∈ ds) && forced_here i && bool_decide (bit `mod` 32 = COND_FORCED).
Proof.
  intros Hread [v Hv]. unfold CNDBIT. rewrite Hread, Hv.
  destruct (decide (i ∈ ds ∧ forced_here i = true)) as [[Hin Hf]|Hno].
  - rewrite bool_decide_eq_true_2, Hf by done. simpl.
    rewrite !tstbit_testbit, or32_testbit by (by apply Z.mod_pos_bound).
    rewrite shl32_one_testbit by (by apply Z.mod_pos_bound).
    f_equal. apply bool_decide_ext. change (COND_FORCED `mod` 32) with COND_FORCED. done.
  - destruct (decide (i ∈ ds)) as [Hin|Hout].
    + rewrite bool_decide_eq_true_2 by done.
      destruct (forced_here i); [tauto|]. by rewrite orb_false_r.
    + rewrite bool_decide_eq_false_2 by done. by rewrite orb_false_r.
Qed.

End Forced.

Section Fresh.
Context `{Dungeon.t, Obj.ids, Motion.ids, Location.ids, InitTables.t}.
Variable settings : Settings.t.

Lemma sound_ext g g' :
  objects g' = objects g → link g' = link g → locs g' = locs g → holdng g' = holdng g →
  sound g → sound g'.
Proof.
  intros Ho Hl Hlocs Hh (Hwf & Hb & Hheld & Hzero & Hprops).
  assert (∀ y, node_home g' y = node_home g y) as Hhome
    by (intros y; unfold node_home, place_of, fixed_of; by rewrite Ho).
  split_and!.
  - eapply well_linked_ext; [..|exact Hwf]; try done. by rewrite Ho.
  - unfold link_bounded. by rewrite Hl.
  - congruence.
  - by rewrite Ho.
  - intros i Hi. unfold prop_of. rewrite Ho. by apply Hprops.
Qed.

Lemma placed_ext S g g' : objects g' = objects g → placed S g → placed S g'.
Proof.
  intros Ho Hp i Hi. specialize (Hp i Hi).
  unfold node_home, place_of, fixed_of in *. by rewrite Ho.
Qed.

Lemma createGameState_sound :
  0 ≤ NOBJECTS → 0 ≤ NLOCATIONS →
  sound createGameState ∧ placed (λ _, false) createGameState.
Proof.
  intros HN HL. split; [split_and!|].
  - by apply createGameState_WF.
  - intros x v. simpl. rewrite zlookup_replicate. case_decide; [|done]. intros [= <-]. lia.
  - done.
  - simpl. rewrite zlookup_replicate. by rewrite decide_True by lia.
  - intros i Hi. unfold prop_of. simpl. rewrite zlookup_replicate.
    by rewrite decide_True by lia.
  - intros i Hi. unfold node_home, place_of, fixed_of. simpl.
    rewrite !zlookup_replicate. repeat case_decide; try lia; done.
Qed.

(** The whole run of [initialise] on the fresh state. *)
Lemma initialise_run seedval :
  0 ≤ NOBJECTS → 0 ≤ NLOCATIONS → 0 ≤ NDWARVES →
  (∀ i, 1 ≤ i ≤ NOBJECTS →
     ∃ od, zlookup Dungeon.objects i = Some od
           ∧ -1 ≤ ObjectData.plac od ≤ NLOCATIONS ∧ -1 ≤ ObjectData.fixd od ≤ NLOCATIONS) →
  (∀ i, 1 ≤ i ≤ NDWARVES → is_Some (zlookup dwarflocs (i - 1))) →
  (∀ i, 1 ≤ i ≤ NLOCATIONS → is_Some (zlookup conditions i)) →
  ∃ g' out conds',
    initialise settings seedval createGameState
    = Done (if Settings.oldstyle settings then ["Initialising..." +:+ newline] else [],
            conds', seedval) g' out
    ∧ (∀ j, zlookup conds' j
            = if decide (j ∈ seqZ 1 NLOCATIONS ∧ forced_here j = true)
              then (λ v, or32 v (shl32 1 COND_FORCED)) <$> zlookup conditions j
              else zlookup conditions j)
    ∧ WF g' ∧ link_bounded g' ∧ holdng g' = 0
    ∧ zlookup (objects g') 0 = Some (ObjectState.mk 0 0 0)
    ∧ placed (λ _, true) g'
    ∧ (∀ j, 1 ≤ j ≤ NOBJECTS → prop_of g' j = Some (first_prop j))
    ∧ tally g' = treasures
    ∧ conds g' = setbit COND_HBASE
    ∧ (∀ i, 0 ≤ i ≤ NDWARVES →
         zlookup (dwarves g') i
         = Some (DwarfState.mk 0 (if decide (1 ≤ i) then dwarfloc_at i else 0) 0))
    ∧ 0 ≤ lcgX g' < LCG_M
    ∧ untouched g' = untouched createGameState.
Proof.
  intros HN HL HD Htable Hdw Hconds.
  destruct (createGameState_sound HN HL) as [Hsound0 Hplaced0].
  destruct (setSeed_frame settings seedval createGameState) as (z & x & out & Hseed & Hx).
  set (g1 := set_zzword z (set_lcgX x createGameState)) in *.
  assert (sound g1) as Hsound1 by (by apply (sound_ext createGameState)).
  destruct (dwarves_loop Hdw g1 HD) as (ds & Hloop1 & Hds); [done|].
  set (g2 := set_dwarves ds g1) in *.
  assert (sound g2) as Hsound2 by (by apply (sound_ext g1)).
  assert (placed (λ _, false) g2) as Hplaced2 by (by apply (placed_ext _ createGameState)).
  pose proof (clear_place_loop g2 Hsound2 Hplaced2) as Hloop2.
  destruct (forced_bits_run (seqZ 1 NLOCATIONS) conditions (NoDup_seqZ _ _))
    as (conds' & Hforced & _ & Hread).
  { intros i Hi%elem_of_seqZ. apply Hconds. lia. }
  destruct (place_two_loop Htable (beside_objects g2) g2 HN Hsound2 eq_refl Hplaced2)
    as (g3 & Hloop3 & Hsound3 & Hbeside3 & Hplaced3).
  destruct (place_one_loop Htable (beside_objects g2) g3 HN Hsound3 Hbeside3 Hplaced3)
    as (g4 & Hloop4 & Hsound4 & Hbeside4 & Hplaced4).
  destruct (found_loop Htable g4 HN Hsound4)
    as (g5 & Hloop5 & Hwf5 & Hb5 & Hheld5 & Hzero5 & Hhome5 & Hprops5 & Htally5 & Hbeside5).
  rewrite Hbeside4 in Hbeside5.
  exists (set_conds (setbit COND_HBASE) g5), out, conds'. split_and!.
  - unfold initialise. run_M. rewrite Hseed. fold g1. rewrite Hloop1. fold g2.
    rewrite Hloop2, Hforced, Hloop3, Hloop4, Hloop5. by rewrite !app_nil_r.
  - done.
  - eapply well_linked_ext; [..|exact Hwf5]; done.
  - done.
  - done.
  - done.
  - intros i Hi. destruct (Hplaced4 i Hi) as [? ?].
    change (node_home (set_conds (setbit COND_HBASE) g5)) with (node_home g5).
    by rewrite !Hhome5.
  - done.
  - change (tally (set_conds (setbit COND_HBASE) g5)) with (tally g5).
    destruct Hsound4 as (_ & _ & _ & _ & _).
    rewrite Htally5.
    apply (f_equal tally) in Hbeside4. apply (f_equal tally) in Hbeside3.
    simpl in Hbeside4, Hbeside3.
    assert (tally g4 = 0) as -> by (etrans; [exact Hbeside4|done]). lia.
  - done.
  - intros i Hi. apply (f_equal dwarves) in Hbeside5.
    change (dwarves g5 = ds) in Hbeside5.
    change (dwarves (set_conds (setbit COND_HBASE) g5)) with (dwarves g5).
    rewrite Hbeside5. by apply Hds.
  - apply (f_equal lcgX) in Hbeside5. change (lcgX g5 = x) in Hbeside5.
    change (lcgX (set_conds (setbit COND_HBASE) g5)) with (lcgX g5). lia.
  - apply (f_equal lcgX) in Hbeside5. change (lcgX g5 = x) in Hbeside5.
    change (lcgX (set_conds (setbit COND_HBASE) g5)) with (lcgX g5). lia.
  - change (untouched (set_conds (setbit COND_HBASE) g5))
      with (set_conds 0 (set_dwarves [] (set_zzword "" (set_lcgX 0
              (set_tally 0 (beside_objects g5)))))).
    by rewrite Hbeside5.
Qed.

End Fresh.

(** ** The game as [initialise] leaves it *)

Section Counting2.
Context (P Q : Z → Prop) `{!∀ y, Decision (P y), !∀ y, Decision (Q y)}.

(** A narrower count that is as large picks the same elements. *)
Lemma count_narrow (l : list Z) :
  (∀ y, Q y → P y) →
  (length (filter Q l) ≤ length (filter P l))%nat
  ∧ (length (filter Q l) = length (filter P l) → ∀ y, y ∈ l → P y → Q y).
Proof.
  intros Hqp. induction l as [|a l [IHle IHeq]]; [split; [done|]; by intros _ y ?%elem_of_nil|].
  rewrite !filter_cons.
  destruct (decide (Q a)) as [Hq|Hq]; destruct (decide (P a)) as [Hp|Hp]; simpl.
  - split; [lia|]. intros Heq y [->|Hy]%elem_of_cons; [done|]. apply IHeq; [lia|done].
  - by apply Hqp in Hq.
  - split; [lia|]. intros Heq. lia.
  - split; [lia|]. intros Heq y [->|Hy]%elem_of_cons; [done|]. by apply IHeq.
Qed.

End Counting2.

Section FreshGame.
Context `{Dungeon.t, Obj.ids, Motion.ids, Location.ids, Msg.ids, InitTables.t}.
Variable settings : Settings.t.
Implicit Types (g : GameState) (i : Z).

(** The table gives every object a place and a second place that exist. *)
Hypothesis Hsizes : 0 ≤ NOBJECTS ∧ 0 ≤ NLOCATIONS ∧ 0 ≤ NDWARVES.
Hypothesis Htable : ∀ i, 1 ≤ i ≤ NOBJECTS →
  ∃ od, zlookup Dungeon.objects i = Some od
        ∧ -1 ≤ ObjectData.plac od ≤ NLOCATIONS ∧ -1 ≤ ObjectData.fixd od ≤ NLOCATIONS.
Hypothesis Hdwarflocs : ∀ i, 1 ≤ i ≤ NDWARVES →
  ∃ l, zlookup dwarflocs (i - 1) = Some l ∧ -1 ≤ l ≤ NLOCATIONS.
Hypothesis Hconds : ∀ i, 1 ≤ i ≤ NLOCATIONS → is_Some (zlookup conditions i).

Lemma dwarflocs_there i : 1 ≤ i ≤ NDWARVES → is_Some (zlookup dwarflocs (i - 1)).
Proof. intros Hi. destruct (Hdwarflocs i Hi) as (l & -> & _). by eexists. Qed.

(** X11.  On the fresh state [initialise] returns the seed it was given
    and leaves a well-formed state: every object stands at the place and
    the second place of the table, nothing is held, a treasure with an
    inventory text is "not found" and every other object "found", the
    tally is the number of treasures, every dwarf stands at its table
    location, the register is in range, and only the hint bit of [conds]
    is set. *)
Theorem initialise_places seedval :
  ∃ g' out conds',
    initialise settings seedval createGameState
    = Done (if Settings.oldstyle settings then ["Initialising..." +:+ newline] else [],
            conds', seedval) g' out
    ∧ WF g' ∧ holdng g' = 0
    ∧ (∀ i od, 1 ≤ i ≤ NOBJECTS → zlookup Dungeon.objects i = Some od →
         zlookup (objects g') i
         = Some (ObjectState.mk (ObjectData.fixd od)
                   (if ObjectData.isTreasure od
                       && bool_decide (ObjectData.inventory od ≠ None)
                    then STATE_NOTFOUND else STATE_FOUND)
                   (ObjectData.plac od)))
    ∧ tally g' = treasures
    ∧ (∀ i l, 1 ≤ i ≤ NDWARVES → zlookup dwarflocs (i - 1) = Some l →
         zlookup (dwarves g') i = Some (DwarfState.mk 0 l 0))
    ∧ 0 ≤ lcgX g' < LCG_M
    ∧ conds g' = 2 ^ COND_HBASE
    ∧ untouched g' = untouched createGameState.
Proof.
  destruct Hsizes as (HN & HL & HD).
  destruct (initialise_run settings seedval HN HL HD Htable dwarflocs_there Hconds)
    as (g' & out & conds' & Hrun & _ & Hwf & _ & Hheld & _ & Hplaced & Hprops & Htally
        & Hcondsg & Hdw & Hx & Hrest).
  exists g', out, conds'. split; [done|]. split; [done|]. split; [done|].
  split; [|split; [done|]; split; [|split; [done|]; split; [done|done]]].
  - intros i od Hi Hod. destruct (Hplaced i Hi) as [Hplace Hfixed].
    destruct (table_at i od Hod) as [Hp Hf]. rewrite Hp in Hplace. rewrite Hf in Hfixed.
    rewrite node_home_obj in Hplace by lia. rewrite node_home_shadow in Hfixed by lia.
    replace (i + NOBJECTS - NOBJECTS) with i in Hfixed by lia.
    pose proof (Hprops i Hi) as Hprop. unfold first_prop in Hprop. rewrite Hod in Hprop.
    apply place_of_Some in Hplace as (o & Ho & Hpl).
    unfold fixed_of, prop_of in Hfixed, Hprop. rewrite Ho in Hfixed, Hprop.
    simpl in Hfixed, Hprop. rewrite Ho. f_equal. destruct o. simpl in *. congruence.
  - intros i l Hi Hl. rewrite Hdw by lia. rewrite decide_True by lia.
    unfold dwarfloc_at. by rewrite Hl.
Qed.

Hypothesis Hplaces :
  -1 ≤ Location.LOC_MAZEEND12 ≤ NLOCATIONS ∧ -1 ≤ Location.LOC_DEADEND13 ≤ NLOCATIONS
  ∧ 0 ≤ Location.LOC_START ≤ NLOCATIONS.
Hypothesis Hlimits : 0 < NDEATHS ∧ 0 ≤ MAX_STATE.

(** X12.  The game that [initialise] sets up passes the save validator
    exactly when every treasure of the table has an inventory text (the
    tally counts all treasures, the validator only those "not found").
    When it passes, a save of it is restored as it was, from any state. *)
Theorem fresh_game_is_valid seedval :
  ∃ g' out r,
    initialise settings seedval createGameState = Done r g' out
    ∧ (isValid g' = Ok true
       ↔ ∀ i od, 1 ≤ i ≤ NOBJECTS → zlookup Dungeon.objects i = Some od →
           ObjectData.isTreasure od = true → ObjectData.inventory od ≠ None)
    ∧ (isValid g' = Ok true →
       ∀ g0, restore (savefile g' None) g0 = Done PhaseCode.GO_TOP g' []).
Proof.
  destruct Hsizes as (HN & HL & HD). destruct Hplaces as (Hc1 & Hc2 & Hstart).
  destruct Hlimits as [Hdeaths Hmax].
  destruct (initialise_run settings seedval HN HL HD Htable dwarflocs_there Hconds)
    as (g' & out & conds' & Hrun & _ & Hwf & Hlb & Hheld & Hzero & Hplaced & Hprops & Htally
        & Hcondsg & Hdw & Hx & Hrest).
  eexists g', out, _. split; [exact Hrun|].
  assert (∀ i od, 1 ≤ i ≤ NOBJECTS → zlookup Dungeon.objects i = Some od →
            ∃ o, zlookup (objects g') i = Some o
                 ∧ ObjectState.place o = ObjectData.plac od
                 ∧ ObjectState.fixed o = ObjectData.fixd od
                 ∧ ObjectState.prop o
                   = (if ObjectData.isTreasure od
                         && bool_decide (ObjectData.inventory od ≠ None)
                      then STATE_NOTFOUND else STATE_FOUND)) as Hobj.
  { intros i od Hi Hod. destruct (Hplaced i Hi) as [Hplace Hfixed].
    destruct (table_at i od Hod) as [Hp Hf]. rewrite Hp in Hplace. rewrite Hf in Hfixed.
    rewrite node_home_obj in Hplace by lia. rewrite node_home_shadow in Hfixed by lia.
    replace (i + NOBJECTS - NOBJECTS) with i in Hfixed by lia.
    pose proof (Hprops i Hi) as Hprop. unfold first_prop in Hprop. rewrite Hod in Hprop.
    apply place_of_Some in Hplace as (o & Ho & Hpl).
    unfold fixed_of, prop_of in Hfixed, Hprop. rewrite Ho in Hfixed, Hprop.
    simpl in Hfixed, Hprop. exists o. split_and!; congruence. }
  assert ((tally g' = unfound g')
          ↔ ∀ i od, 1 ≤ i ≤ NOBJECTS → zlookup Dungeon.objects i = Some od →
              ObjectData.isTreasure od = true → ObjectData.inventory od ≠ None) as Hcount.
  { rewrite Htally. unfold treasures, unfound.
    pose proof (count_narrow (λ i, treasure i = true)
                  (λ i, treasure i = true ∧ prop_of g' i = Some STATE_NOTFOUND)
                  (seqZ 1 NOBJECTS)) as [_ Hnarrow]; [tauto|]. cbv beta in Hnarrow.
    split.
    - intros Heq i od Hi Hod Htr.
      destruct (Hnarrow ltac:(lia) i) as [_ Hp].
      { apply elem_of_seqZ. lia. }
      { unfold treasure. by rewrite Hod. }
      destruct (Hobj i od Hi Hod) as (o & Ho & _ & _ & Hprop).
      unfold prop_of in Hp. rewrite Ho in Hp. simpl in Hp. injection Hp as Hp.
      rewrite Hp, Htr in Hprop. simpl in Hprop.
      destruct (decide (ObjectData.inventory od ≠ None)); [done|].
      rewrite bool_decide_eq_false_2 in Hprop by done. done.
    - intros Hall. f_equal. apply count_same. intros i Hi%elem_of_seqZ.
      split; [|tauto]. intros Htr. split; [done|].
      destruct (Htable i ltac:(lia)) as (od & Hod & _).
      destruct (Hobj i od ltac:(lia) Hod) as (o & Ho & _ & _ & Hprop).
      unfold treasure in Htr. rewrite Hod in Htr.
      rewrite Htr in Hprop. rewrite bool_decide_eq_true_2 in Hprop.
      + unfold prop_of. rewrite Ho. simpl. by rewrite Hprop.
      + eapply Hall; [|done..]. lia. }
  assert (isValid g' = Ok true ↔ tally g' = unfound g') as Hvalid.
  { split.
    - intros Hv%isValid_sound. by destruct Hv.
    - intros Hunfound. apply isValid_complete.
      pose proof (f_equal abbnum Hrest) as Habb. change (abbnum g' = 5) in Habb.
      pose proof (f_equal chloc Hrest) as Hch. change (chloc g' = Location.LOC_MAZEEND12) in Hch.
      pose proof (f_equal chloc2 Hrest) as Hch2.
      change (chloc2 g' = Location.LOC_DEADEND13) in Hch2.
      pose proof (f_equal loc Hrest) as Hloc. change (loc g' = Location.LOC_START) in Hloc.
      pose proof (f_equal newloc Hrest) as Hnl. change (newloc g' = Location.LOC_START) in Hnl.
      pose proof (f_equal oldloc Hrest) as Hol. change (oldloc g' = 0) in Hol.
      pose proof (f_equal oldlc2 Hrest) as Hol2. change (oldlc2 g' = 0) in Hol2.
      pose proof (f_equal dtotal Hrest) as Hdt. change (dtotal g' = 0) in Hdt.
      pose proof (f_equal dkill Hrest) as Hdk. change (dkill g' = 0) in Hdk.
      pose proof (f_equal numdie Hrest) as Hnd. change (numdie g' = 0) in Hnd.
      split.
      + lia.
      + lia.
      + lia.
      + lia.
      + intros i Hi. rewrite Hdw by done. eexists. split; [done|]. simpl. split; [|lia].
        case_decide; [|lia]. destruct (Hdwarflocs i) as (l & Hl & ?); [lia|].
        unfold dwarfloc_at. rewrite Hl. done.
      + intros i Hi. destruct (decide (i = 0)) as [->|Hne].
        * rewrite Hzero. eexists. split; [done|]. simpl. lia.
        * destruct (Htable i ltac:(lia)) as (od & Hod & ? & ?).
          destruct (Hobj i od ltac:(lia) Hod) as (o & Ho & Hpl & Hfx & Hprop).
          exists o. split; [done|]. rewrite Hpl, Hfx, Hprop.
          unfold STATE_NOTFOUND, STATE_FOUND. destruct (_ && _); lia.
      + lia.
      + lia.
      + intros i Hi. destruct (Htable i Hi) as (od & -> & _). by eexists.
      + done.
      + intros l Hl. by apply atloc_bounded.
      + intros x v _. apply Hlb. }
  split.
  - by rewrite Hvalid, Hcount.
  - intros Hv g0. unfold restore, savefile. simpl. run_M. by rewrite Hv.
Qed.

(** X13.  The [conditions] table that [initialise] leaves differs from
    the one it found in one bit only: location [i] has the FORCED bit
    exactly when it had it before or [forced_here i] holds; every other
    bit of every entry is as it was. *)
Theorem initialise_forced_bits seedval :
  ∃ g' out written conds',
    initialise settings seedval createGameState = Done (written, conds', seedval) g' out
    ∧ length conds' = length conditions
    ∧ (∀ i, 1 ≤ i ≤ NLOCATIONS →
         FORCED conds' i = FORCED conditions i || forced_here i)
    ∧ (∀ i bit, bit `mod` 32 ≠ COND_FORCED →
         CNDBIT conds' i bit = CNDBIT conditions i bit).
Proof.
  destruct Hsizes as (HN & HL & HD).
  destruct (initialise_run settings seedval HN HL HD Htable dwarflocs_there Hconds)
    as (g' & out & conds' & Hrun & Hread & _).
  eexists g', out, _, conds'. split; [exact Hrun|]. split_and!.
  - destruct (forced_bits_run (seqZ 1 NLOCATIONS) conditions (NoDup_seqZ _ _))
      as (conds2 & Hforced & Hlen & Hread2).
    { intros i Hi%elem_of_seqZ. apply Hconds. lia. }
    assert (conds' = conds2) as ->; [|done].
    apply list_eq. intros n. pose proof (Hread (Z.of_nat n)) as Hn1.
    pose proof (Hread2 (Z.of_nat n)) as Hn2. unfold zlookup in Hn1, Hn2.
    rewrite decide_True in Hn1, Hn2 by lia. rewrite Nat2Z.id in Hn1, Hn2. congruence.
  - intros i Hi. unfold FORCED.
    rewrite (forced_bits_read conditions conds' (seqZ 1 NLOCATIONS) i COND_FORCED Hread)
      by (by apply Hconds).
    rewrite bool_decide_eq_true_2 by (apply elem_of_seqZ; lia).
    rewrite (bool_decide_eq_true_2 (_ `mod` 32 = _)) by done.
    by rewrite andb_true_r.
  - intros i bit Hbit. unfold CNDBIT. rewrite Hread.
    destruct (decide (_ ∧ _)) as [_|_]; [|done].
    destruct (zlookup conditions i) as [v|]; [|done]. simpl.
    rewrite !tstbit_testbit, or32_testbit by (by apply Z.mod_pos_bound).
    rewrite shl32_one_testbit by (by apply Z.mod_pos_bound).
    rewrite (bool_decide_eq_false_2 (_ = _)); [by rewrite orb_false_r|].
    change (COND_FORCED `mod` 32) with COND_FORCED. congruence.
Qed.

End FreshGame.

(** ** Scoring *)

Section Scoring.
Context `{Dungeon.t, ScoreTables.t, Location'.ids, Obj'.ids, Msg'.ids}.
Implicit Types (g : GameState) (i p m : Z).

Lemma worth_nonneg i : 0 ≤ worth i.
Proof.
  unfold worth. destruct (zlookup Dungeon.objects i); [|done].
  destruct (_ && _); [|done]. repeat case_decide; lia.
Qed.

Lemma score_treasure_run g i p m :
  is_Some (zlookup Dungeon.objects i) → is_Some (zlookup (objects g) i) →
  ∃ p', score_treasure g i (p, m) = Ok (p', m + worth i) ∧ p ≤ p' ≤ p + worth i.
Proof.
  intros [od Hod] [o Ho]. unfold score_treasure, worth, field. rewrite Hod. simpl.
  destruct (ObjectData.isTreasure od); simpl.
  2:{ exists p. split; [do 2 f_equal; lia|lia]. }
  destruct (decide (ObjectData.inventory od ≠ None)) as [Hinv|Hinv].
  2:{ rewrite bool_decide_eq_false_2 by done. exists p. split; [do 2 f_equal; lia|lia]. }
  rewrite bool_decide_eq_true_2 by done.
  unfold OBJECT_IS_STASHED, OBJECT_IS_NOTFOUND, OBJECT_IS_FOUND, field. rewrite Ho. simpl.
  set (k := if decide (i > Obj'.CHEST) then 16
            else if decide (i = Obj'.CHEST) then 14 else 12).
  assert (12 ≤ k) as Hk by (subst k; repeat case_decide; lia).
  destruct (bool_decide (ObjectState.prop o < STATE_NOTFOUND)); simpl;
    [|destruct (bool_decide (ObjectState.prop o = STATE_NOTFOUND)); simpl];
    (destruct (decide (ObjectState.place o = Location'.LOC_BUILDING)); simpl;
     [destruct (bool_decide (ObjectState.prop o = STATE_FOUND))|]);
    eexists; (split; [reflexivity|lia]).
Qed.

Lemma score_treasures_run g (ds : list Z) p m :
  (∀ i, i ∈ ds → is_Some (zlookup Dungeon.objects i) ∧ is_Some (zlookup (objects g) i)) →
  ∃ p', score_treasures g ds (p, m) = Ok (p', m + foldr Z.add 0 (worth <$> ds))
        ∧ p ≤ p' ≤ p + foldr Z.add 0 (worth <$> ds).
Proof.
  revert p m. induction ds as [|i ds IH]; intros p m Hall.
  - exists p. simpl. split; [do 2 f_equal; lia|lia].
  - destruct (Hall i) as [Htab Hobj]; [left|].
    destruct (score_treasure_run g i p m Htab Hobj) as (p1 & Hrun1 & Hp1).
    destruct (IH p1 (m + worth i)) as (p' & Hrun & Hp').
    { intros j Hj. apply Hall. by right. }
    exists p'. cbn [score_treasures fmap list_fmap foldr]. rewrite Hrun1. simpl.
    rewrite Hrun. split; [do 2 f_equal; lia|]. simpl in Hp'. lia.
Qed.

Lemma score_hints_run g (ds : list Z) p :
  (∀ i, i ∈ ds →
     ∃ h, zlookup (hints g) i = Some h
          ∧ (HintState.used h = true →
             ∃ hd, zlookup ScoreTables.hints i = Some hd ∧ 0 ≤ HintData.penalty hd)) →
  ∃ p', score_hints g ds p = Ok p' ∧ p' ≤ p.
Proof.
  revert p. induction ds as [|i ds IH]; intros p Hall.
  - by exists p.
  - destruct (Hall i) as (h & Hh & Hused); [left|].
    assert (∀ q, ∃ p', score_hints g ds q = Ok p' ∧ p' ≤ q) as IH'.
    { intros q. apply IH. intros j Hj. apply Hall. by right. }
    cbn [score_hints]. unfold field. rewrite Hh. simpl.
    destruct (HintState.used h).
    + destruct Hused as (hd & -> & Hpen); [done|]. simpl.
      destruct (IH' (p - HintData.penalty hd)) as (p' & -> & ?). exists p'. split; [done|lia].
    + apply IH'.
Qed.

(** The run of [score]. *)
Lemma score_run mode g :
  (∀ i, 1 ≤ i ≤ NOBJECTS →
     is_Some (zlookup Dungeon.objects i) ∧ is_Some (zlookup (objects g) i)) →
  is_Some (zlookup (objects g) Obj'.MAGAZINE) →
  (∀ i, 0 ≤ i < NHINTS →
     ∃ h, zlookup (hints g) i = Some h
          ∧ (HintState.used h = true →
             ∃ hd, zlookup ScoreTables.hints i = Some hd ∧ 0 ≤ HintData.penalty hd)) →
  0 ≤ numdie g → 0 ≤ trnluz g → 0 ≤ saved g →
  ∃ points,
    score mode g
    = Done (points, max_score) g
        (if decide (mode = Termination.scoregame)
         then [Rspeak Msg'.GARNERED_POINTS [points; max_score; turns g; turns g]]
         else [])
    ∧ points ≤ max_score.
Proof.
  intros Hobjs [mag Hmag] Hhints Hdie Hluz Hsaved.
  destruct (score_treasures_run g (seqZ 1 NOBJECTS) 0 0) as (p1 & Hrun1 & Hp1).
  { intros i Hi%elem_of_seqZ. apply Hobjs. lia. }
  unfold score. run_M. cbn [id]. rewrite Hrun1. unfold field. rewrite Hmag.
  match goal with |- context [score_hints g _ ?p] =>
    destruct (score_hints_run g (seqZ 0 NHINTS) p) as (p2 & Hrun2 & Hp2);
      [intros i Hi%elem_of_seqZ; apply Hhints; lia|]; set (q := p) in *
  end.
  rewrite Hrun2.
  assert (q ≤ 0 + foldr Z.add 0 (worth <$> seqZ 1 NOBJECTS) + NDEATHS * 10 + 102) as Hq.
  { subst q. destruct (closed g), (closng g); repeat case_decide; cbv iota; lia. }
  assert (max_score = 0 + foldr Z.add 0 (worth <$> seqZ 1 NOBJECTS)
                      + NDEATHS * 10 + 4 + 25 + 25 + 45 + 1 + 2) as Hmax
    by (unfold max_score; lia).
  rewrite Hmax.
  exists ((if clshnt g then (if novice g then p2 - 5 else p2) - 10
           else if novice g then p2 - 5 else p2) - trnluz g - saved g).
  split.
  - by destruct (decide (mode = Termination.scoregame)).
  - destruct (novice g), (clshnt g); lia.
Qed.

(** X14.  With the tables complete, no death count, turn penalty, save
    penalty or hint penalty negative, [score] leaves the state alone,
    speaks only in the mode [scoregame], and answers a number of points
    that is at most [mxscor]; [mxscor] is the same in every state and
    mode, the sum of what the treasures with an inventory text are worth
    plus ten for every life plus 102. *)
Theorem score_bounded mode g :
  (∀ i, 1 ≤ i ≤ NOBJECTS →
     is_Some (zlookup Dungeon.objects i) ∧ is_Some (zlookup (objects g) i)) →
  is_Some (zlookup (objects g) Obj'.MAGAZINE) →
  (∀ i, 0 ≤ i < NHINTS →
     ∃ h, zlookup (hints g) i = Some h
          ∧ (HintState.used h = true →
             ∃ hd, zlookup ScoreTables.hints i = Some hd ∧ 0 ≤ HintData.penalty hd)) →
  0 ≤ numdie g → 0 ≤ trnluz g → 0 ≤ saved g →
  ∃ points,
    score mode g
    = Done (points, max_score) g
        (if decide (mode = Termination.scoregame)
         then [Rspeak Msg'.GARNERED_POINTS [points; max_score; turns g; turns g]]
         else [])
    ∧ points ≤ max_score.
Proof. apply score_run. Qed.

Lemma rank_run (ds : list Z) points g :
  (∀ i, i ∈ ds → is_Some (zlookup ScoreTables.classes i)) →
  (rank ds points g = Done None g [] ∧ ∀ i, i ∈ ds → threshold_at i < points)
  ∨ ∃ pre i post c,
      ds = pre ++ i :: post ∧ zlookup ScoreTables.classes i = Some c
      ∧ (∀ j, j ∈ pre → threshold_at j < points) ∧ points ≤ ClassData.threshold c
      ∧ rank ds points g
        = Done (Some (TerminateError 0)) g
            [Speak (ClassData.message c);
             if decide (i < ScoreTables.NCLASSES)
             then Rspeak Msg'.NEXT_HIGHER
                    [ClassData.threshold c + 1 - points; ClassData.threshold c + 1 - points]
             else Rspeak Msg'.NO_HIGHER []].
Proof.
  induction ds as [|i ds IH]; intros Hall.
  - left. split; [done|]. by intros i ?%elem_of_nil.
  - destruct (Hall i) as [c Hc]; [left|].
    assert (threshold_at i = ClassData.threshold c) as Hat
      by (unfold threshold_at; by rewrite Hc).
    cbn [rank]. run_M. unfold field. rewrite Hc.
    destruct (decide (ClassData.threshold c >= points)) as [Hge|Hlt].
    + right. exists [], i, ds, c. split_and!; [done|done| |lia|].
      * by intros j ?%elem_of_nil.
      * unfold speak. run_M. by destruct (decide (i < ScoreTables.NCLASSES)).
    + destruct IH as [[Hrun Hbelow]|(pre & k & post & c' & -> & Hc' & Hbelow & Hge & Hrun)].
      * intros j Hj. apply Hall. by right.
      * left. rewrite Hrun. split; [done|]. intros j [->|Hj]%elem_of_cons; [lia|].
        by apply Hbelow.
      * right. exists (i :: pre), k, post, c'. rewrite Hrun.
        split_and!; [done|done| |done|done].
        intros j [->|Hj]%elem_of_cons; [lia|]. by apply Hbelow.
Qed.

(** X15.  [terminate] never changes the state and always ends the
    session with code 0.  It speaks the total score after the warnings
    for long play and for saves, and then the verdict: the message of the
    first class whose threshold is at least the score, followed by the
    number of points missing for the next class (always at least 1) or,
    for the last class, by NO_HIGHER; when no class takes the score,
    OFF_SCALE alone. *)
Theorem terminate_exits mode g :
  (∀ i, 1 ≤ i ≤ NOBJECTS →
     is_Some (zlookup Dungeon.objects i) ∧ is_Some (zlookup (objects g) i)) →
  is_Some (zlookup (objects g) Obj'.MAGAZINE) →
  (∀ i, 0 ≤ i < NHINTS →
     ∃ h, zlookup (hints g) i = Some h
          ∧ (HintState.used h = true →
             ∃ hd, zlookup ScoreTables.hints i = Some hd ∧ 0 ≤ HintData.penalty hd)) →
  0 ≤ numdie g → 0 ≤ trnluz g → 0 ≤ saved g →
  (∀ i, 1 ≤ i ≤ ScoreTables.NCLASSES → is_Some (zlookup ScoreTables.classes i)) →
  ∃ points verdict,
    terminate mode g
    = Done (TerminateError 0) g
        ((if decide (mode = Termination.scoregame)
          then [Rspeak Msg'.GARNERED_POINTS [points; max_score; turns g; turns g]]
          else [])
         ++ (if decide (points + trnluz g + 1 >= max_score ∧ trnluz g ≠ 0)
             then [Rspeak Msg'.TOOK_LONG []] else [])
         ++ (if decide (points + saved g + 1 >= max_score ∧ saved g ≠ 0)
             then [Rspeak Msg'.WITHOUT_SUSPENDS []] else [])
         ++ Rspeak Msg'.TOTAL_SCORE [points; max_score; turns g; turns g]
         :: verdict)
    ∧ points ≤ max_score
    ∧ ((verdict = [Rspeak Msg'.OFF_SCALE []]
        ∧ ∀ i, 1 ≤ i ≤ ScoreTables.NCLASSES → threshold_at i < points)
       ∨ ∃ i c n,
           1 ≤ i ≤ ScoreTables.NCLASSES ∧ zlookup ScoreTables.classes i = Some c
           ∧ (∀ j, 1 ≤ j < i → threshold_at j < points)
           ∧ n = ClassData.threshold c + 1 - points ∧ 1 ≤ n
           ∧ verdict = [Speak (ClassData.message c);
                        if decide (i < ScoreTables.NCLASSES)
                        then Rspeak Msg'.NEXT_HIGHER [n; n]
                        else Rspeak Msg'.NO_HIGHER []]).
Proof.
  intros Hobjs Hmag Hhints Hdie Hluz Hsaved Hclasses.
  destruct (score_run mode g Hobjs Hmag Hhints Hdie Hluz Hsaved) as (points & Hscore & Hle).
  exists points.
  destruct (rank_run (seqZ 1 ScoreTables.NCLASSES) points g)
    as [[Hrank Hbelow]|(pre & i & post & c & Hds & Hc & Hbelow & Hge & Hrank)].
  { intros i Hi%elem_of_seqZ. apply Hclasses. lia. }
  - exists [Rspeak Msg'.OFF_SCALE []]. split_and!; [|done|].
    + unfold terminate. run_M. rewrite Hscore. cbn [id].
      destruct (decide (mode = Termination.scoregame));
        destruct (decide (points + trnluz g + 1 >= max_score ∧ trnluz g ≠ 0));
        destruct (decide (points + saved g + 1 >= max_score ∧ saved g ≠ 0));
        rewrite Hrank; reflexivity.
    + left. split; [done|]. intros i Hi. apply Hbelow. apply elem_of_seqZ. lia.
  - eexists. split_and!; [|done|].
    + unfold terminate. run_M. rewrite Hscore. cbn [id].
      destruct (decide (mode = Termination.scoregame));
        destruct (decide (points + trnluz g + 1 >= max_score ∧ trnluz g ≠ 0));
        destruct (decide (points + saved g + 1 >= max_score ∧ saved g ≠ 0));
        rewrite Hrank; reflexivity.
    + right. exists i, c, (ClassData.threshold c + 1 - points).
      assert (i ∈ seqZ 1 ScoreTables.NCLASSES) as Hi
        by (rewrite Hds; apply elem_of_app; right; left).
      apply elem_of_seqZ in Hi.
      split_and!; [lia|lia|done| |done|lia|done].
      intros j Hj. apply Hbelow.
      (* [i] stands at the position [length pre], so [j] stands in [pre] *)
      pose proof (list_lookup_middle pre post i (length pre) eq_refl) as Hmid.
      rewrite <- Hds in Hmid. apply lookup_seqZ in Hmid as [Hipos _].
      assert (seqZ 1 ScoreTables.NCLASSES !! Z.to_nat (j - 1) = Some j) as Hjpos.
      { apply lookup_seqZ. lia. }
      rewrite Hds, lookup_app_l in Hjpos by lia.
      by eapply list_elem_of_lookup_2.
Qed.

End Scoring.

(** ** The text of a message *)

Section Rendering.
Implicit Types (p q r rest acc : string) (pl ground : bool) (args : list arg).

Lemma append_assoc_s p q r : (p +:+ q) +:+ r = p +:+ (q +:+ r).
Proof. induction p as [|a p IH]; [done|]. by rewrite !append_cons, IH. Qed.

Lemma floor_here_other c rest : c ≠ "f"%char → floor_here (String c rest) = false.
Proof.
  intros Hc. unfold floor_here. cbn [String.prefix].
  destruct (ascii_dec "f" c) as [Heq|_]; [by subst|done].
Qed.

(** A stretch of text without directives is copied; inside, and outside
    when the stretch has no [f]. *)
Lemma loop_copy ground p rest acc pl args :
  lacks "%" p = true → ground = false ∨ lacks "f" p = true →
  vspeak_loop ground 0 (p +:+ rest) acc pl args
  = vspeak_loop ground 0 rest (acc +:+ p) pl args.
Proof.
  revert acc. induction p as [|c p IH]; intros acc Hplain Hf.
  - by rewrite append_empty_r.
  - cbn [lacks] in Hplain. apply andb_true_iff in Hplain as [Hc Hplain].
    rewrite append_cons. cbn [vspeak_loop]. rewrite Hc.
    assert (floor_here (String c (p +:+ rest)) && ground = false) as ->.
    { destruct Hf as [->|Hf]; [by rewrite andb_false_r|].
      cbn [lacks] in Hf. apply andb_true_iff in Hf as [Hcf _].
      rewrite floor_here_other; [done|]. intros ->. done. }
    rewrite IH; [|done|].
    + f_equal. by rewrite append_assoc_s.
    + destruct Hf as [?|Hf]; [by left|right].
      cbn [lacks] in Hf. by apply andb_true_iff in Hf as [_ ?].
Qed.

Lemma loop_end ground acc pl args : vspeak_loop ground 0 "" acc pl args = acc.
Proof. done. Qed.

Lemma loop_copy_end ground p acc pl args :
  lacks "%" p = true → ground = false ∨ lacks "f" p = true →
  vspeak_loop ground 0 p acc pl args = acc +:+ p.
Proof.
  intros Hp Hf. rewrite <- (append_empty_r p) at 1. by rewrite loop_copy.
Qed.

Lemma loop_d ground rest acc pl args :
  vspeak_loop ground 0 ("%d" +:+ rest) acc pl args
  = vspeak_loop ground 0 rest (acc +:+ arg_text (head args)) (not_one (head args)) (tail args).
Proof. done. Qed.

Lemma loop_s ground rest acc pl args :
  vspeak_loop ground 0 ("%s" +:+ rest) acc pl args
  = vspeak_loop ground 0 rest (acc +:+ arg_text (head args)) pl (tail args).
Proof. done. Qed.

Lemma loop_S ground rest acc pl args :
  vspeak_loop ground 0 ("%S" +:+ rest) acc pl args
  = vspeak_loop ground 0 rest (if pl then acc +:+ "s" else acc) pl args.
Proof. done. Qed.

Lemma loop_V ground rest acc pl args :
  vspeak_loop ground 0 ("%V" +:+ rest) acc pl args
  = vspeak_loop ground 0 rest (acc +:+ VERSION) pl args.
Proof. done. Qed.

Lemma nonempty_append p c r : String.length (p +:+ String c r) ≠ 0%nat.
Proof. destruct p; [done|]. by rewrite append_cons. Qed.

End Rendering.

Section Speaking.
Context `{Dungeon.t, Location'.ids, Messages.t}.
Implicit Types (g : GameState) (p q r : string) (args : list arg).

(** X16.  [vspeak] prints nothing at all for a message that is null or
    empty, and otherwise one line after the blank line it was asked for.
    Inside (where "floor" stays "floor") text without a percent sign is
    printed as it stands; [%d] prints the next argument, and a later [%S]
    prints an "s" exactly when that number was not 1; a [%S] with no [%d]
    before it prints nothing, and a percent sign at the very end of the
    message is dropped.  [rspeak] of a number that has no message prints
    nothing. *)
Theorem message_text g blank args :
  let lead := if blank : bool then [newline] else [] in
  vspeak g None blank args = []
  ∧ vspeak g (Some "") blank args = []
  ∧ (∀ i, zlookup Messages.arbitraryMessages i = None
          ∨ zlookup Messages.arbitraryMessages i = Some None →
          rspeak_text g i args = [])
  ∧ (INSIDE conditions (loc g) Location'.LOC_BUILDING = true →
     (∀ p, lacks "%" p = true → p ≠ "" →
        vspeak g (Some p) blank args = lead ++ [p +:+ newline])
     ∧ (∀ p q r n,
          lacks "%" p = true → lacks "%" q = true → lacks "%" r = true →
          vspeak g (Some (p +:+ "%d" +:+ q +:+ "%S" +:+ r)) blank (ANum n :: args)
          = lead ++ [p +:+ pretty n +:+ q +:+ (if decide (n = 1) then "" else "s")
                     +:+ r +:+ newline])
     ∧ (∀ p r, lacks "%" p = true → lacks "%" r = true →
          vspeak g (Some (p +:+ "%S" +:+ r)) blank args = lead ++ [p +:+ r +:+ newline])
     ∧ (∀ p, lacks "%" p = true →
          vspeak g (Some (p +:+ "%")) blank args = lead ++ [p +:+ newline])).
Proof.
  intros lead. split; [done|]. split; [done|].
  split; [intros i [Hi|Hi]; unfold rspeak_text; by rewrite Hi|]. intros Hin.
  assert (∀ m, String.length m ≠ 0%nat →
            vspeak g (Some m) blank args
            = lead ++ [vspeak_loop false 0 m "" false args +:+ newline]) as Hrun.
  { intros m Hm. unfold vspeak. rewrite decide_False by done. by rewrite Hin. }
  assert (∀ m a, String.length m ≠ 0%nat →
            vspeak g (Some m) blank (a :: args)
            = lead ++ [vspeak_loop false 0 m "" false (a :: args) +:+ newline]) as Hrun'.
  { intros m a Hm. unfold vspeak. rewrite decide_False by done. by rewrite Hin. }
  split_and!.
  - intros p Hp Hne. rewrite Hrun by (by destruct p).
    rewrite <- (append_empty_r p) at 1. rewrite loop_copy by (done || by left). done.
  - intros p q r n Hp Hq Hr. rewrite Hrun' by apply nonempty_append.
    rewrite loop_copy by (done || by left). rewrite loop_d.
    rewrite loop_copy by (done || by left). rewrite loop_S.
    rewrite <- (append_empty_r r) at 1. rewrite loop_copy by (done || by left).
    rewrite loop_end. cbn [head tail arg_text not_one]. do 2 f_equal.
    destruct (decide (n = 1)) as [->|Hne].
    + rewrite bool_decide_eq_false_2 by (intros Hne; by apply Hne).
      by rewrite !append_assoc_s.
    + rewrite bool_decide_eq_true_2 by done. by rewrite !append_assoc_s.
  - intros p r Hp Hr. rewrite Hrun by apply nonempty_append.
    rewrite loop_copy by (done || by left). rewrite loop_S.
    rewrite <- (append_empty_r r) at 1. rewrite loop_copy by (done || by left).
    rewrite loop_end. by rewrite !append_assoc_s.
  - intros p Hp. rewrite Hrun by apply nonempty_append.
    rewrite loop_copy by (done || by left). done.
Qed.

Lemma floor_here_floor q :
  floor_here ("floor" +:+ q)
  = match q with
    | EmptyString => true
    | String c _ => Ascii.eqb c " " || Ascii.eqb c "."
    end.
Proof. by destruct q. Qed.

Lemma loop_floor ground q acc pl args :
  vspeak_loop ground 0 ("floor" +:+ q) acc pl args
  = vspeak_loop ground 0 q
      (acc +:+ (if floor_here ("floor" +:+ q) && ground then "ground" else "floor")) pl args.
Proof.
  change ("floor" +:+ q) with (String "f" ("loor" +:+ q)) at 1.
  cbn [vspeak_loop]. change (Ascii.eqb "f" "%") with false. cbn [negb].
  change (String "f" ("loor" +:+ q)) with ("floor" +:+ q).
  destruct (floor_here ("floor" +:+ q) && ground); [done|].
  rewrite (loop_copy ground "loor" q) by (by (done || right)).
  by rewrite append_assoc_s.
Qed.

(** X17.  In a message made of a text without percent sign and letter
    f, the word "floor" and another such text, [vspeak] outside (and not
    at the building) prints "ground" for the "floor" when a blank, a full
    stop or the end of the message follows it, with no regard to what
    stands before it; a "floor" followed by any other character, as in
    "floors", stays, and inside every "floor" stays. *)
Theorem floor_becomes_ground g blank args p q :
  lacks "%" p = true → lacks "f" p = true → lacks "%" q = true → lacks "f" q = true →
  let lead := if blank : bool then [newline] else [] in
  let at_end := match q with
                | EmptyString => true
                | String c _ => bool_decide (c = " "%char ∨ c = "."%char)
                end in
  vspeak g (Some (p +:+ "floor" +:+ q)) blank args
  = lead ++ [p +:+ (if negb (INSIDE conditions (loc g) Location'.LOC_BUILDING) && at_end
                    then "ground" else "floor") +:+ q +:+ newline].
Proof.
  intros Hp Hpf Hq Hqf lead at_end. unfold vspeak.
  rewrite decide_False by apply nonempty_append.
  set (ground := negb (INSIDE conditions (loc g) Location'.LOC_BUILDING)).
  rewrite loop_copy by (done || by right). rewrite loop_floor.
  rewrite loop_copy_end by (done || by right). rewrite floor_here_floor.
  assert (match q with
          | EmptyString => true
          | String c _ => Ascii.eqb c " " || Ascii.eqb c "."
          end = at_end) as ->.
  { subst at_end. destruct q as [|c q']; [done|].
    destruct (Ascii.eqb_spec c " ") as [->|Hs]; [done|].
    destruct (Ascii.eqb_spec c ".") as [->|Hd]; [done|].
    simpl. symmetry. apply bool_decide_eq_false_2. tauto. }
  rewrite (andb_comm at_end). do 2 f_equal. by rewrite !append_assoc_s.
Qed.

End Speaking.

(** * The definitions at work on the small dungeon *)

Section Samples.
#[local] Existing Instances Sample.dungeon Sample.obj Sample.motions Sample.locations
  Sample.action Sample.msg Sample.objstate.

Lemma sample_motions_distinct : Motion.distinct.
Proof. refine (bool_decide_unpack _ _). vm_compute. exact I. Qed.


Lemma sample_actions_distinct : Action.distinct.
Proof. refine (bool_decide_unpack _ _). vm_compute. exact I. Qed.

Lemma sample_start_WF : WF Sample.start.
Proof. apply createGameState_WF; simpl; lia. Qed.

(** The fresh state passes the validator, and a save of it is restored. *)
Example isValid_start : isValid Sample.start = Ok true.
Proof. vm_compute. reflexivity. Qed.

Example restore_start :
  restore (savefile (set_holdng 3 Sample.start) None) Sample.start
  = Done PhaseCode.GO_TOP (set_holdng 3 Sample.start) [].
Proof. vm_compute. reflexivity. Qed.

(** A save whose abbreviation counter is zero is taken for tampering. *)
Example restore_tampered :
  restore (savefile (set_abbnum 0 Sample.start) None) Sample.start
  = Abort (ProcessExit 0) Sample.start [Rspeak Msg.SAVE_TAMPERING []].
Proof. vm_compute. reflexivity. Qed.

(** East of room 1 lies room 2; the passage takes an empty-handed player
    from room 2 to room 3. *)
Example playermove_east :
  ∃ g, playermove createSettings (mret ()) Motion.EAST Sample.start = Done () g []
       ∧ newloc g = 2.
Proof. eexists. split; [vm_compute; reflexivity|reflexivity]. Qed.

Example playermove_passage :
  ∃ g, playermove createSettings (mret ()) Motion.NE (set_loc 2 Sample.start) = Done () g []
       ∧ newloc g = 3.
Proof. eexists. split; [vm_compute; reflexivity|reflexivity]. Qed.

End Samples.

Section Witnesses.
#[local] Existing Instances Sample.dungeon Sample.obj Sample.motions Sample.locations
  Sample.action Sample.msg Sample.objstate.

(** Every object id of [Sample.one_on_floor] is carried or in one chain. *)
Lemma one_on_floor_invariant : object_invariant Sample.one_on_floor.
Proof.
  assert (Hno : ∀ x, ¬ reaches (link Sample.one_on_floor) 0 x).
  { intros x Hr. inversion Hr; done. }
  assert (Hchains : ∀ w x, in_chain Sample.one_on_floor w x → w = 1 ∧ x = 1).
  { intros w x (a & Ha & Hr).
    assert (0 ≤ w < 5) as Hw.
    { apply atloc_at_Some in Ha as (ls & Hls%zlookup_Some & _). simpl in Hls. lia. }
    assert (w = 0 ∨ w = 1 ∨ w = 2 ∨ w = 3 ∨ w = 4) as Hcases by lia.
    destruct Hcases as [->|[->|[->|[->| ->]]]]; vm_compute in Ha; injection Ha as <-;
      try (by apply Hno in Hr).
    split; [done|]. inversion Hr as [|h n y Hh Hn Hr']; subst; [done|].
    vm_compute in Hn. injection Hn as <-. by apply Hno in Hr'. }
  intros o Ho. destruct (decide (o = 1)) as [->|Hne].
  - right. split; [vm_compute; congruence|]. exists 1. split.
    + exists 1. split; [reflexivity|]. by constructor.
    + intros w' Hw'. by apply Hchains in Hw' as [-> _].
  - left. split.
    + change NOBJECTS with 14 in Ho.
      assert (o = 2 ∨ o = 3 ∨ o = 4 ∨ o = 5 ∨ o = 6 ∨ o = 7 ∨ o = 8 ∨ o = 9 ∨ o = 10
              ∨ o = 11 ∨ o = 12 ∨ o = 13 ∨ o = 14) as Hcases by lia.
      repeat (destruct Hcases as [->|Hcases]; [reflexivity|]). subst o. reflexivity.
    + intros w Hw. apply Hchains in Hw as [_ ->]. done.
Qed.

(** Where the nodes of [Sample.one_on_floor] are recorded: node 1 in room
    1, the other object ids carried, the shadow ids nowhere. *)
Lemma one_on_floor_homes x h :
  1 ≤ x ≤ NOBJECTS * 2 → node_home Sample.one_on_floor x = Some h →
  (x = 1 ∧ h = 1) ∨ (x ≠ 1 ∧ h ≤ 0 ∧ -1 ≤ h).
Proof.
  intros Hx Hh. assert (x ∈ seqZ 1 28) as Hin by (apply elem_of_seqZ; simpl in Hx; lia).
  vm_compute in Hin.
  repeat (apply elem_of_cons in Hin as [->|Hin]; [vm_compute in Hh; injection Hh as <-; lia|]).
  by apply elem_of_nil in Hin.
Qed.

Lemma one_on_floor_WF : WF Sample.one_on_floor.
Proof.
  split; [reflexivity..|simpl; lia| |].
  - intros x h Hx Hh. destruct (one_on_floor_homes x h Hx Hh); simpl; lia.
  - intros w Hw. assert (w ∈ seqZ 0 5) as Hin by (apply elem_of_seqZ; simpl in Hw; lia).
    vm_compute in Hin. destruct (decide (w = 1)) as [->|Hw1].
    + exists 1, [1]. split_and!; [reflexivity|repeat econstructor; done|].
      intros x. rewrite list_elem_of_singleton. split.
      * intros ->. split_and!; simpl; try lia. reflexivity.
      * intros (Hx & _ & Hh & _). destruct (one_on_floor_homes x 1 Hx Hh); lia.
    + exists 0, []. split_and!.
      * repeat (apply elem_of_cons in Hin as [->|Hin]; [done || reflexivity|]).
        by apply elem_of_nil in Hin.
      * constructor.
      * intros x. split; [by intros ?%elem_of_nil|].
        intros (Hx & ? & Hh & _). destruct (one_on_floor_homes x w Hx Hh); lia.
Qed.
(** C1, counterexample.  [Sample.one_on_floor] is well formed and every
    object id in it is carried or reachable from exactly one chain; object
    1 lies in room 1.  [drop] of object 1 in room 2 returns a state where
    object 1 is reachable from the chains of rooms 1 and 2, and [move] of
    object 1 to [LOC_NOWHERE] (which is [destroy]) returns a state where it
    is neither carried nor in a chain: either way the invariant is lost. *)
Lemma drop_breaks_object_invariant :
  WF Sample.one_on_floor ∧ object_invariant Sample.one_on_floor
  ∧ 1 ≤ 1 ≤ NOBJECTS ∧ 1 ≤ 2 ≤ NLOCATIONS
  ∧ (∃ g', drop Sample.one_on_floor 1 2 = Ok g' ∧ ¬ object_invariant g')
  ∧ (∃ g', move Sample.one_on_floor 1 Location.LOC_NOWHERE = Ok g'
           ∧ ¬ object_invariant g').
Proof.
  split; [apply one_on_floor_WF|].
  split; [apply one_on_floor_invariant|]. split; [simpl; lia|]. split; [simpl; lia|].
  split.
  - eexists. split; [vm_compute; reflexivity|].
    intros Hinv. destruct (Hinv 1) as [[Hc _]|(_ & w & _ & Huniq)]; [simpl; lia| |].
    + vm_compute in Hc. congruence.
    + assert (1 = w) as Hw1.
      { apply Huniq. exists 1. split; [reflexivity|]. by constructor. }
      assert (2 = w) as Hw2.
      { apply Huniq. exists 1. split; [reflexivity|]. by constructor. }
      congruence.
  - eexists. split; [vm_compute; reflexivity|].
    intros Hinv. destruct (Hinv 1) as [[Hc _]|(_ & w & (a & Ha & Hr) & _)]; [simpl; lia| |].
    + vm_compute in Hc. congruence.
    + assert (w ∈ seqZ 0 5) as Hin.
      { apply atloc_at_Some in Ha as (ls & Hls%zlookup_Some & _). simpl in Hls.
        apply elem_of_seqZ. lia. }
      vm_compute in Hin.
      repeat (apply elem_of_cons in Hin as [->|Hin];
              [vm_compute in Ha; injection Ha as <-; inversion Hr; done|]).
      by apply elem_of_nil in Hin.
Qed.

(** C1, witness: the fresh state is well formed, and so is the state after
    a [move] of object 1 to room 2. *)
Lemma object_primitives_keep_structure_witness :
  WF Sample.start ∧ ∃ g', move Sample.start 1 2 = Ok g' ∧ WF g'.
Proof.
  split; [apply sample_start_WF|].
  destruct (object_primitives_keep_structure Sample.start sample_start_WF)
    as (_ & _ & _ & Hmove & _).
  destruct (Hmove 1 2) as (g' & Hrun & Hwf & _); [simpl; lia..|].
  exists g'. split; assumption.
Defined.

(** C2, witness. *)
Lemma randrange_spec_witness :
  randrange createSettings 100 (set_lcgX 12345 Sample.start)
  = Done 1 (set_lcgX 83184 Sample.start) [].
Proof.
  rewrite (randrange_spec createSettings (set_lcgX 12345 Sample.start) 100);
    [reflexivity| simpl; lia | lia | left; lia].
Defined.

(** C2, counterexample.  With the register at 1048575 and the range
    2^40 + 1 the exact product 2^60 - 2^40 + 2^20 - 1 is not a double:
    the multiplication rounds it up to 2^60 - 2^40 + 2^20, and [randrange]
    returns 1099510579201, one more than floor(n * x / 1048576). *)
Lemma randrange_rounds_the_product :
  0 ≤ lcgX (set_lcgX 1048575 Sample.start) < 1048576
  ∧ 0 < 2 ^ 40 + 1
  ∧ randrange createSettings (2 ^ 40 + 1) (set_lcgX 1048575 Sample.start)
    = Done 1099510579201 (set_lcgX 220494 Sample.start) []
  ∧ (((2 ^ 40 + 1) * 1048575) `div` 1048576 = 1099510579200)
  ∧ 1099510579201 ≠ 1099510579200.
Proof.
  split_and!; [done|done|lia|vm_compute; reflexivity|reflexivity|lia].
Qed.

(** C3, witness: a save one version behind is refused with the decoded
    versions and the state stays. *)
Lemma restore_spec_witness :
  restore (savefile (set_holdng 3 Sample.start) (Some 30)) Sample.start
  = Done PhaseCode.GO_TOP Sample.start [Rspeak Msg.VERSION_SKEW [3; 0; 3; 1]].
Proof.
  destruct (restore_spec (savefile (set_holdng 3 Sample.start) (Some 30)) Sample.start)
    as (_ & Hskew & _).
  rewrite Hskew; [reflexivity|split; reflexivity|vm_compute; congruence].
Defined.

(** C4, witness: north of room 1 there is nothing. *)
Lemma playermove_no_rule_witness :
  playermove createSettings (mret ()) Motion.NORTH Sample.start
  = Done () (set_oldloc 1 (set_oldlc2 0 (set_newloc 1 Sample.start)))
         [Rspeak Msg.BAD_DIRECTION []].
Proof.
  destruct (playermove_no_rule createSettings (mret ()) Sample.start Motion.NORTH 1)
    as (Hrun & Hclass & _).
  - apply sample_motions_distinct.
  - reflexivity.
  - lia.
  - vm_compute; congruence.
  - vm_compute; congruence.
  - vm_compute; congruence.
  - vm_compute; congruence.
  - eapply no_rule_next; [reflexivity|vm_compute; intros [?|?]; congruence|reflexivity|].
    eapply no_rule_last; [reflexivity|vm_compute; intros [?|?]; congruence|reflexivity].
  - rewrite Hrun. rewrite Hclass; [reflexivity|].
    do 3 (apply elem_of_cons; right). apply elem_of_cons. by left.
Defined.

End Witnesses.

Section Witnesses2.
#[local] Existing Instances Sample.dungeon Sample.obj Sample.motions Sample.locations
  Sample.action Sample.msg Sample.objstate.

(** C5, witness: object 2, put in room 1 and carried from there, adds one
    to the held-count. *)
Lemma held_count_witness :
  ∃ g1 g2, move Sample.start 2 1 = Ok g1 ∧ carry g1 2 1 = Ok g2
           ∧ holdng g2 = holdng g1 + 1.
Proof.
  eexists. eexists. split; [vm_compute; reflexivity|]. split; [vm_compute; reflexivity|].
  match goal with |- holdng ?g2 = holdng ?g1 + 1 =>
    destruct (held_count g1) as (_ & Hcarry & _); apply (Hcarry 2 1 g2)
  end.
  - simpl; lia.
  - vm_compute; congruence.
  - vm_compute; congruence.
  - vm_compute; reflexivity.
Defined.


(** C7, counterexample.  "fee" starts a sequence and is answered OK_MAN;
    "foe" at the next input breaks it, and the answer is WELL_POINTLESS,
    which is neither NOTHING_HAPPENS nor OK_MAN. *)
Lemma broken_sequence_is_pointless :
  ∃ g1 g2,
    bigwords createSettings Action.FEE (foobar_tick Sample.start)
    = Done PhaseCode.GO_CLEAROBJ g1 [Rspeak Msg.OK_MAN []]
    ∧ bigwords createSettings Action.FOE (foobar_tick g1)
      = Done PhaseCode.GO_CLEAROBJ g2 [Rspeak Msg.WELL_POINTLESS []]
    ∧ foobar g2 = WORD_EMPTY
    ∧ Msg.WELL_POINTLESS ≠ Msg.NOTHING_HAPPENS ∧ Msg.WELL_POINTLESS ≠ Msg.OK_MAN.
Proof.
  eexists. eexists. split; [vm_compute; reflexivity|]. split; [vm_compute; reflexivity|].
  split; [reflexivity|]. split; vm_compute; congruence.
Qed.

(** C7, witness: the same broken sequence, through the theorem. *)
Lemma bigwords_spec_witness :
  bigwords createSettings Action.FOE (set_foobar (- Action.FEE) Sample.start)
  = Done PhaseCode.GO_CLEAROBJ (set_foobar WORD_EMPTY Sample.start)
      [Rspeak Msg.WELL_POINTLESS []].
Proof.
  destruct (bigwords_spec createSettings (set_foobar (- Action.FEE) Sample.start) Action.FOE
              sample_actions_distinct) as (_ & _ & _ & Hdev).
  rewrite Hdev; [reflexivity| |].
  - vm_compute. intros [[? _]|[[_ ?]|[[? _]|[? _]]]]; congruence.
  - vm_compute. intros [? _]. congruence.
Defined.

(** The whole sequence, with the counter flipped at each input: three
    times OK_MAN, then one description of the eggs, which end at home. *)
Example four_words :
  ∃ g1 g2 g3 g4,
    bigwords createSettings Action.FEE (foobar_tick Sample.start)
    = Done PhaseCode.GO_CLEAROBJ g1 [Rspeak Msg.OK_MAN []]
    ∧ bigwords createSettings Action.FIE (foobar_tick g1)
      = Done PhaseCode.GO_CLEAROBJ g2 [Rspeak Msg.OK_MAN []]
    ∧ bigwords createSettings Action.FOE (foobar_tick g2)
      = Done PhaseCode.GO_CLEAROBJ g3 [Rspeak Msg.OK_MAN []]
    ∧ bigwords createSettings Action.FOO (foobar_tick g3)
      = Done PhaseCode.GO_CLEAROBJ g4
          [Pspeak Obj.EGGS SpeakType.look true ObjState.EGGS_DONE]
    ∧ foobar g4 = WORD_EMPTY ∧ place_of g4 Obj.EGGS = Some 3.
Proof.
  do 4 eexists. repeat (split; [vm_compute; reflexivity|]). split; reflexivity.
Qed.

(** C8, witness: empty-handed in the Plover room. *)
Lemma special_travel_1_witness :
  execute_rule (mret ()) 3 (set_loc 2 Sample.start)
  = Done None (set_newloc 3 (set_loc 2 Sample.start)) [].
Proof.
  edestruct (special_travel_1 createSettings (mret ()) (set_loc 2 Sample.start) 3) as (Hfree & _).
  - vm_compute; congruence.
  - reflexivity.
  - reflexivity.
  - reflexivity.
  - simpl; lia.
  - vm_compute. by eexists.
  - rewrite Hfree; [reflexivity|]. left. reflexivity.
Defined.

(** C9, witness: west of room 1 asks for the emerald and is the last rule. *)
Lemma unaltered_condition_is_fatal_witness :
  playermove createSettings (mret ()) Motion.WEST Sample.start
  = Abort (BugFault BugType.CONDITIONAL_TRAVEL_ENTRY_WITH_NO_ALTERATION)
      (set_oldloc 1 (set_oldlc2 0 (set_newloc 1 Sample.start))) [].
Proof.
  destruct (unaltered_condition_is_fatal createSettings (mret ())) as [_ Hmove].
  eapply (Hmove Sample.start Motion.WEST 1 2).
  - reflexivity.
  - lia.
  - vm_compute; congruence.
  - vm_compute; congruence.
  - vm_compute; congruence.
  - vm_compute; congruence.
  - eapply first_rule_next; [reflexivity|vm_compute; intros [?|?]; congruence|reflexivity|].
    eapply first_rule_here; [reflexivity|]. right. reflexivity.
  - reflexivity.
  - vm_compute. reflexivity.
  - eapply unaltered_last; reflexivity.
Defined.

(** C10, witness: the dwarves are active and all five are dead. *)
Lemma atdwrf_spec_witness : atdwrf (set_dflag 2 Sample.start) 1 = Ok (-1).
Proof.
  destruct (atdwrf_spec (set_dflag 2 Sample.start) 1) as (_ & Hactive & _).
  - intros i Hi.
    assert (i = 1 ∨ i = 2 ∨ i = 3 ∨ i = 4 ∨ i = 5) as Hcases by lia.
    destruct Hcases as [->|[->|[->|[->| ->]]]]; by eexists.
  - destruct Hactive as (_ & _ & _ & Hdead); [simpl; lia|].
    apply Hdead; [vm_compute; congruence|].
    intros i Hi.
    assert (i = 1 ∨ i = 2 ∨ i = 3 ∨ i = 4 ∨ i = 5) as Hcases by lia.
    destruct Hcases as [->|[->|[->|[->| ->]]]]; reflexivity.
Defined.

End Witnesses2.

Section MoreWitnesses.
#[local] Existing Instances Sample.dungeon Sample.obj Sample.motions Sample.locations
  Sample.action Sample.msg Sample.objstate.

(** X1, witness: a draw below 26 from the fresh state. *)
Lemma randrange_in_range_witness :
  ∃ r g' out, randrange createSettings 26 Sample.start = Done r g' out ∧ 0 ≤ r < 26.
Proof.
  destruct (randrange_in_range createSettings Sample.start) as [Hdraw _];
    [change (lcgX Sample.start) with 0; unfold LCG_M; lia|].
  destruct (Hdraw 26) as (r & g' & out & Hrun & Hr & _); [lia|].
  exists r, g', out. split; assumption.
Defined.

(** X2, witness: three calls do not bring the register back. *)
Lemma lcg_full_period_witness :
  ∃ g' out, calls 3 (getNextLcgValue createSettings) Sample.start = Done () g' out
            ∧ lcgX g' ≠ lcgX Sample.start.
Proof.
  destruct (lcg_full_period createSettings Sample.start 3) as (g' & out & Hrun & Hback);
    [change (lcgX Sample.start) with 0; unfold LCG_M; lia|].
  exists g', out. split; [assumption|].
  intros Heq. apply Hback in Heq. destruct Heq as [c Hc]. simpl in Hc. lia.
Defined.

(** X5, witness: object 1 of the fresh state, stashed in state 2. *)
Lemma stash_round_trip_witness :
  ∃ g', OBJECT_STASHIFY Sample.start 1 2 = Ok g'
        ∧ OBJECT_IS_STASHED g' 1 = Ok true.
Proof.
  destruct (stash_round_trip Sample.start 1 2 (ObjectState.mk 0 0 0))
    as (g' & Hrun & _ & Hst & _); [reflexivity|].
  exists g'. split; assumption.
Defined.

End MoreWitnesses.

Section HandlingWitnesses.
#[local] Existing Instances Sample.dungeon Sample.obj Sample.motions Sample.locations
  Sample.action Sample.msg Sample.objstate.

(** X6, witness: object 2 of the fresh state, moved to room 1. *)
Lemma move_places_witness :
  ∃ g', move Sample.start 2 1 = Ok g' ∧ WF g' ∧ atloc_at g' 1 = Some 2.
Proof.
  destruct (move_places Sample.start 2 1 sample_start_WF)
    as (g' & Hrun & Hwf & _ & Hhead & _); [simpl; lia..|].
  exists g'. split; [assumption|]. split; [assumption|]. apply Hhead. lia.
Defined.

(** X7, witness: object 1 lies in room 1 and has no second place. *)
Lemma juggle_front_witness :
  ∃ g', juggle Sample.one_on_floor 1 = Ok g' ∧ atloc_at g' 1 = Some 1.
Proof.
  destruct (juggle_front Sample.one_on_floor 1 1 0 one_on_floor_WF)
    as (g' & Hrun & _ & _ & Hhead & _);
    [simpl; lia|reflexivity|reflexivity|lia|].
  exists g'. split; assumption.
Defined.

(** X8, witness: a carried object put down in room 2. *)
Lemma holdng_counts_carried_witness :
  ∃ g', move Sample.one_on_floor 2 2 = Ok g'
        ∧ holdng g' - held g' = holdng Sample.one_on_floor - held Sample.one_on_floor.
Proof.
  destruct (holdng_counts_carried Sample.one_on_floor 2 one_on_floor_WF) as [Hmove _];
    [simpl; lia|].
  destruct (Hmove 2) as (g' & Hrun & Hkept); [simpl; lia|].
  exists g'. split; [assumption|]. rewrite Hkept.
  rewrite decide_False; [lia|]. intros (_ & _ & Hc). discriminate Hc.
Defined.

End HandlingWitnesses.

Section ValidatorWitnesses.
#[local] Existing Instances Sample.dungeon Sample.obj Sample.motions Sample.locations
  Sample.action Sample.msg Sample.objstate.

(** X10, witness: the fresh state with node 1 linked to itself in room 1. *)
Lemma isValid_blind_spots_witness :
  ∃ g', isValid g' = Ok true ∧ carry g' 2 1 = Fail Diverges.
Proof.
  destruct (isValid_blind_spots Sample.start) as (_ & _ & ls & _ & Hv & _ & Hc);
    [exact isValid_start|simpl; lia|simpl; lia|by eexists|vm_compute; congruence|].
  eexists. split; [exact Hv|exact Hc].
Defined.

End ValidatorWitnesses.

Section InitWitnesses.
#[local] Existing Instances Sample.dungeon Sample.obj Sample.motions Sample.locations
  Sample.action Sample.msg Sample.objstate SampleInit.tables.

Lemma sample_sizes : 0 ≤ NOBJECTS ∧ 0 ≤ NLOCATIONS ∧ 0 ≤ NDWARVES.
Proof. simpl. lia. Qed.

Lemma sample_table i :
  1 ≤ i ≤ NOBJECTS →
  ∃ od, zlookup Dungeon.objects i = Some od
        ∧ -1 ≤ ObjectData.plac od ≤ NLOCATIONS ∧ -1 ≤ ObjectData.fixd od ≤ NLOCATIONS.
Proof.
  intros Hi. assert (i ∈ seqZ 1 14) as Hin by (apply elem_of_seqZ; simpl in Hi; lia).
  vm_compute in Hin.
  repeat (apply elem_of_cons in Hin as [->|Hin];
          [eexists; split; [reflexivity|]; simpl; lia|]).
  by apply elem_of_nil in Hin.
Qed.

Lemma sample_dwarflocs i :
  1 ≤ i ≤ NDWARVES → ∃ l, zlookup dwarflocs (i - 1) = Some l ∧ -1 ≤ l ≤ NLOCATIONS.
Proof.
  intros Hi. assert (i ∈ seqZ 1 6) as Hin by (apply elem_of_seqZ; simpl in Hi; lia).
  vm_compute in Hin.
  repeat (apply elem_of_cons in Hin as [->|Hin];
          [eexists; split; [reflexivity|]; simpl; lia|]).
  by apply elem_of_nil in Hin.
Qed.

Lemma sample_conditions i : 1 ≤ i ≤ NLOCATIONS → is_Some (zlookup conditions i).
Proof.
  intros Hi. apply zlookup_is_Some. simpl in *. lia.
Qed.

(** X11, witness: the small dungeon, seed 7. *)
Lemma initialise_places_witness :
  ∃ g' out conds',
    initialise createSettings 7 createGameState = Done ([], conds', 7) g' out
    ∧ WF g' ∧ tally g' = 2.
Proof.
  destruct (initialise_places createSettings sample_sizes sample_table sample_dwarflocs
              sample_conditions 7)
    as (g' & out & conds' & Hrun & Hwf & _ & _ & Htally & _).
  exists g', out, conds'. split; [exact Hrun|]. split; [exact Hwf|exact Htally].
Defined.

(** X12, witness: the two treasures of the small dungeon have their
    inventory texts. *)
Lemma fresh_game_is_valid_witness :
  ∃ g' out r,
    initialise createSettings 7 createGameState = Done r g' out
    ∧ isValid g' = Ok true.
Proof.
  destruct (fresh_game_is_valid createSettings sample_sizes sample_table sample_dwarflocs
              sample_conditions) with (seedval := 7)
    as (g' & out & r & Hrun & Hvalid & _); [simpl; lia|simpl; lia|].
  exists g', out, r. split; [exact Hrun|]. apply Hvalid.
  intros i od Hi Hod _. assert (i ∈ seqZ 1 14) as Hin by (apply elem_of_seqZ; simpl in Hi; lia).
  vm_compute in Hin.
  repeat (apply elem_of_cons in Hin as [->|Hin];
          [vm_compute in Hod; injection Hod as <-; simpl; discriminate|]).
  apply elem_of_nil in Hin. destruct Hin.
Defined.

(** X13, witness: no room of the small dungeon is forced. *)
Lemma initialise_forced_bits_witness :
  ∃ g' out written conds',
    initialise createSettings 7 createGameState = Done (written, conds', 7) g' out
    ∧ FORCED conds' 2 = false.
Proof.
  destruct (initialise_forced_bits createSettings sample_sizes sample_table sample_dwarflocs
              sample_conditions 7)
    as (g' & out & written & conds' & Hrun & _ & Hforced & _).
  exists g', out, written, conds'. split; [exact Hrun|].
  rewrite Hforced by (simpl; lia). reflexivity.
Defined.

End InitWitnesses.

Section ScoreWitnesses.
#[local] Existing Instances Sample.dungeon Sample.obj Sample.motions Sample.locations
  Sample.action Sample.msg Sample.objstate SampleScore.tables SampleScore.locations
  SampleScore.obj SampleScore.msg.

Lemma sample_score_objects i :
  1 ≤ i ≤ NOBJECTS →
  is_Some (zlookup Dungeon.objects i) ∧ is_Some (zlookup (objects Sample.start) i).
Proof. intros Hi. simpl in Hi. split; apply zlookup_is_Some; simpl; lia. Qed.

Lemma sample_score_hints i :
  0 ≤ i < NHINTS →
  ∃ h, zlookup (hints Sample.start) i = Some h
       ∧ (HintState.used h = true →
          ∃ hd, zlookup ScoreTables.hints i = Some hd ∧ 0 ≤ HintData.penalty hd).
Proof.
  intros Hi. assert (i ∈ seqZ 0 2) as Hin by (apply elem_of_seqZ; simpl in Hi; lia).
  vm_compute in Hin.
  repeat (apply elem_of_cons in Hin as [->|Hin]; [eexists; split; [reflexivity|done]|]).
  by apply elem_of_nil in Hin.
Qed.

Lemma sample_classes i :
  1 ≤ i ≤ ScoreTables.NCLASSES → is_Some (zlookup ScoreTables.classes i).
Proof. intros Hi. simpl in Hi. apply zlookup_is_Some. simpl. lia. Qed.

(** X14, witness: the score of the fresh state of the small dungeon. *)
Lemma score_bounded_witness :
  ∃ points out,
    score Termination.scoregame Sample.start = Done (points, max_score) Sample.start out
    ∧ points ≤ max_score.
Proof.
  destruct (score_bounded Termination.scoregame Sample.start sample_score_objects)
    as (points & Hrun & Hle);
    [apply zlookup_is_Some; simpl; lia|exact sample_score_hints|simpl; lia..|].
  exists points. eexists. split; [exact Hrun|exact Hle].
Defined.

(** X15, witness: quitting the fresh game of the small dungeon. *)
Lemma terminate_exits_witness :
  ∃ out, terminate Termination.quitgame Sample.start
         = Done (TerminateError 0) Sample.start out.
Proof.
  destruct (terminate_exits Termination.quitgame Sample.start sample_score_objects)
    as (points & verdict & Hrun & _);
    [apply zlookup_is_Some; simpl; lia|exact sample_score_hints|simpl; lia..
    |exact sample_classes|].
  eexists. exact Hrun.
Defined.

End ScoreWitnesses.

Section TextWitnesses.
#[local] Existing Instances Sample.obj Sample.motions Sample.locations
  Sample.action Sample.msg Sample.objstate SampleScore.locations SampleText.messages.

(** X16, witness: two points, inside. *)
Lemma message_text_witness :
  @vspeak Sample.dungeon _ (set_loc 2 Sample.start)
    (Some ("You have " +:+ "%d" +:+ " point" +:+ "%S" +:+ ".")) true [ANum 2]
  = [newline; "You have 2 points." +:+ newline].
Proof.
  destruct (@message_text Sample.dungeon _ _ (set_loc 2 Sample.start) true [])
    as (_ & _ & _ & Hinside).
  destruct Hinside as (_ & Hplural & _); [reflexivity|].
  exact (Hplural "You have " " point" "." 2 eq_refl eq_refl eq_refl).
Defined.

(** X17, witness: the same message in room 2, under the roof and under
    the open sky. *)
Lemma floor_becomes_ground_witness :
  @vspeak Sample.dungeon _ (set_loc 2 Sample.start)
    (Some ("There is sand on the " +:+ "floor" +:+ ".")) true []
  = [newline; "There is sand on the floor." +:+ newline]
  ∧ @vspeak SampleText.outdoors _ (set_loc 2 Sample.start)
      (Some ("There is sand on the " +:+ "floor" +:+ ".")) true []
    = [newline; "There is sand on the ground." +:+ newline].
Proof.
  split.
  - exact (@floor_becomes_ground Sample.dungeon _ (set_loc 2 Sample.start) true []
             "There is sand on the " "." eq_refl eq_refl eq_refl eq_refl).
  - exact (@floor_becomes_ground SampleText.outdoors _ (set_loc 2 Sample.start) true []
             "There is sand on the " "." eq_refl eq_refl eq_refl eq_refl).
Defined.

End TextWitnesses.
